(** * Rearranging function arguments: a shallow embedding

    This development embeds the argument-rearrangement pass of
    [tensorflow/compiler/tf2xla/rearrange_function_argument_pass.cc], from
    its helpers up to [RearrangeFunctionArgumentPass::Run], and the functions
    [AddDefaultAttrsToGraphDef], [RemoveNewDefaultAttrsFromGraphDef] and
    [StrippedOpListForGraph] of [graph_def_util.cc], and proves properties
    of them.

    Conventions.
    - A C++ [int] is a [Z].  Every [int] the pass computes is a position in,
      or a count over, a protobuf repeated field, whose size is itself an
      [int]; lemma [assign_indices_range] shows the computed values stay in
      [0, size], so no wrap-around is reachable and none is written.
    - A [std::vector] is a [list]; [v.at(i)] is [vector_at], which throws
      (constructor [Thrown]) out of range.
    - [Status] is the error type [Code]; a function returning [Status] that
      also mutates its arguments returns the mutated state next to the
      outcome, because a C++ early return keeps the mutations made so far. *)

From stdpp Require Import base option list gmap strings pretty sorting.
From Stdlib Require Import ZArith Lia.
From Stdlib Require OrderedTypeEx.

(** ** Data types and outcomes *)

(** Modelled from the spec: the [DataType] enumeration ([types.proto]) is not
    among the sources.  Only [DT_RESOURCE] is ever tested by the pass;
    [DT_INVALID] is the value [DataType()] of a default-constructed entry. *)
Inductive DataType : Type :=
  | DT_INVALID | DT_FLOAT | DT_DOUBLE | DT_INT32 | DT_STRING | DT_BOOL
  | DT_VARIANT | DT_RESOURCE.

#[global] Instance DataType_eq_dec : EqDecision DataType.
Proof. solve_decision. Defined.

(** The error codes the pass can surface ([error_codes.proto]). *)
Inductive Code : Type :=
  | INVALID_ARGUMENT | NOT_FOUND | ALREADY_EXISTS | UNIMPLEMENTED | INTERNAL.

#[global] Instance Code_eq_dec : EqDecision Code.
Proof. solve_decision. Defined.

(** Outcome of a call: a value; a non-OK [Status]; [Thrown], abnormal
    termination (the [std::out_of_range] exception of [std::vector::at], or
    the use of a handle that names nothing); or [NoFuel], the step budget of
    the embedding ran out.  [NoFuel] is not a C++ outcome: a run that gives
    [NoFuel] for every budget is a run that does not terminate. *)
Inductive Result (A : Type) : Type :=
  | Ok (a : A)
  | Err (c : Code)
  | Thrown
  | NoFuel.
Arguments Ok {A} a.
Arguments Err {A} c.
Arguments Thrown {A}.
Arguments NoFuel {A}.

Definition bindR {A B} (r : Result A) (k : A -> Result B) : Result B :=
  match r with
  | Ok a => k a
  | Err c => Err c
  | Thrown => Thrown
  | NoFuel => NoFuel
  end.

Declare Scope result_scope.
Delimit Scope result_scope with res.
Notation "x <-? e ;; k" := (bindR e (fun x => k))
  (at level 100, e at next level, right associativity) : result_scope.

Definition is_resource (t : DataType) : bool := bool_decide (t = DT_RESOURCE).

(** [v.at(i)] for an [int] index: a negative [i] converts to a huge
    [size_t] and throws like any other index past the end. *)
Definition vector_at {A} (v : list A) (i : Z) : Result A :=
  if decide (0 <= i)%Z then
    match v !! Z.to_nat i with
    | Some a => Ok a
    | None => Thrown
    end
  else Thrown.

(** ** Index mapping: [InputTypesNeedsRearrange] *)

Module IndexMapping.
Local Open Scope Z_scope.

(** First loop: position of the first [DT_RESOURCE], or [-1]. *)
Fixpoint first_resource_index_from (i : Z) (in_types : list DataType) : Z :=
  match in_types with
  | [] => -1
  | t :: rest =>
      if is_resource t then i else first_resource_index_from (i + 1) rest
  end.

Definition first_resource_index (in_types : list DataType) : Z :=
  first_resource_index_from 0 in_types.

(** Second loop: some entry after the first resource is not a resource. *)
Definition non_resource_after (first : Z) (in_types : list DataType) : bool :=
  existsb (fun t => negb (is_resource t)) (drop (Z.to_nat (first + 1)) in_types).

(** Third loop: the resource count is incremented for every resource entry. *)
Fixpoint count_resources (in_types : list DataType) : Z :=
  match in_types with
  | [] => 0
  | t :: rest =>
      (if is_resource t then 1 else 0) + count_resources rest
  end.

(** Fourth loop: the two running counters [non_resource_index] and
    [resource_index]. *)
Fixpoint assign_indices (non_resource_index resource_index : Z)
    (in_types : list DataType) : list Z :=
  match in_types with
  | [] => []
  | t :: rest =>
      if negb (is_resource t)
      then non_resource_index
             :: assign_indices (non_resource_index + 1) resource_index rest
      else resource_index
             :: assign_indices non_resource_index (resource_index + 1) rest
  end.

(** The three out-parameters.  [resource_input_count] and [index_mapping]
    keep the value the caller's variable had when the function returns
    before writing them. *)
Record Outputs : Type := mkOutputs {
  need_rewrite : bool;
  resource_input_count : Z;
  index_mapping : list Z
}.

(** [InputTypesNeedsRearrange]; it always returns [Status::OK()].
    [count0] and [mapping0] are the contents of the caller's
    [resource_input_count] and [index_mapping] before the call. *)
Definition InputTypesNeedsRearrange (in_types : list DataType)
    (count0 : Z) (mapping0 : list Z) : Outputs :=
  let first := first_resource_index in_types in
  if decide (first = -1) then mkOutputs false count0 mapping0
  else if negb (non_resource_after first in_types)
  then mkOutputs false count0 mapping0
  else
    let count := count_resources in_types in
    mkOutputs true count
      (assign_indices 0 (Z.of_nat (length in_types) - count) in_types).

End IndexMapping.

(** ** Attribute values *)

(** Modelled from the spec: the [AttrValue] message ([attr_value.proto]) is
    not among the sources; the spec lists its cases (int, int-list, type,
    type-list, string, tensor-shape, nested function reference).  A function
    reference is a [NameAttrList]: a function name and its own attributes. *)
#[warnings="-register-all"]
Inductive AttrValue : Type :=
  | AttrInt (i : Z)
  | AttrIntList (l : list Z)
  | AttrType (t : DataType)
  | AttrTypeList (l : list DataType)
  | AttrString (s : string)
  | AttrShape (dims : list Z)
  | AttrFunc (name : string) (attr : list (string * AttrValue)).

(** ** Default attributes: [AddDefaultAttrsToGraphDef] *)

Module GraphDefUtil.

Record NodeDef : Type := mkNodeDef {
  nd_name : string;
  nd_op : string;
  nd_input : list string;
  nd_device : string;
  nd_attr : gmap string AttrValue
}.

(** The [node] field of a [GraphDef]; the function touches no other field. *)
Record GraphDef : Type := mkGraphDef {
  node : list NodeDef
}.

Definition node_size (graph_def : GraphDef) : nat := length (node graph_def).

(** An attribute of an operation signature; [ad_default_value] is [Some]
    exactly when [has_default_value()]. *)
Record AttrDef : Type := mkAttrDef {
  ad_name : string;
  ad_default_value : option AttrValue
}.

Record OpDef : Type := mkOpDef {
  od_name : string;
  od_attr : list AttrDef
}.

(** [OpRegistryInterface::LookUp]: the signature registered for an operation
    type, or the non-OK status it stores in [*status]. *)
Class OpRegistryInterface (R : Type) : Type :=
  LookUp : R -> string -> Result OpDef.

(** Modelled from the spec: [AddDefaultsToNodeDef] ([node_def_util.cc]) is not
    among the sources.  Spec 4.2: any attribute absent on a node but present
    with a default in the signature is filled in.  [add_default_step] is
    the treatment of one attribute of the signature. *)
Definition add_default_step (nd : NodeDef) (attr_def : AttrDef) : NodeDef :=
  match ad_default_value attr_def with
  | Some v =>
      match nd_attr nd !! ad_name attr_def with
      | None =>
          mkNodeDef (nd_name nd) (nd_op nd) (nd_input nd) (nd_device nd)
            (<[ad_name attr_def := v]> (nd_attr nd))
      | Some _ => nd
      end
  | None => nd
  end.

Definition AddDefaultsToNodeDef (op_def : OpDef) (node_def : NodeDef) : NodeDef :=
  foldl add_default_step node_def (od_attr op_def).

Section AddDefaultAttrs.
Context {R : Type} `{OpRegistryInterface R}.

(** The loop [for (int i = node_offset; i < node_size; ++i)], with
    [remaining = node_size - i] iterations left.  A failed look-up returns
    its status and keeps the nodes already updated. *)
Fixpoint add_defaults_loop (op_registry : R) (remaining : nat) (i : nat)
    (nodes : list NodeDef) : Result unit * list NodeDef :=
  match remaining with
  | O => (Ok tt, nodes)
  | S remaining' =>
      match nodes !! i with
      | None => (Ok tt, nodes)
      | Some node_def =>
          match LookUp op_registry (nd_op node_def) with
          | Ok op_def =>
              add_defaults_loop op_registry remaining' (S i)
                (<[i := AddDefaultsToNodeDef op_def node_def]> nodes)
          | Err c => (Err c, nodes)
          | Thrown => (Thrown, nodes)
          | NoFuel => (NoFuel, nodes)
          end
      end
  end.

(** [AddDefaultAttrsToGraphDef].  [node_offset] is a position in the node
    list (callers pass the number of nodes already loaded); a negative [int]
    would index before the list and is outside the function's contract. *)
Definition AddDefaultAttrsToGraphDef (graph_def : GraphDef) (op_registry : R)
    (node_offset : nat) : Result unit * GraphDef :=
  if decide (node_size graph_def < node_offset)
  then (Err INVALID_ARGUMENT, graph_def)
  else
    let '(s, nodes) :=
      add_defaults_loop op_registry (node_size graph_def - node_offset)
        node_offset (node graph_def) in
    (s, mkGraphDef nodes).

End AddDefaultAttrs.

(** A small registry for examples: a finite map from operation type to
    signature, [NOT_FOUND] for an unregistered type. *)
#[global] Instance gmap_registry : OpRegistryInterface (gmap string OpDef) :=
  fun registry op =>
    match registry !! op with
    | Some op_def => Ok op_def
    | None => Err NOT_FOUND
    end.

Definition example_registry : gmap string OpDef :=
  {[ "Conv" := mkOpDef "Conv"
       [mkAttrDef "T" None; mkAttrDef "padding" (Some (AttrString "SAME"))] ]}.

Definition example_graph_def : GraphDef :=
  mkGraphDef
    [ mkNodeDef "a" "Conv" [] "" ∅;
      mkNodeDef "b" "Conv" ["a:0"] "" {[ "T" := AttrType DT_FLOAT ]};
      mkNodeDef "c" "Conv" ["b:0"] "" {[ "padding" := AttrString "VALID" ]} ].

End GraphDefUtil.

(** ** The graph store *)

(** Modelled from the spec: the [Graph], [Node] and [Edge] classes
    ([graph.h], [graph.cc]) are not among the sources.  Following spec 3 and
    9, a graph is an arena: nodes and edges are addressed by a stable
    integer handle (their position in the arena), a removed entry leaves a
    hole, and a new edge takes the next free position.  A [Node*] or
    [Edge*] of the C++ code is such a handle. *)
Module GraphStore.

Record Node : Type := mkNode {
  name : string;
  type_string : string;
  attrs : gmap string AttrValue
}.

Record Edge : Type := mkEdge {
  src : nat;
  src_output : Z;
  dst : nat;
  dst_input : Z
}.

Record Graph : Type := mkGraph {
  nodes_ : list (option Node);
  edges_ : list (option Edge)
}.

(** A control edge has no slot on either side: both are [kControlSlot]. *)
Definition kControlSlot : Z := (-1)%Z.

Definition IsControlEdge (e : Edge) : bool :=
  bool_decide (src_output e = kControlSlot).

(** The live entries of an arena with their handles, in arena order. *)
Fixpoint live_from {A} (i : nat) (arena : list (option A)) : list (nat * A) :=
  match arena with
  | [] => []
  | Some a :: rest => (i, a) :: live_from (S i) rest
  | None :: rest => live_from (S i) rest
  end.

Definition edges (g : Graph) : list (nat * Edge) := live_from 0 (edges_ g).
Definition nodes (g : Graph) : list (nat * Node) := live_from 0 (nodes_ g).

Definition in_edges (g : Graph) (n : nat) : list (nat * Edge) :=
  filter (fun p => dst p.2 = n) (edges g).

Definition out_edges (g : Graph) (n : nat) : list (nat * Edge) :=
  filter (fun p => src p.2 = n) (edges g).

Definition AddEdge (g : Graph) (source : nat) (x : Z) (dest : nat) (y : Z)
    : Graph :=
  mkGraph (nodes_ g) (edges_ g ++ [Some (mkEdge source x dest y)]).

Definition RemoveEdge (g : Graph) (e : nat) : Graph :=
  mkGraph (nodes_ g) (<[e := None]> (edges_ g)).

(** [RemoveNode] cascades: the edges incident to the node go with it. *)
Definition RemoveNode (g : Graph) (n : nat) : Graph :=
  mkGraph (<[n := None]> (nodes_ g))
    ((fun oe : option Edge =>
        match oe with
        | Some e =>
            if bool_decide (src e = n) || bool_decide (dst e = n)
            then None else Some e
        | None => None
        end) <$> edges_ g).

Definition find_node (g : Graph) (n : nat) : option Node :=
  mjoin (nodes_ g !! n).

(** [Node::input_edge]: the in-edge that feeds input slot [idx]. *)
Definition input_edge (g : Graph) (n : nat) (idx : Z) : Result (nat * Edge) :=
  if decide (idx < 0)%Z then Err INVALID_ARGUMENT
  else
    match list_find (fun p => dst_input p.2 = idx) (in_edges g n) with
    | Some (_, p) => Ok p
    | None => Err NOT_FOUND
    end.

(** [Node::input_node]: the node at the source of that edge. *)
Definition input_node (g : Graph) (n : nat) (idx : Z) : Result nat :=
  match input_edge g n idx with
  | Ok (_, e) => Ok (src e)
  | Err c => Err c
  | Thrown => Thrown
  | NoFuel => NoFuel
  end.

(** Node kinds, by operation type. *)
Definition has_type (g : Graph) (n : nat) (op : string) : bool :=
  match find_node g n with
  | Some nd => bool_decide (type_string nd = op)
  | None => false
  end.

Definition IsArg (g : Graph) (n : nat) : bool := has_type g n "_Arg".
Definition IsRetval (g : Graph) (n : nat) : bool := has_type g n "_Retval".
Definition IsIdentity (g : Graph) (n : nat) : bool := has_type g n "Identity".

(** Attribute access.  [GetNodeAttr] fails with [NOT_FOUND] when the
    attribute is absent and with [INVALID_ARGUMENT] when it holds a value of
    another kind; a handle that names no live node cannot be read at all. *)
Definition GetNodeAttr {A} (project : AttrValue -> option A) (g : Graph)
    (n : nat) (key : string) : Result A :=
  match find_node g n with
  | None => Thrown
  | Some nd =>
      match attrs nd !! key with
      | None => Err NOT_FOUND
      | Some v =>
          match project v with
          | Some a => Ok a
          | None => Err INVALID_ARGUMENT
          end
      end
  end.

Definition as_int (v : AttrValue) : option Z :=
  match v with AttrInt i => Some i | _ => None end.
Definition as_type (v : AttrValue) : option DataType :=
  match v with AttrType t => Some t | _ => None end.
Definition as_type_list (v : AttrValue) : option (list DataType) :=
  match v with AttrTypeList l => Some l | _ => None end.
Definition as_func (v : AttrValue) : option (string * list (string * AttrValue)) :=
  match v with AttrFunc f a => Some (f, a) | _ => None end.

(** [n->ClearAttr(key); n->AddAttr(key, v)]. *)
Definition SetAttr (g : Graph) (n : nat) (key : string) (v : AttrValue) : Graph :=
  match find_node g n with
  | Some nd =>
      mkGraph
        (<[n := Some (mkNode (name nd) (type_string nd)
                        (<[key := v]> (delete key (attrs nd))))]> (nodes_ g))
        (edges_ g)
  | None => g
  end.

End GraphStore.

(** ** State and errors *)

(** A computation over a mutable state [S] that may fail.  The state is
    returned with every outcome: a C++ early return keeps the mutations
    already made. *)
Definition M (S A : Type) : Type := S -> Result A * S.

Definition ret {S A} (a : A) : M S A := fun s => (Ok a, s).

Definition bind {S A B} (m : M S A) (k : A -> M S B) : M S B :=
  fun s =>
    match m s with
    | (Ok a, s') => k a s'
    | (Err c, s') => (Err c, s')
    | (Thrown, s') => (Thrown, s')
    | (NoFuel, s') => (NoFuel, s')
    end.

(** [TF_RETURN_IF_ERROR] on a call that touches no state. *)
Definition lift {S A} (r : Result A) : M S A := fun s => (r, s).

Definition fail {S A} (c : Code) : M S A := fun s => (Err c, s).
Definition get {S} : M S S := fun s => (Ok s, s).
Definition gets {S A} (f : S -> A) : M S A := fun s => (Ok (f s), s).
Definition modify {S} (f : S -> S) : M S unit := fun s => (Ok tt, f s).

Declare Scope monad_scope.
Delimit Scope monad_scope with monad.
Notation "x <- m ;; k" := (bind m (fun x => k))
  (at level 100, m at next level, right associativity) : monad_scope.
Notation "m ;;; k" := (bind m (fun _ => k))
  (at level 100, right associativity) : monad_scope.

(** A range-based [for] whose body may return early with an error. *)
Fixpoint for_each {S A} (l : list A) (body : A -> M S unit) : M S unit :=
  match l with
  | [] => ret tt
  | a :: rest => bind (body a) (fun _ => for_each rest body)
  end.

(** ** Edge and node rewriting primitives *)

Module Rewriter.
Import GraphStore.
Local Open Scope monad_scope.
Local Open Scope Z_scope.

(** [ShuffleInputDataTypeAttribute].  Writing past the end of [result] has
    no defined behaviour in C++; the embedding treats it as abnormal
    termination. *)
Definition store {A} (result : list A) (i : Z) (a : A) : Result (list A) :=
  if decide (0 <= i < Z.of_nat (length result))
  then Ok (<[Z.to_nat i := a]> result)
  else Thrown.

Fixpoint shuffle_input_loop (i : Z) (in_types : list DataType)
    (index_mapping : list Z) (result : list DataType)
    : Result (list DataType) :=
  match in_types with
  | [] => Ok result
  | t :: rest =>
      (k <-? vector_at index_mapping i ;;
       result' <-? store result k t ;;
       shuffle_input_loop (i + 1) rest index_mapping result')%res
  end.

Definition ShuffleInputDataTypeAttribute (in_types : list DataType)
    (index_mapping : list Z) : Result (list DataType) :=
  shuffle_input_loop 0 in_types index_mapping
    (replicate (length index_mapping) DT_INVALID).

Definition non_control (edge_list : list (nat * Edge)) : list (nat * Edge) :=
  filter (fun p => negb (IsControlEdge p.2)) edge_list.

(** [ReorderInputEdges]. *)
Definition ReorderInputEdges (n : nat) (index_mapping : list Z)
    : M Graph unit :=
  g0 <- get ;;
  let input_edges := non_control (in_edges g0 n) in
  for_each input_edges (fun '(e_id, e) =>
    new_dst_input <- lift (vector_at index_mapping (dst_input e)) ;;
    modify (fun g =>
      AddEdge (RemoveEdge g e_id) (src e) (src_output e) n new_dst_input)).

(** [ReorderOutputEdges]. *)
Definition ReorderOutputEdges (n : nat) (input_count : Z)
    (resource_input_count : Z) (index_mapping : list Z) : M Graph unit :=
  g0 <- get ;;
  let output_edges := non_control (out_edges g0 n) in
  for_each output_edges (fun '(e_id, e) =>
    new_src_output <- lift (vector_at index_mapping (src_output e)) ;;
    modify (fun g => RemoveEdge g e_id) ;;;
    if decide (new_src_output < input_count - resource_input_count)
    then modify (fun g => AddEdge g n new_src_output (dst e) (dst_input e))
    else
      g <- get ;;
      ie <- lift (input_edge g n new_src_output) ;;
      modify (fun g =>
        AddEdge g (src ie.2) (src_output ie.2) (dst e) (dst_input e))).

(** Writing an attribute through a node handle. *)
Definition set_attr (n : nat) (key : string) (v : AttrValue) : M Graph unit :=
  g <- get ;;
  match find_node g n with
  | Some _ => modify (fun g => SetAttr g n key v)
  | None => lift Thrown
  end.

(** [for (int i = 0; i < v.size(); i++)] over a vector, with the index. *)
Fixpoint for_each_indexed {S A} (i : Z) (l : list A)
    (body : Z -> A -> M S unit) : M S unit :=
  match l with
  | [] => ret tt
  | a :: rest => body i a ;;; for_each_indexed (i + 1) rest body
  end.

(** [RearrangeArgNodes]. *)
Definition RearrangeArgNodes (arg_nodes : list nat) (index_mapping : list Z)
    : M Graph unit :=
  for_each_indexed 0 arg_nodes (fun i n =>
    new_index <- lift (vector_at index_mapping i) ;;
    set_attr n "index" (AttrInt new_index)).

(** [std::map<int, int>::insert]: an existing key keeps its value. *)
Definition map_insert (k v : Z) (m : gmap Z Z) : gmap Z Z :=
  match m !! k with
  | Some _ => m
  | None => <[k := v]> m
  end.

(** The two maps [CalculateRetvalRearrange] fills in. *)
Record RetvalMaps : Type := mkRetvalMaps {
  retval_index_mapping : gmap Z Z;
  resource_retval_to_arg : gmap Z Z
}.

(** [CalculateRetvalRearrange], over the body graph [g] (read only). *)
Definition CalculateRetvalRearrange (g : Graph) (ret_nodes : list nat)
    : M RetvalMaps unit :=
  for_each_indexed 0 ret_nodes (fun i n =>
    t <- lift (GetNodeAttr as_type g n "T") ;;
    if negb (is_resource t) then
      modify (fun maps =>
        let new_retval_index := Z.of_nat (size (retval_index_mapping maps)) in
        mkRetvalMaps (map_insert i new_retval_index (retval_index_mapping maps))
          (resource_retval_to_arg maps))
    else
      e <- lift (input_edge g n 0) ;;
      if negb (IsArg g (src e.2)) then fail UNIMPLEMENTED
      else
        let arg := src e.2 in
        src_index <- lift (GetNodeAttr as_int g arg "index") ;;
        modify (fun maps =>
          mkRetvalMaps (retval_index_mapping maps)
            (map_insert i src_index (resource_retval_to_arg maps)))).

(** [ShuffleOutputDataTypeAttribute]. *)
Fixpoint shuffle_output_loop (i : Z) (out_types : list DataType)
    (index_mapping : gmap Z Z) (result : list DataType)
    : Result (list DataType) :=
  match out_types with
  | [] => Ok result
  | t :: rest =>
      match index_mapping !! i with
      | Some k =>
          (result' <-? store result k t ;;
           shuffle_output_loop (i + 1) rest index_mapping result')%res
      | None => shuffle_output_loop (i + 1) rest index_mapping result
      end
  end.

Definition ShuffleOutputDataTypeAttribute (out_types : list DataType)
    (index_mapping : gmap Z Z) : Result (list DataType) :=
  shuffle_output_loop 0 out_types index_mapping
    (replicate (size index_mapping) DT_INVALID).

(** The out-edge loop shared by [RearrangeOutputEdges] (offset 0) and the
    inlined copy in [MaybeRewriteIfNode] (offset 1, past the predicate). *)
Definition rearrange_output_edges (n : nat) (offset : Z)
    (maps : RetvalMaps) : M Graph unit :=
  g0 <- get ;;
  let out_edge_list := non_control (out_edges g0 n) in
  for_each out_edge_list (fun '(e_id, e) =>
    match retval_index_mapping maps !! src_output e with
    | None =>
        match resource_retval_to_arg maps !! src_output e with
        | None => fail INTERNAL
        | Some arg_index =>
            modify (fun g => RemoveEdge g e_id) ;;;
            g <- get ;;
            ie <- lift (input_edge g n (arg_index + offset)) ;;
            modify (fun g =>
              AddEdge g (src ie.2) (src_output ie.2) (dst e) (dst_input e))
        end
    | Some new_src_output =>
        modify (fun g =>
          AddEdge (RemoveEdge g e_id) n new_src_output (dst e) (dst_input e))
    end).

(** [RearrangeOutputEdges]. *)
Definition RearrangeOutputEdges (n : nat) (maps : RetvalMaps) : M Graph unit :=
  rearrange_output_edges n 0 maps.

(** [RearrangeRetvalNodes]. *)
Definition RearrangeRetvalNodes (ret_nodes : list nat)
    (retval_index_mapping : gmap Z Z) : M Graph unit :=
  for_each_indexed 0 ret_nodes (fun i n =>
    match retval_index_mapping !! i with
    | None => modify (fun g => RemoveNode g n)
    | Some new_index => set_attr n "index" (AttrInt new_index)
    end).

End Rewriter.

(** ** The rearrangement pass *)

Module Pass.
Import GraphStore IndexMapping Rewriter.
Local Open Scope monad_scope.
Local Open Scope Z_scope.

(** A function body instantiated as a graph: [arg_nodes] and [ret_nodes]
    are handles into [graph]. *)
Record FunctionBody : Type := mkFunctionBody {
  graph : Graph;
  arg_nodes : list nat;
  ret_nodes : list nat
}.

Inductive AssociatedFunctionType : Type :=
  | kFunctionAttr | kFunctionCallNode | kSymbolicGradient.

(** [af_attr_name] is the attribute that holds the reference, for
    [kFunctionAttr]. *)
Record AssociatedFunctionInfo : Type := mkAssociatedFunctionInfo {
  af_type : AssociatedFunctionType;
  af_func_name : string;
  af_attr_name : string;
  af_attrs : list (string * AttrValue)
}.

(** The collaborators of the pass that are not among the sources, taken as
    parameters: the function library ([FunctionLibraryDefinition]), the
    conversions between function definitions and graphs, the function
    runtime ([flr->Instantiate] followed by [GetFunctionBody(..)->graph]),
    and the helpers of [tf2xla_util]. *)
Class Library (FunctionDef FLD : Type) : Type := {
  Find : FLD -> string -> option FunctionDef;
  AddFunctionDef : FunctionDef -> M FLD unit;
  ReplaceFunction : string -> FunctionDef -> M FLD unit;
  UniqueFunctionName : FLD -> string -> string;
  FunctionDefToBodyHelper : FunctionDef -> FLD -> Result FunctionBody;
  GraphToFunctionDef : Graph -> string -> Result FunctionDef;
  Instantiate : FLD -> string -> list (string * AttrValue) -> Result Graph;
  GetAssociatedFunctions : Node -> FLD -> list AssociatedFunctionInfo;
  Canonicalize : string -> list (string * AttrValue) -> string;
  RewriteAssociatedFunction :
    Graph -> nat -> FLD -> AssociatedFunctionInfo -> string ->
    Result unit * (Graph * FLD)
}.

(** What a node-level rewrite can mutate: the graph holding the node and
    the function library. *)
Record World (FLD : Type) : Type := mkWorld {
  w_graph : Graph;
  w_fld : FLD
}.
Arguments mkWorld {FLD} _ _.
Arguments w_graph {FLD} _.
Arguments w_fld {FLD} _.

Section NodeRewrites.
Context {FunctionDef FLD : Type} `{Library FunctionDef FLD}.

Definition on_graph {A} (m : M Graph A) : M (World FLD) A :=
  fun w => let '(r, g) := m (w_graph w) in (r, mkWorld g (w_fld w)).

Definition on_fld {A} (m : M FLD A) : M (World FLD) A :=
  fun w => let '(r, fld) := m (w_fld w) in (r, mkWorld (w_graph w) fld).

(** A mutation of an object local to the rewrite (a function body's own
    graph, the retval maps): only its result matters, the object is dropped
    when the rewrite fails. *)
Definition exec {S} (m : M S unit) (s : S) : Result S :=
  match m s with
  | (Ok _, s') => Ok s'
  | (Err c, _) => Err c
  | (Thrown, _) => Thrown
  | (NoFuel, _) => NoFuel
  end.

Definition get_attr {A} (project : AttrValue -> option A) (n : nat)
    (key : string) : M (World FLD) A :=
  w <- get ;; lift (GetNodeAttr project (w_graph w) n key).

(** [fld->Find(name)] followed by [TF_RET_CHECK(fdef != nullptr)] and
    [FunctionDefToBodyHelper]. *)
Definition find_body (fname : string) : M (World FLD) FunctionBody :=
  fld <- gets w_fld ;;
  match Find fld fname with
  | None => fail INTERNAL
  | Some fdef => lift (FunctionDefToBodyHelper fdef fld)
  end.

(** "Save the new FunctionDef" and "Change node to use rewritten function". *)
Definition save_and_repoint (n : nat) (attr_name : string)
    (f : string * list (string * AttrValue)) (body_graph : Graph)
    : M (World FLD) unit :=
  fld <- gets w_fld ;;
  let new_name := UniqueFunctionName fld (f.1 +:+ "_rearrange_") in
  new_fdef <- lift (GraphToFunctionDef body_graph new_name) ;;
  on_fld (AddFunctionDef new_fdef) ;;;
  on_graph (set_attr n attr_name (AttrFunc new_name f.2)).

(** The loop [while (input_node->IsIdentity())] of the While check.  Every
    turn spends one unit of [fuel]. *)
Fixpoint trace_identity (fuel : nat) (g : Graph) (input : nat) : Result nat :=
  if IsIdentity g input then
    match fuel with
    | O => NoFuel
    | S fuel' =>
        (next <-? input_node g input 0 ;; trace_identity fuel' g next)%res
    end
  else Ok input.

(** The check on the body of a While node: a resource [_Retval] must come,
    through identity nodes, from the [_Arg] with its own index. *)
Definition check_while_body (fuel : nat) (ret_nodes : list nat) : M Graph unit :=
  for_each_indexed 0 ret_nodes (fun i n =>
    g <- get ;;
    dtype <- lift (GetNodeAttr as_type g n "T") ;;
    if negb (is_resource dtype) then ret tt
    else
      first <- lift (input_node g n 0) ;;
      input <- lift (trace_identity fuel g first) ;;
      if IsArg g input then
        index <- lift (GetNodeAttr as_int g input "index") ;;
        if decide (index <> i) then fail UNIMPLEMENTED else ret tt
      else fail UNIMPLEMENTED).

(** The renumbering of the body's [_Retval] nodes in [MaybeRewriteWhileNode]. *)
Definition rearrange_while_retvals (ret_nodes : list nat)
    (index_mapping : list Z) (non_resource_count : Z) : M Graph unit :=
  for_each_indexed 0 ret_nodes (fun i n =>
    new_index <- lift (vector_at index_mapping i) ;;
    if decide (new_index < non_resource_count)
    then set_attr n "index" (AttrInt new_index)
    else modify (fun g => RemoveNode g n)).

(** One turn of the loop over ["cond"; "body"] in [MaybeRewriteWhileNode]:
    the function named by [attr_name] is checked (the body only), has its
    [_Arg] nodes renumbered and its resource [_Retval] nodes removed (the
    body only), and is saved under a new name. *)
Definition rewrite_while_function (fuel : nat) (n : nat) (types : list DataType)
    (out : Outputs) (attr_name : string) : M (World FLD) unit :=
  attr_value <- get_attr as_func n attr_name ;;
  fbody <- find_body attr_value.1 ;;
  (if decide (attr_name = "body")
   then lift (exec (check_while_body fuel (ret_nodes fbody)) (graph fbody))
   else ret (graph fbody)) ;;;
  body1 <- lift (exec (RearrangeArgNodes (arg_nodes fbody) (index_mapping out))
                   (graph fbody)) ;;
  body2 <- (if decide (attr_name = "body")
            then lift (exec (rearrange_while_retvals (ret_nodes fbody)
                               (index_mapping out)
                               (Z.of_nat (length types)
                                - resource_input_count out))
                         body1)
            else ret body1) ;;
  save_and_repoint n attr_name attr_value body2.

(** [MaybeRewriteWhileNode]; the result is [*node_rewritten].  [junk] is
    the indeterminate content of the uninitialised local
    [resource_input_count]. *)
Definition MaybeRewriteWhileNode (fuel : nat) (junk : Z) (n : nat)
    : M (World FLD) bool :=
  types <- get_attr as_type_list n "T" ;;
  let out := InputTypesNeedsRearrange types junk [] in
  if negb (need_rewrite out) then ret false
  else
    new_types <- lift (ShuffleInputDataTypeAttribute types (index_mapping out)) ;;
    on_graph (set_attr n "T" (AttrTypeList new_types)) ;;;
    on_graph (ReorderInputEdges n (index_mapping out)) ;;;
    on_graph (ReorderOutputEdges n (Z.of_nat (length types))
                (resource_input_count out) (index_mapping out)) ;;;
    for_each ["cond"; "body"]%string (rewrite_while_function fuel n types out) ;;;
    ret true.

(** The block of [MaybeRewriteCallNode] guarded by
    [if (input_need_rearrange)]; it yields the callee's body graph. *)
Definition call_input_stage (n : nat) (in_types : list DataType)
    (out : Outputs) (fbody : FunctionBody) : M (World FLD) Graph :=
  if need_rewrite out then
    on_graph (ReorderInputEdges n (index_mapping out)) ;;;
    new_in_types <-
      lift (ShuffleInputDataTypeAttribute in_types (index_mapping out)) ;;
    on_graph (set_attr n "Tin" (AttrTypeList new_in_types)) ;;;
    lift (exec (RearrangeArgNodes (arg_nodes fbody) (index_mapping out))
            (graph fbody))
  else ret (graph fbody).

(** The block guarded by [if (has_resource_output)]. *)
Definition call_output_stage (n : nat) (out_types : list DataType)
    (has_resource_output : bool) (fbody : FunctionBody) (body1 : Graph)
    : M (World FLD) Graph :=
  if has_resource_output then
    maps <- lift (exec (CalculateRetvalRearrange body1 (ret_nodes fbody))
                    (mkRetvalMaps ∅ ∅)) ;;
    on_graph (RearrangeOutputEdges n maps) ;;;
    new_out_types <-
      lift (ShuffleOutputDataTypeAttribute out_types
              (retval_index_mapping maps)) ;;
    on_graph (set_attr n "Tout" (AttrTypeList new_out_types)) ;;;
    lift (exec (RearrangeRetvalNodes (ret_nodes fbody)
                  (retval_index_mapping maps)) body1)
  else ret body1.

(** [MaybeRewriteCallNode].  The test that decides whether anything is
    done reads [resource_input_count], which [InputTypesNeedsRearrange]
    leaves unwritten unless it sets [need_rewrite]: the test then sees
    [junk]. *)
Definition MaybeRewriteCallNode (junk : Z) (n : nat) : M (World FLD) bool :=
  in_types <- get_attr as_type_list n "Tin" ;;
  let out := InputTypesNeedsRearrange in_types junk [] in
  out_types <- get_attr as_type_list n "Tout" ;;
  let has_resource_output := existsb is_resource out_types in
  if bool_decide (resource_input_count out = 0) && negb has_resource_output
  then ret false
  else
    f <- get_attr as_func n "f" ;;
    fbody <- find_body f.1 ;;
    body1 <- call_input_stage n in_types out fbody ;;
    body2 <- call_output_stage n out_types has_resource_output fbody body1 ;;
    save_and_repoint n "f" f body2 ;;;
    ret true.

(** The input-edge loop inlined in [MaybeRewriteIfNode]: the edge into
    slot 0 (the predicate) is not collected; the others are moved by the
    mapping, read and written one slot up. *)
Definition if_input_edges (g : Graph) (n : nat) : list (nat * Edge) :=
  filter (fun p => negb (IsControlEdge p.2 || bool_decide (dst_input p.2 = 0)))
    (in_edges g n).

Definition reorder_if_input_edges (n : nat) (index_mapping : list Z)
    : M Graph unit :=
  g0 <- get ;;
  let input_edges := if_input_edges g0 n in
  for_each input_edges (fun '(e_id, e) =>
    mapped <- lift (vector_at index_mapping (dst_input e - 1)) ;;
    let new_dst_input := mapped + 1 in
    modify (fun g =>
      AddEdge (RemoveEdge g e_id) (src e) (src_output e) n new_dst_input)).

(** A loop that carries a value from one turn to the next. *)
Fixpoint fold_each {S A B} (l : list A) (b : B) (body : A -> B -> M S B)
    : M S B :=
  match l with
  | [] => ret b
  | a :: rest => b' <- body a b ;; fold_each rest b' body
  end.

(** One turn of the loop over ["then_branch"; "else_branch"]; the two maps
    are declared before the loop and shared by both turns. *)
Definition rewrite_if_branch (n : nat) (input_need_rearrange : bool)
    (index_mapping : list Z) (has_resource_output : bool)
    (attr_name : string) (maps : RetvalMaps) : M (World FLD) RetvalMaps :=
  f <- get_attr as_func n attr_name ;;
  fbody <- find_body f.1 ;;
  body1 <- (if input_need_rearrange
            then lift (exec (RearrangeArgNodes (arg_nodes fbody) index_mapping)
                         (graph fbody))
            else ret (graph fbody)) ;;
  r <- (if has_resource_output then
          maps' <- lift (exec (CalculateRetvalRearrange body1 (ret_nodes fbody))
                           maps) ;;
          body2 <- lift (exec (RearrangeRetvalNodes (ret_nodes fbody)
                                 (retval_index_mapping maps')) body1) ;;
          ret (maps', body2)
        else ret (maps, body1)) ;;
  save_and_repoint n attr_name f r.2 ;;;
  ret r.1.

(** [MaybeRewriteIfNode]. *)
Definition MaybeRewriteIfNode (junk : Z) (n : nat) : M (World FLD) bool :=
  in_types <- get_attr as_type_list n "Tin" ;;
  let out := InputTypesNeedsRearrange in_types junk [] in
  out_types <- get_attr as_type_list n "Tout" ;;
  let has_resource_output := existsb is_resource out_types in
  if negb (need_rewrite out) && negb has_resource_output then ret false
  else
    (if need_rewrite out then
       on_graph (reorder_if_input_edges n (index_mapping out)) ;;;
       new_in_types <-
         lift (ShuffleInputDataTypeAttribute in_types (index_mapping out)) ;;
       on_graph (set_attr n "Tin" (AttrTypeList new_in_types))
     else ret tt) ;;;
    maps <- fold_each ["then_branch"; "else_branch"]%string (mkRetvalMaps ∅ ∅)
              (rewrite_if_branch n (need_rewrite out) (index_mapping out)
                 has_resource_output) ;;
    (if has_resource_output then
       on_graph (rearrange_output_edges n 1 maps) ;;;
       new_out_types <-
         lift (ShuffleOutputDataTypeAttribute out_types
                 (retval_index_mapping maps)) ;;
       on_graph (set_attr n "Tout" (AttrTypeList new_out_types))
     else ret tt) ;;;
    ret true.

(** *** [RearrangeFunctionArgumentForFunction] *)

(** What outlives one call: the library and the memoization map
    [canonicalized_name_to_new_name]. *)
Record PassState : Type := mkPassState {
  ps_fld : FLD;
  ps_memo : gmap string (option string)
}.

(** The state inside one call: the instantiated body [g] and [*modified]
    as well. *)
Record Frame : Type := mkFrame {
  fr_graph : Graph;
  fr_fld : FLD;
  fr_memo : gmap string (option string);
  fr_modified : bool
}.

Definition in_world {A} (m : M (World FLD) A) : M Frame A :=
  fun fr =>
    let '(r, w) := m (mkWorld (fr_graph fr) (fr_fld fr)) in
    (r, mkFrame (w_graph w) (w_fld w) (fr_memo fr) (fr_modified fr)).

Definition in_pass {A} (m : M PassState A) : M Frame A :=
  fun fr =>
    let '(r, ps) := m (mkPassState (fr_fld fr) (fr_memo fr)) in
    (r, mkFrame (fr_graph fr) (ps_fld ps) (ps_memo ps) (fr_modified fr)).

Definition set_modified : M Frame unit :=
  modify (fun fr => mkFrame (fr_graph fr) (fr_fld fr) (fr_memo fr) true).

Definition set_memo (key : string) (entry : option string) : M Frame unit :=
  modify (fun fr =>
    mkFrame (fr_graph fr) (fr_fld fr) (<[key := entry]> (fr_memo fr))
      (fr_modified fr)).

(** The type of the function itself, for its recursive call. *)
Definition RewriteFunction : Type :=
  string -> string -> list (string * AttrValue) -> M PassState bool.

(** The call of [RewriteAssociatedFunction], which makes node [n] refer to
    [new_name]; it works on the graph and the library. *)
Definition repoint_associated_function (n : nat)
    (associated_function : AssociatedFunctionInfo) (new_name : string)
    : M Frame unit :=
  fun fr =>
    let '(r, (g, fld)) :=
      RewriteAssociatedFunction (fr_graph fr) n (fr_fld fr)
        associated_function new_name in
    (r, mkFrame g fld (fr_memo fr) (fr_modified fr)).

(** The body of the loop over the associated functions of node [n]. *)
Definition rewrite_associated_function (rec : RewriteFunction) (n : nat)
    (associated_function : AssociatedFunctionInfo) : M Frame unit :=
  let fname := af_func_name associated_function in
  let canonicalized_name := Canonicalize fname (af_attrs associated_function) in
  memo <- gets fr_memo ;;
  p <- match memo !! canonicalized_name with
       | Some entry =>
           ret (match entry with
                | Some new_name => (true, new_name)
                | None => (false, ""%string)
                end)
       | None =>
           fr <- get ;;
           prefix <- match af_type associated_function with
                     | kSymbolicGradient =>
                         match find_node (fr_graph fr) n with
                         | Some nd => ret (name nd)
                         | None => lift Thrown
                         end
                     | _ => ret fname
                     end ;;
           let new_name :=
             UniqueFunctionName (fr_fld fr) (prefix +:+ "_rearrange_") in
           function_modified <-
             in_pass (rec fname new_name (af_attrs associated_function)) ;;
           set_memo canonicalized_name
             (if function_modified : bool then Some new_name else None) ;;;
           ret (function_modified, new_name)
       end ;;
  if p.1 : bool then
    set_modified ;;;
    repoint_associated_function n associated_function p.2
  else ret tt.

(** The body of the loop over the nodes of [g]. *)
Definition rewrite_node (fuel : nat) (junk : nat -> Z) (n : nat)
    : M Frame unit :=
  fr <- get ;;
  match find_node (fr_graph fr) n with
  | None => ret tt
  | Some nd =>
      if decide (type_string nd = "While") then
        node_rewritten <- in_world (MaybeRewriteWhileNode fuel (junk n) n) ;;
        if node_rewritten : bool then set_modified else ret tt
      else if decide (type_string nd = "StatefulPartitionedCall") then
        node_rewritten <- in_world (MaybeRewriteCallNode (junk n) n) ;;
        if node_rewritten : bool then set_modified else ret tt
      else if decide (type_string nd = "If") then
        node_rewritten <- in_world (MaybeRewriteIfNode (junk n) n) ;;
        if node_rewritten : bool then set_modified else ret tt
      else ret tt
  end.

(** The nodes of [g] that have associated functions, gathered before any of
    them is rewritten. *)
Definition nodes_to_associated_functions (g : Graph) (fld : FLD)
    : list (nat * list AssociatedFunctionInfo) :=
  omap (fun p : nat * Node =>
          match GetAssociatedFunctions p.2 fld with
          | [] => None
          | afs => Some (p.1, afs)
          end)
    (nodes g).

(** One call, with [rec] standing for the recursive call.  [fuel] bounds
    the identity chains followed in While bodies; [junk n] is the
    indeterminate content of [resource_input_count] while node [n] is
    examined.  The release of the runtime handle is not modelled. *)
Definition rearrange_body (rec : RewriteFunction) (fuel : nat) (junk : nat -> Z)
    (func_name new_func_name : string) (attrs : list (string * AttrValue))
    : M PassState bool :=
  fun ps =>
    match Instantiate (ps_fld ps) func_name attrs with
    | Ok g =>
        let work : M Frame bool :=
          for_each (nodes_to_associated_functions g (ps_fld ps)) (fun '(n, afs) =>
            for_each afs (rewrite_associated_function rec n)) ;;;
          fr <- get ;;
          for_each (nodes (fr_graph fr)).*1 (rewrite_node fuel junk) ;;;
          fr <- get ;;
          (if fr_modified fr then
             functionalized_fdef <-
               lift (GraphToFunctionDef (fr_graph fr) new_func_name) ;;
             if decide (func_name = new_func_name)
             then (fun fr' =>
                     let '(r, fld) :=
                       ReplaceFunction new_func_name functionalized_fdef (fr_fld fr') in
                     (r, mkFrame (fr_graph fr') fld (fr_memo fr') (fr_modified fr')))
             else (fun fr' =>
                     let '(r, fld) :=
                       AddFunctionDef functionalized_fdef (fr_fld fr') in
                     (r, mkFrame (fr_graph fr') fld (fr_memo fr') (fr_modified fr')))
           else ret tt) ;;;
          ret (fr_modified fr) in
        let '(r, fr) := work (mkFrame g (ps_fld ps) (ps_memo ps) false) in
        (r, mkPassState (fr_fld fr) (fr_memo fr))
    | Err c => (Err c, ps)
    | Thrown => (Thrown, ps)
    | NoFuel => (NoFuel, ps)
    end.

(** [RearrangeFunctionArgumentForFunction]; the result is [*modified].
    Every nested call spends one unit of [depth]. *)
Fixpoint RearrangeFunctionArgumentForFunction (depth : nat) (fuel : nat)
    (junk : nat -> Z) (func_name new_func_name : string)
    (attrs : list (string * AttrValue)) : M PassState bool :=
  match depth with
  | O => lift NoFuel
  | S depth' =>
      rearrange_body (RearrangeFunctionArgumentForFunction depth' fuel junk)
        fuel junk func_name new_func_name attrs
  end.

End NodeRewrites.

Arguments PassState : clear implicits.
Arguments Frame : clear implicits.
Arguments RewriteFunction : clear implicits.

End Pass.

(** ** A function library for the examples *)

(** Modelled from the spec: an executable instance of the collaborators the
    pass takes as parameters (spec 3, 4.3 and 6).  The general theorems
    below hold for every instance; this one serves to run the pass on
    concrete graphs. *)
Module SpecLibrary.
Import GraphStore Rewriter Pass.

(** Spec 3: a function definition is "a graph with labeled argument and
    return slots". *)
Record FunctionDef : Type := mkFunctionDef {
  fd_name : string;
  fd_graph : Graph
}.

(** The handle of the node of type [op] whose ["index"] attribute is [i]. *)
Definition node_with_index (g : Graph) (op : string) (i : nat) : option nat :=
  fst <$> head (filter
    (fun p : nat * Node =>
       bool_decide (type_string p.2 = op)
       && match attrs p.2 !! "index" with
          | Some (AttrInt z) => bool_decide (z = Z.of_nat i)
          | _ => false
          end)
    (nodes g)).

(** Spec 4.3: the [Arg] (and [Retval]) nodes in the order of their indices;
    [INTERNAL] when the indices are not exactly 0, 1, ..., count - 1. *)
Definition indexed_nodes (g : Graph) (op : string) : Result (list nat) :=
  let count :=
    length (filter (fun p : nat * Node => bool_decide (type_string p.2 = op))
              (nodes g)) in
  match mapM (node_with_index g op) (seq 0 count) with
  | Some l => Ok l
  | None => Err INTERNAL
  end.

Definition body_of_graph (g : Graph) : Result FunctionBody :=
  (args <-? indexed_nodes g "_Arg" ;;
   rets <-? indexed_nodes g "_Retval" ;;
   Ok (mkFunctionBody g args rets))%res.

(** Spec 6: the first of [prefix0], [prefix1], ... that names no function. *)
Definition unique_name (fld : gmap string FunctionDef) (prefix : string)
    : string :=
  match list_find (fun i => bool_decide (fld !! (prefix +:+ pretty i) = None))
          (seq 0 (S (size fld))) with
  | Some (_, i) => prefix +:+ pretty i
  | None => prefix
  end.

(** The function-valued attributes of a node. *)
Definition function_attrs (nd : Node) : list AssociatedFunctionInfo :=
  omap (fun kv : string * AttrValue =>
          match kv.2 with
          | AttrFunc f a => Some (mkAssociatedFunctionInfo kFunctionAttr f kv.1 a)
          | _ => None
          end)
    (map_to_list (attrs nd)).

(** A canonical name: the function name and the names of its attributes. *)
Definition canonical_name (fname : string) (a : list (string * AttrValue))
    : string :=
  fname +:+ "[" +:+ String.concat "," (a.*1) +:+ "]".

#[global] Instance spec_library : Library FunctionDef (gmap string FunctionDef) := {|
  Find fld fname := fld !! fname;
  AddFunctionDef fdef := fun fld =>
    match fld !! fd_name fdef with
    | Some _ => (Err INVALID_ARGUMENT, fld)
    | None => (Ok tt, <[fd_name fdef := fdef]> fld)
    end;
  ReplaceFunction fname fdef := fun fld =>
    match fld !! fname with
    | Some _ => (Ok tt, <[fname := fdef]> fld)
    | None => (Err INVALID_ARGUMENT, fld)
    end;
  UniqueFunctionName := unique_name;
  FunctionDefToBodyHelper fdef _ := body_of_graph (fd_graph fdef);
  GraphToFunctionDef g new_name := Ok (mkFunctionDef new_name g);
  Instantiate fld fname _ :=
    match fld !! fname with
    | Some fdef => Ok (fd_graph fdef)
    | None => Err NOT_FOUND
    end;
  GetAssociatedFunctions nd _ := function_attrs nd;
  Canonicalize := canonical_name;
  RewriteAssociatedFunction g n fld af new_name :=
    match find_node g n with
    | Some _ =>
        (Ok tt, (SetAttr g n (af_attr_name af) (AttrFunc new_name (af_attrs af)), fld))
    | None => (Thrown, (g, fld))
    end
|}.

End SpecLibrary.

(** ** Example graphs *)

Module Examples.
Import GraphStore Rewriter Pass SpecLibrary.
Local Open Scope Z_scope.

Definition node (nm op : string) (a : list (string * AttrValue)) : option Node :=
  Some (mkNode nm op (list_to_map a)).

Definition data_edge (s : nat) (x : Z) (d : nat) (y : Z) : option Edge :=
  Some (mkEdge s x d y).

Definition control_edge (s d : nat) : option Edge :=
  Some (mkEdge s kControlSlot d kControlSlot).

Definition arg (i : Z) (t : DataType) : option Node :=
  node ("arg" +:+ pretty i) "_Arg" [("index", AttrInt i); ("T", AttrType t)].

Definition retval (i : Z) (t : DataType) : option Node :=
  node ("ret" +:+ pretty i) "_Retval" [("index", AttrInt i); ("T", AttrType t)].

Definition library (l : list (string * Graph)) : gmap string FunctionDef :=
  list_to_map ((fun p : string * Graph => (p.1, mkFunctionDef p.1 p.2)) <$> l).

(** *** Scenario C: an If node with inputs [pred, resource, float] *)

(** Both branches take (resource, float) and return the float. *)
Definition branch_returns_float : Graph :=
  mkGraph [arg 0 DT_RESOURCE; arg 1 DT_FLOAT; retval 0 DT_FLOAT]
          [data_edge 1 0 2 0].

(** Nodes: 0 the predicate, 1 a variable handle, 2 a float, 3 the If node,
    4 a consumer; a control edge runs from node 1 to the If node and one
    from the If node to the consumer. *)
Definition if_graph : Graph :=
  mkGraph
    [ node "pred" "Const" []; node "var" "VarHandleOp" [];
      node "x" "Const" [];
      node "if" "If" [ ("Tin", AttrTypeList [DT_RESOURCE; DT_FLOAT]);
                       ("Tout", AttrTypeList [DT_FLOAT]);
                       ("then_branch", AttrFunc "then_f" []);
                       ("else_branch", AttrFunc "else_f" []) ];
      node "out" "Identity" [] ]
    [ data_edge 0 0 3 0; data_edge 1 0 3 1; data_edge 2 0 3 2;
      control_edge 1 3; data_edge 3 0 4 0; control_edge 3 4 ].

Definition if_world : World (gmap string FunctionDef) :=
  mkWorld if_graph
    (library [("then_f", branch_returns_float); ("else_f", branch_returns_float)]).

(** *** An If node whose branches return different resource arguments *)

Definition branch_returns_arg (k : nat) : Graph :=
  mkGraph [arg 0 DT_FLOAT; arg 1 DT_RESOURCE; arg 2 DT_RESOURCE;
           retval 0 DT_RESOURCE]
          [data_edge k 0 3 0].

(** Nodes: 0 the predicate, 1 a float, 2 and 3 two variable handles, 4 the
    If node, 5 a consumer of its resource output. *)
Definition mismatched_if_graph : Graph :=
  mkGraph
    [ node "pred" "Const" []; node "x" "Const" [];
      node "v1" "VarHandleOp" []; node "v2" "VarHandleOp" [];
      node "if" "If" [ ("Tin", AttrTypeList [DT_FLOAT; DT_RESOURCE; DT_RESOURCE]);
                       ("Tout", AttrTypeList [DT_RESOURCE]);
                       ("then_branch", AttrFunc "then_f" []);
                       ("else_branch", AttrFunc "else_f" []) ];
      node "read" "ReadVariableOp" [] ]
    [ data_edge 0 0 4 0; data_edge 1 0 4 1; data_edge 2 0 4 2;
      data_edge 3 0 4 3; data_edge 4 0 5 0 ].

Definition mismatched_if_world : World (gmap string FunctionDef) :=
  mkWorld mismatched_if_graph
    (library [("then_f", branch_returns_arg 1); ("else_f", branch_returns_arg 2)]).

(** *** While nodes *)

Definition while_cond (types : list DataType) : Graph :=
  mkGraph (imap (fun i t => arg (Z.of_nat i) t) types
           ++ [node "true" "Const" []; retval 0 DT_BOOL])
          [data_edge (length types) 0 (S (length types)) 0].

(** A body over [types] whose [i]-th result comes from the argument
    [sources !! i]. *)
Definition while_body (types : list DataType) (sources : list nat) : Graph :=
  mkGraph (imap (fun i t => arg (Z.of_nat i) t) types
           ++ imap (fun i t => retval (Z.of_nat i) t) types)
          (imap (fun i s => data_edge s 0 (length types + i) 0) sources).

(** Nodes: [length types] producers, then the While node, fed by them in
    order. *)
Definition while_graph (types : list DataType) : Graph :=
  mkGraph (imap (fun i _ => node ("in" +:+ pretty i) "Placeholder" []) types
           ++ [node "while" "While" [ ("T", AttrTypeList types);
                                        ("cond", AttrFunc "cond_f" []);
                                        ("body", AttrFunc "body_f" []) ]])
          (imap (fun i _ => data_edge i 0 (length types) (Z.of_nat i)) types).

Definition while_world (types : list DataType) (sources : list nat)
    : World (gmap string FunctionDef) :=
  mkWorld (while_graph types)
    (library [("cond_f", while_cond types); ("body_f", while_body types sources)]).

(** *** Direct calls *)

Definition call_graph (tin tout : list DataType) : Graph :=
  mkGraph (imap (fun i _ => node ("in" +:+ pretty i) "Placeholder" []) tin
           ++ [node "call" "StatefulPartitionedCall"
                 [ ("Tin", AttrTypeList tin); ("Tout", AttrTypeList tout);
                   ("f", AttrFunc "callee" []) ]])
          (imap (fun i _ => data_edge i 0 (length tin) (Z.of_nat i)) tin).

(** A callee that returns its float argument. *)
Definition float_identity : Graph :=
  mkGraph [arg 0 DT_FLOAT; retval 0 DT_FLOAT] [data_edge 0 0 1 0].

(** A callee that returns a resource it creates itself. *)
Definition returns_fresh_resource : Graph :=
  mkGraph [arg 0 DT_FLOAT; node "var" "VarHandleOp" []; retval 0 DT_RESOURCE]
          [data_edge 1 0 2 0].

(** A callee that returns its resource argument through an identity node. *)
Definition returns_resource_via_identity : Graph :=
  mkGraph [arg 0 DT_RESOURCE; node "id" "Identity" []; retval 0 DT_RESOURCE]
          [data_edge 0 0 1 0; data_edge 1 0 2 0].

Definition call_world (tin tout : list DataType) (callee : Graph)
    : World (gmap string FunctionDef) :=
  mkWorld (call_graph tin tout) (library [("callee", callee)]).

(** *** Functions that reference functions *)

(** A function whose only node refers to the function itself. *)
Definition self_referential : Graph :=
  mkGraph [node "again" "Caller" [("fn", AttrFunc "loop_f" [])]] [].

Definition self_referential_state : PassState (gmap string FunctionDef) :=
  mkPassState (library [("loop_f", self_referential)]) ∅.

(** [shared_f] holds a call that needs rewriting: its callee takes
    (resource, float).  [main_f] refers to [shared_f] from two nodes. *)
Definition leaf : Graph :=
  mkGraph [arg 0 DT_RESOURCE; arg 1 DT_FLOAT; retval 0 DT_FLOAT]
          [data_edge 1 0 2 0].

Definition shared : Graph :=
  mkGraph
    [ arg 0 DT_RESOURCE; arg 1 DT_FLOAT;
      node "call" "StatefulPartitionedCall"
        [ ("Tin", AttrTypeList [DT_RESOURCE; DT_FLOAT]);
          ("Tout", AttrTypeList [DT_FLOAT]); ("f", AttrFunc "leaf_f" []) ];
      retval 0 DT_FLOAT ]
    [ data_edge 0 0 2 0; data_edge 1 0 2 1; data_edge 2 0 3 0 ].

Definition two_call_sites : Graph :=
  mkGraph [ node "site1" "Caller" [("fn", AttrFunc "shared_f" [])];
            node "site2" "Caller" [("fn", AttrFunc "shared_f" [])] ] [].

Definition two_call_sites_state : PassState (gmap string FunctionDef) :=
  mkPassState
    (library [("leaf_f", leaf); ("shared_f", shared); ("main_f", two_call_sites)])
    ∅.

End Examples.

(** ** Vocabulary of the statements *)

Module Vocabulary.
Import GraphStore Rewriter Pass.

(** [I] holds after [m] whenever it held before, whatever the outcome. *)
Definition invariant {S A} (I : S -> Prop) (m : M S A) : Prop :=
  forall s, I s -> I (m s).2.

(** Every value [m] returns satisfies [Q]. *)
Definition yields {S A} (m : M S A) (Q : A -> Prop) : Prop :=
  forall s a, (m s).1 = Ok a -> Q a.

(** The control dependencies of a graph: its control edges, with their
    handles. *)
Definition control_edges (g : Graph) : list (nat * Edge) :=
  filter (fun p => IsControlEdge p.2) (edges g).

(** The edges that feed input slot 0 of node [n]. *)
Definition feeds_slot0 (n : nat) (e : Edge) : bool :=
  bool_decide (dst e = n) && bool_decide (dst_input e = 0%Z).

Definition slot0_edges (g : Graph) (n : nat) : list (nat * Edge) :=
  filter (fun p => feeds_slot0 n p.2) (edges g).

(** Control edges have no slot on the destination side either. *)
Definition control_edges_unslotted (g : Graph) : Prop :=
  forall (i : nat) (e : Edge),
    edges_ g !! i = Some (Some e) -> IsControlEdge e = true ->
    dst_input e = kControlSlot.

(** An edge arena with every edge not selected by [keep] blanked out. *)
Definition view (keep : Edge -> bool) (arena : list (option Edge))
    : list (option Edge) :=
  (fun oe : option Edge =>
     match oe with
     | Some e => if keep e then Some e else None
     | None => None
     end) <$> arena.

(** [g] has the selected edges of [g0], at the same handles, and no other:
    it differs from [g0] by edges that are not selected. *)
Definition same_selected (keep : Edge -> bool) (g0 g : Graph) : Prop :=
  exists k : nat,
    view keep (edges_ g) = view keep (edges_ g0) ++ replicate k None.

(** The same, for the graph of a world. *)
Definition keeps {FLD} (keep : Edge -> bool) (g0 : Graph) (w : World FLD) : Prop :=
  same_selected keep g0 (w_graph w).

(** Node [n] does not feed its own input slot 0. *)
Definition no_self_predicate (g : Graph) (n : nat) : Prop :=
  forall (i : nat) (e : Edge),
    edges_ g !! i = Some (Some e) -> feeds_slot0 n e = true -> src e <> n.

(** The arena with the edges at the handles [ids] removed. *)
Definition remove_edges (ids : list nat) (arena : list (option Edge))
    : list (option Edge) :=
  foldl (fun l i => <[i := None]> l) arena ids.

(** The [_Retval] nodes of a body can be examined: each has a type, and a
    resource one has an input, whose source has an index when it is an
    [_Arg]. *)
Definition examinable_retvals (g : Graph) (ret_nodes : list nat) : Prop :=
  forall r : nat, r ∈ ret_nodes ->
    exists t : DataType,
      GetNodeAttr as_type g r "T" = Ok t
      /\ (t = DT_RESOURCE ->
          exists p : nat * Edge,
            input_edge g r 0 = Ok p
            /\ (IsArg g (src p.2) = true ->
                exists j : Z, GetNodeAttr as_int g (src p.2) "index" = Ok j)).

(** The data inputs of node [n] enter slots below [arity], and the body has
    at most [arity] argument nodes, all of them live. *)
Definition inputs_match (g : Graph) (n : nat) (body : FunctionBody)
    (arity : nat) : Prop :=
  (forall p : nat * Edge, p ∈ non_control (in_edges g n) ->
     (0 <= dst_input p.2 < Z.of_nat arity)%Z)
  /\ length (arg_nodes body) <= arity
  /\ (forall a : nat, a ∈ arg_nodes body -> is_Some (find_node (graph body) a)).

(** [g'] is [g] with some ["index"] attributes rewritten: the same edges,
    the same nodes with the same types and the same other attributes, and
    an integer index wherever [g] has one. *)
Definition same_shape (g g' : Graph) : Prop :=
  edges_ g' = edges_ g
  /\ forall m : nat,
       match find_node g m, find_node g' m with
       | Some nd, Some nd' =>
           type_string nd' = type_string nd
           /\ (forall key : string, key <> "index" ->
                 attrs nd' !! key = attrs nd !! key)
           /\ (is_Some (attrs nd !! "index" ≫= as_int) ->
               is_Some (attrs nd' !! "index" ≫= as_int))
       | None, None => True
       | _, _ => False
       end.

(** No new retval index is negative. *)
Definition nonneg_retvals (maps : RetvalMaps) : Prop :=
  forall k v : Z, retval_index_mapping maps !! k = Some v -> (0 <= v)%Z.

(** Starting at node [m] and following input 0 through identity nodes, one
    arrives at the non-identity node [a]. *)
Inductive reaches (g : Graph) : nat -> nat -> Prop :=
  | reaches_here (m : nat) :
      IsIdentity g m = false -> reaches g m m
  | reaches_step (m m' a : nat) :
      IsIdentity g m = true -> input_node g m 0 = Ok m' ->
      reaches g m' a -> reaches g m a.

(** The value returned by [_Retval] node [r] is an argument of the function,
    passed through zero or more identity nodes: [a] is that [_Arg] node. *)
Definition traces_back_to_arg (g : Graph) (r a : nat) : Prop :=
  exists first : nat,
    input_node g r 0 = Ok first /\ reaches g first a /\ IsArg g a = true.

(** The number of identity nodes on the way from [m] to [a]. *)
Inductive reaches_in (g : Graph) : nat -> nat -> nat -> Prop :=
  | reaches_in_here (m : nat) :
      IsIdentity g m = false -> reaches_in g O m m
  | reaches_in_step (k m m' a : nat) :
      IsIdentity g m = true -> input_node g m 0 = Ok m' ->
      reaches_in g k m' a -> reaches_in g (S k) m a.

(** The results of a While body can be followed within [fuel]: each
    [_Retval] has a type, and a resource one has an input from which a
    non-identity node is reached over at most [fuel] identity nodes; that
    node has an index when it is an [_Arg]. *)
Definition followable_retvals (fuel : nat) (g : Graph) (ret_nodes : list nat)
    : Prop :=
  forall r : nat, r ∈ ret_nodes ->
    exists t : DataType,
      GetNodeAttr as_type g r "T" = Ok t
      /\ (t = DT_RESOURCE ->
          exists (first a k : nat),
            input_node g r 0 = Ok first /\ reaches_in g k first a /\ k <= fuel
            /\ (IsArg g a = true ->
                exists j : Z, GetNodeAttr as_int g a "index" = Ok j)).

(** The value returned by [_Retval] node [r] is the argument with index
    [i], passed through zero or more identity nodes. *)
Definition returns_argument (g : Graph) (r : nat) (i : Z) : Prop :=
  exists a : nat,
    traces_back_to_arg g r a /\ GetNodeAttr as_int g a "index" = Ok i.

(** Position [i] is decided in [maps]: a non-resource result has its new
    index, a resource result its argument. *)
Definition decided (maps : RetvalMaps) (i : Z) (t : DataType) : Prop :=
  if is_resource t
  then is_Some (resource_retval_to_arg maps !! i)
  else is_Some (retval_index_mapping maps !! i).

End Vocabulary.

(** ** Vocabulary for the results of a function body *)

Module Retvals.
Import GraphStore Rewriter.

(** The [_Retval] node [r] returns a resource. *)
Definition returns_resource (g : Graph) (r : nat) : bool :=
  match GetNodeAttr as_type g r "T" with
  | Ok t => is_resource t
  | _ => false
  end.

(** The number of results before position [j] that are not resources. *)
Definition non_resources_before (g : Graph) (ret_nodes : list nat) (j : nat)
    : Z :=
  Z.of_nat
    (length (filter (fun r => returns_resource g r = false) (take j ret_nodes))).

(** The [_Retval] node [r] is fed directly by the [_Arg] node whose index
    is [idx]. *)
Definition fed_by_argument (g : Graph) (r : nat) (idx : Z) : Prop :=
  exists p : nat * Edge,
    input_edge g r 0 = Ok p /\ IsArg g (src p.2) = true
    /\ GetNodeAttr as_int g (src p.2) "index" = Ok idx.

(** The state of the two maps once the results [seen] have been examined,
    starting from empty maps: a result that is not a resource is numbered
    by the count of such results before it, a resource result is recorded
    with the index of the argument that feeds it, and no other key is
    present. *)
Definition maps_after (g : Graph) (seen : list nat) (maps : RetvalMaps) : Prop :=
  size (retval_index_mapping maps)
  = length (filter (fun r => returns_resource g r = false) seen)
  /\ (forall (j : nat) (r : nat), seen !! j = Some r ->
        if returns_resource g r
        then retval_index_mapping maps !! Z.of_nat j = None
             /\ exists idx, fed_by_argument g r idx
                            /\ resource_retval_to_arg maps !! Z.of_nat j = Some idx
        else retval_index_mapping maps !! Z.of_nat j
             = Some (non_resources_before g seen j)
             /\ resource_retval_to_arg maps !! Z.of_nat j = None)
  /\ (forall k : Z, ~ (0 <= k < Z.of_nat (length seen))%Z ->
        retval_index_mapping maps !! k = None
        /\ resource_retval_to_arg maps !! k = None).

End Retvals.

(** ** Further example graphs *)

Module MoreExamples.
Import GraphStore Rewriter Pass SpecLibrary Examples.
Local Open Scope Z_scope.

(** A body over (float, resource) with three results: the resource
    argument, then the float argument twice. *)
Definition returns_three : Graph :=
  mkGraph [arg 0 DT_FLOAT; arg 1 DT_RESOURCE;
           retval 0 DT_RESOURCE; retval 1 DT_FLOAT; retval 2 DT_FLOAT]
          [data_edge 1 0 2 0; data_edge 0 0 3 0; data_edge 0 0 4 0].

(** A While node over (resource, float) whose inputs are already in the
    new order (float, resource).  Nodes: 0 a variable handle, 1 a float,
    2 the While node, 3 a reader of output 0 (the resource), 4 a reader of
    output 1 (the float). *)
Definition while_with_readers : Graph :=
  mkGraph
    [ node "var" "VarHandleOp" []; node "x" "Const" [];
      node "while" "While" [ ("T", AttrTypeList [DT_FLOAT; DT_RESOURCE]) ];
      node "read" "ReadVariableOp" []; node "out" "Identity" [] ]
    [ data_edge 1 0 2 0; data_edge 0 0 2 1;
      data_edge 2 0 3 0; data_edge 2 1 4 0 ].

End MoreExamples.

(** ** Vocabulary for the edges of a node *)

Module EdgeKinds.
Import GraphStore.

(** [e] is a data input of node [n]. *)
Definition data_input (n : nat) (e : Edge) : bool :=
  bool_decide (dst e = n) && negb (IsControlEdge e).

(** [e] is a data output of node [n]. *)
Definition data_output (n : nat) (e : Edge) : bool :=
  bool_decide (src e = n) && negb (IsControlEdge e).

(** No edge runs from node [n] to itself. *)
Definition no_self_edge (g : Graph) (n : nat) : Prop :=
  forall (i : nat) (e : Edge),
    edges_ g !! i = Some (Some e) -> src e = n -> dst e <> n.

(** What an output edge [e] of [n] becomes in the loop of
    [RearrangeOutputEdges] (offset 0) and of its copy in
    [MaybeRewriteIfNode] (offset 1): the consumer keeps its slot; it reads
    the renumbered output of [n], or, for a resource, what feeds the
    matching input of [n] in [g0]. *)
Definition rewired (g0 : Graph) (n : nat) (offset : Z)
    (maps : Rewriter.RetvalMaps) (e e' : Edge) : Prop :=
  dst e' = dst e /\ dst_input e' = dst_input e
  /\ match Rewriter.retval_index_mapping maps !! src_output e with
     | Some new_src_output => src e' = n /\ src_output e' = new_src_output
     | None =>
         exists arg_index ie,
           Rewriter.resource_retval_to_arg maps !! src_output e = Some arg_index
           /\ input_edge g0 n (arg_index + offset)%Z = Ok ie
           /\ src e' = src ie.2 /\ src_output e' = src_output ie.2
     end.

(** The same for the loop of [ReorderOutputEdges]: the output at a new
    index below [non_resource_count] is read from [n], a later one from what
    feeds input [new index] of [n] in [g0]. *)
Definition rerouted (g0 : Graph) (n : nat) (non_resource_count : Z)
    (index_mapping : list Z) (e e' : Edge) : Prop :=
  dst e' = dst e /\ dst_input e' = dst_input e
  /\ exists new_src_output,
       vector_at index_mapping (src_output e) = Ok new_src_output
       /\ if decide (new_src_output < non_resource_count)%Z
          then src e' = n /\ src_output e' = new_src_output
          else exists ie,
                 input_edge g0 n new_src_output = Ok ie
                 /\ src e' = src ie.2 /\ src_output e' = src_output ie.2.

End EdgeKinds.

(** ** Vocabulary for runs that return *)

Module Returns.

(** [I] holds after [m] whenever it held before and [m] returned a value. *)
Definition maintains {S A} (I : S -> Prop) (m : M S A) : Prop :=
  forall s a s', I s -> m s = (Ok a, s') -> I s'.

(** As long as [*modified] is false, the library is the one the call
    started with. *)
Definition library_kept {FLD} (fld0 : FLD) (fr : Pass.Frame FLD) : Prop :=
  Pass.fr_modified fr = false -> Pass.fr_fld fr = fld0.

(** The memoization map has an entry for every key of [memo0]. *)
Definition memo_extends (memo0 memo : gmap string (option string)) : Prop :=
  forall key : string, is_Some (memo0 !! key) -> is_Some (memo !! key).

End Returns.

(** ** The pass over a graph: [RearrangeFunctionArgumentPass::Run] *)

Module PassRun.
Import GraphStore Rewriter Pass.
Local Open Scope monad_scope.

(** The operations that hold an XLA computation, and the attribute that
    names its function. *)
Definition kNodeTypeToFunctionAttrMapping : gmap string string :=
  {[ "TPUReplicate" := "computation"; "XlaLaunch" := "function" ]}.

(** What [Run] works on: the graph and the library of the options, and its
    two locals [canonicalized_name_to_new_name] and [fld_modified]. *)
Record RunState (FLD : Type) : Type := mkRunState {
  rs_graph : Graph;
  rs_fld : FLD;
  rs_memo : gmap string (option string);
  rs_fld_modified : bool
}.
Arguments mkRunState {FLD} _ _ _ _.
Arguments rs_graph {FLD} _.
Arguments rs_fld {FLD} _.
Arguments rs_memo {FLD} _.
Arguments rs_fld_modified {FLD} _.

Section Run.
Context {FunctionDef FLD : Type} `{Library FunctionDef FLD}.

(** [PruneUnreachableFunctionsFromGraph] ([tf2xla_util]) is not among the
    sources; it is a parameter.  It reads the graph and works on the
    library. *)
Variable PruneUnreachableFunctionsFromGraph : Graph -> M FLD unit.

(** The call of [RearrangeFunctionArgumentForFunction] made for a node:
    it works on the library and on the map, not on the graph. *)
Definition rearrange_function (depth fuel : nat) (junk : nat -> Z)
    (func_name new_func_name : string) (attrs : list (string * AttrValue))
    : M (RunState FLD) bool :=
  fun rs =>
    let '(r, ps) :=
      RearrangeFunctionArgumentForFunction depth fuel junk func_name
        new_func_name attrs (mkPassState (rs_fld rs) (rs_memo rs)) in
    (r, mkRunState (rs_graph rs) (ps_fld ps) (ps_memo ps) (rs_fld_modified rs)).

(** The body of the loop over the nodes of the graph. *)
Definition run_node (depth fuel : nat) (junk : nat -> Z) (n : nat)
    : M (RunState FLD) unit :=
  rs <- get ;;
  match find_node (rs_graph rs) n with
  | None => ret tt
  | Some nd =>
      match kNodeTypeToFunctionAttrMapping !! type_string nd with
      | None => ret tt
      | Some func_attr =>
          func <- lift (GetNodeAttr as_func (rs_graph rs) n func_attr) ;;
          let new_func_name :=
            UniqueFunctionName (rs_fld rs) (func.1 +:+ "_rearrange_") in
          modified <-
            rearrange_function depth fuel junk func.1 new_func_name func.2 ;;
          if modified : bool then
            modify (fun rs =>
              mkRunState
                (SetAttr (rs_graph rs) n func_attr (AttrFunc new_func_name func.2))
                (rs_fld rs) (rs_memo rs) true)
          else ret tt
      end
  end.

(** [Run], on the graph and the library of the options.  The dumps of the
    graph made when verbose logging is on are not modelled.  [depth], [fuel]
    and [junk] are those of [RearrangeFunctionArgumentForFunction]. *)
Definition Run (depth fuel : nat) (junk : nat -> Z) : M (World FLD) unit :=
  fun w =>
    let work : M (RunState FLD) unit :=
      for_each (nodes (w_graph w)).*1 (run_node depth fuel junk) ;;;
      rs <- get ;;
      (if rs_fld_modified rs then
         fun rs' =>
           let '(r, fld) :=
             PruneUnreachableFunctionsFromGraph (rs_graph rs') (rs_fld rs') in
           (r, mkRunState (rs_graph rs') fld (rs_memo rs') (rs_fld_modified rs'))
       else ret tt) ;;;
      ret tt in
    let '(r, rs) := work (mkRunState (w_graph w) (w_fld w) ∅ false) in
    (r, mkWorld (rs_graph rs) (rs_fld rs)).

End Run.

(** [g'] is [g] up to the function attribute of the nodes that hold an XLA
    computation: the same edges, and at every handle the same node or no
    node, with the same name, type and other attributes. *)
Definition same_but_function_attrs (g g' : Graph) : Prop :=
  edges_ g' = edges_ g
  /\ forall m : nat,
       match find_node g m, find_node g' m with
       | Some nd, Some nd' =>
           name nd' = name nd /\ type_string nd' = type_string nd
           /\ (forall key : string,
                 kNodeTypeToFunctionAttrMapping !! type_string nd <> Some key ->
                 attrs nd' !! key = attrs nd !! key)
       | None, None => True
       | _, _ => False
       end.

End PassRun.

(** ** More of [graph_def_util.cc] *)

Module GraphDefUtilMore.
Import GraphDefUtil.

Section Registries.
Context {R : Type} `{OpRegistryInterface R}.

(** [FindAttr] ([op_def_util]) and [AreAttrValuesEqual] ([attr_value_util])
    are not among the sources; they are parameters.  [FindAttr] returns the
    attribute of that name in a signature, or nothing ([nullptr]). *)
Variable FindAttr : string -> OpDef -> option AttrDef.
Variable AreAttrValuesEqual : AttrValue -> AttrValue -> bool.

(** The test made on one attribute [attr] of a node: it is to be removed
    when the consumer does not know it and its value is the producer's
    default. *)
Definition is_new_default (consumer_op_def producer_op_def : OpDef)
    (attr : string * AttrValue) : bool :=
  match FindAttr attr.1 consumer_op_def with
  | Some _ => false
  | None =>
      match FindAttr attr.1 producer_op_def with
      | Some producer_attr_def =>
          match ad_default_value producer_attr_def with
          | Some default_value => AreAttrValuesEqual default_value attr.2
          | None => false
          end
      | None => false
      end
  end.

(** The loop over the attributes of one node, which fills [to_remove]; an
    attribute that neither signature knows ends the whole call. *)
Fixpoint collect_to_remove (consumer_op_def producer_op_def : OpDef)
    (attr_list : list (string * AttrValue)) (to_remove : list string)
    : Result (list string) :=
  match attr_list with
  | [] => Ok to_remove
  | attr :: rest =>
      match FindAttr attr.1 consumer_op_def with
      | Some _ => collect_to_remove consumer_op_def producer_op_def rest to_remove
      | None =>
          match FindAttr attr.1 producer_op_def with
          | None => Err INVALID_ARGUMENT
          | Some producer_attr_def =>
              match ad_default_value producer_attr_def with
              | Some default_value =>
                  if AreAttrValuesEqual default_value attr.2
                  then collect_to_remove consumer_op_def producer_op_def rest
                         (to_remove ++ [attr.1])
                  else collect_to_remove consumer_op_def producer_op_def rest
                         to_remove
              | None =>
                  collect_to_remove consumer_op_def producer_op_def rest to_remove
              end
          end
      end
  end.

(** The loop over [to_remove]: the attribute is erased from the node, and
    recorded under the node's operation when the caller asked for a
    record. *)
Definition erase_attr (node_def : NodeDef) (attr_name : string) : NodeDef :=
  mkNodeDef (nd_name node_def) (nd_op node_def) (nd_input node_def)
    (nd_device node_def) (delete attr_name (nd_attr node_def)).

Definition erase_attrs (to_remove : list string) (node_def : NodeDef) : NodeDef :=
  foldl erase_attr node_def to_remove.

Definition record_removed (op : string) (to_remove : list string)
    (op_attr_removed : option (gset (string * string)))
    : option (gset (string * string)) :=
  (fun removed => foldl (fun s attr_name => {[ (op, attr_name) ]} ∪ s)
                    removed to_remove) <$> op_attr_removed.

(** [RemoveNewDefaultAttrsFromGraphDef], over the nodes in order.  The
    attributes of a node are a map, gone through in the order of
    [map_to_list]; [op_attr_removed] is [None] for a null pointer.  An early
    return keeps the nodes already stripped. *)
Fixpoint remove_new_defaults_loop (consumer_op_registry producer_op_registry : R)
    (nodes : list NodeDef) (op_attr_removed : option (gset (string * string)))
    : Result unit * (list NodeDef * option (gset (string * string))) :=
  match nodes with
  | [] => (Ok tt, ([], op_attr_removed))
  | node_def :: rest =>
      match LookUp producer_op_registry (nd_op node_def) with
      | Ok producer_op_def =>
          match LookUp consumer_op_registry (nd_op node_def) with
          | Ok consumer_op_def =>
              match collect_to_remove consumer_op_def producer_op_def
                      (map_to_list (nd_attr node_def)) [] with
              | Ok to_remove =>
                  let '(s, (rest', removed')) :=
                    remove_new_defaults_loop consumer_op_registry
                      producer_op_registry rest
                      (record_removed (nd_op node_def) to_remove op_attr_removed) in
                  (s, (erase_attrs to_remove node_def :: rest', removed'))
              | Err c => (Err c, (nodes, op_attr_removed))
              | Thrown => (Thrown, (nodes, op_attr_removed))
              | NoFuel => (NoFuel, (nodes, op_attr_removed))
              end
          | Err c => (Err c, (nodes, op_attr_removed))
          | Thrown => (Thrown, (nodes, op_attr_removed))
          | NoFuel => (NoFuel, (nodes, op_attr_removed))
          end
      | Err c => (Err c, (nodes, op_attr_removed))
      | Thrown => (Thrown, (nodes, op_attr_removed))
      | NoFuel => (NoFuel, (nodes, op_attr_removed))
      end
  end.

Definition RemoveNewDefaultAttrsFromGraphDef (graph_def : GraphDef)
    (consumer_op_registry producer_op_registry : R)
    (op_attr_removed : option (gset (string * string)))
    : Result unit * (GraphDef * option (gset (string * string))) :=
  let '(s, (nodes, removed)) :=
    remove_new_defaults_loop consumer_op_registry producer_op_registry
      (node graph_def) op_attr_removed in
  (s, (mkGraphDef nodes, removed)).

(** What a node [nd] is after the call: its attributes, less those that
    are new defaults for the two signatures of its operation. *)
Definition stripped_node (consumer_op_registry producer_op_registry : R)
    (nd nd' : NodeDef) : Prop :=
  exists consumer_op_def producer_op_def,
    LookUp producer_op_registry (nd_op nd) = Ok producer_op_def
    /\ LookUp consumer_op_registry (nd_op nd) = Ok consumer_op_def
    /\ nd_name nd' = nd_name nd /\ nd_op nd' = nd_op nd
    /\ nd_input nd' = nd_input nd /\ nd_device nd' = nd_device nd
    /\ forall k : string,
         nd_attr nd' !! k
         = match nd_attr nd !! k with
           | Some v =>
               if is_new_default consumer_op_def producer_op_def (k, v)
               then None else Some v
           | None => None
           end.

(** The pair [(op, k)] is recorded for node [nd]: [nd] has operation [op]
    and an attribute [k] that is a new default. *)
Definition recorded_for (consumer_op_registry producer_op_registry : R)
    (nd : NodeDef) (x : string * string) : Prop :=
  exists consumer_op_def producer_op_def v,
    LookUp producer_op_registry (nd_op nd) = Ok producer_op_def
    /\ LookUp consumer_op_registry (nd_op nd) = Ok consumer_op_def
    /\ x.1 = nd_op nd /\ nd_attr nd !! x.2 = Some v
    /\ is_new_default consumer_op_def producer_op_def (x.2, v) = true.

(** Node [nd], written for the consumer's signature of its operation, can
    be loaded with the producer's defaults and stripped again: both
    registries know the operation; the producer's signature names each
    attribute once; the consumer knows every attribute the node carries and
    none of the defaults the node lacks. *)
Definition loadable (consumer_op_registry producer_op_registry : R)
    (nd : NodeDef) : Prop :=
  exists consumer_op_def producer_op_def,
    LookUp producer_op_registry (nd_op nd) = Ok producer_op_def
    /\ LookUp consumer_op_registry (nd_op nd) = Ok consumer_op_def
    /\ NoDup (ad_name <$> od_attr producer_op_def)
    /\ (forall k : string,
          is_Some (nd_attr nd !! k) -> is_Some (FindAttr k consumer_op_def))
    /\ (forall a : AttrDef,
          a ∈ od_attr producer_op_def -> is_Some (ad_default_value a) ->
          nd_attr nd !! ad_name a = None ->
          FindAttr (ad_name a) consumer_op_def = None)
    /\ (forall (a : AttrDef) (d : AttrValue),
          a ∈ od_attr producer_op_def -> ad_default_value a = Some d ->
          AreAttrValuesEqual d d = true).

(** [FindAttr] finds an attribute of the signature by its name. *)
Definition finds_by_name : Prop :=
  forall (k : string) (op_def : OpDef),
    match FindAttr k op_def with
    | Some a => a ∈ od_attr op_def /\ ad_name a = k
    | None => forall a, a ∈ od_attr op_def -> ad_name a <> k
    end.

(** [RemoveDescriptionsFromOpDef] ([op_def_util]) is not among the sources;
    it is a parameter. *)
Variable RemoveDescriptionsFromOpDef : OpDef -> OpDef.

(** [std::set<string>::insert]: the set is kept as the list of its
    elements in increasing order. *)
Fixpoint set_insert (s : string) (used : list string) : list string :=
  match used with
  | [] => [s]
  | x :: rest =>
      match String.compare s x with
      | Lt => s :: used
      | Eq => used
      | Gt => x :: set_insert s rest
      end
  end.

(** "Collect the sorted list of op names". *)
Definition used_ops (graph_def : GraphDef) : list string :=
  foldl (fun used nd => set_insert (nd_op nd) used) [] (node graph_def).

(** "Build the stripped op list in sorted order"; an unknown operation
    ends the call with the status of the look-up, and the list keeps what
    was added. *)
Fixpoint stripped_loop (op_registry : R) (op_names : list string)
    (stripped_op_list : list OpDef) : Result unit * list OpDef :=
  match op_names with
  | [] => (Ok tt, stripped_op_list)
  | op_name :: rest =>
      match LookUp op_registry op_name with
      | Ok op =>
          stripped_loop op_registry rest
            (stripped_op_list ++ [RemoveDescriptionsFromOpDef op])
      | Err c => (Err c, stripped_op_list)
      | Thrown => (Thrown, stripped_op_list)
      | NoFuel => (NoFuel, stripped_op_list)
      end
  end.

(** [StrippedOpListForGraph]; [stripped_op_list] is the content of the
    caller's list, which [clear_op] discards. *)
Definition StrippedOpListForGraph (graph_def : GraphDef) (op_registry : R)
    (stripped_op_list : list OpDef) : Result unit * list OpDef :=
  stripped_loop op_registry (used_ops graph_def) [].

End Registries.

(** The attribute of that name in a signature, for the examples. *)
Definition find_attr (attr_name : string) (op_def : OpDef) : option AttrDef :=
  snd <$> list_find (fun a => ad_name a = attr_name) (od_attr op_def).

(** Equality of the attribute values that occur in the examples. *)
Definition same_string_attr (a b : AttrValue) : bool :=
  match a, b with
  | AttrString s, AttrString t => bool_decide (s = t)
  | _, _ => false
  end.

(** A consumer that knows the operation ["Conv"] without its ["padding"]. *)
Definition old_registry : gmap string OpDef :=
  {[ "Conv" := mkOpDef "Conv" [mkAttrDef "T" None] ]}.

(** A graph written for that consumer. *)
Definition old_graph_def : GraphDef :=
  mkGraphDef
    [ mkNodeDef "a" "Conv" [] "" {[ "T" := AttrType DT_FLOAT ]};
      mkNodeDef "c" "Conv" ["a:0"] "" {[ "T" := AttrType DT_INT32 ]} ].

(** A graph written by a producer that knows ["padding"]: the first node
    carries its default, the second another value. *)
Definition loaded_graph_def : GraphDef :=
  mkGraphDef
    [ mkNodeDef "a" "Conv" [] ""
        {[ "T" := AttrType DT_FLOAT; "padding" := AttrString "SAME" ]};
      mkNodeDef "c" "Conv" ["a:0"] ""
        {[ "T" := AttrType DT_FLOAT; "padding" := AttrString "VALID" ]} ].

End GraphDefUtilMore.

(* ===================================================================== *)
(** * Theorems *)
(* ===================================================================== *)

(** ** The index mapping *)

Section IndexMappingFacts.
Import IndexMapping.
Local Open Scope Z_scope.

(** Number of non-resource entries, the companion of [count_resources]. *)
Lemma count_resources_bounds (l : list DataType) :
  0 <= count_resources l <= Z.of_nat (length l).
Proof.
  induction l as [|t l IH]; simpl; [lia|].
  destruct (is_resource t); lia.
Qed.

Lemma count_resources_app (l k : list DataType) :
  count_resources (l ++ k) = count_resources l + count_resources k.
Proof. induction l as [|t l IH]; simpl; [done|]. rewrite IH. lia. Qed.

Lemma length_assign_indices (l : list DataType) (a b : Z) :
  length (assign_indices a b l) = length l.
Proof.
  revert a b. induction l as [|t l IH]; intros a b; simpl; [done|].
  destruct (is_resource t); simpl; by rewrite IH.
Qed.

(** Closed form of the fourth loop: the entry written at position [k] is the
    start value of its class's counter plus the number of earlier entries of
    the same class. *)
Lemma assign_indices_lookup (l : list DataType) (a b : Z) (k : nat) (t : DataType) :
  l !! k = Some t ->
  assign_indices a b l !! k =
    Some (if is_resource t
          then b + count_resources (take k l)
          else a + (Z.of_nat k - count_resources (take k l))).
Proof.
  revert a b k. induction l as [|u l IH]; intros a b k Hk; [done|].
  destruct k as [|k]; simpl in *.
  - inversion Hk; subst u. destruct (is_resource t); simpl; f_equal; lia.
  - destruct (is_resource u) eqn:Hu; simpl; rewrite (IH _ _ _ Hk);
      destruct (is_resource t); f_equal; lia.
Qed.

(** Number of non-resource entries. *)
Lemma count_resources_take_mono (l : list DataType) (i j : nat) :
  (i <= j)%nat ->
  count_resources (take i l) <= count_resources (take j l)
  /\ Z.of_nat (length (take i l)) - count_resources (take i l)
     <= Z.of_nat (length (take j l)) - count_resources (take j l).
Proof.
  intros Hij.
  assert (take i l = take i (take j l)) as ->
    by (rewrite take_take; f_equal; lia).
  generalize (take j l) as k. intros k.
  pose proof (f_equal count_resources (take_drop i k)) as Hc.
  pose proof (f_equal length (take_drop i k)) as Hl.
  rewrite count_resources_app in Hc. rewrite length_app in Hl.
  pose proof (count_resources_bounds (drop i k)). lia.
Qed.

Lemma count_resources_take_S (l : list DataType) (i : nat) (t : DataType) :
  l !! i = Some t ->
  count_resources (take (S i) l)
  = count_resources (take i l) + (if is_resource t then 1 else 0).
Proof.
  intros Hi. rewrite (take_S_r _ _ _ Hi), count_resources_app. simpl. lia.
Qed.

(** Within one class the closed form is strictly increasing. *)
Lemma same_class_increasing (l : list DataType) (i j : nat) (ti tj : DataType) :
  (i < j)%nat -> l !! i = Some ti -> l !! j = Some tj ->
  (is_resource ti = true ->
     count_resources (take i l) < count_resources (take j l))
  /\ (is_resource ti = false ->
     Z.of_nat i - count_resources (take i l)
     < Z.of_nat j - count_resources (take j l)).
Proof.
  intros Hij Hi Hj.
  pose proof (count_resources_take_S l i ti Hi) as HS.
  pose proof (count_resources_take_mono l (S i) j ltac:(lia)) as [Hr Hn].
  apply lookup_lt_Some in Hi as Hli. apply lookup_lt_Some in Hj as Hlj.
  rewrite !length_take in Hn.
  split; intros Hc; rewrite Hc in HS; lia.
Qed.

Lemma count_resources_take_all (l : list DataType) (i : nat) (t : DataType) :
  l !! i = Some t ->
  (is_resource t = true ->
     count_resources (take i l) < count_resources l)
  /\ (is_resource t = false ->
     Z.of_nat i - count_resources (take i l)
     < Z.of_nat (length l) - count_resources l).
Proof.
  intros Hi.
  pose proof (count_resources_take_S l i t Hi) as HS.
  pose proof (count_resources_take_mono l (S i) (length l) ltac:(apply lookup_lt_Some in Hi; lia)) as [Hr Hn].
  apply lookup_lt_Some in Hi as Hli.
  rewrite firstn_all in Hr, Hn. rewrite length_take in Hn.
  split; intros Hc; rewrite Hc in HS; lia.
Qed.

(** Every value the fourth loop writes lies in the half of [0, n) reserved
    for its class; in particular no [int] computed by the function leaves
    [0, n]. *)
Lemma assign_indices_range (l : list DataType) (k : nat) (t : DataType) (y : Z) :
  l !! k = Some t ->
  assign_indices 0 (Z.of_nat (length l) - count_resources l) l !! k = Some y ->
  if is_resource t
  then Z.of_nat (length l) - count_resources l <= y < Z.of_nat (length l)
  else 0 <= y < Z.of_nat (length l) - count_resources l.
Proof.
  intros Hk Hy. rewrite (assign_indices_lookup _ _ _ _ _ Hk) in Hy.
  pose proof (count_resources_take_all l k t Hk) as [Hr Hn].
  pose proof (count_resources_bounds (take k l)) as Hb.
  apply lookup_lt_Some in Hk as Hlk. rewrite length_take in Hb.
  destruct (is_resource t); inversion Hy; subst y; [specialize (Hr eq_refl)|specialize (Hn eq_refl)]; lia.
Qed.

Lemma InputTypesNeedsRearrange_true (in_types : list DataType) (count0 : Z)
    (mapping0 : list Z) :
  need_rewrite (InputTypesNeedsRearrange in_types count0 mapping0) = true ->
  InputTypesNeedsRearrange in_types count0 mapping0
  = mkOutputs true (count_resources in_types)
      (assign_indices 0
         (Z.of_nat (length in_types) - count_resources in_types) in_types).
Proof.
  unfold InputTypesNeedsRearrange.
  destruct (decide _); [done|].
  destruct (negb _); done.
Qed.

Lemma assign_indices_injective (l : list DataType) (a b : Z) (i j : nat) (y : Z) :
  a + (Z.of_nat (length l) - count_resources l) <= b ->
  assign_indices a b l !! i = Some y ->
  assign_indices a b l !! j = Some y -> i = j.
Proof.
  intros Hab Hi Hj.
  destruct (l !! i) as [ti|] eqn:Hti.
  2:{ apply lookup_ge_None in Hti. apply lookup_lt_Some in Hi.
      rewrite length_assign_indices in Hi. lia. }
  destruct (l !! j) as [tj|] eqn:Htj.
  2:{ apply lookup_ge_None in Htj. apply lookup_lt_Some in Hj.
      rewrite length_assign_indices in Hj. lia. }
  rewrite (assign_indices_lookup _ _ _ _ _ Hti) in Hi.
  rewrite (assign_indices_lookup _ _ _ _ _ Htj) in Hj.
  pose proof (count_resources_take_all l i ti Hti) as [Hri Hni].
  pose proof (count_resources_take_all l j tj Htj) as [Hrj Hnj].
  pose proof (count_resources_bounds (take i l)) as Hbi.
  pose proof (count_resources_bounds (take j l)) as Hbj.
  destruct (Nat.lt_trichotomy i j) as [Hlt|[Heq|Hlt]]; [|done|].
  - pose proof (same_class_increasing l i j ti tj Hlt Hti Htj) as [Hr Hn].
    destruct (is_resource ti) eqn:Hci, (is_resource tj) eqn:Hcj;
      inversion Hi; inversion Hj; subst y;
      try specialize (Hr eq_refl); try specialize (Hn eq_refl);
      try specialize (Hri eq_refl); try specialize (Hni eq_refl);
      try specialize (Hrj eq_refl); try specialize (Hnj eq_refl); lia.
  - pose proof (same_class_increasing l j i tj ti Hlt Htj Hti) as [Hr Hn].
    destruct (is_resource ti) eqn:Hci, (is_resource tj) eqn:Hcj;
      inversion Hi; inversion Hj; subst y;
      try specialize (Hr eq_refl); try specialize (Hn eq_refl);
      try specialize (Hri eq_refl); try specialize (Hni eq_refl);
      try specialize (Hrj eq_refl); try specialize (Hnj eq_refl); lia.
Qed.

(** The mapping is a rearrangement of [0, 1, ..., n-1]. *)
Lemma assign_indices_Permutation (l : list DataType) :
  assign_indices 0 (Z.of_nat (length l) - count_resources l) l
  ≡ₚ seqZ 0 (Z.of_nat (length l)).
Proof.
  apply submseteq_length_Permutation.
  - apply NoDup_submseteq.
    + apply NoDup_alt. intros i j y. apply assign_indices_injective. lia.
    + intros y [k Hk]%list_elem_of_lookup. apply elem_of_seqZ.
      destruct (l !! k) as [t|] eqn:Ht.
      * pose proof (assign_indices_range l k t y Ht Hk) as Hr.
        pose proof (count_resources_bounds l).
        destruct (is_resource t); lia.
      * apply lookup_ge_None in Ht. apply lookup_lt_Some in Hk.
        rewrite length_assign_indices in Hk. lia.
  - rewrite length_seqZ, length_assign_indices. lia.
Qed.

Lemma is_resource_true (t : DataType) : is_resource t = true <-> t = DT_RESOURCE.
Proof. unfold is_resource. by rewrite bool_decide_eq_true. Qed.

Lemma is_resource_false (t : DataType) : is_resource t = false <-> t <> DT_RESOURCE.
Proof. unfold is_resource. by rewrite bool_decide_eq_false. Qed.

(** What the first loop returns. *)
Lemma first_resource_index_from_spec (l : list DataType) (i : Z) :
  0 <= i ->
  (first_resource_index_from i l = -1
   /\ forall (k : nat) (t : DataType), l !! k = Some t -> t <> DT_RESOURCE)
  \/ (exists k : nat,
        first_resource_index_from i l = i + Z.of_nat k
        /\ l !! k = Some DT_RESOURCE
        /\ forall (k' : nat) (t : DataType),
             (k' < k)%nat -> l !! k' = Some t -> t <> DT_RESOURCE).
Proof.
  revert i. induction l as [|u l IH]; intros i Hi; simpl.
  - left. split; [done|]. intros k t Hk. by rewrite lookup_nil in Hk.
  - destruct (is_resource u) eqn:Hu.
    + right. exists 0%nat. apply is_resource_true in Hu. subst u.
      split; [lia|]. split; [done|]. intros k' t Hk'. lia.
    + apply is_resource_false in Hu.
      destruct (IH (i + 1) ltac:(lia)) as [[H1 H2]|(k & H1 & H2 & H3)].
      * left. split; [done|]. intros [|k] t Hk; simpl in Hk; [by inversion Hk; subst|eauto].
      * right. exists (S k). split; [lia|]. split; [done|].
        intros [|k'] t Hlt Hk'; simpl in Hk'; [by inversion Hk'; subst|].
        apply (H3 k' t); [lia|done].
Qed.

(** [need_rewrite] is set exactly when some non-resource entry comes after
    some resource entry, that is, when the resources are not all contiguous
    at the end. *)
Lemma need_rewrite_iff (in_types : list DataType) (count0 : Z) (mapping0 : list Z) :
  need_rewrite (InputTypesNeedsRearrange in_types count0 mapping0) = true
  <-> exists (i j : nat) (t : DataType),
        (i < j)%nat /\ in_types !! i = Some DT_RESOURCE
        /\ in_types !! j = Some t /\ t <> DT_RESOURCE.
Proof.
  unfold InputTypesNeedsRearrange, first_resource_index, non_resource_after.
  destruct (first_resource_index_from_spec in_types 0 ltac:(lia))
    as [[H1 H2]|(k & H1 & H2 & H3)]; rewrite H1.
  - rewrite decide_True by done. simpl. split; [done|].
    intros (i & j & t & _ & Hi & _). by apply H2 in Hi.
  - rewrite decide_False by lia.
    replace (Z.to_nat (0 + Z.of_nat k + 1)) with (S k) by lia.
    destruct (existsb _ _) eqn:He; simpl.
    + split; [intros _|done].
      apply existsb_exists in He as (t & Hin & Ht).
      apply list_elem_of_In, list_elem_of_lookup in Hin as [j Hj].
      rewrite lookup_drop in Hj.
      exists k, (S k + j)%nat, t. split; [lia|]. split; [done|]. split; [done|].
      apply is_resource_false. by destruct (is_resource t).
    + split; [done|]. intros (i & j & t & Hij & Hi & Hj & Ht).
      assert (k <= i)%nat as Hki.
      { destruct (decide (k <= i)%nat); [done|].
        exfalso. apply (H3 i DT_RESOURCE); [lia|done..]. }
      assert (existsb (fun t => negb (is_resource t)) (drop (S k) in_types) = true)
        as He'; [|congruence].
      apply existsb_exists. exists t. split.
      * apply list_elem_of_In, list_elem_of_lookup. exists (j - S k)%nat.
        rewrite lookup_drop. by replace (S k + (j - S k))%nat with j by lia.
      * apply is_resource_false in Ht. by rewrite Ht.
Qed.

(** C1.  Whenever the resource entries of [in_types] are not all contiguous
    at the end (some non-resource entry follows a resource entry),
    [InputTypesNeedsRearrange] sets [need_rewrite], and the [index_mapping]
    it computes has one entry per input and is a bijection on [0, n): every
    entry lies in [0, n), no value is hit twice, and every value of [0, n) is
    hit.  It is stable: two positions of the same class (both resource or
    both non-resource) keep their relative order.  Every resource position
    is sent to an index at least [n - resource_input_count], where the count
    returned is the number of resource entries.  For
    [float, resource, float, resource] the mapping is 0->0, 1->2, 2->1,
    3->3. *)
Theorem index_mapping_is_stable_bijection (in_types : list DataType)
    (count0 : Z) (mapping0 : list Z) :
  let out := InputTypesNeedsRearrange in_types count0 mapping0 in
  let n := Z.of_nat (length in_types) in
  (exists (i j : nat) (t : DataType),
      (i < j)%nat /\ in_types !! i = Some DT_RESOURCE
      /\ in_types !! j = Some t /\ t <> DT_RESOURCE) ->
  need_rewrite out = true
  /\ length (index_mapping out) = length in_types
  /\ resource_input_count out = count_resources in_types
  /\ (forall i : nat, (i < length in_types)%nat ->
        exists y, index_mapping out !! i = Some y /\ 0 <= y < n)
  /\ (forall (i j : nat) (y : Z),
        index_mapping out !! i = Some y -> index_mapping out !! j = Some y ->
        i = j)
  /\ (forall y : Z, 0 <= y < n -> exists i : nat, index_mapping out !! i = Some y)
  /\ (forall (i j : nat) (ti tj : DataType) (yi yj : Z),
        (i < j)%nat ->
        in_types !! i = Some ti -> in_types !! j = Some tj ->
        is_resource ti = is_resource tj ->
        index_mapping out !! i = Some yi -> index_mapping out !! j = Some yj ->
        yi < yj)
  /\ (forall (i : nat) (y : Z),
        in_types !! i = Some DT_RESOURCE -> index_mapping out !! i = Some y ->
        n - resource_input_count out <= y)
  /\ index_mapping
       (InputTypesNeedsRearrange [DT_FLOAT; DT_RESOURCE; DT_FLOAT; DT_RESOURCE]
          count0 mapping0)
     = [0; 2; 1; 3].
Proof.
  intros out n Hneed%(need_rewrite_iff _ count0 mapping0). subst out n.
  rewrite (InputTypesNeedsRearrange_true _ _ _ Hneed). simpl.
  split; [done|]. split; [apply length_assign_indices|]. split; [done|].
  split.
  { intros i Hi. destruct (lookup_lt_is_Some_2 in_types i Hi) as [t Ht].
    rewrite (assign_indices_lookup _ _ _ _ _ Ht). eexists; split; [done|].
    pose proof (assign_indices_range in_types i t _ Ht
                  (assign_indices_lookup _ _ _ _ _ Ht)) as Hr.
    pose proof (count_resources_bounds in_types).
    destruct (is_resource t); lia. }
  split.
  { intros i j y. apply assign_indices_injective. lia. }
  split.
  { intros y Hy. apply list_elem_of_lookup.
    rewrite assign_indices_Permutation. apply elem_of_seqZ. lia. }
  split.
  { intros i j ti tj yi yj Hij Hti Htj Hcls Hi Hj.
    rewrite (assign_indices_lookup _ _ _ _ _ Hti) in Hi.
    rewrite (assign_indices_lookup _ _ _ _ _ Htj) in Hj.
    pose proof (same_class_increasing in_types i j ti tj Hij Hti Htj) as [Hr Hn].
    rewrite <- Hcls in Hj.
    destruct (is_resource ti); inversion Hi; inversion Hj; subst;
      [specialize (Hr eq_refl)|specialize (Hn eq_refl)]; lia. }
  split; [|done].
  intros i y Ht Hy.
  pose proof (assign_indices_range in_types i _ y Ht Hy) as Hr. simpl in Hr. lia.
Qed.

Lemma index_mapping_is_stable_bijection_witness :
  let in_types := [DT_FLOAT; DT_RESOURCE; DT_FLOAT; DT_RESOURCE] in
  need_rewrite (InputTypesNeedsRearrange in_types 0 []) = true
  /\ index_mapping (InputTypesNeedsRearrange in_types 0 []) = [0; 2; 1; 3].
Proof.
  split;
    apply (index_mapping_is_stable_bijection
             [DT_FLOAT; DT_RESOURCE; DT_FLOAT; DT_RESOURCE] 0 []);
    exists 1%nat, 2%nat, DT_FLOAT; repeat split; (lia || done).
Defined.

End IndexMappingFacts.

(** ** Default attributes *)

Section AddDefaultsFacts.
Import GraphDefUtil.

Lemma AddDefaultsToNodeDef_fold (op_def : OpDef) (nd : NodeDef) :
  AddDefaultsToNodeDef op_def nd = foldl add_default_step nd (od_attr op_def).
Proof. reflexivity. Qed.

Lemma add_default_step_op (nd : NodeDef) (a : AttrDef) :
  nd_op (add_default_step nd a) = nd_op nd.
Proof.
  unfold add_default_step.
  destruct (ad_default_value a); [|done]. by destruct (nd_attr nd !! ad_name a).
Qed.

Lemma add_default_step_keeps (nd : NodeDef) (a : AttrDef) (k : string) :
  is_Some (nd_attr nd !! k) -> is_Some (nd_attr (add_default_step nd a) !! k).
Proof.
  intros Hk. unfold add_default_step.
  destruct (ad_default_value a); [|done].
  destruct (nd_attr nd !! ad_name a) eqn:E; [done|]. simpl.
  rewrite lookup_insert. by case_decide.
Qed.

Lemma fold_add_default_keeps (l : list AttrDef) (nd : NodeDef) (k : string) :
  is_Some (nd_attr nd !! k) ->
  is_Some (nd_attr (foldl add_default_step nd l) !! k).
Proof.
  revert nd. induction l as [|a l IH]; intros nd Hk; simpl; [done|].
  by apply IH, add_default_step_keeps.
Qed.

(** After the fold every attribute with a default is present. *)
Lemma fold_add_default_present (l : list AttrDef) (nd : NodeDef) (a : AttrDef) :
  a ∈ l -> is_Some (ad_default_value a) ->
  is_Some (nd_attr (foldl add_default_step nd l) !! ad_name a).
Proof.
  revert nd. induction l as [|b l IH]; intros nd Hin [v Hv]; [by apply elem_of_nil in Hin|].
  apply elem_of_cons in Hin as [->|Hin]; simpl; [|by apply IH].
  apply fold_add_default_keeps. unfold add_default_step. rewrite Hv.
  destruct (nd_attr nd !! ad_name b) eqn:E; simpl; [by rewrite E|].
  by rewrite lookup_insert_eq.
Qed.

(** A node that already carries every defaulted attribute is left as is. *)
Lemma fold_add_default_saturated (l : list AttrDef) (nd : NodeDef) :
  (forall a, a ∈ l -> is_Some (ad_default_value a) ->
             is_Some (nd_attr nd !! ad_name a)) ->
  foldl add_default_step nd l = nd.
Proof.
  induction l as [|b l IH]; intros Hsat; simpl; [done|].
  assert (add_default_step nd b = nd) as ->.
  { unfold add_default_step. destruct (ad_default_value b) eqn:E; [|done].
    destruct (Hsat b) as [w Hw]; [apply elem_of_cons; by left|done|by rewrite Hw]. }
  apply IH. intros a Ha. apply Hsat, elem_of_cons. by right.
Qed.

Lemma AddDefaultsToNodeDef_op (op_def : OpDef) (nd : NodeDef) :
  nd_op (AddDefaultsToNodeDef op_def nd) = nd_op nd.
Proof.
  rewrite AddDefaultsToNodeDef_fold. generalize (od_attr op_def) as l.
  intros l. revert nd. induction l as [|a l IH]; intros nd; simpl; [done|].
  by rewrite IH, add_default_step_op.
Qed.

Lemma AddDefaultsToNodeDef_idempotent (op_def : OpDef) (nd : NodeDef) :
  AddDefaultsToNodeDef op_def (AddDefaultsToNodeDef op_def nd)
  = AddDefaultsToNodeDef op_def nd.
Proof.
  rewrite !AddDefaultsToNodeDef_fold. apply fold_add_default_saturated.
  intros a Ha Hd. by apply fold_add_default_present.
Qed.

Context {R : Type} `{OpRegistryInterface R}.

(** The loop only writes at positions from [i] on and keeps the length. *)
Lemma add_defaults_loop_frame (op_registry : R) (remaining i : nat)
    (nodes nodes' : list NodeDef) (s : Result unit) :
  add_defaults_loop op_registry remaining i nodes = (s, nodes') ->
  length nodes' = length nodes
  /\ forall k : nat, k < i -> nodes' !! k = nodes !! k.
Proof.
  revert i nodes. induction remaining as [|n IH]; intros i nodes Hrun; simpl in Hrun.
  { by inversion Hrun. }
  destruct (nodes !! i) as [nd|] eqn:Hi; [|by inversion Hrun].
  destruct (LookUp op_registry (nd_op nd)) as [od|c| |]; [|by inversion Hrun..].
  apply IH in Hrun as [Hlen Hlow]. rewrite length_insert in Hlen.
  split; [done|]. intros k Hk. rewrite Hlow by lia.
  apply list_lookup_insert_ne. lia.
Qed.

(** Running the loop again from the state it produced changes nothing. *)
Lemma add_defaults_loop_idempotent (op_registry : R) (remaining i : nat)
    (nodes nodes' : list NodeDef) (s : Result unit) :
  add_defaults_loop op_registry remaining i nodes = (s, nodes') ->
  add_defaults_loop op_registry remaining i nodes' = (s, nodes').
Proof.
  revert i nodes. induction remaining as [|n IH]; intros i nodes Hrun; simpl in *.
  { by inversion Hrun. }
  destruct (nodes !! i) as [nd|] eqn:Hi.
  2:{ inversion Hrun; subst. by rewrite Hi. }
  destruct (LookUp op_registry (nd_op nd)) as [od|c| |] eqn:Hop.
  2,3,4: inversion Hrun; subst; by rewrite Hi, Hop.
  pose proof (add_defaults_loop_frame _ _ _ _ _ _ Hrun) as [_ Hlow].
  specialize (Hlow i ltac:(lia)).
  rewrite list_lookup_insert_eq in Hlow by (by apply lookup_lt_Some in Hi).
  rewrite Hlow, AddDefaultsToNodeDef_op, Hop, AddDefaultsToNodeDef_idempotent.
  rewrite list_insert_id by done. by apply IH in Hrun.
Qed.

(** C9.  [AddDefaultAttrsToGraphDef] with a node offset leaves every node
    before the offset exactly as it was (and keeps the number of nodes),
    whatever status it returns; and it is idempotent: run again on the graph
    it produced, with the same registry and offset, it returns the same
    status and the identical graph. *)
Theorem AddDefaultAttrsToGraphDef_frame_idempotent (graph_def : GraphDef)
    (op_registry : R) (node_offset : nat) :
  let r := AddDefaultAttrsToGraphDef graph_def op_registry node_offset in
  node_size (snd r) = node_size graph_def
  /\ (forall k : nat, k < node_offset ->
        node (snd r) !! k = node graph_def !! k)
  /\ take node_offset (node (snd r)) = take node_offset (node graph_def)
  /\ AddDefaultAttrsToGraphDef (snd r) op_registry node_offset = r.
Proof.
  unfold AddDefaultAttrsToGraphDef, node_size.
  destruct (decide (length (node graph_def) < node_offset)) as [Hoff|Hoff]; simpl.
  { rewrite decide_True by done. by destruct graph_def. }
  destruct (add_defaults_loop _ _ _ _) as [s nodes] eqn:Hrun. simpl.
  pose proof (add_defaults_loop_frame _ _ _ _ _ _ Hrun) as [Hlen Hlow].
  split; [done|]. split; [done|]. split.
  { apply list_eq. intros k. destruct (decide (k < node_offset)).
    - rewrite !lookup_take_lt by done. by apply Hlow.
    - rewrite !lookup_take_ge by lia. done. }
  rewrite Hlen, decide_False by done.
  by rewrite (add_defaults_loop_idempotent _ _ _ _ _ _ Hrun).
Qed.

End AddDefaultsFacts.

(** ** Monadic reasoning *)

Section MonadFacts.
Import Vocabulary.
Context {S : Type}.

Lemma invariant_ret {A} (I : S -> Prop) (a : A) : invariant I (ret a).
Proof. by intros s Hs. Qed.

Lemma invariant_lift {A} (I : S -> Prop) (r : Result A) : invariant I (lift r).
Proof. by intros s Hs. Qed.

Lemma invariant_fail {A} (I : S -> Prop) (c : Code) : invariant I (fail (A:=A) c).
Proof. by intros s Hs. Qed.

Lemma invariant_get (I : S -> Prop) : invariant I get.
Proof. by intros s Hs. Qed.

Lemma invariant_gets {A} (I : S -> Prop) (f : S -> A) : invariant I (gets f).
Proof. by intros s Hs. Qed.

Lemma invariant_modify (I : S -> Prop) (f : S -> S) :
  (forall s, I s -> I (f s)) -> invariant I (modify f).
Proof. intros Hf s Hs. by apply Hf. Qed.

Lemma invariant_bind {A B} (I : S -> Prop) (m : M S A) (k : A -> M S B) :
  invariant I m -> (forall a, invariant I (k a)) -> invariant I (bind m k).
Proof.
  intros Hm Hk s Hs. unfold bind. specialize (Hm s Hs).
  destruct (m s) as [[a|c| |] s']; simpl in *; [by apply Hk|done..].
Qed.

Lemma invariant_for_each {A} (I : S -> Prop) (l : list A) (body : A -> M S unit) :
  (forall a, a ∈ l -> invariant I (body a)) -> invariant I (for_each l body).
Proof.
  induction l as [|a l IH]; intros Hbody; simpl; [apply invariant_ret|].
  apply invariant_bind; [apply Hbody; by left|].
  intros _. apply IH. intros b Hb. apply Hbody. by right.
Qed.

Lemma invariant_for_each_indexed {A} (I : S -> Prop) (l : list A) (i : Z)
    (body : Z -> A -> M S unit) :
  (forall j a, a ∈ l -> invariant I (body j a)) ->
  invariant I (Rewriter.for_each_indexed i l body).
Proof.
  revert i. induction l as [|a l IH]; intros i Hbody; simpl; [apply invariant_ret|].
  apply invariant_bind; [apply Hbody; by left|].
  intros _. apply IH. intros j b Hb. apply Hbody. by right.
Qed.

Lemma invariant_fold_each {A B} (I : S -> Prop) (l : list A) (b : B)
    (body : A -> B -> M S B) :
  (forall a b', invariant I (body a b')) ->
  invariant I (Pass.fold_each l b body).
Proof.
  intros Hbody. revert b. induction l as [|a l IH]; intros b; simpl;
    [apply invariant_ret|].
  apply invariant_bind; [apply Hbody|]. intros b'. apply IH.
Qed.

(** The value bound from a state-free call is what that call returned. *)
Lemma invariant_bind_lift {A B} (I : S -> Prop) (r : Result A) (k : A -> M S B) :
  (forall a, r = Ok a -> invariant I (k a)) -> invariant I (bind (lift r) k).
Proof.
  intros Hk s Hs. unfold bind, lift. destruct r as [a|c| |]; simpl; [|done..].
  by apply Hk.
Qed.

(** The value bound from [get] is the current state. *)
Lemma invariant_bind_get {B} (I : S -> Prop) (k : S -> M S B) :
  (forall s, I s -> I (k s s).2) -> invariant I (bind get k).
Proof. intros Hk s Hs. unfold bind, get. simpl. by apply Hk. Qed.

Lemma yields_ret {A} (Q : A -> Prop) (a : A) : Q a -> yields (S:=S) (ret a) Q.
Proof. intros Ha s a'. simpl. by intros [= <-]. Qed.

Lemma yields_bind {A B} (m : M S A) (k : A -> M S B) (Q : B -> Prop) :
  (forall a, yields (k a) Q) -> yields (bind m k) Q.
Proof.
  intros Hk s b. unfold bind. destruct (m s) as [[a|c| |] s']; simpl; [|done..].
  apply Hk.
Qed.

Lemma yields_bind_yields {A B} (m : M S A) (k : A -> M S B) (P : A -> Prop)
    (Q : B -> Prop) :
  yields m P -> (forall a, P a -> yields (k a) Q) -> yields (bind m k) Q.
Proof.
  intros Hm Hk s b. unfold bind. specialize (Hm s).
  destruct (m s) as [[a|c| |] s']; simpl in *; [|done..].
  by apply Hk, Hm.
Qed.

Lemma yields_bind_lift {A B} (r : Result A) (k : A -> M S B) (Q : B -> Prop) :
  (forall a, r = Ok a -> yields (k a) Q) -> yields (bind (lift r) k) Q.
Proof.
  intros Hk s b. unfold bind, lift. destruct r as [a|c| |]; simpl; [|done..].
  by apply Hk.
Qed.

Lemma yields_fold_each {A B} (l : list A) (b : B) (body : A -> B -> M S B)
    (Q : B -> Prop) :
  Q b -> (forall a b', Q b' -> yields (body a b') Q) ->
  yields (Pass.fold_each l b body) Q.
Proof.
  intros Hb Hbody. revert b Hb. induction l as [|a l IH]; intros b Hb; simpl.
  - by apply yields_ret.
  - intros s b'. unfold bind.
    destruct (body a b s) as [[b1|c| |] s'] eqn:E; simpl; [|done..].
    apply IH. eapply (Hbody a b Hb s). by rewrite E.
Qed.

(** The continuation of a bind only sees values its first part returns. *)
Lemma invariant_bind_yields {A B} (I : S -> Prop) (Q : A -> Prop) (m : M S A)
    (k : A -> M S B) :
  yields m Q -> invariant I m -> (forall a, Q a -> invariant I (k a)) ->
  invariant I (bind m k).
Proof.
  intros HQ Hm Hk s Hs. unfold bind. specialize (Hm s Hs). specialize (HQ s).
  destruct (m s) as [[a|c| |] s']; simpl in *; [|done..].
  by apply Hk; [apply HQ|].
Qed.

End MonadFacts.
(** ** Facts about the graph store *)

Section GraphFacts.
Import GraphStore Rewriter Vocabulary.

Lemma elem_of_live_from {A} (arena : list (option A)) (k i : nat) (a : A) :
  (i, a) ∈ live_from k arena <-> k <= i /\ arena !! (i - k) = Some (Some a).
Proof.
  revert k. induction arena as [|[b|] arena IH]; intros k; simpl.
  - rewrite elem_of_nil. split; [done|]. intros [_ H]. by rewrite lookup_nil in H.
  - rewrite elem_of_cons, IH. split.
    + intros [Heq|[Hk Hl]].
      * inversion Heq; subst. split; [lia|]. by rewrite Nat.sub_diag.
      * split; [lia|]. by replace (i - k) with (S (i - S k)) by lia.
    + intros [Hk Hl]. destruct (decide (i = k)) as [->|Hne].
      * rewrite Nat.sub_diag in Hl. left. by inversion Hl.
      * right. split; [lia|]. by replace (i - k) with (S (i - S k)) in Hl by lia.
  - rewrite IH. split.
    + intros [Hk Hl]. split; [lia|]. by replace (i - k) with (S (i - S k)) by lia.
    + intros [Hk Hl]. destruct (decide (i = k)) as [->|Hne].
      * by rewrite Nat.sub_diag in Hl.
      * split; [lia|]. by replace (i - k) with (S (i - S k)) in Hl by lia.
Qed.

Lemma elem_of_edges (g : Graph) (i : nat) (e : Edge) :
  (i, e) ∈ edges g <-> edges_ g !! i = Some (Some e).
Proof.
  unfold edges. rewrite elem_of_live_from, Nat.sub_0_r.
  split; [by intros [_ ?]|]. intros ?. split; [lia|done].
Qed.

Lemma elem_of_nodes (g : Graph) (i : nat) (nd : Node) :
  (i, nd) ∈ nodes g <-> find_node g i = Some nd.
Proof.
  unfold nodes, find_node. rewrite elem_of_live_from, Nat.sub_0_r.
  destruct (nodes_ g !! i) as [[?|]|]; simpl;
    (split; [intros [_ ?]|intros ?; split; [lia|]]); congruence.
Qed.

Lemma live_from_app_holes {A} (arena : list (option A)) (k n : nat) :
  live_from k (arena ++ replicate n None) = live_from k arena.
Proof.
  revert k. induction arena as [|[a|] arena IH]; intros k; simpl.
  - revert k. induction n as [|n IHn]; intros k; simpl; [done|]. apply IHn.
  - by rewrite IH.
  - apply IH.
Qed.

Lemma filter_live_from (keep : Edge -> bool) (arena : list (option Edge)) (k : nat) :
  filter (fun p : nat * Edge => keep p.2) (live_from k arena)
  = live_from k (view keep arena).
Proof.
  revert k. induction arena as [|[e|] arena IH]; intros k; simpl; [done| |apply IH].
  destruct (keep e) eqn:He.
  - rewrite filter_cons_True by (simpl; rewrite He; exact I). by rewrite IH.
  - rewrite filter_cons_False by (simpl; rewrite He; exact id). apply IH.
Qed.

(** Graphs with the same selected edges give the same filtered edge list. *)
Lemma same_selected_filter (keep : Edge -> bool) (g0 g : Graph) :
  same_selected keep g0 g ->
  filter (fun p : nat * Edge => keep p.2) (edges g)
  = filter (fun p : nat * Edge => keep p.2) (edges g0).
Proof.
  intros [k Hk]. unfold edges. by rewrite !filter_live_from, Hk, live_from_app_holes.
Qed.

Lemma same_selected_refl (keep : Edge -> bool) (g : Graph) : same_selected keep g g.
Proof. exists 0. by rewrite app_nil_r. Qed.

Lemma same_selected_trans (keep : Edge -> bool) (g0 g1 g2 : Graph) :
  same_selected keep g0 g1 -> same_selected keep g1 g2 -> same_selected keep g0 g2.
Proof.
  intros [k1 H1] [k2 H2]. exists (k1 + k2).
  by rewrite H2, H1, <- app_assoc, replicate_add.
Qed.

Lemma same_selected_edges_eq (keep : Edge -> bool) (g0 g g' : Graph) :
  edges_ g' = edges_ g -> same_selected keep g0 g -> same_selected keep g0 g'.
Proof. intros He [k Hk]. exists k. by rewrite He. Qed.

Lemma view_lookup_kept (keep : Edge -> bool) (arena : list (option Edge))
    (i : nat) (e : Edge) :
  view keep arena !! i = Some (Some e)
  <-> arena !! i = Some (Some e) /\ keep e = true.
Proof.
  unfold view. rewrite list_lookup_fmap.
  destruct (arena !! i) as [[e'|]|]; simpl;
    [|split; [intros ?|intros [? _]]; congruence..].
  destruct (keep e') eqn:He'; (split; [intros ?|intros [? ?]]);
    try split; congruence.
Qed.

Lemma view_lookup_dropped (keep : Edge -> bool) (arena : list (option Edge))
    (i : nat) (e : Edge) :
  arena !! i = Some (Some e) -> keep e = false -> view keep arena !! i = Some None.
Proof.
  intros Hi He. unfold view. by rewrite list_lookup_fmap, Hi; simpl; rewrite He.
Qed.

(** A selected edge of [g] is the same edge of [g0]. *)
Lemma same_selected_lookup (keep : Edge -> bool) (g0 g : Graph) (i : nat) (e : Edge) :
  same_selected keep g0 g -> edges_ g !! i = Some (Some e) -> keep e = true ->
  edges_ g0 !! i = Some (Some e).
Proof.
  intros [k Hk] Hi He.
  assert (view keep (edges_ g) !! i = Some (Some e)) as Hv
    by by apply view_lookup_kept.
  rewrite Hk in Hv. apply lookup_app_Some in Hv as [Hv|[_ Hv]].
  - by apply view_lookup_kept in Hv as [? _].
  - apply lookup_replicate in Hv as [? _]. done.
Qed.

(** Adding an edge that is not selected. *)
Lemma same_selected_AddEdge (keep : Edge -> bool) (g0 g : Graph)
    (s : nat) (x : Z) (d : nat) (y : Z) :
  keep (mkEdge s x d y) = false ->
  same_selected keep g0 g -> same_selected keep g0 (AddEdge g s x d y).
Proof.
  intros He [k Hk]. exists (S k). unfold AddEdge, view in *. simpl.
  rewrite fmap_app, Hk. simpl. rewrite He, <- app_assoc. f_equal.
  by rewrite <- replicate_S_end.
Qed.

Lemma edges_SetAttr (g : Graph) (n : nat) (key : string) (v : AttrValue) :
  edges_ (SetAttr g n key v) = edges_ g.
Proof. unfold SetAttr. by destruct (find_node g n). Qed.

End GraphFacts.
(** ** The edge-reordering primitives *)

Section EdgeRewriterFacts.
Import GraphStore Rewriter Vocabulary.
Local Open Scope Z_scope.

Lemma same_selected_RemoveEdge (keep : Edge -> bool) (g0 g : Graph) (i : nat) :
  view keep (edges_ g) !! i = Some None ->
  same_selected keep g0 g -> same_selected keep g0 (RemoveEdge g i).
Proof.
  intros Hi [k Hk]. exists k. unfold RemoveEdge. simpl.
  rewrite <- Hk. unfold view in *. rewrite list_fmap_insert. simpl.
  by apply list_insert_id.
Qed.

(** A hole of the view stays a hole in every graph with the same selected
    edges. *)
Lemma same_selected_hole (keep : Edge -> bool) (g1 g : Graph) (i : nat) :
  same_selected keep g1 g -> view keep (edges_ g1) !! i = Some None ->
  view keep (edges_ g) !! i = Some None.
Proof. intros [k Hk] Hi. rewrite Hk. by apply lookup_app_l_Some. Qed.

Lemma snapshot_hole (keep : Edge -> bool) (g1 g : Graph) (i : nat) (e : Edge) :
  same_selected keep g1 g -> (i, e) ∈ edges g1 -> keep e = false ->
  view keep (edges_ g) !! i = Some None.
Proof.
  intros Hg Hi%elem_of_edges He. eapply same_selected_hole; [done|].
  by eapply view_lookup_dropped.
Qed.

Lemma elem_of_non_control (l : list (nat * Edge)) (p : nat * Edge) :
  p ∈ non_control l <-> p ∈ l /\ IsControlEdge p.2 = false.
Proof.
  unfold non_control. rewrite list_elem_of_filter.
  destruct (IsControlEdge p.2); simpl; split; intros [? ?]; done.
Qed.

Lemma elem_of_in_edges (g : Graph) (n : nat) (p : nat * Edge) :
  p ∈ in_edges g n <-> p ∈ edges g /\ dst p.2 = n.
Proof. unfold in_edges. rewrite list_elem_of_filter. tauto. Qed.

Lemma elem_of_out_edges (g : Graph) (n : nat) (p : nat * Edge) :
  p ∈ out_edges g n <-> p ∈ edges g /\ src p.2 = n.
Proof. unfold out_edges. rewrite list_elem_of_filter. tauto. Qed.

Lemma vector_at_elem_of {A} (v : list A) (i : Z) (a : A) :
  vector_at v i = Ok a -> a ∈ v /\ v !! Z.to_nat i = Some a /\ 0 <= i.
Proof.
  unfold vector_at. destruct (decide (0 <= i)); [|done].
  destruct (v !! Z.to_nat i) eqn:E; [|done]. intros [= ->].
  split; [by eapply list_elem_of_lookup_2|done].
Qed.

Lemma input_edge_Ok (g : Graph) (n : nat) (idx : Z) (p : nat * Edge) :
  input_edge g n idx = Ok p ->
  p ∈ edges g /\ dst p.2 = n /\ dst_input p.2 = idx /\ 0 <= idx.
Proof.
  unfold input_edge. destruct (decide (idx < 0)); [done|].
  destruct (list_find _ _) as [[k q]|] eqn:E; [|done]. intros [= ->].
  apply list_find_Some in E as (Hk & Hq & _).
  apply list_elem_of_lookup_2, elem_of_in_edges in Hk as [? ?].
  repeat split; [done..|lia].
Qed.

(** In a graph whose control edges have no destination slot, the edge
    feeding an input slot is a data edge. *)
Lemma input_edge_non_control (g : Graph) (n : nat) (idx : Z) (p : nat * Edge) :
  control_edges_unslotted g -> input_edge g n idx = Ok p ->
  IsControlEdge p.2 = false.
Proof.
  intros Hg (Hp & _ & Hslot & Hidx)%input_edge_Ok.
  destruct p as [i e]. apply elem_of_edges in Hp. simpl in *.
  destruct (IsControlEdge e) eqn:He; [|done].
  specialize (Hg i e Hp He). unfold kControlSlot in Hg. lia.
Qed.

Lemma same_selected_unslotted (g0 g : Graph) :
  control_edges_unslotted g0 -> same_selected IsControlEdge g0 g ->
  control_edges_unslotted g.
Proof.
  intros H0 Hg i e Hi He. apply (H0 i e); [|done].
  by eapply same_selected_lookup.
Qed.

(** The shape shared by the edge loops: a snapshot of the current graph is
    taken, then each collected edge is treated in turn. *)
Lemma snapshot_loop_invariant {A} (keep : Edge -> bool)
    (snapshot : Graph -> list A) (body : A -> M Graph unit) (g0 : Graph) :
  (forall g1 a, same_selected keep g0 g1 -> a ∈ snapshot g1 ->
                invariant (same_selected keep g1) (body a)) ->
  invariant (same_selected keep g0)
    (bind get (fun g1 => for_each (snapshot g1) body)).
Proof.
  intros Hbody g1 Hg1. unfold bind, get. simpl.
  eapply same_selected_trans; [done|].
  apply invariant_for_each; [|apply same_selected_refl].
  intros a Ha. by apply Hbody.
Qed.

Lemma IsControlEdge_mkEdge (s : nat) (x : Z) (d : nat) (y : Z) :
  x <> kControlSlot -> IsControlEdge (mkEdge s x d y) = false.
Proof. intros Hx. unfold IsControlEdge. simpl. by apply bool_decide_eq_false. Qed.

Lemma IsControlEdge_false (e : Edge) :
  IsControlEdge e = false -> src_output e <> kControlSlot.
Proof. unfold IsControlEdge. by intros ?%bool_decide_eq_false. Qed.

(** [ReorderInputEdges] keeps the control edges, for every mapping and
    every outcome. *)
Lemma ReorderInputEdges_control (n : nat) (index_mapping : list Z) (g0 : Graph) :
  invariant (same_selected IsControlEdge g0) (ReorderInputEdges n index_mapping).
Proof.
  apply (snapshot_loop_invariant IsControlEdge
           (fun g1 => non_control (in_edges g1 n))).
  intros g1 [i e] _ [[Hi _]%elem_of_in_edges He]%elem_of_non_control. simpl in *.
  apply invariant_bind; [apply invariant_lift|]. intros y.
  apply invariant_modify. intros g Hg.
  apply same_selected_AddEdge; [by apply IsControlEdge_mkEdge, IsControlEdge_false|].
  apply same_selected_RemoveEdge; [|done]. by eapply snapshot_hole.
Qed.

(** [ReorderOutputEdges] keeps the control edges when no entry of the
    mapping is negative. *)
Lemma ReorderOutputEdges_control (n : nat) (input_count count : Z)
    (index_mapping : list Z) (g0 : Graph) :
  control_edges_unslotted g0 ->
  Forall (fun y => 0 <= y) index_mapping ->
  invariant (same_selected IsControlEdge g0)
    (ReorderOutputEdges n input_count count index_mapping).
Proof.
  intros Hun Hmap.
  apply (snapshot_loop_invariant IsControlEdge
           (fun g1 => non_control (out_edges g1 n))).
  intros g1 [i e] Hg1 [[Hi _]%elem_of_out_edges He]%elem_of_non_control.
  simpl in *.
  apply invariant_bind_lift. intros y [Hy _]%vector_at_elem_of.
  rewrite Forall_forall in Hmap. specialize (Hmap y Hy).
  apply invariant_bind.
  { apply invariant_modify. intros g Hg.
    apply same_selected_RemoveEdge; [|done]. by eapply snapshot_hole. }
  intros _. destruct (decide _).
  - apply invariant_modify. intros g Hg. apply same_selected_AddEdge; [|done].
    apply IsControlEdge_mkEdge. unfold kControlSlot. lia.
  - apply invariant_bind_get. intros g Hg.
    apply invariant_bind_lift; [|done]. intros ie Hie.
    apply invariant_modify. intros g' Hg'. apply same_selected_AddEdge; [|done].
    apply IsControlEdge_mkEdge, IsControlEdge_false.
    eapply input_edge_non_control; [|done].
    eapply same_selected_unslotted; [done|].
    by eapply same_selected_trans.
Qed.

(** The out-edge loop of call and If nodes keeps the control edges when no
    new retval index is negative. *)
Lemma rearrange_output_edges_control (n : nat) (offset : Z) (maps : RetvalMaps)
    (g0 : Graph) :
  control_edges_unslotted g0 ->
  (forall k v, retval_index_mapping maps !! k = Some v -> 0 <= v) ->
  invariant (same_selected IsControlEdge g0) (rearrange_output_edges n offset maps).
Proof.
  intros Hun Hmap.
  apply (snapshot_loop_invariant IsControlEdge
           (fun g1 => non_control (out_edges g1 n))).
  intros g1 [i e] Hg1 [[Hi _]%elem_of_out_edges He]%elem_of_non_control.
  simpl in *.
  destruct (retval_index_mapping maps !! src_output e) as [v|] eqn:Hv.
  - apply invariant_modify. intros g Hg. apply same_selected_AddEdge.
    + apply IsControlEdge_mkEdge. specialize (Hmap _ _ Hv). unfold kControlSlot. lia.
    + apply same_selected_RemoveEdge; [|done]. by eapply snapshot_hole.
  - destruct (resource_retval_to_arg maps !! src_output e) as [a|];
      [|apply invariant_fail].
    apply invariant_bind.
    { apply invariant_modify. intros g Hg.
      apply same_selected_RemoveEdge; [|done]. by eapply snapshot_hole. }
    intros _. apply invariant_bind_get. intros g Hg.
    apply invariant_bind_lift; [|done]. intros ie Hie.
    apply invariant_modify. intros g' Hg'. apply same_selected_AddEdge; [|done].
    apply IsControlEdge_mkEdge, IsControlEdge_false.
    eapply input_edge_non_control; [|done].
    eapply same_selected_unslotted; [done|].
    by eapply same_selected_trans.
Qed.

End EdgeRewriterFacts.
(** ** Node rewrites and the edges they leave alone *)

Section NodeRewriteFacts.
Import GraphStore IndexMapping Rewriter Pass Vocabulary.
Local Open Scope Z_scope.
Context {FunctionDef FLD : Type} `{Library FunctionDef FLD}.

Lemma invariant_on_graph {A} (keep : Edge -> bool) (g0 : Graph) (m : M Graph A) :
  invariant (same_selected keep g0) m ->
  invariant (keeps (FLD:=FLD) keep g0) (on_graph m).
Proof.
  intros Hm w Hw. unfold on_graph. specialize (Hm (w_graph w) Hw).
  by destruct (m (w_graph w)).
Qed.

Lemma invariant_on_fld {A} (keep : Edge -> bool) (g0 : Graph) (m : M FLD A) :
  invariant (keeps (FLD:=FLD) keep g0) (on_fld m).
Proof. intros w Hw. unfold on_fld. by destruct (m (w_fld w)). Qed.

Lemma invariant_set_attr (keep : Edge -> bool) (g0 : Graph) (n : nat)
    (key : string) (v : AttrValue) :
  invariant (same_selected keep g0) (set_attr n key v).
Proof.
  apply invariant_bind_get. intros g Hg.
  destruct (find_node g n); simpl; [|done].
  eapply same_selected_edges_eq; [apply edges_SetAttr|done].
Qed.

Lemma invariant_get_attr {A} (keep : Edge -> bool) (g0 : Graph)
    (project : AttrValue -> option A) (n : nat) (key : string) :
  invariant (keeps (FLD:=FLD) keep g0) (get_attr project n key).
Proof. apply invariant_bind; [apply invariant_get|]. intros w. apply invariant_lift. Qed.

Lemma invariant_find_body (keep : Edge -> bool) (g0 : Graph) (fname : string) :
  invariant (keeps (FLD:=FLD) keep g0) (find_body fname).
Proof.
  apply invariant_bind; [apply invariant_gets|]. intros fld.
  destruct (Find fld fname); [apply invariant_lift|apply invariant_fail].
Qed.

Lemma invariant_save_and_repoint (keep : Edge -> bool) (g0 : Graph) (n : nat)
    (attr_name : string) (f : string * list (string * AttrValue)) (body : Graph) :
  invariant (keeps (FLD:=FLD) keep g0) (save_and_repoint n attr_name f body).
Proof.
  apply invariant_bind; [apply invariant_gets|]. intros fld.
  apply invariant_bind; [apply invariant_lift|]. intros fdef.
  apply invariant_bind; [apply invariant_on_fld|]. intros _.
  apply invariant_on_graph, invariant_set_attr.
Qed.

Lemma invariant_rewrite_while_function (keep : Edge -> bool) (g0 : Graph)
    (fuel : nat) (n : nat) (types : list DataType) (out : Outputs)
    (attr_name : string) :
  invariant (keeps (FLD:=FLD) keep g0) (rewrite_while_function fuel n types out attr_name).
Proof.
  apply invariant_bind; [apply invariant_get_attr|]. intros f.
  apply invariant_bind; [apply invariant_find_body|]. intros fbody.
  apply invariant_bind.
  { destruct (decide _); [apply invariant_lift|apply invariant_ret]. }
  intros _. apply invariant_bind; [apply invariant_lift|]. intros body1.
  apply invariant_bind.
  { destruct (decide _); [apply invariant_lift|apply invariant_ret]. }
  intros body2. apply invariant_save_and_repoint.
Qed.

Lemma invariant_rewrite_if_branch (keep : Edge -> bool) (g0 : Graph) (n : nat)
    (need : bool) (index_mapping : list Z) (has_resource_output : bool)
    (attr_name : string) (maps : RetvalMaps) :
  invariant (keeps (FLD:=FLD) keep g0)
    (rewrite_if_branch n need index_mapping has_resource_output attr_name maps).
Proof.
  apply invariant_bind; [apply invariant_get_attr|]. intros f.
  apply invariant_bind; [apply invariant_find_body|]. intros fbody.
  apply invariant_bind.
  { destruct need; [apply invariant_lift|apply invariant_ret]. }
  intros body1. apply invariant_bind.
  { destruct has_resource_output; [|apply invariant_ret].
    apply invariant_bind; [apply invariant_lift|]. intros maps'.
    apply invariant_bind; [apply invariant_lift|]. intros body2.
    apply invariant_ret. }
  intros r. apply invariant_bind; [apply invariant_save_and_repoint|].
  intros _. apply invariant_ret.
Qed.

(** No entry of a computed index mapping is negative. *)
Lemma assign_indices_nonneg (l : list DataType) (a b : Z) :
  0 <= a -> 0 <= b -> Forall (fun y => 0 <= y) (assign_indices a b l).
Proof.
  revert a b. induction l as [|t l IH]; intros a b Ha Hb; simpl; [constructor|].
  destruct (is_resource t); simpl; constructor; try done; apply IH; lia.
Qed.

Lemma index_mapping_nonneg (types : list DataType) (junk : Z) :
  Forall (fun y => 0 <= y)
    (index_mapping (InputTypesNeedsRearrange types junk [])).
Proof.
  unfold InputTypesNeedsRearrange. destruct (decide _); [constructor|].
  destruct (negb _); [constructor|]. simpl.
  apply assign_indices_nonneg; [lia|].
  pose proof (count_resources_bounds types). lia.
Qed.

Lemma map_insert_lookup (k v k' : Z) (m : gmap Z Z) (v' : Z) :
  map_insert k v m !! k' = Some v' -> m !! k' = Some v' \/ (k' = k /\ v' = v).
Proof.
  unfold map_insert. destruct (m !! k) eqn:E; [by left|].
  rewrite lookup_insert. case_decide; [|by left]. intros [= <-]. by right.
Qed.

Lemma CalculateRetvalRearrange_nonneg (g : Graph) (ret_nodes : list nat) :
  invariant nonneg_retvals (CalculateRetvalRearrange g ret_nodes).
Proof.
  apply invariant_for_each_indexed. intros i n _.
  apply invariant_bind; [apply invariant_lift|]. intros t.
  destruct (negb (is_resource t)).
  - apply invariant_modify. intros maps Hmaps k v Hk. simpl in Hk.
    apply map_insert_lookup in Hk as [Hk|[_ ->]]; [by eapply Hmaps|lia].
  - apply invariant_bind; [apply invariant_lift|]. intros e.
    destruct (negb _); [apply invariant_fail|].
    apply invariant_bind; [apply invariant_lift|]. intros idx.
    apply invariant_modify. intros maps Hmaps k v Hk. by eapply Hmaps.
Qed.

Lemma exec_Ok {S'} (m : M S' unit) (s s' : S') :
  exec m s = Ok s' -> (m s).2 = s'.
Proof. unfold exec. destruct (m s) as [[[]|?| |] ?]; simpl; congruence. Qed.

Lemma exec_invariant {S'} (I : S' -> Prop) (m : M S' unit) (s s' : S') :
  invariant I m -> I s -> exec m s = Ok s' -> I s'.
Proof. intros Hm Hs <-%exec_Ok. by apply Hm. Qed.

End NodeRewriteFacts.
Section ControlEdges.
Import GraphStore IndexMapping Rewriter Pass Vocabulary.
Local Open Scope Z_scope.
Context {FunctionDef FLD : Type} `{Library FunctionDef FLD}.

(** The input-edge loop of the If node, for any selection that contains
    neither the edges it removes nor the edges it adds. *)
Lemma reorder_if_input_edges_keeps (keep : Edge -> bool) (n : nat)
    (index_mapping : list Z) (g0 : Graph) :
  (forall e, IsControlEdge e = false -> dst e = n -> dst_input e <> 0 ->
             keep e = false) ->
  (forall e y, IsControlEdge e = false -> y ∈ index_mapping ->
               keep (mkEdge (src e) (src_output e) n (y + 1)) = false) ->
  invariant (same_selected keep g0) (reorder_if_input_edges n index_mapping).
Proof.
  intros Hremoved Hadded.
  apply (snapshot_loop_invariant keep (fun g1 => if_input_edges g1 n)).
  intros g1 [i e] _ [Hf [Hi Hdst]%elem_of_in_edges]%list_elem_of_filter.
  simpl in *.
  destruct (IsControlEdge e) eqn:He; [done|].
  destruct (bool_decide (dst_input e = 0)) eqn:Hslot; [done|].
  apply bool_decide_eq_false in Hslot.
  apply invariant_bind_lift. intros y [Hy _]%vector_at_elem_of.
  apply invariant_modify. intros g Hg.
  apply same_selected_AddEdge; [by apply Hadded|].
  apply same_selected_RemoveEdge; [|done].
  eapply snapshot_hole; [done..|]. by apply Hremoved.
Qed.

Lemma MaybeRewriteWhileNode_control (g0 : Graph) (fuel : nat) (junk : Z) (n : nat) :
  control_edges_unslotted g0 ->
  invariant (keeps (FLD:=FLD) IsControlEdge g0) (MaybeRewriteWhileNode fuel junk n).
Proof.
  intros Hun. unfold MaybeRewriteWhileNode.
  apply invariant_bind; [apply invariant_get_attr|]. intros types.
  destruct (negb _); [apply invariant_ret|].
  apply invariant_bind; [apply invariant_lift|]. intros new_types.
  apply invariant_bind; [apply invariant_on_graph, invariant_set_attr|]. intros _.
  apply invariant_bind; [apply invariant_on_graph, ReorderInputEdges_control|].
  intros _. apply invariant_bind.
  { apply invariant_on_graph, ReorderOutputEdges_control; [done|].
    apply index_mapping_nonneg. }
  intros _. apply invariant_bind; [|intros _; apply invariant_ret].
  apply invariant_for_each. intros attr_name _.
  apply invariant_rewrite_while_function.
Qed.

Lemma MaybeRewriteCallNode_control (g0 : Graph) (junk : Z) (n : nat) :
  control_edges_unslotted g0 ->
  invariant (keeps (FLD:=FLD) IsControlEdge g0) (MaybeRewriteCallNode junk n).
Proof.
  intros Hun. unfold MaybeRewriteCallNode.
  apply invariant_bind; [apply invariant_get_attr|]. intros in_types.
  apply invariant_bind; [apply invariant_get_attr|]. intros out_types.
  destruct (_ && _); [apply invariant_ret|].
  apply invariant_bind; [apply invariant_get_attr|]. intros f.
  apply invariant_bind; [apply invariant_find_body|]. intros fbody.
  apply invariant_bind.
  { unfold call_input_stage. destruct (need_rewrite _); [|apply invariant_ret].
    apply invariant_bind; [apply invariant_on_graph, ReorderInputEdges_control|].
    intros _. apply invariant_bind; [apply invariant_lift|]. intros new_in_types.
    apply invariant_bind; [apply invariant_on_graph, invariant_set_attr|].
    intros _. apply invariant_lift. }
  intros body1. apply invariant_bind.
  { unfold call_output_stage. destruct (existsb _ _); [|apply invariant_ret].
    apply invariant_bind_lift. intros maps Hmaps.
    apply invariant_bind.
    { apply invariant_on_graph, rearrange_output_edges_control; [done|].
      eapply (exec_invariant nonneg_retvals);
        [apply CalculateRetvalRearrange_nonneg| |done].
      intros k v Hk. simpl in Hk. by rewrite lookup_empty in Hk. }
    intros _. apply invariant_bind; [apply invariant_lift|]. intros new_out_types.
    apply invariant_bind; [apply invariant_on_graph, invariant_set_attr|].
    intros _. apply invariant_lift. }
  intros body2. apply invariant_bind; [apply invariant_save_and_repoint|].
  intros _. apply invariant_ret.
Qed.

(** The maps an If node builds over its two branches hold no negative
    retval index. *)
Lemma rewrite_if_branch_nonneg (n : nat) (need : bool) (index_mapping : list Z)
    (has_resource_output : bool) (attr_name : string) (maps : RetvalMaps) :
  nonneg_retvals maps ->
  yields (S:=World FLD)
    (rewrite_if_branch n need index_mapping has_resource_output attr_name maps)
    nonneg_retvals.
Proof.
  intros Hmaps. unfold rewrite_if_branch.
  apply yields_bind. intros f. apply yields_bind. intros fbody.
  apply yields_bind. intros body1.
  apply (yields_bind_yields _ _ (fun r => nonneg_retvals r.1)).
  - destruct has_resource_output; [|by apply yields_ret].
    apply yields_bind_lift. intros maps' Hmaps'.
    apply yields_bind. intros body2. apply yields_ret. simpl.
    eapply (exec_invariant nonneg_retvals);
      [apply CalculateRetvalRearrange_nonneg|done..].
  - intros r Hr. apply yields_bind. intros _. by apply yields_ret.
Qed.

Lemma MaybeRewriteIfNode_control (g0 : Graph) (junk : Z) (n : nat) :
  control_edges_unslotted g0 ->
  invariant (keeps (FLD:=FLD) IsControlEdge g0) (MaybeRewriteIfNode junk n).
Proof.
  intros Hun. unfold MaybeRewriteIfNode.
  apply invariant_bind; [apply invariant_get_attr|]. intros in_types.
  apply invariant_bind; [apply invariant_get_attr|]. intros out_types.
  destruct (_ && _); [apply invariant_ret|].
  apply invariant_bind.
  { destruct (need_rewrite _); [|apply invariant_ret].
    apply invariant_bind.
    { apply invariant_on_graph, reorder_if_input_edges_keeps.
      - by intros e He _ _.
      - intros e y He _. by apply IsControlEdge_mkEdge, IsControlEdge_false. }
    intros _. apply invariant_bind; [apply invariant_lift|]. intros new_in_types.
    apply invariant_on_graph, invariant_set_attr. }
  intros _.
  apply (invariant_bind_yields _ nonneg_retvals).
  { apply yields_fold_each.
    - intros k v Hk. simpl in Hk. by rewrite lookup_empty in Hk.
    - intros attr_name maps Hmaps. by apply rewrite_if_branch_nonneg. }
  { apply invariant_fold_each. intros attr_name maps.
    apply invariant_rewrite_if_branch. }
  intros maps Hmaps. apply invariant_bind; [|intros _; apply invariant_ret].
  destruct (existsb _ _); [|apply invariant_ret].
  apply invariant_bind.
  { by apply invariant_on_graph, rearrange_output_edges_control. }
  intros _. apply invariant_bind; [apply invariant_lift|]. intros new_out_types.
  apply invariant_on_graph, invariant_set_attr.
Qed.

(** C10.  In a graph whose control edges carry no slot, the edge-reordering
    primitives leave every control edge as it is, at its own handle,
    whatever they return: [ReorderInputEdges] for every mapping,
    [ReorderOutputEdges] for the mapping computed from any type list, and
    [RearrangeOutputEdges] for the maps computed from any function body.
    The same holds of the three node rewrites built on them, so the control
    dependencies into and out of a rewritten node are the same before and
    after. *)
Theorem control_edges_unchanged (w : World FLD) (n : nat) :
  control_edges_unslotted (w_graph w) ->
  (forall index_mapping,
     control_edges (ReorderInputEdges n index_mapping (w_graph w)).2
     = control_edges (w_graph w))
  /\ (forall types junk input_count count,
        control_edges
          (ReorderOutputEdges n input_count count
             (index_mapping (InputTypesNeedsRearrange types junk []))
             (w_graph w)).2
        = control_edges (w_graph w))
  /\ (forall body ret_nodes maps,
        exec (CalculateRetvalRearrange body ret_nodes) (mkRetvalMaps ∅ ∅) = Ok maps ->
        control_edges (RearrangeOutputEdges n maps (w_graph w)).2
        = control_edges (w_graph w))
  /\ (forall fuel junk,
        control_edges (w_graph (MaybeRewriteWhileNode fuel junk n w).2)
        = control_edges (w_graph w))
  /\ (forall junk,
        control_edges (w_graph (MaybeRewriteCallNode junk n w).2)
        = control_edges (w_graph w))
  /\ (forall junk,
        control_edges (w_graph (MaybeRewriteIfNode junk n w).2)
        = control_edges (w_graph w)).
Proof.
  intros Hun. unfold control_edges.
  repeat split; intros; apply same_selected_filter.
  - apply ReorderInputEdges_control, same_selected_refl.
  - apply ReorderOutputEdges_control;
      [done|apply index_mapping_nonneg|apply same_selected_refl].
  - apply rearrange_output_edges_control; [done| |apply same_selected_refl].
    eapply (exec_invariant nonneg_retvals);
      [apply CalculateRetvalRearrange_nonneg| |done].
    intros k v Hk. simpl in Hk. by rewrite lookup_empty in Hk.
  - apply (MaybeRewriteWhileNode_control (w_graph w)); [done|].
    apply same_selected_refl.
  - apply (MaybeRewriteCallNode_control (w_graph w)); [done|].
    apply same_selected_refl.
  - apply (MaybeRewriteIfNode_control (w_graph w)); [done|].
    apply same_selected_refl.
Qed.

End ControlEdges.


Lemma control_edges_unchanged_witness :
  Vocabulary.control_edges_unslotted (Pass.w_graph Examples.if_world)
  /\ Vocabulary.control_edges
       (Pass.w_graph (Pass.MaybeRewriteIfNode 0 3 Examples.if_world).2)
     = Vocabulary.control_edges (Pass.w_graph Examples.if_world).
Proof.
  assert (Vocabulary.control_edges_unslotted (Pass.w_graph Examples.if_world))
    as Hun.
  { intros i e Hi He.
    do 6 (destruct i as [|i];
          [inversion Hi; subst; first [by vm_compute in He|reflexivity]|]).
    by inversion Hi. }
  split; [exact Hun|].
  apply (control_edges_unchanged Examples.if_world 3 Hun).
Defined.
(** ** The predicate of an If node *)

Section IfPredicate.
Import GraphStore IndexMapping Rewriter Pass Vocabulary.
Local Open Scope Z_scope.
Context {FunctionDef FLD : Type} `{Library FunctionDef FLD}.

Lemma feeds_slot0_mkEdge (n s : nat) (x : Z) (d : nat) (y : Z) :
  feeds_slot0 n (mkEdge s x d y) = bool_decide (d = n) && bool_decide (y = 0).
Proof. reflexivity. Qed.

Lemma feeds_slot0_false_slot (n : nat) (e : Edge) :
  dst_input e <> 0 -> feeds_slot0 n e = false.
Proof.
  intros He. unfold feeds_slot0.
  by rewrite (bool_decide_eq_false_2 _ He), andb_false_r.
Qed.

(** In a graph with the slot-0 edges of [g0], the edges leaving [n] do not
    feed slot 0 of [n]. *)
Lemma out_edge_not_predicate (g0 g : Graph) (n i : nat) (e : Edge) :
  no_self_predicate g0 n -> same_selected (feeds_slot0 n) g0 g ->
  (i, e) ∈ out_edges g n -> feeds_slot0 n e = false.
Proof.
  intros Hself Hg [Hi Hsrc]%elem_of_out_edges. simpl in *.
  destruct (feeds_slot0 n e) eqn:He; [|done].
  apply elem_of_edges in Hi.
  pose proof (same_selected_lookup _ _ _ _ _ Hg Hi He) as Hi0.
  by destruct (Hself i e Hi0 He).
Qed.

Lemma rearrange_output_edges_slot0 (n : nat) (offset : Z) (maps : RetvalMaps)
    (g0 : Graph) :
  no_self_predicate g0 n ->
  invariant (same_selected (feeds_slot0 n) g0) (rearrange_output_edges n offset maps).
Proof.
  intros Hself.
  apply (snapshot_loop_invariant (feeds_slot0 n)
           (fun g1 => non_control (out_edges g1 n))).
  intros g1 [i e] Hg1 [Hi He]%elem_of_non_control. simpl in *.
  pose proof (out_edge_not_predicate _ _ _ _ _ Hself Hg1 Hi) as Hnot.
  apply elem_of_out_edges in Hi as [Hi _].
  assert (forall s x, feeds_slot0 n (mkEdge s x (dst e) (dst_input e)) = false)
    as Hnew by (intros; exact Hnot).
  destruct (retval_index_mapping maps !! src_output e) as [v|] eqn:Hv.
  - apply invariant_modify. intros g Hg. apply same_selected_AddEdge; [done|].
    apply same_selected_RemoveEdge; [|done]. by eapply snapshot_hole.
  - destruct (resource_retval_to_arg maps !! src_output e) as [a|];
      [|apply invariant_fail].
    apply invariant_bind.
    { apply invariant_modify. intros g Hg.
      apply same_selected_RemoveEdge; [|done]. by eapply snapshot_hole. }
    intros _. apply invariant_bind_get. intros g Hg.
    apply invariant_bind_lift; [|done]. intros ie Hie.
    apply invariant_modify. intros g' Hg'. by apply same_selected_AddEdge.
Qed.

Lemma MaybeRewriteIfNode_slot0 (g0 : Graph) (junk : Z) (n : nat) :
  no_self_predicate g0 n ->
  invariant (keeps (FLD:=FLD) (feeds_slot0 n) g0) (MaybeRewriteIfNode junk n).
Proof.
  intros Hself. unfold MaybeRewriteIfNode.
  apply invariant_bind; [apply invariant_get_attr|]. intros in_types.
  apply invariant_bind; [apply invariant_get_attr|]. intros out_types.
  destruct (_ && _); [apply invariant_ret|].
  apply invariant_bind.
  { destruct (need_rewrite _); [|apply invariant_ret].
    apply invariant_bind.
    { apply invariant_on_graph, reorder_if_input_edges_keeps.
      - intros e _ _ He. by apply feeds_slot0_false_slot.
      - intros e y _ Hy. apply feeds_slot0_false_slot. simpl.
        pose proof (index_mapping_nonneg in_types junk) as Hmap.
        rewrite Forall_forall in Hmap. specialize (Hmap y Hy). lia. }
    intros _. apply invariant_bind; [apply invariant_lift|]. intros new_in_types.
    apply invariant_on_graph, invariant_set_attr. }
  intros _. apply invariant_bind.
  { apply invariant_fold_each. intros attr_name maps.
    apply invariant_rewrite_if_branch. }
  intros maps. apply invariant_bind; [|intros _; apply invariant_ret].
  destruct (existsb _ _); [|apply invariant_ret].
  apply invariant_bind.
  { by apply invariant_on_graph, rearrange_output_edges_slot0. }
  intros _. apply invariant_bind; [apply invariant_lift|]. intros new_out_types.
  apply invariant_on_graph, invariant_set_attr.
Qed.

Lemma length_remove_edges (ids : list nat) (arena : list (option Edge)) :
  length (remove_edges ids arena) = length arena.
Proof.
  revert arena. induction ids as [|i ids IH]; intros arena; simpl; [done|].
  unfold remove_edges in *. simpl. by rewrite IH, length_insert.
Qed.

Lemma remove_edges_app (ids : list nat) (arena extra : list (option Edge)) :
  Forall (fun i => (i < length arena)%nat) ids ->
  remove_edges ids (arena ++ extra) = remove_edges ids arena ++ extra.
Proof.
  revert arena. induction ids as [|i ids IH]; intros arena Hids; [done|].
  inversion Hids as [|? ? Hi Hrest]; subst. unfold remove_edges in *. simpl.
  rewrite insert_app_l by done. apply IH.
  by rewrite length_insert.
Qed.

(** What the input-edge loop of the If node does when it succeeds: each
    collected edge is removed, and an edge from the same source is appended
    that enters the slot given by the mapping, read one slot down and
    written one slot up. *)
Lemma if_input_loop_Ok (n : nat) (index_mapping : list Z)
    (collected : list (nat * Edge)) (g g' : Graph) :
  Forall (fun p : nat * Edge => (p.1 < length (edges_ g))%nat) collected ->
  for_each collected (fun '(e_id, e) =>
    bind (lift (vector_at index_mapping (dst_input e - 1))) (fun mapped =>
      let new_dst_input := mapped + 1 in
      modify (fun g =>
        AddEdge (RemoveEdge g e_id) (src e) (src_output e) n new_dst_input))) g
  = (Ok tt, g') ->
  nodes_ g' = nodes_ g
  /\ exists new_edges : list Edge,
       Forall2 (fun (p : nat * Edge) (e' : Edge) =>
                  exists mapped,
                    vector_at index_mapping (dst_input p.2 - 1) = Ok mapped
                    /\ e' = mkEdge (src p.2) (src_output p.2) n (mapped + 1))
         collected new_edges
       /\ edges_ g' = remove_edges collected.*1 (edges_ g) ++ (Some <$> new_edges).
Proof.
  revert g. induction collected as [|[i e] rest IH]; intros g Hids Hrun.
  - simpl in Hrun. inversion Hrun; subst. split; [done|].
    exists []. split; [constructor|]. simpl. by rewrite app_nil_r.
  - inversion Hids as [|? ? Hi Hrest]; subst. simpl in Hi.
    simpl in Hrun. unfold bind at 1 2 in Hrun. unfold lift at 1 in Hrun.
    destruct (vector_at index_mapping (dst_input e - 1)) as [mapped| | |] eqn:Hm;
      simpl in Hrun; try done.
    apply IH in Hrun as (Hnodes & news & Hnews & Hedges).
    2:{ eapply Forall_impl; [exact Hrest|]. intros p Hp.
        unfold AddEdge, RemoveEdge. simpl in *.
        rewrite length_app, length_insert. lia. }
    split; [done|].
    exists (mkEdge (src e) (src_output e) n (mapped + 1) :: news). split.
    + constructor; [|done]. by exists mapped.
    + rewrite Hedges. unfold AddEdge, RemoveEdge. simpl.
      rewrite remove_edges_app.
      2:{ eapply Forall_fmap, Forall_impl; [exact Hrest|]. intros p Hp. simpl.
          by rewrite length_insert. }
      by rewrite <- app_assoc.
Qed.

Lemma reorder_if_input_edges_Ok (n : nat) (index_mapping : list Z) (g g' : Graph) :
  reorder_if_input_edges n index_mapping g = (Ok tt, g') ->
  nodes_ g' = nodes_ g
  /\ exists new_edges : list Edge,
       Forall2 (fun (p : nat * Edge) (e' : Edge) =>
                  exists mapped,
                    vector_at index_mapping (dst_input p.2 - 1) = Ok mapped
                    /\ e' = mkEdge (src p.2) (src_output p.2) n (mapped + 1))
         (if_input_edges g n) new_edges
       /\ edges_ g'
          = remove_edges (if_input_edges g n).*1 (edges_ g) ++ (Some <$> new_edges).
Proof.
  intros Hrun. apply if_input_loop_Ok; [|exact Hrun].
  apply Forall_forall. intros [i e] [_ [Hi _]%elem_of_in_edges]%list_elem_of_filter.
  apply elem_of_edges in Hi. by apply lookup_lt_Some in Hi.
Qed.

Lemma if_input_edges_not_slot0 (g : Graph) (n : nat) (p : nat * Edge) :
  p ∈ if_input_edges g n ->
  IsControlEdge p.2 = false /\ dst_input p.2 <> 0 /\ dst p.2 = n.
Proof.
  intros [Hf [_ Hdst]%elem_of_in_edges]%list_elem_of_filter.
  destruct (IsControlEdge p.2); [done|].
  destruct (bool_decide (dst_input p.2 = 0)) eqn:Hslot; [done|].
  by apply bool_decide_eq_false in Hslot.
Qed.

Lemma if_predicate_general (w : World FLD) (n : nat) :
  no_self_predicate (w_graph w) n ->
  (forall junk,
     slot0_edges (w_graph (MaybeRewriteIfNode junk n w).2) n
     = slot0_edges (w_graph w) n)
  /\ (forall p, p ∈ if_input_edges (w_graph w) n -> feeds_slot0 n p.2 = false)
  /\ (forall index_mapping g',
        reorder_if_input_edges n index_mapping (w_graph w) = (Ok tt, g') ->
        exists new_edges : list Edge,
          Forall2 (fun (p : nat * Edge) (e' : Edge) =>
                     exists mapped,
                       vector_at index_mapping (dst_input p.2 - 1) = Ok mapped
                       /\ e' = mkEdge (src p.2) (src_output p.2) n (mapped + 1))
            (if_input_edges (w_graph w) n) new_edges
          /\ edges_ g'
             = remove_edges (if_input_edges (w_graph w) n).*1 (edges_ (w_graph w))
               ++ (Some <$> new_edges)).
Proof.
  intros Hself. split; [|split].
  - intros junk. unfold slot0_edges. apply same_selected_filter.
    apply (MaybeRewriteIfNode_slot0 (w_graph w)); [done|].
    apply same_selected_refl.
  - intros p (_ & Hp & _)%if_input_edges_not_slot0.
    by apply feeds_slot0_false_slot.
  - intros index_mapping g' Hrun.
    by apply reorder_if_input_edges_Ok in Hrun as [_ ?].
Qed.

End IfPredicate.

(** C7.  The rewrite of an If node never touches the edge that feeds its
    predicate.  For an If node that does not feed its own predicate: the
    edges into input slot 0 are the same, at the same handles, after
    [MaybeRewriteIfNode] as before, whatever it returns; the input-edge loop
    collects no edge into slot 0; and when the loop succeeds, every edge it
    collected, entering slot k, is replaced by an edge from the same source
    entering slot [index_mapping[k - 1] + 1].  For the inputs
    [pred, resource, float] the mapping is computed over
    [resource, float] alone, and after the rewrite the predicate enters
    slot 0, the float slot 1 and the resource slot 2. *)
Theorem if_predicate_stays_at_slot0 {FunctionDef FLD : Type}
    `{Pass.Library FunctionDef FLD} (w : Pass.World FLD) (n : nat) :
  Vocabulary.no_self_predicate (Pass.w_graph w) n ->
  (forall junk,
     Vocabulary.slot0_edges (Pass.w_graph (Pass.MaybeRewriteIfNode junk n w).2) n
     = Vocabulary.slot0_edges (Pass.w_graph w) n)
  /\ (forall p, p ∈ Pass.if_input_edges (Pass.w_graph w) n ->
                Vocabulary.feeds_slot0 n p.2 = false)
  /\ (forall index_mapping g',
        Pass.reorder_if_input_edges n index_mapping (Pass.w_graph w) = (Ok tt, g') ->
        exists new_edges : list GraphStore.Edge,
          Forall2 (fun (p : nat * GraphStore.Edge) (e' : GraphStore.Edge) =>
                     exists mapped,
                       vector_at index_mapping (GraphStore.dst_input p.2 - 1)
                       = Ok mapped
                       /\ e' = GraphStore.mkEdge (GraphStore.src p.2)
                                 (GraphStore.src_output p.2) n (mapped + 1)%Z)
            (Pass.if_input_edges (Pass.w_graph w) n) new_edges
          /\ GraphStore.edges_ g'
             = Vocabulary.remove_edges
                 (Pass.if_input_edges (Pass.w_graph w) n).*1
                 (GraphStore.edges_ (Pass.w_graph w))
               ++ (Some <$> new_edges))
  /\ (forall junk,
        IndexMapping.index_mapping
          (IndexMapping.InputTypesNeedsRearrange [DT_RESOURCE; DT_FLOAT] junk [])
        = [1; 0]%Z)
  /\ (let r := Pass.MaybeRewriteIfNode 0 3 Examples.if_world in
      r.1 = Ok true
      /\ GraphStore.in_edges (Pass.w_graph r.2) 3
         = [ (0%nat, GraphStore.mkEdge 0 0 3 0);
             (3%nat, GraphStore.mkEdge 1 (-1) 3 (-1));
             (6%nat, GraphStore.mkEdge 1 0 3 2);
             (7%nat, GraphStore.mkEdge 2 0 3 1) ]).
Proof.
  intros Hself.
  destruct (if_predicate_general w n Hself) as (H1 & H2 & H3).
  split; [done|]. split; [done|]. split; [done|]. split; [done|].
  by vm_compute.
Qed.

Lemma if_predicate_stays_at_slot0_witness :
  Vocabulary.no_self_predicate (Pass.w_graph Examples.if_world) 3
  /\ Vocabulary.slot0_edges
       (Pass.w_graph (Pass.MaybeRewriteIfNode 0 3 Examples.if_world).2) 3
     = Vocabulary.slot0_edges (Pass.w_graph Examples.if_world) 3.
Proof.
  assert (Vocabulary.no_self_predicate (Pass.w_graph Examples.if_world) 3) as Hself.
  { intros i e Hi Hf.
    do 6 (destruct i as [|i];
          [inversion Hi; subst; first [by vm_compute in Hf|simpl; lia]|]).
    by inversion Hi. }
  split; [exact Hself|].
  apply (if_predicate_stays_at_slot0 Examples.if_world 3 Hself).
Defined.

(** ** Running the stages of a rewrite *)

Section Runs.
Context {St : Type}.

Lemma bind_Ok {A B} (m : M St A) (k : A -> M St B) (s s' : St) (a : A) :
  m s = (Ok a, s') -> bind m k s = k a s'.
Proof. intros Hm. unfold bind. by rewrite Hm. Qed.

Lemma bind_Err {A B} (m : M St A) (k : A -> M St B) (s s' : St) (c : Code) :
  m s = (Err c, s') -> bind m k s = (Err c, s').
Proof. intros Hm. unfold bind. by rewrite Hm. Qed.

(** A loop succeeds when every turn does, from any state the invariant
    allows. *)
Lemma for_each_Ok {A} (I : St -> Prop) (l : list A) (body : A -> M St unit) (s : St) :
  (forall a s', a ∈ l -> I s' -> (body a s').1 = Ok tt /\ I (body a s').2) ->
  I s ->
  (for_each l body s).1 = Ok tt /\ I (for_each l body s).2.
Proof.
  revert s. induction l as [|a l IH]; intros s Hbody Hs; simpl; [done|].
  destruct (Hbody a s ltac:(by left) Hs) as [Hr Hs'].
  unfold bind. destruct (body a s) as [r s'] eqn:E. simpl in *. subst r.
  apply IH; [|done]. intros b s'' Hb. apply Hbody. by right.
Qed.

Lemma for_each_indexed_Ok {A} (I : St -> Prop) (l : list A) (i : Z)
    (body : Z -> A -> M St unit) (s : St) :
  (forall (j : nat) a s', l !! j = Some a -> I s' ->
     (body (i + Z.of_nat j)%Z a s').1 = Ok tt
     /\ I (body (i + Z.of_nat j)%Z a s').2) ->
  I s ->
  (Rewriter.for_each_indexed i l body s).1 = Ok tt
  /\ I (Rewriter.for_each_indexed i l body s).2.
Proof.
  revert i s. induction l as [|a l IH]; intros i s Hbody Hs; simpl; [done|].
  destruct (Hbody 0%nat a s eq_refl Hs) as [Hr Hs'].
  rewrite Z.add_0_r in Hr, Hs'.
  unfold bind. destruct (body i a s) as [r s'] eqn:E. simpl in *. subst r.
  apply IH; [|done]. intros j b s'' Hb Hs''.
  replace (i + 1 + Z.of_nat j)%Z with (i + Z.of_nat (S j))%Z by lia.
  by apply Hbody.
Qed.

(** A loop fails with [c] when some turn does and the turns before it
    succeed or fail with [c] as well. *)
Lemma for_each_indexed_Err {A} (c : Code) (l : list A) (i : Z)
    (body : Z -> A -> M St unit) (s : St) :
  (forall j a s', a ∈ l -> (body j a s').1 = Ok tt \/ (body j a s').1 = Err c) ->
  (exists a, a ∈ l /\ forall j s', (body j a s').1 = Err c) ->
  (Rewriter.for_each_indexed i l body s).1 = Err c.
Proof.
  revert i s. induction l as [|a l IH]; intros i s Hall [b [Hb Hfail]].
  { by apply elem_of_nil in Hb. }
  simpl. unfold bind.
  destruct (Hall i a s ltac:(by left)) as [Hr|Hr];
    destruct (body i a s) as [r s'] eqn:E; simpl in *; subst r; [|done].
  apply IH; [intros j a' s'' Ha'; apply Hall; by right|].
  apply elem_of_cons in Hb as [->|Hb]; [|by exists b].
  specialize (Hfail i s). by rewrite E in Hfail.
Qed.

End Runs.
(** ** Direct calls: resource results must be arguments *)

Section CallNodeFacts.
Import GraphStore IndexMapping Rewriter Pass Vocabulary.
Local Open Scope Z_scope.
Context {FunctionDef FLD : Type} `{Library FunctionDef FLD}.

Lemma vector_at_Ok {A} (v : list A) (i : nat) (a : A) :
  v !! i = Some a -> vector_at v (Z.of_nat i) = Ok a.
Proof.
  intros Hi. unfold vector_at. rewrite decide_True by lia.
  by rewrite Nat2Z.id, Hi.
Qed.

Lemma vector_at_in_range {A} (v : list A) (i : Z) :
  0 <= i < Z.of_nat (length v) -> exists a, vector_at v i = Ok a.
Proof.
  intros Hi. unfold vector_at. rewrite decide_True by lia.
  destruct (lookup_lt_is_Some_2 v (Z.to_nat i) ltac:(lia)) as [a Ha].
  exists a. by rewrite Ha.
Qed.

(** A computed index mapping has one entry per input, each a position. *)
Lemma index_mapping_valid (types : list DataType) (junk : Z) :
  let out := InputTypesNeedsRearrange types junk [] in
  need_rewrite out = true ->
  length (index_mapping out) = length types
  /\ forall (k : nat) (y : Z),
       index_mapping out !! k = Some y -> 0 <= y < Z.of_nat (length types).
Proof.
  intros out Hneed. subst out.
  rewrite (InputTypesNeedsRearrange_true _ _ _ Hneed). simpl.
  split; [apply length_assign_indices|]. intros k y Hy.
  destruct (types !! k) as [t|] eqn:Ht.
  - pose proof (assign_indices_range types k t y Ht Hy) as Hr.
    pose proof (count_resources_bounds types).
    destruct (is_resource t); lia.
  - apply lookup_ge_None in Ht. apply lookup_lt_Some in Hy.
    rewrite length_assign_indices in Hy. lia.
Qed.

Lemma shuffle_input_loop_Ok (l : list DataType) (im : list Z) (j : nat)
    (result : list DataType) :
  length result = length im ->
  (forall (k : nat) (y : Z), im !! k = Some y -> 0 <= y < Z.of_nat (length im)) ->
  (j + length l <= length im)%nat ->
  exists r, shuffle_input_loop (Z.of_nat j) l im result = Ok r.
Proof.
  revert j result. induction l as [|t l IH]; intros j result Hlen Hval Hj; simpl.
  { by eexists. }
  simpl in Hj.
  destruct (lookup_lt_is_Some_2 im j ltac:(lia)) as [y Hy].
  rewrite (vector_at_Ok _ _ _ Hy). simpl.
  unfold store. rewrite decide_True by (rewrite Hlen; by eapply Hval). simpl.
  replace (Z.of_nat j + 1) with (Z.of_nat (S j)) by lia.
  apply IH; [by rewrite length_insert|done|lia].
Qed.

Lemma ShuffleInputDataTypeAttribute_Ok (types : list DataType) (junk : Z) :
  let out := InputTypesNeedsRearrange types junk [] in
  need_rewrite out = true ->
  exists r, ShuffleInputDataTypeAttribute types (index_mapping out) = Ok r.
Proof.
  intros out Hneed. destruct (index_mapping_valid types junk Hneed) as [Hlen Hval].
  unfold ShuffleInputDataTypeAttribute.
  apply (shuffle_input_loop_Ok types (index_mapping out) 0).
  - by rewrite length_replicate.
  - intros k y Hy. fold out in Hlen. rewrite Hlen. by eapply Hval.
  - fold out in Hlen. simpl. lia.
Qed.

(** [ReorderInputEdges] succeeds when the data inputs enter slots the
    mapping covers, and it touches no node. *)
Lemma ReorderInputEdges_Ok (n : nat) (im : list Z) (g : Graph) :
  (forall p, p ∈ non_control (in_edges g n) ->
             0 <= dst_input p.2 < Z.of_nat (length im)) ->
  (ReorderInputEdges n im g).1 = Ok tt
  /\ nodes_ (ReorderInputEdges n im g).2 = nodes_ g.
Proof.
  intros Hslots. unfold ReorderInputEdges, bind at 1, get. simpl.
  apply (for_each_Ok (fun g' => nodes_ g' = nodes_ g)); [|done].
  intros [i e] g' Hp Hg'. specialize (Hslots _ Hp). simpl in Hslots.
  destruct (vector_at_in_range im _ Hslots) as [y Hy].
  unfold bind, lift. by rewrite Hy.
Qed.

Lemma set_attr_Ok (n : nat) (key : string) (v : AttrValue) (g : Graph) (nd : Node) :
  find_node g n = Some nd ->
  set_attr n key v g = (Ok tt, SetAttr g n key v).
Proof. intros Hn. unfold set_attr, bind, get. simpl. by rewrite Hn. Qed.

Lemma find_node_SetAttr (g : Graph) (n m : nat) (key : string) (v : AttrValue) :
  find_node (SetAttr g n key v) m
  = if decide (m = n)
    then (fun nd => mkNode (name nd) (type_string nd)
                      (<[key := v]> (delete key (attrs nd)))) <$> find_node g n
    else find_node g m.
Proof.
  unfold SetAttr, find_node.
  destruct (nodes_ g !! n) as [[nd|]|] eqn:Hn; simpl;
    destruct (decide (m = n)) as [->|Hne]; rewrite ?Hn; try done.
  - rewrite list_lookup_insert_eq by (by eapply lookup_lt_Some). done.
  - by rewrite list_lookup_insert_ne.
Qed.

Lemma same_shape_refl (g : Graph) : same_shape g g.
Proof. split; [done|]. intros m. by destruct (find_node g m). Qed.

Lemma same_shape_set_index (g0 g : Graph) (a : nat) (v : Z) :
  same_shape g0 g -> same_shape g0 (SetAttr g a "index" (AttrInt v)).
Proof.
  intros [Hedges Hnodes]. split; [by rewrite edges_SetAttr|].
  intros m. specialize (Hnodes m). rewrite find_node_SetAttr.
  destruct (decide (m = a)) as [->|Hne]; [|done].
  destruct (find_node g0 a) as [nd0|], (find_node g a) as [nd|]; simpl; try done.
  destruct Hnodes as (Hty & Hattrs & Hidx). split; [done|]. split.
  - intros key Hkey. rewrite lookup_insert_ne, lookup_delete_ne by done. by apply Hattrs.
  - intros _. by rewrite lookup_insert_eq.
Qed.

(** [RearrangeArgNodes] succeeds when the mapping covers the argument
    nodes, and leaves a graph of the same shape. *)
Lemma RearrangeArgNodes_Ok (arg_nodes : list nat) (im : list Z) (g : Graph) :
  (length arg_nodes <= length im)%nat ->
  (forall a, a ∈ arg_nodes -> is_Some (find_node g a)) ->
  exists g', exec (RearrangeArgNodes arg_nodes im) g = Ok g' /\ same_shape g g'.
Proof.
  intros Hlen Hlive.
  destruct (for_each_indexed_Ok
              (fun g' => same_shape g g') arg_nodes 0
              (fun i n => bind (lift (vector_at im i))
                            (fun new_index => set_attr n "index" (AttrInt new_index)))
              g) as [Hr Hs].
  - intros j a g' Ha Hg'.
    destruct (vector_at_in_range im (0 + Z.of_nat j)) as [y Hy].
    { apply lookup_lt_Some in Ha. lia. }
    unfold bind, lift. rewrite Hy.
    assert (is_Some (find_node g' a)) as [nd Hnd].
    { destruct (Hlive a ltac:(by eapply list_elem_of_lookup_2)) as [nd0 Hnd0].
      destruct Hg' as [_ Hm]. specialize (Hm a). rewrite Hnd0 in Hm.
      destruct (find_node g' a); [by eexists|done]. }
    rewrite (set_attr_Ok _ _ _ _ _ Hnd). simpl. split; [done|].
    by apply same_shape_set_index.
  - apply same_shape_refl.
  - unfold exec, RearrangeArgNodes.
    destruct (for_each_indexed _ _ _ g) as [r g'] eqn:E. simpl in *. subst r.
    by exists g'.
Qed.

(** What a graph of the same shape shares with the original. *)
Lemma same_shape_has_type (g g' : Graph) (m : nat) (op : string) :
  same_shape g g' -> has_type g' m op = has_type g m op.
Proof.
  intros [_ Hm]. specialize (Hm m). unfold has_type.
  destruct (find_node g m), (find_node g' m); try done.
  destruct Hm as [-> _]. done.
Qed.

Lemma same_shape_GetNodeAttr {A} (project : AttrValue -> option A)
    (g g' : Graph) (m : nat) (key : string) :
  same_shape g g' -> key <> "index" ->
  GetNodeAttr project g' m key = GetNodeAttr project g m key.
Proof.
  intros [_ Hm] Hkey. specialize (Hm m). unfold GetNodeAttr.
  destruct (find_node g m), (find_node g' m); try done.
  destruct Hm as (_ & Hattrs & _). by rewrite Hattrs.
Qed.

Lemma GetNodeAttr_int_Ok (g : Graph) (m : nat) (j : Z) :
  GetNodeAttr as_int g m "index" = Ok j
  <-> exists nd, find_node g m = Some nd /\ attrs nd !! "index" ≫= as_int = Some j.
Proof.
  unfold GetNodeAttr. destruct (find_node g m) as [nd|]; [|split; [done|by intros (? & ? & ?)]].
  split.
  - intros Hj. exists nd. split; [done|].
    destruct (attrs nd !! "index") as [v|]; [|done]. simpl.
    destruct (as_int v); by inversion Hj.
  - intros (nd' & [= <-] & Hj).
    destruct (attrs nd !! "index") as [v|]; [|done]. simpl in Hj. by rewrite Hj.
Qed.

Lemma same_shape_index (g g' : Graph) (m : nat) (j : Z) :
  same_shape g g' -> GetNodeAttr as_int g m "index" = Ok j ->
  exists j', GetNodeAttr as_int g' m "index" = Ok j'.
Proof.
  intros [_ Hm] (nd & Hnd & Hj)%GetNodeAttr_int_Ok. specialize (Hm m).
  rewrite Hnd in Hm. destruct (find_node g' m) as [nd'|] eqn:Hnd'; [|done].
  destruct Hm as (_ & _ & Hidx).
  destruct (Hidx ltac:(by eexists)) as [j' Hj'].
  exists j'. apply GetNodeAttr_int_Ok. by exists nd'.
Qed.

Lemma same_shape_input_edge (g g' : Graph) (m : nat) (idx : Z) :
  same_shape g g' -> input_edge g' m idx = input_edge g m idx.
Proof.
  intros [He _]. unfold input_edge, in_edges, edges. by rewrite He.
Qed.

Lemma same_shape_examinable (g g' : Graph) (ret_nodes : list nat) :
  same_shape g g' -> examinable_retvals g ret_nodes ->
  examinable_retvals g' ret_nodes.
Proof.
  intros Hs Hex r Hr. destruct (Hex r Hr) as (t & Ht & Hres).
  exists t. split; [by rewrite (same_shape_GetNodeAttr _ _ _ _ _ Hs)|].
  intros Heq. destruct (Hres Heq) as (p & Hp & Harg).
  exists p. split; [by rewrite (same_shape_input_edge _ _ _ _ Hs)|].
  unfold IsArg. rewrite (same_shape_has_type _ _ _ _ Hs). intros Ha.
  destruct (Harg Ha) as [j Hj]. by eapply same_shape_index.
Qed.

(** [CalculateRetvalRearrange] returns [UNIMPLEMENTED] as soon as some
    resource [_Retval] is not fed by an [_Arg] node. *)
Lemma CalculateRetvalRearrange_Unimplemented (g : Graph) (ret_nodes : list nat)
    (r : nat) (maps : RetvalMaps) :
  examinable_retvals g ret_nodes ->
  r ∈ ret_nodes ->
  GetNodeAttr as_type g r "T" = Ok DT_RESOURCE ->
  (forall p, input_edge g r 0 = Ok p -> IsArg g (src p.2) = false) ->
  (CalculateRetvalRearrange g ret_nodes maps).1 = Err UNIMPLEMENTED.
Proof.
  intros Hex Hr HT Hsrc. unfold CalculateRetvalRearrange.
  apply for_each_indexed_Err.
  - intros j a maps' Ha. destruct (Hex a Ha) as (t & Ht & Hres).
    unfold bind, lift, fail, modify. simpl. rewrite Ht.
    destruct (is_resource t) eqn:Hc; simpl; [|by left].
    apply is_resource_true in Hc. destruct (Hres Hc) as (p & Hp & Harg).
    rewrite Hp.
    destruct (IsArg g (src p.2)) eqn:Ha'; simpl; [|by right].
    destruct (Harg eq_refl) as [idx Hidx]. rewrite Hidx. by left.
  - exists r. split; [done|]. intros j maps'.
    destruct (Hex r Hr) as (t & Ht & Hres).
    rewrite HT in Ht. inversion Ht; subst t.
    destruct (Hres eq_refl) as (p & Hp & _).
    unfold bind, lift, fail, modify. simpl. rewrite HT. simpl. rewrite Hp.
    by rewrite (Hsrc p Hp).
Qed.

(** A [_Retval] fed by an [_Arg] node traces back to it, through no
    identity node at all. *)
Lemma fed_by_arg_traces_back (g : Graph) (r : nat) (p : nat * Edge) :
  input_edge g r 0 = Ok p -> IsArg g (src p.2) = true ->
  traces_back_to_arg g r (src p.2).
Proof.
  intros Hp Ha. exists (src p.2). split; [|split; [|done]].
  - unfold input_node. rewrite Hp. by destruct p.
  - apply reaches_here. unfold IsArg, IsIdentity, has_type in *.
    destruct (find_node g (src p.2)) as [nd|]; [|done].
    apply bool_decide_eq_true in Ha. apply bool_decide_eq_false. by rewrite Ha.
Qed.

Lemma get_attr_Ok {A} (project : AttrValue -> option A) (n : nat) (key : string)
    (w : World FLD) (a : A) :
  GetNodeAttr project (w_graph w) n key = Ok a ->
  get_attr project n key w = (Ok a, w).
Proof. intros Ha. unfold get_attr, bind, get, lift. simpl. by rewrite Ha. Qed.

Lemma find_body_Ok (fname : string) (w : World FLD) (fdef : FunctionDef)
    (fbody : FunctionBody) :
  Find (w_fld w) fname = Some fdef ->
  FunctionDefToBodyHelper fdef (w_fld w) = Ok fbody ->
  find_body fname w = (Ok fbody, w).
Proof.
  intros Hf Hb. unfold find_body, bind, gets, lift. simpl. by rewrite Hf, Hb.
Qed.

Lemma GetNodeAttr_live {A} (project : AttrValue -> option A) (g : Graph)
    (n : nat) (key : string) (a : A) :
  GetNodeAttr project g n key = Ok a -> is_Some (find_node g n).
Proof. unfold GetNodeAttr. destruct (find_node g n); [by eexists|done]. Qed.

(** The input stage of a call rewrite succeeds on a well-formed call, keeps
    the library, and yields a body of the same shape. *)
Lemma call_input_stage_Ok (n : nat) (in_types : list DataType) (junk : Z)
    (fbody : FunctionBody) (w : World FLD) :
  is_Some (find_node (w_graph w) n) ->
  inputs_match (w_graph w) n fbody (length in_types) ->
  exists body1 w1,
    call_input_stage n in_types (InputTypesNeedsRearrange in_types junk []) fbody w
    = (Ok body1, w1)
    /\ w_fld w1 = w_fld w /\ same_shape (graph fbody) body1.
Proof.
  intros [nd Hnd] (Hslots & Hargs & Hlive). unfold call_input_stage.
  destruct (need_rewrite _) eqn:Hneed.
  2:{ exists (graph fbody), w. split; [done|]. split; [done|apply same_shape_refl]. }
  destruct (index_mapping_valid in_types junk Hneed) as [Hlen _].
  set (im := index_mapping (InputTypesNeedsRearrange in_types junk [])) in *.
  destruct (ReorderInputEdges_Ok n im (w_graph w)) as [Hr Hn].
  { intros p Hp. rewrite Hlen. by apply Hslots. }
  destruct (ReorderInputEdges n im (w_graph w)) as [r g1] eqn:E1.
  simpl in Hr, Hn. subst r.
  destruct (ShuffleInputDataTypeAttribute_Ok in_types junk Hneed) as [nt Hnt].
  fold im in Hnt.
  destruct (RearrangeArgNodes_Ok (arg_nodes fbody) im (graph fbody))
    as (body1 & Hb & Hshape); [lia|done|].
  assert (find_node g1 n = Some nd) as Hnd1 by (unfold find_node; by rewrite Hn).
  exists body1, (mkWorld (SetAttr g1 n "Tin" (AttrTypeList nt)) (w_fld w)).
  split; [|done].
  unfold bind at 1, on_graph at 1. rewrite E1. simpl.
  unfold bind at 1, lift at 1. rewrite Hnt.
  unfold bind at 1, on_graph at 1. simpl.
  rewrite (set_attr_Ok _ _ _ _ _ Hnd1). simpl.
  unfold lift. by rewrite Hb.
Qed.

Lemma call_node_unimplemented (w : World FLD) (n : nat) (junk : Z)
    (in_types out_types : list DataType)
    (f : string * list (string * AttrValue)) (fdef : FunctionDef)
    (fbody : FunctionBody) (r : nat) :
  GetNodeAttr as_type_list (w_graph w) n "Tin" = Ok in_types ->
  GetNodeAttr as_type_list (w_graph w) n "Tout" = Ok out_types ->
  existsb is_resource out_types = true ->
  GetNodeAttr as_func (w_graph w) n "f" = Ok f ->
  Find (w_fld w) f.1 = Some fdef ->
  FunctionDefToBodyHelper fdef (w_fld w) = Ok fbody ->
  inputs_match (w_graph w) n fbody (length in_types) ->
  examinable_retvals (graph fbody) (ret_nodes fbody) ->
  r ∈ ret_nodes fbody ->
  GetNodeAttr as_type (graph fbody) r "T" = Ok DT_RESOURCE ->
  (forall p, input_edge (graph fbody) r 0 = Ok p ->
             IsArg (graph fbody) (src p.2) = false) ->
  (MaybeRewriteCallNode junk n w).1 = Err UNIMPLEMENTED
  /\ w_fld (MaybeRewriteCallNode junk n w).2 = w_fld w.
Proof.
  intros HTin HTout Hres Hf Hfind Hbody Hmatch Hex Hr HT Hsrc.
  unfold MaybeRewriteCallNode.
  rewrite (bind_Ok _ _ _ _ _ (get_attr_Ok _ _ _ _ _ HTin)).
  rewrite (bind_Ok _ _ _ _ _ (get_attr_Ok _ _ _ _ _ HTout)).
  rewrite Hres, andb_false_r.
  rewrite (bind_Ok _ _ _ _ _ (get_attr_Ok _ _ _ _ _ Hf)).
  rewrite (bind_Ok _ _ _ _ _ (find_body_Ok _ _ _ _ Hfind Hbody)).
  destruct (call_input_stage_Ok n in_types junk fbody w)
    as (body1 & w1 & Hstage & Hfld & Hshape);
    [by eapply GetNodeAttr_live|done|].
  rewrite (bind_Ok _ _ _ _ _ Hstage).
  assert (call_output_stage n out_types true fbody body1 w1
          = (Err UNIMPLEMENTED, w1)) as Hout.
  { unfold call_output_stage.
    pose proof (CalculateRetvalRearrange_Unimplemented body1 (ret_nodes fbody) r
                  (mkRetvalMaps ∅ ∅)) as Hcalc.
    unfold bind at 1, lift at 1, exec.
    destruct (CalculateRetvalRearrange body1 (ret_nodes fbody) (mkRetvalMaps ∅ ∅))
      as [res maps] eqn:E. simpl in Hcalc. rewrite Hcalc; [done|..].
    - by eapply same_shape_examinable.
    - done.
    - by rewrite (same_shape_GetNodeAttr _ _ _ _ _ Hshape).
    - intros p Hp. rewrite (same_shape_input_edge _ _ _ _ Hshape) in Hp.
      unfold IsArg. rewrite (same_shape_has_type _ _ _ _ Hshape). by apply Hsrc. }
  by rewrite (bind_Err _ _ _ _ _ Hout).
Qed.

End CallNodeFacts.

(** C2.  Take a direct call node with a resource-typed declared output
    whose callee is found and instantiated, on a well-formed call (the
    node's data inputs enter the slots its input types declare, the body's
    argument nodes are live and no more than those types, and the body's
    [_Retval] nodes can be examined).  If some resource-typed [_Retval] of
    the body does not trace back, through zero or more identity nodes, to an
    [_Arg] node, then [MaybeRewriteCallNode] returns [Unimplemented] and the
    function library is exactly what it was: no function has been added. *)
Theorem call_resource_retval_must_trace_to_arg {FunctionDef FLD : Type}
    `{Pass.Library FunctionDef FLD} (w : Pass.World FLD) (n : nat) (junk : Z)
    (in_types out_types : list DataType)
    (f : string * list (string * AttrValue)) (fdef : FunctionDef)
    (fbody : Pass.FunctionBody) (r : nat) :
  GraphStore.GetNodeAttr GraphStore.as_type_list (Pass.w_graph w) n "Tin"
  = Ok in_types ->
  GraphStore.GetNodeAttr GraphStore.as_type_list (Pass.w_graph w) n "Tout"
  = Ok out_types ->
  existsb is_resource out_types = true ->
  GraphStore.GetNodeAttr GraphStore.as_func (Pass.w_graph w) n "f" = Ok f ->
  Pass.Find (Pass.w_fld w) f.1 = Some fdef ->
  Pass.FunctionDefToBodyHelper fdef (Pass.w_fld w) = Ok fbody ->
  Vocabulary.inputs_match (Pass.w_graph w) n fbody (length in_types) ->
  Vocabulary.examinable_retvals (Pass.graph fbody) (Pass.ret_nodes fbody) ->
  r ∈ Pass.ret_nodes fbody ->
  GraphStore.GetNodeAttr GraphStore.as_type (Pass.graph fbody) r "T"
  = Ok DT_RESOURCE ->
  ~ (exists a, Vocabulary.traces_back_to_arg (Pass.graph fbody) r a) ->
  (Pass.MaybeRewriteCallNode junk n w).1 = Err UNIMPLEMENTED
  /\ Pass.w_fld (Pass.MaybeRewriteCallNode junk n w).2 = Pass.w_fld w.
Proof.
  intros HTin HTout Hres Hf Hfind Hbody Hmatch Hex Hr HT Hno.
  eapply call_node_unimplemented; try done.
  intros p Hp. destruct (GraphStore.IsArg _ _) eqn:Ha; [|done].
  destruct Hno. eexists. by eapply fed_by_arg_traces_back.
Qed.

Lemma call_resource_retval_must_trace_to_arg_witness :
  let w := Examples.call_world [DT_FLOAT] [DT_RESOURCE]
             Examples.returns_fresh_resource in
  (Pass.MaybeRewriteCallNode 0 1 w).1 = Err UNIMPLEMENTED
  /\ Pass.w_fld (Pass.MaybeRewriteCallNode 0 1 w).2 = Pass.w_fld w.
Proof.
  apply (call_resource_retval_must_trace_to_arg
           (Examples.call_world [DT_FLOAT] [DT_RESOURCE]
              Examples.returns_fresh_resource)
           1 0 [DT_FLOAT] [DT_RESOURCE] ("callee"%string, [])
           (SpecLibrary.mkFunctionDef "callee" Examples.returns_fresh_resource)
           (Pass.mkFunctionBody Examples.returns_fresh_resource [0] [2]) 2);
    try reflexivity.
  - split; [|split].
    + intros p Hp.
      change (p ∈ [(0, GraphStore.mkEdge 0 0 1 0)]) in Hp.
      apply list_elem_of_singleton in Hp as ->. simpl. lia.
    + simpl. lia.
    + intros a Ha. apply list_elem_of_singleton in Ha as ->. by eexists.
  - intros r Hr. apply list_elem_of_singleton in Hr as ->.
    exists DT_RESOURCE. split; [reflexivity|]. intros _.
    exists (0, GraphStore.mkEdge 1 0 2 0). split; [reflexivity|].
    intros Ha. by vm_compute in Ha.
  - by apply list_elem_of_singleton.
  - intros (a & first & Hfirst & Hreach & Harg).
    vm_compute in Hfirst. inversion Hfirst; subst first.
    inversion Hreach as [m Hid|m m' a' Hid]; subst.
    + by vm_compute in Harg.
    + by vm_compute in Hid.
Defined.

(** The call rewrite is stricter than the tracing condition: a resource
    [_Retval] that reaches its [_Arg] through an identity node is refused as
    well, since [CalculateRetvalRearrange] looks at the direct source only. *)
Example call_refuses_identity_chain :
  let w := Examples.call_world [DT_RESOURCE] [DT_RESOURCE]
             Examples.returns_resource_via_identity in
  Vocabulary.traces_back_to_arg Examples.returns_resource_via_identity 2 0
  /\ Pass.MaybeRewriteCallNode 0 1 w = (Err UNIMPLEMENTED, w).
Proof.
  split; [|reflexivity].
  exists 1. split; [reflexivity|]. split; [|reflexivity].
  eapply Vocabulary.reaches_step; [reflexivity..|].
  by apply Vocabulary.reaches_here.
Qed.

(** ** While nodes: resources keep their position *)

Section WhileFacts.
Import GraphStore IndexMapping Rewriter Pass Vocabulary.
Local Open Scope Z_scope.
Context {FunctionDef FLD : Type} `{Library FunctionDef FLD}.

Lemma reaches_in_reaches (g : Graph) (k m a : nat) :
  reaches_in g k m a -> reaches g m a.
Proof.
  induction 1 as [m Hm|k m m' a Hid Hin _ IH];
    [by apply reaches_here|by eapply reaches_step].
Qed.

Lemma reaches_deterministic (g : Graph) (m a a' : nat) :
  reaches g m a -> reaches g m a' -> a = a'.
Proof.
  induction 1 as [m Hm|m m' a Hid Hin _ IH]; inversion 1; subst; try congruence.
  apply IH. congruence.
Qed.

(** Given enough fuel, the tracing loop arrives where the chain of identity
    nodes ends. *)
Lemma trace_identity_reaches_in (g : Graph) (k m a : nat) (fuel : nat) :
  reaches_in g k m a -> (k <= fuel)%nat -> trace_identity fuel g m = Ok a.
Proof.
  intros Hr. revert fuel. induction Hr as [m Hm|k m m' a Hid Hin _ IH];
    intros fuel Hk.
  - destruct fuel; simpl; by rewrite Hm.
  - destruct fuel as [|fuel]; [lia|]. simpl. rewrite Hid, Hin. simpl.
    apply IH. lia.
Qed.

(** A loop whose turns leave the state alone fails with [c] when some
    turn does and the others succeed or fail with [c] as well. *)
Lemma for_each_indexed_Err_at {St A} (c : Code) (l : list A) (i : Z)
    (body : Z -> A -> M St unit) (s : St) :
  (forall (k : nat) a, l !! k = Some a ->
     body (i + Z.of_nat k) a s = (Ok tt, s)
     \/ body (i + Z.of_nat k) a s = (Err c, s)) ->
  (exists (k : nat) a, l !! k = Some a
     /\ body (i + Z.of_nat k) a s = (Err c, s)) ->
  for_each_indexed i l body s = (Err c, s).
Proof.
  revert i. induction l as [|a l IH]; intros i Hall (k & b & Hb & Hfail).
  { by rewrite lookup_nil in Hb. }
  simpl. unfold bind.
  destruct (Hall 0%nat a eq_refl) as [Hr|Hr]; rewrite Z.add_0_r in Hr;
    rewrite Hr; [|done].
  destruct k as [|k].
  { simpl in Hb. inversion Hb; subst b. rewrite Z.add_0_r in Hfail. congruence. }
  apply IH.
  - intros k' a' Ha'.
    replace (i + 1 + Z.of_nat k') with (i + Z.of_nat (S k')) by lia.
    by apply Hall.
  - exists k, b. split; [done|].
    by replace (i + 1 + Z.of_nat k) with (i + Z.of_nat (S k)) by lia.
Qed.

Lemma for_each_indexed_Ok_same {St A} (l : list A) (i : Z)
    (body : Z -> A -> M St unit) (s : St) :
  (forall (k : nat) a, l !! k = Some a ->
     body (i + Z.of_nat k) a s = (Ok tt, s)) ->
  for_each_indexed i l body s = (Ok tt, s).
Proof.
  revert i. induction l as [|a l IH]; intros i Hall; simpl; [done|].
  unfold bind. pose proof (Hall 0%nat a eq_refl) as H0.
  rewrite Z.add_0_r in H0. rewrite H0. apply IH. intros k b Hb.
  replace (i + 1 + Z.of_nat k) with (i + Z.of_nat (S k)) by lia.
  by apply Hall.
Qed.

(** One turn of the While check, on a followable [_Retval]. *)
Lemma check_turn (fuel : nat) (g : Graph) (ret_nodes : list nat) (r : nat) (i : Z) :
  followable_retvals fuel g ret_nodes -> r ∈ ret_nodes ->
  let turn :=
    (bind get (fun g =>
       bind (lift (GetNodeAttr as_type g r "T")) (fun dtype =>
         if negb (is_resource dtype) then ret tt
         else
           bind (lift (input_node g r 0)) (fun first =>
             bind (lift (trace_identity fuel g first)) (fun input =>
               if IsArg g input then
                 bind (lift (GetNodeAttr as_int g input "index")) (fun index =>
                   if decide (index <> i) then fail UNIMPLEMENTED else ret tt)
               else fail UNIMPLEMENTED))))) in
  ((GetNodeAttr as_type g r "T" = Ok DT_RESOURCE -> returns_argument g r i) ->
   turn g = (Ok tt, g))
  /\ (GetNodeAttr as_type g r "T" = Ok DT_RESOURCE -> ~ returns_argument g r i ->
      turn g = (Err UNIMPLEMENTED, g))
  /\ (turn g = (Ok tt, g) \/ turn g = (Err UNIMPLEMENTED, g)).
Proof.
  intros Hfol Hr turn. subst turn.
  destruct (Hfol r Hr) as (t & Ht & Hres).
  unfold bind, get, lift, fail, ret. simpl. rewrite Ht.
  destruct (is_resource t) eqn:Hc; simpl.
  2:{ apply is_resource_false in Hc. split; [done|]. split; [|by left].
      intros Heq. congruence. }
  apply is_resource_true in Hc. subst t.
  destruct (Hres eq_refl) as (first & a & k & Hfirst & Hreach & Hk & Hidx).
  rewrite Hfirst, (trace_identity_reaches_in _ _ _ _ _ Hreach Hk).
  assert (forall j, returns_argument g r j ->
            IsArg g a = true /\ GetNodeAttr as_int g a "index" = Ok j) as Hown.
  { intros j (a' & (first' & Hf' & Hr' & Ha') & Hj).
    assert (first' = first) as -> by congruence.
    assert (a' = a) as ->
      by (eapply reaches_deterministic; [done|by eapply reaches_in_reaches]).
    done. }
  destruct (IsArg g a) eqn:Ha.
  - destruct (Hidx eq_refl) as [j Hj]. rewrite Hj.
    destruct (decide (j <> i)) as [Hne|Heq].
    + split; [|split; [done|by right]].
      intros Hret. destruct (Hown i (Hret eq_refl)) as [_ Hi]. congruence.
    + assert (j = i) as -> by (destruct (decide (j = i)); [done|by destruct Heq]).
      split; [done|]. split; [|by left].
      intros _ []. exists a. split; [|done].
      exists first. split; [done|]. split; [by eapply reaches_in_reaches|done].
  - split; [|split; [done|by right]].
    intros Hret. destruct (Hown i (Hret eq_refl)) as [? _]. done.
Qed.

(** The check passes when every resource result is the argument with its
    own index, and fails with [UNIMPLEMENTED] when some is not. *)
Lemma check_while_body_spec (fuel : nat) (g : Graph) (ret_nodes : list nat) :
  followable_retvals fuel g ret_nodes ->
  ((forall (i : nat) r, ret_nodes !! i = Some r ->
      GetNodeAttr as_type g r "T" = Ok DT_RESOURCE ->
      returns_argument g r (Z.of_nat i)) ->
   check_while_body fuel ret_nodes g = (Ok tt, g))
  /\ ((exists (i : nat) r, ret_nodes !! i = Some r
         /\ GetNodeAttr as_type g r "T" = Ok DT_RESOURCE
         /\ ~ returns_argument g r (Z.of_nat i)) ->
      check_while_body fuel ret_nodes g = (Err UNIMPLEMENTED, g)).
Proof.
  intros Hfol. unfold check_while_body. split.
  - intros Hall. apply for_each_indexed_Ok_same. intros k r Hr.
    rewrite Z.add_0_l.
    destruct (check_turn fuel g ret_nodes r (Z.of_nat k) Hfol
                ltac:(by eapply list_elem_of_lookup_2)) as (Hok & _ & _).
    apply Hok. intros HT. by apply Hall.
  - intros (i & r & Hr & HT & Hnot). apply for_each_indexed_Err_at.
    + intros k a Ha. rewrite Z.add_0_l.
      by destruct (check_turn fuel g ret_nodes a (Z.of_nat k) Hfol
                     ltac:(by eapply list_elem_of_lookup_2)) as (_ & _ & ?).
    + exists i, r. split; [done|]. rewrite Z.add_0_l.
      destruct (check_turn fuel g ret_nodes r (Z.of_nat i) Hfol
                  ltac:(by eapply list_elem_of_lookup_2)) as (_ & Herr & _).
      by apply Herr.
Qed.

(** The turn of the While loop for the body function stops with
    [UNIMPLEMENTED], having changed nothing, when some resource result of
    the body is not the argument with its own index. *)
Lemma rewrite_while_body_unimplemented (w : World FLD) (n : nat) (fuel : nat)
    (types : list DataType) (out : Outputs)
    (f : string * list (string * AttrValue)) (fdef : FunctionDef)
    (fbody : FunctionBody) :
  GetNodeAttr as_func (w_graph w) n "body" = Ok f ->
  Find (w_fld w) f.1 = Some fdef ->
  FunctionDefToBodyHelper fdef (w_fld w) = Ok fbody ->
  followable_retvals fuel (graph fbody) (ret_nodes fbody) ->
  (exists (i : nat) r, ret_nodes fbody !! i = Some r
     /\ GetNodeAttr as_type (graph fbody) r "T" = Ok DT_RESOURCE
     /\ ~ returns_argument (graph fbody) r (Z.of_nat i)) ->
  rewrite_while_function fuel n types out "body" w = (Err UNIMPLEMENTED, w).
Proof.
  intros Hf Hfind Hbody Hfol Hbad. unfold rewrite_while_function.
  rewrite (bind_Ok _ _ _ _ _ (get_attr_Ok _ _ _ _ _ Hf)).
  rewrite (bind_Ok _ _ _ _ _ (find_body_Ok _ _ _ _ Hfind Hbody)).
  rewrite decide_True by done.
  destruct (check_while_body_spec fuel _ _ Hfol) as [_ Herr].
  unfold bind at 1, lift at 1, exec. by rewrite (Herr Hbad).
Qed.

(** A While node whose inputs need no rearranging is left alone: its body
    is not even looked at. *)
Lemma while_node_untouched (w : World FLD) (n : nat) (fuel : nat) (junk : Z)
    (types : list DataType) :
  GetNodeAttr as_type_list (w_graph w) n "T" = Ok types ->
  need_rewrite (InputTypesNeedsRearrange types junk []) = false ->
  MaybeRewriteWhileNode fuel junk n w = (Ok false, w).
Proof.
  intros HT Hneed. unfold MaybeRewriteWhileNode.
  rewrite (bind_Ok _ _ _ _ _ (get_attr_Ok _ _ _ _ _ HT)). by rewrite Hneed.
Qed.

End WhileFacts.

(** C3, as amended.  The resource check of a While node is part of its
    rewrite, and the rewrite only happens when the inputs need rearranging.
    A While node whose inputs need no rearranging is returned as it is, with
    [node_rewritten = false], whatever its body does.  Otherwise the body is
    checked: if every resource-typed result is, through zero or more
    identity nodes, the argument with the identical index, the check passes
    and the rewrite goes on; if some resource-typed result is not, the turn
    of the body returns [Unimplemented] and changes nothing.  On the
    examples: a body returning its resource argument at its own index is
    rewritten, and a body that swaps two resource arguments next to a float
    is refused. *)
Theorem while_resources_keep_their_index {FunctionDef FLD : Type}
    `{Pass.Library FunctionDef FLD} (w : Pass.World FLD) (n : nat) (fuel : nat)
    (junk : Z) (types : list DataType)
    (f : string * list (string * AttrValue)) (fdef : FunctionDef)
    (fbody : Pass.FunctionBody) :
  GraphStore.GetNodeAttr GraphStore.as_type_list (Pass.w_graph w) n "T"
  = Ok types ->
  GraphStore.GetNodeAttr GraphStore.as_func (Pass.w_graph w) n "body" = Ok f ->
  Pass.Find (Pass.w_fld w) f.1 = Some fdef ->
  Pass.FunctionDefToBodyHelper fdef (Pass.w_fld w) = Ok fbody ->
  Vocabulary.followable_retvals fuel (Pass.graph fbody) (Pass.ret_nodes fbody) ->
  let out := IndexMapping.InputTypesNeedsRearrange types junk [] in
  (IndexMapping.need_rewrite out = false ->
   Pass.MaybeRewriteWhileNode fuel junk n w = (Ok false, w))
  /\ ((forall (i : nat) r, Pass.ret_nodes fbody !! i = Some r ->
         GraphStore.GetNodeAttr GraphStore.as_type (Pass.graph fbody) r "T"
         = Ok DT_RESOURCE ->
         Vocabulary.returns_argument (Pass.graph fbody) r (Z.of_nat i)) ->
      Pass.check_while_body fuel (Pass.ret_nodes fbody) (Pass.graph fbody)
      = (Ok tt, Pass.graph fbody))
  /\ ((exists (i : nat) r, Pass.ret_nodes fbody !! i = Some r
         /\ GraphStore.GetNodeAttr GraphStore.as_type (Pass.graph fbody) r "T"
            = Ok DT_RESOURCE
         /\ ~ Vocabulary.returns_argument (Pass.graph fbody) r (Z.of_nat i)) ->
      Pass.rewrite_while_function fuel n types out "body" w
      = (Err UNIMPLEMENTED, w))
  /\ (Pass.MaybeRewriteWhileNode 10 0 2
        (Examples.while_world [DT_RESOURCE; DT_FLOAT] [0; 1])).1 = Ok true
  /\ (Pass.MaybeRewriteWhileNode 10 0 3
        (Examples.while_world [DT_RESOURCE; DT_RESOURCE; DT_FLOAT] [1; 0; 2])).1
     = Err UNIMPLEMENTED.
Proof.
  intros HT Hf Hfind Hbody Hfol out.
  split; [by apply while_node_untouched|].
  split; [by apply check_while_body_spec|].
  split; [by eapply rewrite_while_body_unimplemented|].
  split; by vm_compute.
Qed.

Lemma while_resources_keep_their_index_witness :
  let types := [DT_RESOURCE; DT_RESOURCE; DT_FLOAT] in
  let w := Examples.while_world types [1; 0; 2] in
  Pass.rewrite_while_function 10 3 types
    (IndexMapping.InputTypesNeedsRearrange types 0 []) "body" w
  = (Err UNIMPLEMENTED, w).
Proof.
  apply (while_resources_keep_their_index
           (Examples.while_world [DT_RESOURCE; DT_RESOURCE; DT_FLOAT] [1; 0; 2])
           3 10 0 [DT_RESOURCE; DT_RESOURCE; DT_FLOAT] ("body_f"%string, [])
           (SpecLibrary.mkFunctionDef "body_f"
              (Examples.while_body [DT_RESOURCE; DT_RESOURCE; DT_FLOAT] [1; 0; 2]))
           (Pass.mkFunctionBody
              (Examples.while_body [DT_RESOURCE; DT_RESOURCE; DT_FLOAT] [1; 0; 2])
              [0; 1; 2] [3; 4; 5]));
    try reflexivity.
  - intros r Hr.
    repeat (apply elem_of_cons in Hr as [->|Hr]);
      [exists DT_RESOURCE|exists DT_RESOURCE|exists DT_FLOAT|by apply elem_of_nil in Hr];
      (split; [reflexivity|]); try done; intros _.
    + exists 1, 1, 0. split; [reflexivity|].
      split; [by apply Vocabulary.reaches_in_here|]. split; [lia|].
      intros _. by exists 1%Z.
    + exists 0, 0, 0. split; [reflexivity|].
      split; [by apply Vocabulary.reaches_in_here|]. split; [lia|].
      intros _. by exists 0%Z.
  - exists 0, 3. split; [reflexivity|]. split; [reflexivity|].
    intros (a & (first & Hfirst & Hreach & Harg) & Hidx).
    vm_compute in Hfirst. inversion Hfirst; subst first.
    inversion Hreach as [m Hid|m m' a' Hid]; subst.
    + by vm_compute in Hidx.
    + by vm_compute in Hid.
Defined.

(** The claim as first stated fails: a While node over two resources, whose
    inputs need no rearranging, has a body that swaps them (result 0 is
    argument 1 and result 1 is argument 0), and the rewrite returns without
    an error. *)
Lemma while_swap_goes_unnoticed :
  let w := Examples.while_world [DT_RESOURCE; DT_RESOURCE] [1; 0] in
  let body := Examples.while_body [DT_RESOURCE; DT_RESOURCE] [1; 0] in
  Vocabulary.returns_argument body 2 1
  /\ Vocabulary.returns_argument body 3 0
  /\ Pass.MaybeRewriteWhileNode 10 0 2 w = (Ok false, w).
Proof.
  split; [|split; [|reflexivity]].
  - exists 1. split; [|reflexivity].
    exists 1. split; [reflexivity|].
    split; [by apply Vocabulary.reaches_here|reflexivity].
  - exists 0. split; [|reflexivity].
    exists 0. split; [reflexivity|].
    split; [by apply Vocabulary.reaches_here|reflexivity].
Qed.

(** ** If nodes: the branches share one pair of maps *)

Section IfBranchFacts.
Import GraphStore IndexMapping Rewriter Pass Vocabulary.
Local Open Scope Z_scope.

Lemma map_insert_keeps (k v k' : Z) (m : gmap Z Z) :
  is_Some (m !! k') -> is_Some (map_insert k v m !! k').
Proof.
  intros Hk'. unfold map_insert. destruct (m !! k) eqn:E; [done|].
  rewrite lookup_insert. by case_decide.
Qed.

Lemma map_insert_present (k v : Z) (m : gmap Z Z) :
  is_Some (map_insert k v m !! k).
Proof.
  unfold map_insert. destruct (m !! k) eqn:E; [by rewrite E|].
  by rewrite lookup_insert_eq.
Qed.

Lemma map_insert_noop (k v : Z) (m : gmap Z Z) :
  is_Some (m !! k) -> map_insert k v m = m.
Proof. intros [x Hx]. unfold map_insert. by rewrite Hx. Qed.

Lemma decided_keeps_index (maps : RetvalMaps) (k v i : Z) (t : DataType) :
  decided maps i t ->
  decided (mkRetvalMaps (map_insert k v (retval_index_mapping maps))
             (resource_retval_to_arg maps)) i t.
Proof.
  unfold decided. destruct (is_resource t); simpl; [done|].
  apply map_insert_keeps.
Qed.

Lemma decided_keeps_arg (maps : RetvalMaps) (k v i : Z) (t : DataType) :
  decided maps i t ->
  decided (mkRetvalMaps (retval_index_mapping maps)
             (map_insert k v (resource_retval_to_arg maps))) i t.
Proof.
  unfold decided. destruct (is_resource t); simpl; [|done].
  apply map_insert_keeps.
Qed.

(** After a successful run every position of the list is decided, and
    every position decided before still is. *)
Lemma CalculateRetvalRearrange_decides (g : Graph) (ret_nodes : list nat)
    (i0 : Z) (maps maps' : RetvalMaps) :
  for_each_indexed i0 ret_nodes (fun i n =>
    bind (lift (GetNodeAttr as_type g n "T")) (fun t =>
      if negb (is_resource t) then
        modify (fun maps =>
          let new_retval_index := Z.of_nat (size (retval_index_mapping maps)) in
          mkRetvalMaps (map_insert i new_retval_index (retval_index_mapping maps))
            (resource_retval_to_arg maps))
      else
        bind (lift (input_edge g n 0)) (fun e =>
          if negb (IsArg g (src e.2)) then fail UNIMPLEMENTED
          else
            let arg := src e.2 in
            bind (lift (GetNodeAttr as_int g arg "index")) (fun src_index =>
              modify (fun maps =>
                mkRetvalMaps (retval_index_mapping maps)
                  (map_insert i src_index (resource_retval_to_arg maps))))))) maps
  = (Ok tt, maps') ->
  (forall i t, decided maps i t -> decided maps' i t)
  /\ (forall (j : nat) r, ret_nodes !! j = Some r ->
        exists t, GetNodeAttr as_type g r "T" = Ok t
                  /\ decided maps' (i0 + Z.of_nat j) t).
Proof.
  revert i0 maps. induction ret_nodes as [|n rest IH]; intros i0 maps Hrun.
  { simpl in Hrun. inversion Hrun; subst. split; [done|].
    intros j r Hr. by rewrite lookup_nil in Hr. }
  simpl in Hrun. unfold bind at 1 in Hrun.
  match type of Hrun with
  | match ?turn with _ => _ end = _ => destruct turn as [res maps1] eqn:Hturn
  end.
  destruct res as [[]|c| |]; try done.
  apply IH in Hrun as [Hkeep Hdec].
  assert ((forall i t, decided maps i t -> decided maps1 i t)
          /\ exists t, GetNodeAttr as_type g n "T" = Ok t /\ decided maps1 i0 t)
    as [Hkeep1 (t & Ht & Hd)].
  { unfold bind, lift, fail, modify in Hturn. simpl in Hturn.
    destruct (GetNodeAttr as_type g n "T") as [t| | |]; try done.
    destruct (is_resource t) eqn:Hc; simpl in Hturn.
    - destruct (input_edge g n 0) as [e| | |]; try done.
      destruct (IsArg g (src e.2)); simpl in Hturn; [|done].
      destruct (GetNodeAttr as_int g (src e.2) "index") as [idx| | |]; try done.
      inversion Hturn; subst maps1. split; [intros; by apply decided_keeps_arg|].
      exists t. split; [done|]. unfold decided. rewrite Hc. simpl.
      apply map_insert_present.
    - inversion Hturn; subst maps1. split; [intros; by apply decided_keeps_index|].
      exists t. split; [done|]. unfold decided. rewrite Hc. simpl.
      apply map_insert_present. }
  split; [intros i t' Hi; by apply Hkeep, Hkeep1|].
  intros [|j] r Hr; simpl in Hr.
  - inversion Hr; subst r. exists t. split; [done|].
    rewrite Z.add_0_r. by apply Hkeep.
  - destruct (Hdec j r Hr) as (t' & Ht' & Hd'). exists t'. split; [done|].
    by replace (i0 + Z.of_nat (S j)) with (i0 + 1 + Z.of_nat j) by lia.
Qed.

(** On maps that already decide every position, a run over results that
    are fed by arguments changes nothing: [std::map::insert] keeps what the
    first branch wrote. *)
Lemma CalculateRetvalRearrange_second_branch (g : Graph) (ret_nodes : list nat)
    (maps : RetvalMaps) :
  (forall (j : nat) r, ret_nodes !! j = Some r ->
     exists t, GetNodeAttr as_type g r "T" = Ok t
               /\ decided maps (Z.of_nat j) t
               /\ (t = DT_RESOURCE ->
                   exists p idx, input_edge g r 0 = Ok p
                                 /\ IsArg g (src p.2) = true
                                 /\ GetNodeAttr as_int g (src p.2) "index" = Ok idx)) ->
  CalculateRetvalRearrange g ret_nodes maps = (Ok tt, maps).
Proof.
  intros Hall. unfold CalculateRetvalRearrange.
  apply for_each_indexed_Ok_same. intros k r Hr. rewrite Z.add_0_l.
  destruct (Hall k r Hr) as (t & Ht & Hd & Hres).
  unfold bind, lift, fail, modify. simpl. rewrite Ht. unfold decided in Hd.
  destruct maps as [rim rra]. simpl in *.
  destruct (is_resource t) eqn:Hc; simpl.
  - apply is_resource_true in Hc. destruct (Hres Hc) as (p & idx & Hp & Ha & Hidx).
    rewrite Hp, Ha. simpl. rewrite Hidx. by rewrite map_insert_noop.
  - by rewrite map_insert_noop.
Qed.

Lemma GetNodeAttr_Err {A} (project : AttrValue -> option A) (g : Graph)
    (n : nat) (key : string) (c : Code) :
  GetNodeAttr project g n key = Err c -> c <> UNIMPLEMENTED.
Proof.
  unfold GetNodeAttr. destruct (find_node g n) as [nd|]; [|done].
  destruct (attrs nd !! key) as [v|]; [|by intros [= <-]].
  destruct (project v); [done|by intros [= <-]].
Qed.

Lemma input_edge_Err (g : Graph) (n : nat) (idx : Z) (c : Code) :
  input_edge g n idx = Err c -> c <> UNIMPLEMENTED.
Proof.
  unfold input_edge. destruct (decide _); [by intros [= <-]|].
  destruct (list_find _ _) as [[? ?]|]; [done|by intros [= <-]].
Qed.

(** [CalculateRetvalRearrange] returns [UNIMPLEMENTED] only for a resource
    result that is not fed by an argument node. *)
Lemma CalculateRetvalRearrange_Unimplemented_only (g : Graph)
    (ret_nodes : list nat) (i0 : Z) (maps : RetvalMaps) :
  (for_each_indexed i0 ret_nodes (fun i n =>
    bind (lift (GetNodeAttr as_type g n "T")) (fun t =>
      if negb (is_resource t) then
        modify (fun maps =>
          let new_retval_index := Z.of_nat (size (retval_index_mapping maps)) in
          mkRetvalMaps (map_insert i new_retval_index (retval_index_mapping maps))
            (resource_retval_to_arg maps))
      else
        bind (lift (input_edge g n 0)) (fun e =>
          if negb (IsArg g (src e.2)) then fail UNIMPLEMENTED
          else
            let arg := src e.2 in
            bind (lift (GetNodeAttr as_int g arg "index")) (fun src_index =>
              modify (fun maps =>
                mkRetvalMaps (retval_index_mapping maps)
                  (map_insert i src_index (resource_retval_to_arg maps))))))) maps).1
  = Err UNIMPLEMENTED ->
  exists r p, r ∈ ret_nodes
              /\ GetNodeAttr as_type g r "T" = Ok DT_RESOURCE
              /\ input_edge g r 0 = Ok p /\ IsArg g (src p.2) = false.
Proof.
  revert i0 maps. induction ret_nodes as [|n rest IH]; intros i0 maps Hrun.
  { done. }
  simpl in Hrun. unfold bind at 1 in Hrun.
  match type of Hrun with
  | (match ?turn with _ => _ end).1 = _ => destruct turn as [res maps1] eqn:Hturn
  end.
  destruct res as [[]|c| |]; simpl in Hrun; try done.
  - apply IH in Hrun as (r & p & Hr & ?). exists r, p. split; [by right|done].
  - inversion Hrun; subst c. exists n.
    unfold bind, lift, fail, modify in Hturn. simpl in Hturn.
    destruct (GetNodeAttr as_type g n "T") as [t|c| |] eqn:Ht;
      [|inversion Hturn; subst; by destruct (GetNodeAttr_Err _ _ _ _ _ Ht)
       |done..].
    destruct (is_resource t) eqn:Hc; simpl in Hturn; [|done].
    apply is_resource_true in Hc. subst t.
    destruct (input_edge g n 0) as [p|c| |] eqn:Hp;
      [|inversion Hturn; subst; by destruct (input_edge_Err _ _ _ _ Hp)
       |done..].
    exists p. split; [by left|]. split; [done|]. split; [done|].
    destruct (IsArg g (src p.2)) eqn:Ha; [|done]. simpl in Hturn.
    destruct (GetNodeAttr as_int g (src p.2) "index") as [idx|c| |] eqn:Hidx;
      [done|inversion Hturn; subst; by destruct (GetNodeAttr_Err _ _ _ _ _ Hidx)
       |done..].
Qed.

End IfBranchFacts.

(** C8, as amended.  An If node whose branches take a resource result from
    different arguments is not refused.  [CalculateRetvalRearrange] fills
    one pair of maps for both branches; once the then-branch has been
    accepted, a run over an else-branch with the same result types, whose
    resource results are fed by argument nodes of any index, returns OK and
    leaves the maps exactly as the then-branch made them.
    [CalculateRetvalRearrange] returns [Unimplemented] only for a resource
    result that is not fed directly by an argument node.  On the example,
    where the then-branch returns argument 1 and the else-branch argument
    2, the rewrite succeeds and the consumer of the result is wired to the
    node's input for argument 1. *)
Theorem if_branches_keep_first_positions (g1 g2 : GraphStore.Graph)
    (ret_nodes1 ret_nodes2 : list nat) (maps1 : Rewriter.RetvalMaps) :
  Rewriter.CalculateRetvalRearrange g1 ret_nodes1 (Rewriter.mkRetvalMaps ∅ ∅)
  = (Ok tt, maps1) ->
  (forall (j : nat) r2, ret_nodes2 !! j = Some r2 ->
     exists r1, ret_nodes1 !! j = Some r1
       /\ GraphStore.GetNodeAttr GraphStore.as_type g2 r2 "T"
          = GraphStore.GetNodeAttr GraphStore.as_type g1 r1 "T") ->
  (forall r2, r2 ∈ ret_nodes2 ->
     GraphStore.GetNodeAttr GraphStore.as_type g2 r2 "T" = Ok DT_RESOURCE ->
     exists p idx, GraphStore.input_edge g2 r2 0 = Ok p
       /\ GraphStore.IsArg g2 (GraphStore.src p.2) = true
       /\ GraphStore.GetNodeAttr GraphStore.as_int g2 (GraphStore.src p.2) "index"
          = Ok idx) ->
  Rewriter.CalculateRetvalRearrange g2 ret_nodes2 maps1 = (Ok tt, maps1)
  /\ (forall g ret_nodes maps,
        (Rewriter.CalculateRetvalRearrange g ret_nodes maps).1 = Err UNIMPLEMENTED ->
        exists r p, r ∈ ret_nodes
          /\ GraphStore.GetNodeAttr GraphStore.as_type g r "T" = Ok DT_RESOURCE
          /\ GraphStore.input_edge g r 0 = Ok p
          /\ GraphStore.IsArg g (GraphStore.src p.2) = false)
  /\ (let r := Pass.MaybeRewriteIfNode 0 4 Examples.mismatched_if_world in
      r.1 = Ok true
      /\ GraphStore.in_edges (Pass.w_graph r.2) 5
         = [(5%nat, GraphStore.mkEdge 2 0 5 0)]).
Proof.
  intros Hfirst Htypes Hargs. split; [|split; [|by vm_compute]].
  - apply CalculateRetvalRearrange_decides in Hfirst as [_ Hdec].
    apply CalculateRetvalRearrange_second_branch. intros j r2 Hr2.
    destruct (Htypes j r2 Hr2) as (r1 & Hr1 & Heq).
    destruct (Hdec j r1 Hr1) as (t & Ht & Hd). rewrite Z.add_0_l in Hd.
    exists t. split; [by rewrite Heq|]. split; [done|].
    intros ->. apply Hargs; [by eapply list_elem_of_lookup_2|by rewrite Heq].
  - intros g ret_nodes maps. apply CalculateRetvalRearrange_Unimplemented_only.
Qed.

Lemma if_branches_keep_first_positions_witness :
  let maps1 := Rewriter.mkRetvalMaps ∅ {[ 0%Z := 1%Z ]} in
  Rewriter.CalculateRetvalRearrange (Examples.branch_returns_arg 2) [3] maps1
  = (Ok tt, maps1).
Proof.
  apply (if_branches_keep_first_positions
           (Examples.branch_returns_arg 1) (Examples.branch_returns_arg 2)
           [3] [3] (Rewriter.mkRetvalMaps ∅ {[ 0%Z := 1%Z ]})).
  - reflexivity.
  - intros [|j] r2 Hr2; [|by destruct j]. inversion Hr2; subst r2.
    by exists 3.
  - intros r2 Hr2 _. apply list_elem_of_singleton in Hr2 as ->.
    by exists (0, GraphStore.mkEdge 2 0 3 0), 2%Z.
Defined.

(** The claim as first stated fails: the two branches of this If node
    return different arguments at the same position (argument 1 in the
    then-branch, argument 2 in the else-branch), and the rewrite succeeds. *)
Lemma if_branch_mismatch_not_refused :
  Vocabulary.returns_argument (Examples.branch_returns_arg 1) 3 1
  /\ Vocabulary.returns_argument (Examples.branch_returns_arg 2) 3 2
  /\ (Pass.MaybeRewriteIfNode 0 4 Examples.mismatched_if_world).1 = Ok true.
Proof.
  split; [|split; [|by vm_compute]].
  - exists 1. split; [|reflexivity]. exists 1. split; [reflexivity|].
    split; [by apply Vocabulary.reaches_here|reflexivity].
  - exists 2. split; [|reflexivity]. exists 2. split; [reflexivity|].
    split; [by apply Vocabulary.reaches_here|reflexivity].
Qed.

(** ** Nodes that need no rewrite *)

Section UntouchedNodes.
Import GraphStore IndexMapping Rewriter Pass Vocabulary.
Local Open Scope Z_scope.
Context {FunctionDef FLD : Type} `{Library FunctionDef FLD}.

(** When [need_rewrite] is not set, [resource_input_count] still holds what
    the caller's variable held. *)
Lemma resource_input_count_unwritten (types : list DataType) (junk : Z)
    (mapping0 : list Z) :
  need_rewrite (InputTypesNeedsRearrange types junk mapping0) = false ->
  resource_input_count (InputTypesNeedsRearrange types junk mapping0) = junk.
Proof.
  unfold InputTypesNeedsRearrange. destruct (decide _); [done|].
  by destruct (negb _).
Qed.

Lemma need_rewrite_junk (types : list DataType) (junk junk' : Z)
    (mapping0 mapping0' : list Z) :
  need_rewrite (InputTypesNeedsRearrange types junk mapping0)
  = need_rewrite (InputTypesNeedsRearrange types junk' mapping0').
Proof.
  unfold InputTypesNeedsRearrange. destruct (decide _); [done|].
  by destruct (negb _).
Qed.

(** An If node whose inputs need no rearranging and whose outputs hold no
    resource is left alone. *)
Lemma if_node_untouched (w : World FLD) (n : nat) (junk : Z)
    (in_types out_types : list DataType) :
  GetNodeAttr as_type_list (w_graph w) n "Tin" = Ok in_types ->
  GetNodeAttr as_type_list (w_graph w) n "Tout" = Ok out_types ->
  need_rewrite (InputTypesNeedsRearrange in_types junk []) = false ->
  existsb is_resource out_types = false ->
  MaybeRewriteIfNode junk n w = (Ok false, w).
Proof.
  intros HTin HTout Hneed Hres. unfold MaybeRewriteIfNode.
  rewrite (bind_Ok _ _ _ _ _ (get_attr_Ok _ _ _ _ _ HTin)).
  rewrite (bind_Ok _ _ _ _ _ (get_attr_Ok _ _ _ _ _ HTout)).
  by rewrite Hneed, Hres.
Qed.

(** A call node in the same situation is left alone only if the
    unwritten [resource_input_count] happens to hold zero. *)
Lemma call_node_untouched_on_zero (w : World FLD) (n : nat)
    (in_types out_types : list DataType) :
  GetNodeAttr as_type_list (w_graph w) n "Tin" = Ok in_types ->
  GetNodeAttr as_type_list (w_graph w) n "Tout" = Ok out_types ->
  need_rewrite (InputTypesNeedsRearrange in_types 0 []) = false ->
  existsb is_resource out_types = false ->
  MaybeRewriteCallNode 0 n w = (Ok false, w).
Proof.
  intros HTin HTout Hneed Hres. unfold MaybeRewriteCallNode.
  rewrite (bind_Ok _ _ _ _ _ (get_attr_Ok _ _ _ _ _ HTin)).
  rewrite (bind_Ok _ _ _ _ _ (get_attr_Ok _ _ _ _ _ HTout)).
  by rewrite (resource_input_count_unwritten _ _ _ Hneed), Hres.
Qed.

(** With any other content the node is taken for one that needs a rewrite:
    the call never reports [node_rewritten = false]. *)
Lemma call_node_rewritten_on_junk (w : World FLD) (n : nat) (junk : Z)
    (in_types out_types : list DataType) :
  GetNodeAttr as_type_list (w_graph w) n "Tin" = Ok in_types ->
  GetNodeAttr as_type_list (w_graph w) n "Tout" = Ok out_types ->
  need_rewrite (InputTypesNeedsRearrange in_types junk []) = false ->
  junk <> 0 ->
  (MaybeRewriteCallNode junk n w).1 <> Ok false.
Proof.
  intros HTin HTout Hneed Hjunk. unfold MaybeRewriteCallNode.
  rewrite (bind_Ok _ _ _ _ _ (get_attr_Ok _ _ _ _ _ HTin)).
  rewrite (bind_Ok _ _ _ _ _ (get_attr_Ok _ _ _ _ _ HTout)).
  rewrite (resource_input_count_unwritten _ _ _ Hneed).
  rewrite (bool_decide_eq_false_2 _ Hjunk). simpl.
  intros Hfalse.
  assert (yields (S:=World FLD)
            (bind (get_attr as_func n "f") (fun f =>
               bind (find_body f.1) (fun fbody =>
                 bind (call_input_stage n in_types
                         (InputTypesNeedsRearrange in_types junk []) fbody)
                   (fun body1 =>
                      bind (call_output_stage n out_types
                              (existsb is_resource out_types) fbody body1)
                        (fun body2 =>
                           bind (save_and_repoint n "f" f body2)
                             (fun _ => ret true))))))
            (fun b => b = true)) as Hy.
  { do 5 (apply yields_bind; intros ?). by apply yields_ret. }
  by specialize (Hy w false Hfalse).
Qed.

End UntouchedNodes.

(** C6 (the code departs from the claim).  This call node has one float
    input and one float output: its inputs need no rearranging and it has no
    resource output.  [InputTypesNeedsRearrange] therefore returns without
    writing [resource_input_count], and [MaybeRewriteCallNode] tests that
    variable all the same.  When it holds 1, the node is reported rewritten,
    the callee is registered again under a new name, and the node is
    repointed to it; only when it holds 0 is the node left alone. *)
Theorem call_node_rewritten_without_need :
  let w := Examples.call_world [DT_FLOAT] [DT_FLOAT] Examples.float_identity in
  let r := Pass.MaybeRewriteCallNode 1 1 w in
  IndexMapping.need_rewrite
    (IndexMapping.InputTypesNeedsRearrange [DT_FLOAT] 1 []) = false
  /\ existsb is_resource [DT_FLOAT] = false
  /\ r.1 = Ok true
  /\ Pass.w_fld w !! "callee_rearrange_0"%string = None
  /\ is_Some (Pass.w_fld r.2 !! "callee_rearrange_0"%string)
  /\ GraphStore.GetNodeAttr GraphStore.as_func (Pass.w_graph r.2) 1 "f"
     = Ok ("callee_rearrange_0"%string, [])
  /\ Pass.MaybeRewriteCallNode 0 1 w = (Ok false, w).
Proof.
  intros w r.
  split; [reflexivity|]. split; [reflexivity|]. split; [reflexivity|].
  split; [reflexivity|]. split; [by vm_compute; eexists|].
  split; reflexivity.
Qed.

(** ** The recursion over associated functions *)

Section RecursionFacts.
Import GraphStore IndexMapping Rewriter Pass Vocabulary.
Local Open Scope Z_scope.
Context {FunctionDef FLD : Type} `{Library FunctionDef FLD}.

(** A node gathered with its associated functions is a live node. *)
Lemma nodes_to_associated_functions_live (g : Graph) (fld : FLD) (n : nat)
    (afs : list AssociatedFunctionInfo) :
  (n, afs) ∈ nodes_to_associated_functions g fld -> is_Some (find_node g n).
Proof.
  unfold nodes_to_associated_functions.
  intros ([i nd] & Hin & Hf)%list_elem_of_omap. simpl in Hf.
  destruct (GetAssociatedFunctions nd fld); [done|]. inversion Hf; subst.
  apply elem_of_nodes in Hin. by eexists.
Qed.



(** A recursive call that runs out of budget ends the whole call. *)
Lemma rewrite_associated_function_NoFuel (rec : RewriteFunction FLD) (n : nat)
    (af : AssociatedFunctionInfo) (fr fr1 : Frame FLD) (new_name : string) :
  fr_memo fr !! Canonicalize (af_func_name af) (af_attrs af) = None ->
  is_Some (find_node (fr_graph fr) n) ->
  (forall new_name,
     in_pass (rec (af_func_name af) new_name (af_attrs af)) fr = (NoFuel, fr)) ->
  rewrite_associated_function rec n af fr = (NoFuel, fr).
Proof.
  intros Hmemo [nd Hnd] Hrec. unfold rewrite_associated_function.
  unfold bind at 1, gets at 1. simpl. rewrite Hmemo.
  unfold bind at 1. unfold bind at 1, get at 1. simpl. rewrite Hnd.
  destruct (af_type af); unfold bind at 1, ret at 1; simpl;
    unfold bind at 1; by rewrite Hrec.
Qed.

(** A function whose body names the function itself, with the same
    attributes, before any other associated function, is entered again and
    again: the memoization map has no entry for it until a call for it
    returns, and none does. *)
Lemma self_reference_diverges (fld : FLD) (memo : gmap string (option string))
    (f : string) (attrs : list (string * AttrValue)) (g : Graph) (n : nat)
    (af : AssociatedFunctionInfo) (afs : list AssociatedFunctionInfo)
    (rest : list (nat * list AssociatedFunctionInfo)) :
  Instantiate fld f attrs = Ok g ->
  nodes_to_associated_functions g fld = (n, af :: afs) :: rest ->
  af_func_name af = f -> af_attrs af = attrs ->
  memo !! Canonicalize f attrs = None ->
  forall (depth fuel : nat) (junk : nat -> Z) (new_name : string),
    RearrangeFunctionArgumentForFunction depth fuel junk f new_name attrs
      (mkPassState fld memo)
    = (NoFuel, mkPassState fld memo).
Proof.
  intros Hinst Hnodes Hname Hattrs Hmemo depth fuel junk.
  induction depth as [|depth IH]; intros new_name; [done|].
  simpl. unfold rearrange_body. simpl. rewrite Hinst, Hnodes.
  assert (is_Some (find_node g n)) as Hlive.
  { apply (nodes_to_associated_functions_live g fld n (af :: afs)).
    rewrite Hnodes. by left. }
  simpl. unfold bind at 1. unfold bind at 1. unfold bind at 1.
  rewrite (rewrite_associated_function_NoFuel _ n af
             (mkFrame g fld memo false) (mkFrame g fld memo false) new_name);
    [done|by rewrite Hname, Hattrs|done|].
  intros new_name'. unfold in_pass. simpl. rewrite Hname, Hattrs.
  by rewrite IH.
Qed.

End RecursionFacts.

Section MemoFacts.
Import GraphStore Pass.
Context {FunctionDef FLD : Type} `{Library FunctionDef FLD}.

(** Repointing a node touches neither the map nor [*modified]. *)
Lemma repoint_associated_function_frame (n : nat) (af : AssociatedFunctionInfo)
    (new_name : string) (fr fr' : Frame FLD) (r : Result unit) :
  repoint_associated_function n af new_name fr = (r, fr') ->
  fr_memo fr' = fr_memo fr /\ fr_modified fr' = fr_modified fr.
Proof.
  unfold repoint_associated_function.
  destruct (RewriteAssociatedFunction _ _ _ _ _) as [r' [g fld]].
  by intros [= <- <-].
Qed.


End MemoFacts.

(** C4, as amended.  The pass keeps no in-progress state: the entry of a
    function is written into the memoization map after the recursive call
    for it has returned, and a look-up between the two finds nothing.  So a
    function whose body refers, in the first place, to the function itself
    with the same attributes is entered again with the same library and the
    same map, without end: whatever the recursion budget, the embedding
    exhausts it and leaves the state as it was.  In particular no
    [Internal] error is returned. *)
Theorem self_reference_is_not_detected {FunctionDef FLD : Type}
    `{Pass.Library FunctionDef FLD} (fld : FLD)
    (memo : gmap string (option string)) (f : string)
    (attrs : list (string * AttrValue)) (g : GraphStore.Graph) (n : nat)
    (af : Pass.AssociatedFunctionInfo) (afs : list Pass.AssociatedFunctionInfo)
    (rest : list (nat * list Pass.AssociatedFunctionInfo)) :
  Pass.Instantiate fld f attrs = Ok g ->
  Pass.nodes_to_associated_functions g fld = (n, af :: afs) :: rest ->
  Pass.af_func_name af = f -> Pass.af_attrs af = attrs ->
  memo !! Pass.Canonicalize f attrs = None ->
  forall (depth fuel : nat) (junk : nat -> Z) (new_name : string),
    Pass.RearrangeFunctionArgumentForFunction depth fuel junk f new_name attrs
      (Pass.mkPassState fld memo)
    = (NoFuel, Pass.mkPassState fld memo)
    /\ (Pass.RearrangeFunctionArgumentForFunction depth fuel junk f new_name
          attrs (Pass.mkPassState fld memo)).1 <> Err INTERNAL.
Proof.
  intros Hinst Hnodes Hname Hattrs Hmemo depth fuel junk new_name.
  rewrite (self_reference_diverges fld memo f attrs g n af afs rest
             Hinst Hnodes Hname Hattrs Hmemo).
  by split.
Qed.

Lemma self_reference_is_not_detected_witness :
  Pass.RearrangeFunctionArgumentForFunction 5 10 (fun _ => 0%Z)
    "loop_f" "loop_f_rearrange_0" [] Examples.self_referential_state
  = (NoFuel, Examples.self_referential_state)
  /\ (Pass.RearrangeFunctionArgumentForFunction 5 10 (fun _ => 0%Z)
        "loop_f" "loop_f_rearrange_0" [] Examples.self_referential_state).1
     <> Err INTERNAL.
Proof.
  apply (self_reference_is_not_detected
           (Pass.ps_fld Examples.self_referential_state) ∅ "loop_f" []
           Examples.self_referential 0
           (Pass.mkAssociatedFunctionInfo Pass.kFunctionAttr "loop_f" "fn" [])
           [] []);
    reflexivity.
Defined.

(** The claim as first stated fails: for the function that refers to
    itself, no recursion budget yields a result, and none yields an
    [Internal] error. *)
Lemma self_reference_never_returns :
  (forall depth : nat,
     (Pass.RearrangeFunctionArgumentForFunction depth 10 (fun _ => 0%Z)
        "loop_f" "loop_f_rearrange_0" [] Examples.self_referential_state).1
     = NoFuel)
  /\ ~ (exists depth : nat,
         (Pass.RearrangeFunctionArgumentForFunction depth 10 (fun _ => 0%Z)
            "loop_f" "loop_f_rearrange_0" [] Examples.self_referential_state).1
         = Err INTERNAL).
Proof.
  assert (forall depth : nat,
            Pass.RearrangeFunctionArgumentForFunction depth 10 (fun _ => 0%Z)
              "loop_f" "loop_f_rearrange_0" [] Examples.self_referential_state
            = (NoFuel, Examples.self_referential_state)) as Hrun.
  { intros depth.
    apply (self_reference_diverges
             (Pass.ps_fld Examples.self_referential_state) ∅ "loop_f" []
             Examples.self_referential 0
             (Pass.mkAssociatedFunctionInfo Pass.kFunctionAttr "loop_f" "fn" [])
             [] []); reflexivity. }
  split; [intros depth; by rewrite Hrun|].
  intros [depth Hd]. by rewrite Hrun in Hd.
Qed.



(** ** The shuffled input types *)

Section ShuffleInputFacts.
Import IndexMapping Rewriter.
Local Open Scope Z_scope.

Lemma store_Ok {A} (result : list A) (k : Z) (a : A) (r : list A) :
  store result k a = Ok r <->
  0 <= k < Z.of_nat (length result) /\ r = <[Z.to_nat k := a]> result.
Proof.
  unfold store. destruct (decide (0 <= k < Z.of_nat (length result))).
  - split; [intros [= <-]; done|intros [_ ->]; done].
  - split; [done|intros [? _]; lia].
Qed.

Lemma vector_at_Some {A} (v : list A) (i : Z) (a : A) :
  vector_at v i = Ok a <-> 0 <= i /\ v !! Z.to_nat i = Some a.
Proof.
  unfold vector_at. destruct (decide (0 <= i)).
  - destruct (v !! Z.to_nat i) eqn:E; split.
    + intros [= <-]. done.
    + intros [_ [= <-]]. done.
    + done.
    + intros [_ ?]. done.
  - split; [done|intros [? _]; lia].
Qed.

(** What the loop of [ShuffleInputDataTypeAttribute] leaves in [result]:
    position [k] holds the type of the last [i] with [index_mapping.at(i) = k],
    and a position no [i] is mapped to keeps its content. *)
Lemma shuffle_input_loop_spec (l : list DataType) (im : list Z) (j : nat)
    (result r : list DataType) :
  shuffle_input_loop (Z.of_nat j) l im result = Ok r ->
  length r = length result
  /\ (forall i : nat, (i < length l)%nat ->
        exists k, im !! (j + i)%nat = Some k /\ 0 <= k < Z.of_nat (length result))
  /\ (forall p : nat,
        (forall i : nat, (i < length l)%nat -> im !! (j + i)%nat <> Some (Z.of_nat p)) ->
        r !! p = result !! p)
  /\ (forall (i : nat) (t : DataType) (k : Z),
        l !! i = Some t -> im !! (j + i)%nat = Some k ->
        (forall i' : nat, (i < i' < length l)%nat -> im !! (j + i')%nat <> Some k) ->
        r !! Z.to_nat k = Some t).
Proof.
  revert j result. induction l as [|t l IH]; intros j result; simpl.
  { intros [= <-]. split; [done|]. split; [intros; lia|].
    split; [done|]. by intros i t k Hi. }
  destruct (vector_at im (Z.of_nat j)) as [k| | |] eqn:Hk; simpl; try done.
  destruct (store result k t) as [result'| | |] eqn:Hst; simpl; try done.
  apply vector_at_Some in Hk as [_ Hk]. rewrite Nat2Z.id in Hk.
  apply store_Ok in Hst as [Hrange ->].
  replace (Z.of_nat j + 1) with (Z.of_nat (S j)) by lia.
  intros Hr. destruct (IH _ _ Hr) as (Hlen & Hin & Hkeep & Hset).
  rewrite length_insert in Hlen, Hin.
  split; [done|]. split; [|split].
  - intros [|i] Hi.
    + exists k. by rewrite Nat.add_0_r.
    + destruct (Hin i ltac:(lia)) as [k' Hk'].
      exists k'. by replace (j + S i)%nat with (S j + i)%nat by lia.
  - intros p Hp. rewrite Hkeep.
    + apply list_lookup_insert_ne. intros <-.
      apply (Hp 0%nat ltac:(lia)). rewrite Nat.add_0_r, Hk. f_equal. lia.
    + intros i Hi. replace (S j + i)%nat with (j + S i)%nat by lia.
      apply Hp. lia.
  - intros [|i] t' k' Ht' Hk' Hlast.
    + simpl in Ht'. injection Ht' as <-.
      rewrite Nat.add_0_r, Hk in Hk'. injection Hk' as <-.
      rewrite Hkeep.
      * apply list_lookup_insert_eq. lia.
      * intros i Hi. replace (S j + i)%nat with (j + S i)%nat by lia.
        rewrite Z2Nat.id by lia. apply Hlast. lia.
    + simpl in Ht'. apply (Hset i); [done| |].
      * by replace (S j + i)%nat with (j + S i)%nat by lia.
      * intros i' Hi'. replace (S j + i')%nat with (j + S i')%nat by lia.
        apply Hlast. lia.
Qed.




End ShuffleInputFacts.

(** ** Input types that need no rearranging *)

Section PartitionedTypes.
Import IndexMapping Rewriter.
Local Open Scope Z_scope.

Lemma count_resources_filter (l : list DataType) :
  count_resources l = Z.of_nat (length (filter (fun t => t = DT_RESOURCE) l)).
Proof.
  induction l as [|t l IH]; simpl; [done|].
  unfold is_resource. rewrite IH.
  destruct (decide (t = DT_RESOURCE)) as [Ht|Ht].
  - rewrite bool_decide_eq_true_2, filter_cons_True by done. simpl. lia.
  - rewrite bool_decide_eq_false_2, filter_cons_False by done. lia.
Qed.

Lemma length_filter_non_resource (l : list DataType) :
  Z.of_nat (length (filter (fun t => t <> DT_RESOURCE) l))
  = Z.of_nat (length l) - count_resources l.
Proof.
  induction l as [|t l IH]; simpl; [done|].
  unfold is_resource.
  destruct (decide (t = DT_RESOURCE)) as [Ht|Ht].
  - rewrite bool_decide_eq_true_2, filter_cons_False by (done || by intros []).
    lia.
  - rewrite bool_decide_eq_false_2, filter_cons_True by done. simpl. lia.
Qed.

(** The element at position [i] of a list is, among the elements that
    satisfy [P], at the position that counts those before it. *)
Lemma filter_lookup_rank {A} (P : A -> Prop) `{forall x, Decision (P x)}
    (l : list A) (i : nat) (x : A) :
  l !! i = Some x -> P x ->
  filter P l !! length (filter P (take i l)) = Some x.
Proof.
  intros Hi Hx.
  assert (filter P l = filter P (take i l) ++ x :: filter P (drop (S i) l)) as ->.
  { rewrite <- (take_drop_middle l i x Hi) at 1.
    by rewrite filter_app, filter_cons_True. }
  by rewrite lookup_app_r, Nat.sub_diag by lia.
Qed.

(** A list in which no non-resource follows a resource is its own stable
    partition, and conversely. *)
Lemma partitioned_iff (l : list DataType) :
  l = filter (fun t => t <> DT_RESOURCE) l ++ filter (fun t => t = DT_RESOURCE) l
  <-> ~ exists (i j : nat) (t : DataType),
          (i < j)%nat /\ l !! i = Some DT_RESOURCE /\ l !! j = Some t
          /\ t <> DT_RESOURCE.
Proof.
  split.
  - intros Hl (i & j & t & Hij & Hi & Hj & Ht).
    set (A := filter (fun t => t <> DT_RESOURCE) l) in *.
    set (B := filter (fun t => t = DT_RESOURCE) l) in *.
    assert (length A <= i)%nat as HA.
    { destruct (decide (length A <= i)%nat); [done|].
      rewrite Hl, lookup_app_l in Hi by lia.
      apply list_elem_of_lookup_2, list_elem_of_filter in Hi as [? _]. done. }
    rewrite Hl, lookup_app_r in Hj by lia.
    apply list_elem_of_lookup_2, list_elem_of_filter in Hj as [? _]. done.
  - induction l as [|t l IH]; intros Hno; [done|].
    destruct (decide (t = DT_RESOURCE)) as [Ht|Ht].
    + assert (Forall (fun t' => t' = DT_RESOURCE) l) as Hall.
      { apply Forall_lookup. intros j t' Hj.
        destruct (decide (t' = DT_RESOURCE)); [done|]. exfalso. apply Hno.
        exists 0%nat, (S j), t'. subst t. repeat split; try done; lia. }
      rewrite filter_cons_False by (by intros []).
      rewrite filter_cons_True by done.
      assert (filter (fun t' => t' <> DT_RESOURCE) l = []) as ->.
      { clear -Hall. induction Hall as [|x l Hx _ IH]; [done|].
        by rewrite filter_cons_False by (by intros []). }
      simpl. f_equal.
      clear -Hall. induction Hall as [|x l Hx _ IH]; [done|].
      rewrite filter_cons_True by done. by f_equal.
    + rewrite filter_cons_True by done.
      rewrite filter_cons_False by done. simpl. f_equal. apply IH.
      intros (i & j & t' & Hij & Hi & Hj & Ht').
      apply Hno. exists (S i), (S j), t'. repeat split; try done; lia.
Qed.

(** X2.  [InputTypesNeedsRearrange] sets [need_rewrite] to false exactly
    when the input types are already in normal form: the list is its own
    stable partition, all non-resource types first and all [DT_RESOURCE]
    entries after them.  This covers the empty list and the lists without,
    or with only, resources. *)
Theorem need_rewrite_false_iff_partitioned (in_types : list DataType)
    (count0 : Z) (mapping0 : list Z) :
  need_rewrite (InputTypesNeedsRearrange in_types count0 mapping0) = false
  <-> in_types
      = filter (fun t => t <> DT_RESOURCE) in_types
        ++ filter (fun t => t = DT_RESOURCE) in_types.
Proof.
  rewrite partitioned_iff, <- (need_rewrite_iff in_types count0 mapping0).
  destruct (need_rewrite _); split; try done.
Qed.

Lemma partition_is_partitioned (l : list DataType) :
  let r := filter (fun t => t <> DT_RESOURCE) l
           ++ filter (fun t => t = DT_RESOURCE) l in
  r = filter (fun t => t <> DT_RESOURCE) r ++ filter (fun t => t = DT_RESOURCE) r.
Proof.
  intros r. apply partitioned_iff. intros (i & j & t & Hij & Hi & Hj & Ht).
  unfold r in Hi, Hj.
  set (A := filter (fun t => t <> DT_RESOURCE) l) in *.
  set (B := filter (fun t => t = DT_RESOURCE) l) in *.
  assert (length A <= i)%nat as HA.
  { destruct (decide (length A <= i)%nat); [done|].
    rewrite lookup_app_l in Hi by lia.
    apply list_elem_of_lookup_2, list_elem_of_filter in Hi as [? _]. done. }
  rewrite lookup_app_r in Hj by lia.
  apply list_elem_of_lookup_2, list_elem_of_filter in Hj as [? _]. done.
Qed.

Lemma ShuffleInputDataTypeAttribute_partition (types : list DataType) (junk : Z) :
  let out := InputTypesNeedsRearrange types junk [] in
  need_rewrite out = true ->
  ShuffleInputDataTypeAttribute types (index_mapping out)
  = Ok (filter (fun t => t <> DT_RESOURCE) types
        ++ filter (fun t => t = DT_RESOURCE) types).
Proof.
  intros out Hneed.
  destruct (ShuffleInputDataTypeAttribute_Ok types junk Hneed) as [r Hr].
  fold out in Hr. rewrite Hr. f_equal.
  pose proof (InputTypesNeedsRearrange_true types junk [] Hneed) as Hout.
  fold out in Hout.
  assert (index_mapping out
          = assign_indices 0 (Z.of_nat (length types) - count_resources types) types)
    as Him by (by rewrite Hout).
  unfold ShuffleInputDataTypeAttribute in Hr.
  destruct (shuffle_input_loop_spec types (index_mapping out) 0 _ r Hr)
    as (Hlen & _ & _ & Hset).
  rewrite length_replicate, Him, length_assign_indices in Hlen.
  set (A := filter (fun t => t <> DT_RESOURCE) types).
  set (B := filter (fun t => t = DT_RESOURCE) types).
  assert (Z.of_nat (length A) = Z.of_nat (length types) - count_resources types)
    as HA by apply length_filter_non_resource.
  assert (Z.of_nat (length B) = count_resources types) as HB
    by (symmetry; apply count_resources_filter).
  (* both lists agree at the image of every position *)
  assert (forall (i : nat) (t : DataType) (k : Z),
            types !! i = Some t -> index_mapping out !! i = Some k ->
            0 <= k /\ r !! Z.to_nat k = Some t /\ (A ++ B) !! Z.to_nat k = Some t)
    as Hagree.
  { intros i t k Ht Hk.
    pose proof Hk as Hk'. rewrite Him in Hk'.
    pose proof (assign_indices_range types i t k Ht Hk') as Hrange.
    pose proof (count_resources_bounds types) as Hc.
    split; [destruct (is_resource t); lia|]. split.
    - apply (Hset i t k Ht Hk). intros i' Hi' Hk2.
      simpl in Hk2. rewrite Him in Hk2.
      pose proof (assign_indices_injective types 0
                    (Z.of_nat (length types) - count_resources types)
                    i i' k ltac:(lia) Hk' Hk2).
      lia.
    - rewrite (assign_indices_lookup _ _ _ _ _ Ht) in Hk'. injection Hk' as Hk'.
      pose proof (count_resources_filter (take i types)) as Hci.
      pose proof (length_filter_non_resource (take i types)) as Hni.
      assert (i < length types)%nat by (by eapply lookup_lt_Some).
      rewrite length_take, Nat.min_l in Hni by lia.
      destruct (is_resource t) eqn:Hres.
      + apply is_resource_true in Hres.
        rewrite lookup_app_r by lia.
        replace (Z.to_nat k - length A)%nat
          with (length (filter (fun t => t = DT_RESOURCE) (take i types))) by lia.
        by apply filter_lookup_rank.
      + apply is_resource_false in Hres.
        rewrite lookup_app_l by lia.
        replace (Z.to_nat k)
          with (length (filter (fun t => t <> DT_RESOURCE) (take i types))) by lia.
        by apply filter_lookup_rank. }
  apply list_eq_same_length with (length types); [|done|].
  { rewrite length_app. lia. }
  intros p x y Hp Hx Hy.
  pose proof (assign_indices_Permutation types) as Hperm.
  assert (Z.of_nat p ∈ seqZ 0 (Z.of_nat (length types))) as Hin
    by (apply elem_of_seqZ; lia).
  rewrite <- Hperm, <- Him in Hin.
  apply list_elem_of_lookup in Hin as [i Hi].
  assert (is_Some (types !! i)) as [t Ht].
  { apply lookup_lt_is_Some. apply lookup_lt_Some in Hi.
    by rewrite Him, length_assign_indices in Hi. }
  destruct (Hagree i t _ Ht Hi) as (_ & H1 & H2).
  rewrite Nat2Z.id in H1, H2. congruence.
Qed.

(** X3.  When [InputTypesNeedsRearrange] asks for a rewrite,
    [ShuffleInputDataTypeAttribute] applied to its [index_mapping] returns
    the stable partition of the input types: the non-resource types in their
    original order, then the [DT_RESOURCE] entries.  The result is a
    permutation of the input, and [InputTypesNeedsRearrange] asks for no
    further rewrite on it. *)
Theorem shuffled_input_types_are_partitioned (in_types : list DataType)
    (junk : Z) :
  let out := InputTypesNeedsRearrange in_types junk [] in
  need_rewrite out = true ->
  ShuffleInputDataTypeAttribute in_types (index_mapping out)
  = Ok (filter (fun t => t <> DT_RESOURCE) in_types
        ++ filter (fun t => t = DT_RESOURCE) in_types)
  /\ forall (r : list DataType) (count0 : Z) (mapping0 : list Z),
       ShuffleInputDataTypeAttribute in_types (index_mapping out) = Ok r ->
       r ≡ₚ in_types
       /\ need_rewrite (InputTypesNeedsRearrange r count0 mapping0) = false.
Proof.
  intros out Hneed.
  pose proof (ShuffleInputDataTypeAttribute_partition in_types junk Hneed) as Hr.
  fold out in Hr. split; [done|].
  intros r count0 mapping0 Hr'. rewrite Hr in Hr'. injection Hr' as <-. split.
  - clear. induction in_types as [|t l IH]; [done|].
    destruct (decide (t = DT_RESOURCE)) as [Ht|Ht].
    + rewrite filter_cons_False by (by intros []).
      rewrite filter_cons_True by done.
      by rewrite <- Permutation_middle, IH.
    + rewrite filter_cons_True by done.
      rewrite filter_cons_False by done. simpl. by rewrite IH.
  - pose proof (partition_is_partitioned in_types) as Hp. cbv zeta in Hp.
    apply partitioned_iff in Hp.
    match goal with |- ?b = false => destruct b eqn:E; [|done] end.
    apply need_rewrite_iff in E. by destruct Hp.
Qed.

Lemma shuffled_input_types_are_partitioned_witness :
  ShuffleInputDataTypeAttribute [DT_RESOURCE; DT_FLOAT; DT_RESOURCE; DT_INT32]
    (index_mapping
       (InputTypesNeedsRearrange [DT_RESOURCE; DT_FLOAT; DT_RESOURCE; DT_INT32] 0 []))
  = Ok [DT_FLOAT; DT_INT32; DT_RESOURCE; DT_RESOURCE].
Proof.
  exact (proj1 (shuffled_input_types_are_partitioned
                  [DT_RESOURCE; DT_FLOAT; DT_RESOURCE; DT_INT32] 0 eq_refl)).
Defined.

End PartitionedTypes.

(** ** The retval maps of a call *)

Section RetvalMapFacts.
Import GraphStore IndexMapping Rewriter Retvals.
Local Open Scope Z_scope.

Lemma bind_Ok_inv {St A B} (m : M St A) (k : A -> M St B) (s s' : St) (b : B) :
  bind m k s = (Ok b, s') ->
  exists a s1, m s = (Ok a, s1) /\ k a s1 = (Ok b, s').
Proof.
  unfold bind. destruct (m s) as [[a| | |] s1]; try done. by exists a, s1.
Qed.

Lemma for_each_indexed_cons_inv {St A} (i : Z) (a : A) (l : list A)
    (body : Z -> A -> M St unit) (s s' : St) :
  for_each_indexed i (a :: l) body s = (Ok tt, s') ->
  exists s1, body i a s = (Ok tt, s1)
             /\ for_each_indexed (i + 1) l body s1 = (Ok tt, s').
Proof.
  simpl. intros Hb. apply bind_Ok_inv in Hb as ([] & s1 & H1 & H2).
  by exists s1.
Qed.

Lemma non_resources_before_app (g : Graph) (seen rest : list nat) (j : nat) :
  (j <= length seen)%nat ->
  non_resources_before g (seen ++ rest) j = non_resources_before g seen j.
Proof.
  intros Hj. unfold non_resources_before. by rewrite take_app_le.
Qed.

Lemma calculate_step (g : Graph) (seen : list nat) (r : nat)
    (maps maps1 : RetvalMaps) :
  maps_after g seen maps ->
  bind (lift (GetNodeAttr as_type g r "T")) (fun t =>
    if negb (is_resource t) then
      modify (fun maps =>
        let new_retval_index := Z.of_nat (size (retval_index_mapping maps)) in
        mkRetvalMaps
          (map_insert (Z.of_nat (length seen)) new_retval_index
             (retval_index_mapping maps))
          (resource_retval_to_arg maps))
    else
      bind (lift (input_edge g r 0)) (fun e =>
        if negb (IsArg g (src e.2)) then fail UNIMPLEMENTED
        else
          let arg := src e.2 in
          bind (lift (GetNodeAttr as_int g arg "index")) (fun src_index =>
            modify (fun maps =>
              mkRetvalMaps (retval_index_mapping maps)
                (map_insert (Z.of_nat (length seen)) src_index
                   (resource_retval_to_arg maps)))))) maps
  = (Ok tt, maps1) ->
  maps_after g (seen ++ [r]) maps1.
Proof.
  intros (Hsize & Hseen & Hout) Hstep.
  destruct (Hout (Z.of_nat (length seen)) ltac:(lia)) as [Hfree1 Hfree2].
  apply bind_Ok_inv in Hstep as (t & s1 & Ht & Hstep).
  unfold lift in Ht. injection Ht as Ht <-.
  assert (returns_resource g r = is_resource t) as Hres
    by (unfold returns_resource; by rewrite Ht).
  assert (forall j r', (seen ++ [r]) !! j = Some r' ->
            (j < length seen)%nat /\ seen !! j = Some r'
            \/ j = length seen /\ r' = r) as Hcases.
  { intros j r' Hj. destruct (decide (j < length seen)%nat).
    - left. by rewrite lookup_app_l in Hj.
    - right. rewrite lookup_app_r in Hj by lia.
      destruct (j - length seen)%nat as [|d] eqn:Hd; [|done].
      simpl in Hj. injection Hj as <-. split; [lia|done]. }
  destruct (is_resource t) eqn:Hrt; simpl in Hstep.
  - apply bind_Ok_inv in Hstep as (e & s2 & He & Hstep).
    unfold lift in He. injection He as He <-.
    destruct (IsArg g (src e.2)) eqn:Harg; simpl in Hstep; [|done].
    apply bind_Ok_inv in Hstep as (idx & s3 & Hidx & Hstep).
    unfold lift in Hidx. injection Hidx as Hidx <-.
    unfold modify in Hstep. injection Hstep as <-.
    unfold map_insert. rewrite Hfree2.
    split; [|split]; simpl.
    + rewrite Hsize, filter_app, length_app.
      rewrite filter_cons_False by (by rewrite Hres). simpl. lia.
    + intros j r' Hj. destruct (Hcases j r' Hj) as [[Hlt Hj']|[-> ->]].
      * specialize (Hseen j r' Hj').
        rewrite non_resources_before_app by lia.
        rewrite lookup_insert_ne by lia. done.
      * rewrite Hres, Hfree1, lookup_insert_eq. split; [done|].
        exists idx. split; [|done]. by exists e.
    + intros k Hk. rewrite length_app in Hk. simpl in Hk.
      destruct (Hout k ltac:(lia)) as [-> Hk2].
      split; [done|]. rewrite lookup_insert_ne by lia. done.
  - unfold modify in Hstep. injection Hstep as <-.
    unfold map_insert. rewrite Hfree1.
    split; [|split]; simpl.
    + rewrite map_size_insert_None by done.
      rewrite Hsize, filter_app, length_app.
      rewrite filter_cons_True by (by rewrite Hres). simpl. lia.
    + intros j r' Hj. destruct (Hcases j r' Hj) as [[Hlt Hj']|[-> ->]].
      * specialize (Hseen j r' Hj').
        rewrite non_resources_before_app by lia.
        rewrite lookup_insert_ne by lia. done.
      * rewrite Hres, Hfree2, lookup_insert_eq. split; [|done].
        f_equal. unfold non_resources_before.
        rewrite take_app_le, firstn_all by lia. by rewrite Hsize.
    + intros k Hk. rewrite length_app in Hk. simpl in Hk.
      destruct (Hout k ltac:(lia)) as [Hk1 ->].
      split; [|done]. rewrite lookup_insert_ne by lia. done.
Qed.

Lemma calculate_loop (g : Graph) (rest seen : list nat)
    (maps maps' : RetvalMaps) :
  maps_after g seen maps ->
  for_each_indexed (Z.of_nat (length seen)) rest (fun i n =>
    bind (lift (GetNodeAttr as_type g n "T")) (fun t =>
      if negb (is_resource t) then
        modify (fun maps =>
          let new_retval_index := Z.of_nat (size (retval_index_mapping maps)) in
          mkRetvalMaps (map_insert i new_retval_index (retval_index_mapping maps))
            (resource_retval_to_arg maps))
      else
        bind (lift (input_edge g n 0)) (fun e =>
          if negb (IsArg g (src e.2)) then fail UNIMPLEMENTED
          else
            let arg := src e.2 in
            bind (lift (GetNodeAttr as_int g arg "index")) (fun src_index =>
              modify (fun maps =>
                mkRetvalMaps (retval_index_mapping maps)
                  (map_insert i src_index (resource_retval_to_arg maps))))))) maps
  = (Ok tt, maps') ->
  maps_after g (seen ++ rest) maps'.
Proof.
  revert seen maps. induction rest as [|r rest IH]; intros seen maps Hinv Hrun.
  { simpl in Hrun. injection Hrun as <-. by rewrite app_nil_r. }
  apply for_each_indexed_cons_inv in Hrun as (maps1 & Hstep & Hrun).
  apply (calculate_step g seen r maps maps1 Hinv) in Hstep.
  replace (Z.of_nat (length seen) + 1) with (Z.of_nat (length (seen ++ [r])))
    in Hrun by (rewrite length_app; simpl; lia).
  apply IH in Hrun; [|done]. by rewrite <- app_assoc in Hrun.
Qed.

Lemma maps_after_nil (g : Graph) : maps_after g [] (mkRetvalMaps ∅ ∅).
Proof.
  split; [done|]. split; [by intros j r Hj|]. intros k _. simpl.
  by rewrite !lookup_empty.
Qed.

Lemma CalculateRetvalRearrange_maps_after (g : Graph) (ret_nodes : list nat)
    (maps : RetvalMaps) :
  CalculateRetvalRearrange g ret_nodes (mkRetvalMaps ∅ ∅) = (Ok tt, maps) ->
  maps_after g ret_nodes maps.
Proof.
  intros Hrun.
  apply (calculate_loop g ret_nodes [] (mkRetvalMaps ∅ ∅) maps (maps_after_nil g)).
  exact Hrun.
Qed.

(** X4.  [CalculateRetvalRearrange], started on empty maps as
    [MaybeRewriteCallNode] does, when it returns OK: a [_Retval] that is not
    a resource is entered in [retval_index_mapping] under its position, with
    the number of non-resource results before it as its new index, and is
    absent from [resource_retval_to_arg]; a resource [_Retval] is absent from
    [retval_index_mapping] and entered in [resource_retval_to_arg] with the
    index of the [_Arg] that feeds it directly; the size of
    [retval_index_mapping] is the number of non-resource results; and no key
    outside the positions of [ret_nodes] is present in either map. *)
Theorem retvals_renumbered_densely (g : Graph) (ret_nodes : list nat)
    (maps : RetvalMaps) :
  CalculateRetvalRearrange g ret_nodes (mkRetvalMaps ∅ ∅) = (Ok tt, maps) ->
  Z.of_nat (size (retval_index_mapping maps))
  = non_resources_before g ret_nodes (length ret_nodes)
  /\ (forall (j : nat) (r : nat),
        ret_nodes !! j = Some r -> returns_resource g r = false ->
        retval_index_mapping maps !! Z.of_nat j
        = Some (non_resources_before g ret_nodes j)
        /\ resource_retval_to_arg maps !! Z.of_nat j = None)
  /\ (forall (j : nat) (r : nat),
        ret_nodes !! j = Some r -> returns_resource g r = true ->
        retval_index_mapping maps !! Z.of_nat j = None
        /\ exists idx, fed_by_argument g r idx
                       /\ resource_retval_to_arg maps !! Z.of_nat j = Some idx)
  /\ (forall k : Z, ~ (0 <= k < Z.of_nat (length ret_nodes)) ->
        retval_index_mapping maps !! k = None
        /\ resource_retval_to_arg maps !! k = None).
Proof.
  intros Hrun.
  destruct (CalculateRetvalRearrange_maps_after g ret_nodes maps Hrun)
    as (Hsize & Hseen & Hout).
  split; [|split; [|split]].
  - unfold non_resources_before. by rewrite firstn_all, Hsize.
  - intros j r Hj Hr. specialize (Hseen j r Hj). by rewrite Hr in Hseen.
  - intros j r Hj Hr. specialize (Hseen j r Hj). by rewrite Hr in Hseen.
  - exact Hout.
Qed.

Lemma retvals_renumbered_densely_witness :
  let maps := mkRetvalMaps {[ 1 := 0; 2 := 1 ]} {[ 0 := 1 ]} in
  retval_index_mapping maps !! 2 = Some 1
  /\ resource_retval_to_arg maps !! 0 = Some 1.
Proof.
  intros maps.
  assert (CalculateRetvalRearrange MoreExamples.returns_three [2; 3; 4]%nat
            (mkRetvalMaps ∅ ∅) = (Ok tt, maps)) as Hrun by (by vm_compute).
  destruct (retvals_renumbered_densely _ _ _ Hrun) as (_ & Hdata & Hres & _).
  split.
  - exact (proj1 (Hdata 2%nat 4%nat eq_refl eq_refl)).
  - destruct (Hres 0%nat 2%nat eq_refl eq_refl) as (_ & idx & _ & Hidx).
    reflexivity.
Defined.

(** *** The output types of a call *)

Lemma filter_returns_resource (g : Graph) (ret_nodes : list nat)
    (out_types : list DataType) :
  Forall2 (fun r t => GetNodeAttr as_type g r "T" = Ok t) ret_nodes out_types ->
  length (filter (fun r => returns_resource g r = false) ret_nodes)
  = length (filter (fun t => t <> DT_RESOURCE) out_types).
Proof.
  induction 1 as [|r t rs ts Hr _ IH]; [done|].
  assert (returns_resource g r = is_resource t) as Hres
    by (unfold returns_resource; by rewrite Hr).
  destruct (decide (t = DT_RESOURCE)) as [Ht|Ht].
  - rewrite (filter_cons_False _ t) by (by intros []).
    rewrite filter_cons_False; [done|].
    rewrite Hres. apply is_resource_true in Ht. by rewrite Ht.
  - rewrite (filter_cons_True _ t) by done.
    rewrite filter_cons_True; [simpl; by rewrite IH|].
    rewrite Hres. by apply is_resource_false.
Qed.

(** The loop of [ShuffleOutputDataTypeAttribute] over a map that numbers
    the non-resource positions densely. *)
Lemma shuffle_output_loop_dense (m : gmap Z Z) (rest seen : list DataType) :
  (forall (i : nat) (t : DataType), (seen ++ rest) !! i = Some t ->
     m !! Z.of_nat i
     = if is_resource t then None
       else Some (Z.of_nat (length (filter (fun t => t <> DT_RESOURCE)
                                      (take i (seen ++ rest)))))) ->
  shuffle_output_loop (Z.of_nat (length seen)) rest m
    (filter (fun t => t <> DT_RESOURCE) seen
     ++ replicate (length (filter (fun t => t <> DT_RESOURCE) rest)) DT_INVALID)
  = Ok (filter (fun t => t <> DT_RESOURCE) (seen ++ rest)).
Proof.
  revert seen. induction rest as [|t rest IH]; intros seen Hm.
  { simpl. by rewrite !app_nil_r. }
  simpl.
  specialize (IH (seen ++ [t])). rewrite <- app_assoc in IH. simpl in IH.
  specialize (IH Hm).
  rewrite length_app in IH. simpl in IH.
  replace (Z.of_nat (length seen + 1)) with (Z.of_nat (length seen) + 1) in IH
    by lia.
  rewrite (Hm (length seen) t) by (by rewrite list_lookup_middle).
  destruct (decide (t = DT_RESOURCE)) as [Ht|Ht].
  - apply is_resource_true in Ht as Hres. rewrite Hres.
    rewrite filter_cons_False by (by intros []).
    rewrite filter_app in IH.
    rewrite (filter_cons_False _ t) in IH by (by intros []).
    simpl in IH. by rewrite app_nil_r in IH.
  - apply is_resource_false in Ht as Hres. rewrite Hres.
    rewrite take_app_le, firstn_all by lia.
    rewrite filter_cons_True by done. simpl.
    unfold store. rewrite decide_True; last first.
    { rewrite length_app. simpl. lia. }
    simpl. rewrite Nat2Z.id.
    rewrite filter_app in IH.
    rewrite (filter_cons_True _ t) in IH by done.
    simpl in IH. rewrite <- app_assoc in IH. simpl in IH.
    rewrite <- IH. f_equal.
    rewrite insert_app_r_alt by lia. by rewrite Nat.sub_diag.
Qed.

(** X5.  [CalculateRetvalRearrange] followed by
    [ShuffleOutputDataTypeAttribute], as in [MaybeRewriteCallNode]: when the
    output types are the types of the [_Retval] nodes, position by position,
    the new output types are the old ones with every [DT_RESOURCE] removed,
    the others in their original order. *)
Theorem shuffled_output_types_drop_resources (g : Graph) (ret_nodes : list nat)
    (out_types : list DataType) (maps : RetvalMaps) :
  Forall2 (fun r t => GetNodeAttr as_type g r "T" = Ok t) ret_nodes out_types ->
  CalculateRetvalRearrange g ret_nodes (mkRetvalMaps ∅ ∅) = (Ok tt, maps) ->
  ShuffleOutputDataTypeAttribute out_types (retval_index_mapping maps)
  = Ok (filter (fun t => t <> DT_RESOURCE) out_types).
Proof.
  intros Htypes Hrun.
  destruct (CalculateRetvalRearrange_maps_after g ret_nodes maps Hrun)
    as (Hsize & Hseen & _).
  unfold ShuffleOutputDataTypeAttribute.
  rewrite Hsize, (filter_returns_resource g ret_nodes out_types Htypes).
  apply (shuffle_output_loop_dense (retval_index_mapping maps) out_types []).
  simpl. intros i t Ht.
  destruct (Forall2_lookup_r _ _ _ _ _ Htypes Ht) as (r & Hr & HT).
  specialize (Hseen i r Hr).
  assert (returns_resource g r = is_resource t) as Hres
    by (unfold returns_resource; by rewrite HT).
  rewrite Hres in Hseen. destruct (is_resource t); [by destruct Hseen|].
  destruct Hseen as [-> _]. f_equal. unfold non_resources_before. f_equal.
  apply filter_returns_resource. by apply Forall2_take.
Qed.

Lemma shuffled_output_types_drop_resources_witness :
  ShuffleOutputDataTypeAttribute [DT_RESOURCE; DT_FLOAT; DT_FLOAT]
    {[ 1 := 0; 2 := 1 ]}
  = Ok [DT_FLOAT; DT_FLOAT].
Proof.
  assert (Forall2 (fun r t =>
                     GetNodeAttr as_type MoreExamples.returns_three r "T" = Ok t)
            [2; 3; 4]%nat [DT_RESOURCE; DT_FLOAT; DT_FLOAT]) as Htypes
    by (repeat constructor).
  assert (CalculateRetvalRearrange MoreExamples.returns_three [2; 3; 4]%nat
            (mkRetvalMaps ∅ ∅)
          = (Ok tt, mkRetvalMaps {[ 1 := 0; 2 := 1 ]} {[ 0 := 1 ]})) as Hrun
    by (by vm_compute).
  exact (shuffled_output_types_drop_resources _ _ _ _ Htypes Hrun).
Defined.

End RetvalMapFacts.

(** ** Renumbering the nodes of a function body *)

Section BodyNodeFacts.
Import GraphStore IndexMapping Rewriter Retvals Vocabulary.
Local Open Scope Z_scope.

Lemma GetNodeAttr_SetAttr_int (g : Graph) (n : nat) (key : string) (v : Z) :
  is_Some (find_node g n) ->
  GetNodeAttr as_int (SetAttr g n key (AttrInt v)) n key = Ok v.
Proof.
  intros [nd Hnd]. unfold GetNodeAttr.
  rewrite find_node_SetAttr, decide_True, Hnd by done. simpl.
  by rewrite lookup_insert_eq.
Qed.

Lemma GetNodeAttr_frame {A} (project : AttrValue -> option A) (g g' : Graph)
    (n : nat) (key : string) :
  find_node g' n = find_node g n ->
  GetNodeAttr project g' n key = GetNodeAttr project g n key.
Proof. unfold GetNodeAttr. by intros ->. Qed.

Lemma find_node_RemoveNode (g : Graph) (n m : nat) :
  find_node (RemoveNode g n) m = if decide (m = n) then None else find_node g m.
Proof.
  unfold RemoveNode, find_node. simpl.
  destruct (decide (m = n)) as [->|Hne].
  - destruct (decide (n < length (nodes_ g))%nat).
    + by rewrite list_lookup_insert_eq.
    + rewrite list_insert_ge by lia. by rewrite lookup_ge_None_2 by lia.
  - by rewrite list_lookup_insert_ne.
Qed.

Lemma rearrange_arg_loop (im : list Z) (l : list nat) (i0 : nat) (g g' : Graph) :
  NoDup l ->
  (forall a, a ∈ l -> is_Some (find_node g a)) ->
  for_each_indexed (Z.of_nat i0) l (fun i n =>
    bind (lift (vector_at im i)) (fun new_index =>
      set_attr n "index" (AttrInt new_index))) g = (Ok tt, g') ->
  (forall (j : nat) (a : nat), l !! j = Some a ->
     exists k, im !! (i0 + j)%nat = Some k
               /\ GetNodeAttr as_int g' a "index" = Ok k)
  /\ (forall m : nat, m ∉ l -> find_node g' m = find_node g m).
Proof.
  revert i0 g. induction l as [|a l IH]; intros i0 g Hnd Hlive Hrun.
  { simpl in Hrun. injection Hrun as <-. split; [by intros j a Hj|done]. }
  apply NoDup_cons in Hnd as [Ha Hnd].
  apply for_each_indexed_cons_inv in Hrun as (g1 & Hstep & Hrun).
  apply bind_Ok_inv in Hstep as (k & s1 & Hk & Hset).
  unfold lift in Hk. injection Hk as Hk <-.
  apply vector_at_Some in Hk as [_ Hk]. rewrite Nat2Z.id in Hk.
  destruct (Hlive a ltac:(left)) as [nd Hnode].
  rewrite (set_attr_Ok _ _ _ _ _ Hnode) in Hset. injection Hset as <-.
  replace (Z.of_nat i0 + 1) with (Z.of_nat (S i0)) in Hrun by lia.
  apply IH in Hrun as [Hidx Hframe]; [|done|].
  - split.
    + intros [|j] a' Hj.
      * simpl in Hj. injection Hj as <-. exists k.
        rewrite Nat.add_0_r. split; [done|].
        rewrite (GetNodeAttr_frame _ _ _ _ _ (Hframe a Ha)).
        apply GetNodeAttr_SetAttr_int. by eexists.
      * simpl in Hj. destruct (Hidx j a' Hj) as (k' & Hk' & Hi').
        exists k'. by replace (i0 + S j)%nat with (S i0 + j)%nat by lia.
    + intros m Hm. apply not_elem_of_cons in Hm as [Hma Hml].
      rewrite Hframe by done. rewrite find_node_SetAttr.
      by rewrite decide_False.
  - intros a' Ha'. rewrite find_node_SetAttr.
    destruct (decide (a' = a)) as [->|]; [done|]. apply Hlive. by right.
Qed.

(** X6.  [RearrangeArgNodes] on distinct live [_Arg] nodes: it returns
    normally exactly when [index_mapping] has an entry for every node (a
    shorter mapping makes [index_mapping.at(i)] throw); then the [i]-th node
    has ["index"] equal to [index_mapping[i]], every node keeps its type and
    its other attributes, the edges are unchanged, and the nodes that are
    not in [arg_nodes] are untouched. *)
Theorem arg_nodes_take_mapped_index (arg_nodes : list nat)
    (index_mapping : list Z) (g : Graph) :
  NoDup arg_nodes ->
  (forall a, a ∈ arg_nodes -> is_Some (find_node g a)) ->
  ((exists g', RearrangeArgNodes arg_nodes index_mapping g = (Ok tt, g'))
   <-> (length arg_nodes <= length index_mapping)%nat)
  /\ (forall g', RearrangeArgNodes arg_nodes index_mapping g = (Ok tt, g') ->
        same_shape g g'
        /\ (forall (i : nat) (a : nat), arg_nodes !! i = Some a ->
              exists k, index_mapping !! i = Some k
                        /\ GetNodeAttr as_int g' a "index" = Ok k)
        /\ (forall m : nat, m ∉ arg_nodes -> find_node g' m = find_node g m)).
Proof.
  intros Hnd Hlive.
  assert (forall g', RearrangeArgNodes arg_nodes index_mapping g = (Ok tt, g') ->
            (forall (i : nat) (a : nat), arg_nodes !! i = Some a ->
               exists k, index_mapping !! i = Some k
                         /\ GetNodeAttr as_int g' a "index" = Ok k)
            /\ (forall m : nat, m ∉ arg_nodes -> find_node g' m = find_node g m))
    as Hloop.
  { intros g' Hrun.
    exact (rearrange_arg_loop index_mapping arg_nodes 0 g g' Hnd Hlive Hrun). }
  split; [split|].
  - intros [g' Hrun]. destruct (Hloop g' Hrun) as [Hidx _].
    destruct (decide (length arg_nodes <= length index_mapping)%nat); [done|].
    destruct (lookup_lt_is_Some_2 arg_nodes (length index_mapping) ltac:(lia))
      as [a Ha].
    destruct (Hidx _ _ Ha) as (k & Hk & _).
    apply lookup_lt_Some in Hk. lia.
  - intros Hlen.
    destruct (RearrangeArgNodes_Ok arg_nodes index_mapping g Hlen Hlive)
      as (g' & Hexec & _).
    unfold Pass.exec in Hexec.
    destruct (RearrangeArgNodes arg_nodes index_mapping g) as [[[]| | |] g1];
      try done.
    by exists g1.
  - intros g' Hrun. destruct (Hloop g' Hrun) as [Hidx Hframe].
    split; [|done].
    assert (length arg_nodes <= length index_mapping)%nat as Hlen.
    { destruct (decide (length arg_nodes <= length index_mapping)%nat); [done|].
      destruct (lookup_lt_is_Some_2 arg_nodes (length index_mapping) ltac:(lia))
        as [a Ha].
      destruct (Hidx _ _ Ha) as (k & Hk & _).
      apply lookup_lt_Some in Hk. lia. }
    destruct (RearrangeArgNodes_Ok arg_nodes index_mapping g Hlen Hlive)
      as (g1 & Hexec & Hshape).
    unfold Pass.exec in Hexec. rewrite Hrun in Hexec. by injection Hexec as <-.
Qed.

Lemma arg_nodes_take_mapped_index_witness :
  GetNodeAttr as_int
    (RearrangeArgNodes [0; 1]%nat [1; 0] MoreExamples.returns_three).2 0 "index"
  = Ok 1.
Proof.
  assert (NoDup [0; 1]%nat) as Hnd
    by (refine (bool_decide_unpack _ _); vm_compute; exact I).
  assert (forall a, a ∈ [0; 1]%nat ->
            is_Some (find_node MoreExamples.returns_three a)) as Hlive.
  { intros a Ha. apply list_elem_of_In in Ha.
    destruct Ha as [<-|[<-|[]]]; by eexists. }
  destruct (arg_nodes_take_mapped_index [0; 1]%nat [1; 0]
              MoreExamples.returns_three Hnd Hlive) as [_ Hrun].
  destruct (Hrun (RearrangeArgNodes [0; 1]%nat [1; 0]
                    MoreExamples.returns_three).2 eq_refl)
    as (_ & Hidx & _).
  destruct (Hidx 0%nat 0%nat eq_refl) as (k & Hk & Hattr).
  injection Hk as <-. exact Hattr.
Defined.

Lemma rearrange_retval_loop (m : gmap Z Z) (l : list nat) (i0 : nat) (g : Graph) :
  NoDup l ->
  (forall r, r ∈ l -> is_Some (find_node g r)) ->
  exists g',
    for_each_indexed (Z.of_nat i0) l (fun i n =>
      match m !! i with
      | None => modify (fun g => RemoveNode g n)
      | Some new_index => set_attr n "index" (AttrInt new_index)
      end) g = (Ok tt, g')
    /\ (forall (j : nat) (r : nat), l !! j = Some r ->
          match m !! Z.of_nat (i0 + j) with
          | Some v => GetNodeAttr as_int g' r "index" = Ok v
          | None => find_node g' r = None
          end)
    /\ (forall n : nat, n ∉ l -> find_node g' n = find_node g n).
Proof.
  revert i0 g. induction l as [|r l IH]; intros i0 g Hnd Hlive.
  { exists g. split; [done|]. split; [by intros j r Hj|done]. }
  apply NoDup_cons in Hnd as [Hr Hnd].
  destruct (Hlive r ltac:(left)) as [nd Hnode].
  set (g1 := match m !! Z.of_nat i0 with
             | None => RemoveNode g r
             | Some v => SetAttr g r "index" (AttrInt v)
             end).
  assert (forall n, n <> r -> find_node g1 n = find_node g n) as Hg1.
  { intros n Hn. unfold g1. destruct (m !! Z.of_nat i0).
    - by rewrite find_node_SetAttr, decide_False.
    - by rewrite find_node_RemoveNode, decide_False. }
  destruct (IH (S i0) g1 Hnd) as (g' & Hrun & Hidx & Hframe).
  { intros r' Hr'. rewrite Hg1 by (by intros ->). apply Hlive. by right. }
  exists g'. split; [|split].
  - simpl. unfold bind.
    replace (Z.of_nat i0 + 1) with (Z.of_nat (S i0)) by lia.
    unfold g1 in Hrun. destruct (m !! Z.of_nat i0) as [v|].
    + by rewrite (set_attr_Ok _ _ _ _ _ Hnode).
    + done.
  - intros [|j] r' Hj.
    + simpl in Hj. injection Hj as <-. rewrite Nat.add_0_r.
      unfold g1 in Hframe. destruct (m !! Z.of_nat i0) as [v|].
      * rewrite (GetNodeAttr_frame _ _ _ _ _ (Hframe r Hr)).
        apply GetNodeAttr_SetAttr_int. by eexists.
      * by rewrite Hframe, find_node_RemoveNode, decide_True.
    + simpl in Hj. specialize (Hidx j r' Hj).
      by replace (i0 + S j)%nat with (S i0 + j)%nat by lia.
  - intros n Hn. apply not_elem_of_cons in Hn as [Hnr Hnl].
    rewrite Hframe by done. by apply Hg1.
Qed.

(** X7.  [CalculateRetvalRearrange] followed by [RearrangeRetvalNodes] on
    the same body, as in [MaybeRewriteCallNode], for distinct [_Retval]
    nodes: [RearrangeRetvalNodes] returns normally; every resource [_Retval]
    is removed from the graph; every other [_Retval] has as its ["index"] the
    number of non-resource results before it; and the nodes that are not in
    [ret_nodes] are untouched. *)
Theorem resource_retvals_removed_others_renumbered (g : Graph)
    (ret_nodes : list nat) (maps : RetvalMaps) :
  NoDup ret_nodes ->
  CalculateRetvalRearrange g ret_nodes (mkRetvalMaps ∅ ∅) = (Ok tt, maps) ->
  exists g',
    RearrangeRetvalNodes ret_nodes (retval_index_mapping maps) g = (Ok tt, g')
    /\ (forall (j : nat) (r : nat), ret_nodes !! j = Some r ->
          if returns_resource g r
          then find_node g' r = None
          else GetNodeAttr as_int g' r "index"
               = Ok (non_resources_before g ret_nodes j))
    /\ (forall n : nat, n ∉ ret_nodes -> find_node g' n = find_node g n).
Proof.
  intros Hnd Hrun.
  destruct (CalculateRetvalRearrange_maps_after g ret_nodes maps Hrun)
    as (_ & Hseen & _).
  destruct (CalculateRetvalRearrange_decides g ret_nodes 0 _ _ Hrun)
    as [_ Htyped].
  destruct (rearrange_retval_loop (retval_index_mapping maps) ret_nodes 0 g Hnd)
    as (g' & Hrun' & Hidx & Hframe).
  { intros r Hr. apply list_elem_of_lookup in Hr as [j Hj].
    destruct (Htyped j r Hj) as (t & Ht & _).
    by eapply GetNodeAttr_live. }
  exists g'. split; [exact Hrun'|]. split; [|exact Hframe].
  intros j r Hj. specialize (Hidx j r Hj). specialize (Hseen j r Hj).
  simpl in Hidx.
  destruct (returns_resource g r).
  - destruct Hseen as [Hnone _]. by rewrite Hnone in Hidx.
  - destruct Hseen as [Hsome _]. by rewrite Hsome in Hidx.
Qed.

Lemma resource_retvals_removed_others_renumbered_witness :
  exists g',
    RearrangeRetvalNodes [2; 3; 4]%nat {[ 1 := 0; 2 := 1 ]}
      MoreExamples.returns_three = (Ok tt, g')
    /\ find_node g' 2 = None
    /\ GetNodeAttr as_int g' 4 "index" = Ok 1.
Proof.
  assert (NoDup [2; 3; 4]%nat) as Hnd
    by (refine (bool_decide_unpack _ _); vm_compute; exact I).
  assert (CalculateRetvalRearrange MoreExamples.returns_three [2; 3; 4]%nat
            (mkRetvalMaps ∅ ∅)
          = (Ok tt, mkRetvalMaps {[ 1 := 0; 2 := 1 ]} {[ 0 := 1 ]})) as Hrun
    by (by vm_compute).
  destruct (resource_retvals_removed_others_renumbered _ _ _ Hnd Hrun)
    as (g' & Hrun' & Hidx & _).
  exists g'. split; [exact Hrun'|]. split.
  - exact (Hidx 0%nat 2%nat eq_refl).
  - exact (Hidx 2%nat 4%nat eq_refl).
Defined.

End BodyNodeFacts.

(** ** Nodes that are reported as not rewritten *)

Section NotRewritten.
Import GraphStore IndexMapping Rewriter Pass Vocabulary Returns.
Context {FunctionDef FLD : Type} `{Library FunctionDef FLD}.
Local Open Scope Z_scope.

Lemma get_attr_state {A} (project : AttrValue -> option A) (n : nat)
    (key : string) (w w' : World FLD) (r : Result A) :
  get_attr project n key w = (r, w') -> w' = w.
Proof.
  unfold get_attr, bind, get, lift. simpl.
  destruct (GetNodeAttr project (w_graph w) n key); by intros [= _ <-].
Qed.

Lemma yields_true_inv {St} (m : M St bool) (s s' : St) :
  yields m (fun b => b = true) -> m s = (Ok false, s') -> False.
Proof.
  intros Hy Hm. specialize (Hy s false). rewrite Hm in Hy.
  by specialize (Hy eq_refl).
Qed.

Lemma MaybeRewriteWhileNode_false (fuel : nat) (junk : Z) (n : nat)
    (w w' : World FLD) :
  MaybeRewriteWhileNode fuel junk n w = (Ok false, w') -> w' = w.
Proof.
  unfold MaybeRewriteWhileNode. intros Hrun.
  apply bind_Ok_inv in Hrun as (types & w1 & Hattr & Hrun).
  apply get_attr_state in Hattr as ->.
  destruct (negb (need_rewrite _)).
  - by injection Hrun as <-.
  - exfalso. revert Hrun. apply yields_true_inv.
    repeat (apply yields_bind; intros). by apply yields_ret.
Qed.

Lemma MaybeRewriteCallNode_false (junk : Z) (n : nat) (w w' : World FLD) :
  MaybeRewriteCallNode junk n w = (Ok false, w') -> w' = w.
Proof.
  unfold MaybeRewriteCallNode. intros Hrun.
  apply bind_Ok_inv in Hrun as (in_types & w1 & Hattr & Hrun).
  apply get_attr_state in Hattr as ->.
  apply bind_Ok_inv in Hrun as (out_types & w1 & Hattr & Hrun).
  apply get_attr_state in Hattr as ->.
  destruct (_ && _).
  - by injection Hrun as <-.
  - exfalso. revert Hrun. apply yields_true_inv.
    repeat (apply yields_bind; intros). by apply yields_ret.
Qed.

Lemma MaybeRewriteIfNode_false (junk : Z) (n : nat) (w w' : World FLD) :
  MaybeRewriteIfNode junk n w = (Ok false, w') -> w' = w.
Proof.
  unfold MaybeRewriteIfNode. intros Hrun.
  apply bind_Ok_inv in Hrun as (in_types & w1 & Hattr & Hrun).
  apply get_attr_state in Hattr as ->.
  apply bind_Ok_inv in Hrun as (out_types & w1 & Hattr & Hrun).
  apply get_attr_state in Hattr as ->.
  destruct (_ && _).
  - by injection Hrun as <-.
  - exfalso. revert Hrun. apply yields_true_inv.
    repeat (apply yields_bind; intros). by apply yields_ret.
Qed.

End NotRewritten.

(** X8.  When [MaybeRewriteWhileNode], [MaybeRewriteCallNode] or
    [MaybeRewriteIfNode] returns OK with [*node_rewritten] false, neither the
    graph nor the function library has changed: the only path on which
    [node_rewritten] is set to false returns before any mutation.  This holds
    for every content of the uninitialised [resource_input_count]. *)
Theorem node_not_rewritten_is_untouched {FunctionDef FLD : Type}
    `{Pass.Library FunctionDef FLD} (fuel : nat) (junk : Z) (n : nat)
    (w w' : Pass.World FLD) :
  (Pass.MaybeRewriteWhileNode fuel junk n w = (Ok false, w') -> w' = w)
  /\ (Pass.MaybeRewriteCallNode junk n w = (Ok false, w') -> w' = w)
  /\ (Pass.MaybeRewriteIfNode junk n w = (Ok false, w') -> w' = w).
Proof.
  split; [|split].
  - apply MaybeRewriteWhileNode_false.
  - apply MaybeRewriteCallNode_false.
  - apply MaybeRewriteIfNode_false.
Qed.

(** ** Runs that return *)

Section ReturnFacts.
Import Returns.
Context {St : Type}.

Lemma maintains_ret {A} (I : St -> Prop) (a : A) : maintains I (ret a).
Proof. intros s a' s' Hs. by intros [= _ <-]. Qed.

Lemma maintains_bind {A B} (I : St -> Prop) (m : M St A) (k : A -> M St B) :
  maintains I m -> (forall a, maintains I (k a)) -> maintains I (bind m k).
Proof.
  intros Hm Hk s b s' Hs Hrun.
  apply bind_Ok_inv in Hrun as (a & s1 & H1 & H2).
  eapply Hk; [|exact H2]. by eapply Hm.
Qed.

Lemma maintains_for_each {A} (I : St -> Prop) (l : list A)
    (body : A -> M St unit) :
  (forall a, a ∈ l -> maintains I (body a)) -> maintains I (for_each l body).
Proof.
  induction l as [|a l IH]; intros Hbody; simpl.
  { apply maintains_ret. }
  apply maintains_bind; [apply Hbody; by left|].
  intros _. apply IH. intros b Hb. apply Hbody. by right.
Qed.

(** Every element a loop has gone through has what its turn established,
    if later turns keep it. *)
Lemma for_each_establishes {A} (Q : A -> St -> Prop) (l : list A)
    (body : A -> M St unit) (s s' : St) :
  (forall a s1 s2, a ∈ l -> body a s1 = (Ok tt, s2) -> Q a s2) ->
  (forall a b, a ∈ l -> b ∈ l -> maintains (Q a) (body b)) ->
  for_each l body s = (Ok tt, s') ->
  forall a, a ∈ l -> Q a s'.
Proof.
  revert s. induction l as [|x l IH]; intros s Hest Hkeep Hrun a Ha.
  { by apply elem_of_nil in Ha. }
  simpl in Hrun. apply bind_Ok_inv in Hrun as ([] & s1 & H1 & H2).
  apply elem_of_cons in Ha as [->|Ha].
  - assert (maintains (Q x) (for_each l body)) as Hrest.
    { apply maintains_for_each. intros b Hb. apply Hkeep; [by left|by right]. }
    eapply Hrest; [|exact H2]. eapply Hest; [by left|exact H1].
  - eapply IH; [| |exact H2|exact Ha].
    + intros b s2 s3 Hb. apply Hest. by right.
    + intros b c Hb Hc. apply Hkeep; by right.
Qed.

End ReturnFacts.

(** ** What a call leaves of the library and of the memoization map *)

Section LibraryFrame.
Import GraphStore IndexMapping Rewriter Pass Vocabulary Returns.
Context {FunctionDef FLD : Type} `{Library FunctionDef FLD}.
Local Open Scope Z_scope.

Lemma in_pass_unmodified (rec : RewriteFunction FLD) (f nf : string)
    (attrs : list (string * AttrValue)) (fr fr1 : Frame FLD) (b : bool) :
  (forall ps ps', rec f nf attrs ps = (Ok false, ps') -> ps_fld ps' = ps_fld ps) ->
  in_pass (rec f nf attrs) fr = (Ok b, fr1) ->
  fr_modified fr1 = fr_modified fr
  /\ fr_graph fr1 = fr_graph fr
  /\ (b = false -> fr_fld fr1 = fr_fld fr).
Proof.
  intros Hrec. unfold in_pass.
  destruct (rec f nf attrs _) as [r ps] eqn:E. intros [= -> <-]. simpl.
  split; [done|]. split; [done|]. intros ->. by apply Hrec in E.
Qed.

Lemma set_modified_repoint (n : nat) (af : AssociatedFunctionInfo)
    (new_name : string) (fr fr' : Frame FLD) :
  bind set_modified (fun _ => repoint_associated_function n af new_name) fr
  = (Ok tt, fr') ->
  fr_modified fr' = true
  /\ fr_memo fr' = fr_memo fr.
Proof.
  unfold bind, set_modified, modify. simpl. intros Hrun.
  apply repoint_associated_function_frame in Hrun as [Hm Hmod]. done.
Qed.

Lemma rewrite_associated_function_library (rec : RewriteFunction FLD)
    (fld0 : FLD) (n : nat) (af : AssociatedFunctionInfo) :
  (forall f nf attrs ps ps',
     rec f nf attrs ps = (Ok false, ps') -> ps_fld ps' = ps_fld ps) ->
  maintains (library_kept fld0) (rewrite_associated_function rec n af).
Proof.
  intros Hrec fr [] fr' Hkept Hrun. unfold rewrite_associated_function in Hrun.
  apply bind_Ok_inv in Hrun as (memo & fr0 & Hmemo & Hrun).
  unfold gets in Hmemo. injection Hmemo as <- <-.
  apply bind_Ok_inv in Hrun as ([modified new_name] & fr1 & Hp & Hrun).
  simpl in Hrun.
  destruct (fr_memo fr !! _) as [entry|] eqn:Hentry.
  - unfold ret in Hp. injection Hp as Hp <-.
    destruct entry as [nm|]; injection Hp as <- <-.
    + apply set_modified_repoint in Hrun as [Hmod _].
      intros Hfalse. congruence.
    + by injection Hrun as <-.
  - apply bind_Ok_inv in Hp as (fr0 & fr2 & Hget & Hp).
    unfold get in Hget. injection Hget as <- <-.
    apply bind_Ok_inv in Hp as (prefix & fr2 & Hprefix & Hp).
    assert (fr2 = fr) as ->.
    { destruct (af_type af); try (by injection Hprefix as _ <-).
      destruct (find_node (fr_graph fr) n); [by injection Hprefix as _ <-|done]. }
    apply bind_Ok_inv in Hp as (fm & fr2 & Hcall & Hp).
    apply (in_pass_unmodified rec _ _ _ _ _ _ (Hrec _ _ _)) in Hcall
      as (Hmod & _ & Hfld).
    apply bind_Ok_inv in Hp as ([] & fr3 & Hset & Hp).
    unfold set_memo, modify in Hset. injection Hset as <-.
    unfold ret in Hp. injection Hp as -> <- <-.
    destruct modified.
    + apply set_modified_repoint in Hrun as [Hmod' _].
      intros Hfalse. congruence.
    + injection Hrun as <-. intros Hfalse. simpl in *.
      rewrite Hfld by done. apply Hkept. congruence.
Qed.

Lemma in_world_unmodified {A} (m : M (World FLD) A) (fr fr' : Frame FLD) (a : A) :
  in_world m fr = (Ok a, fr') ->
  fr_modified fr' = fr_modified fr /\ fr_memo fr' = fr_memo fr
  /\ m (mkWorld (fr_graph fr) (fr_fld fr))
     = (Ok a, mkWorld (fr_graph fr') (fr_fld fr')).
Proof.
  unfold in_world. destruct (m _) as [r [g fld]]. by intros [= -> <-].
Qed.

Lemma node_step_library (fld0 : FLD) (m : M (World FLD) bool) :
  (forall w w', m w = (Ok false, w') -> w' = w) ->
  maintains (library_kept fld0)
    (bind (in_world m) (fun node_rewritten : bool =>
       if node_rewritten then set_modified else ret tt)).
Proof.
  intros Hm fr [] fr' Hkept Hrun.
  apply bind_Ok_inv in Hrun as (b & fr1 & Hstep & Hrun).
  apply in_world_unmodified in Hstep as (Hmod & _ & Hw).
  destruct b.
  - unfold set_modified, modify in Hrun. injection Hrun as <-. by intros Hf.
  - injection Hrun as <-. apply Hm in Hw. injection Hw as Hg Hfld.
    intros Hf. rewrite Hfld. apply Hkept. congruence.
Qed.

Lemma rewrite_node_library (fld0 : FLD) (fuel : nat) (junk : nat -> Z) (n : nat) :
  maintains (library_kept fld0) (rewrite_node fuel junk n).
Proof.
  unfold rewrite_node. intros fr [] fr' Hkept Hrun.
  apply bind_Ok_inv in Hrun as (fr0 & fr1 & Hget & Hrun).
  unfold get in Hget. injection Hget as <- <-.
  destruct (find_node (fr_graph fr) n) as [nd|]; [|by injection Hrun as <-].
  repeat destruct (decide _).
  - eapply node_step_library; [|exact Hkept|exact Hrun].
    apply MaybeRewriteWhileNode_false.
  - eapply node_step_library; [|exact Hkept|exact Hrun].
    apply MaybeRewriteCallNode_false.
  - eapply node_step_library; [|exact Hkept|exact Hrun].
    apply MaybeRewriteIfNode_false.
  - by injection Hrun as <-.
Qed.

Lemma rearrange_body_library (rec : RewriteFunction FLD) (fuel : nat)
    (junk : nat -> Z) (f nf : string) (attrs : list (string * AttrValue))
    (ps ps' : PassState FLD) :
  (forall f nf attrs ps ps',
     rec f nf attrs ps = (Ok false, ps') -> ps_fld ps' = ps_fld ps) ->
  rearrange_body rec fuel junk f nf attrs ps = (Ok false, ps') ->
  ps_fld ps' = ps_fld ps.
Proof.
  intros Hrec. unfold rearrange_body.
  destruct (Instantiate (ps_fld ps) f attrs) as [g| | |]; try done.
  match goal with
  | |- (let '(r, fr) := ?work ?fr0 in _) = _ -> _ =>
      destruct (work fr0) as [r fr'] eqn:Hwork
  end.
  intros [= -> <-]. simpl.
  apply bind_Ok_inv in Hwork as ([] & fr1 & Hafs & Hwork).
  assert (library_kept (ps_fld ps) fr1) as Hk1.
  { eapply (maintains_for_each (library_kept (ps_fld ps))); [| |exact Hafs].
    - intros [n afs] _. apply maintains_for_each. intros af _.
      by apply rewrite_associated_function_library.
    - by intros _. }
  apply bind_Ok_inv in Hwork as (fr1' & fr2 & Hget & Hwork).
  unfold get in Hget. injection Hget as <- <-.
  apply bind_Ok_inv in Hwork as ([] & fr2 & Hnodes & Hwork).
  assert (library_kept (ps_fld ps) fr2) as Hk2.
  { eapply (maintains_for_each (library_kept (ps_fld ps))); [|exact Hk1|exact Hnodes].
    intros n _. apply rewrite_node_library. }
  apply bind_Ok_inv in Hwork as (fr2' & fr3 & Hget & Hwork).
  unfold get in Hget. injection Hget as <- <-.
  apply bind_Ok_inv in Hwork as ([] & fr3 & Hsave & Hwork).
  unfold ret in Hwork. injection Hwork as Hmod <-.
  rewrite Hmod in Hsave. injection Hsave as <-. by apply Hk2.
Qed.

End LibraryFrame.

(** X9.  When [RearrangeFunctionArgumentForFunction] returns OK with
    [*modified] false, the function library is the one it was called with:
    no function was added or replaced, by this call or by any of the nested
    calls it made. *)
Theorem unmodified_function_leaves_library {FunctionDef FLD : Type}
    `{Pass.Library FunctionDef FLD} (depth fuel : nat) (junk : nat -> Z)
    (func_name new_func_name : string) (attrs : list (string * AttrValue))
    (ps ps' : Pass.PassState FLD) :
  Pass.RearrangeFunctionArgumentForFunction depth fuel junk func_name
    new_func_name attrs ps = (Ok false, ps') ->
  Pass.ps_fld ps' = Pass.ps_fld ps.
Proof.
  revert func_name new_func_name attrs ps ps'.
  induction depth as [|depth IH]; intros f nf attrs ps ps'; [done|].
  simpl. apply rearrange_body_library. exact IH.
Qed.

Lemma unmodified_function_leaves_library_witness :
  Pass.ps_fld
    (Pass.RearrangeFunctionArgumentForFunction 1 0 (fun _ => 0%Z)
       "leaf_f" "leaf_f_rearrange_0" [] Examples.two_call_sites_state).2
  = Pass.ps_fld Examples.two_call_sites_state.
Proof.
  apply (unmodified_function_leaves_library 1 0 (fun _ => 0%Z)
           "leaf_f" "leaf_f_rearrange_0" [] Examples.two_call_sites_state).
  apply injective_projections; [by vm_compute|reflexivity].
Defined.

(** ** The memoization map *)

Section MemoGrowth.
Import GraphStore IndexMapping Rewriter Pass Vocabulary Returns.
Context {FunctionDef FLD : Type} `{Library FunctionDef FLD}.
Local Open Scope Z_scope.

Lemma memo_extends_refl (memo : gmap string (option string)) :
  memo_extends memo memo.
Proof. by intros key. Qed.

Lemma memo_extends_trans (m1 m2 m3 : gmap string (option string)) :
  memo_extends m1 m2 -> memo_extends m2 m3 -> memo_extends m1 m3.
Proof. intros H12 H23 key Hk. by apply H23, H12. Qed.

Lemma memo_extends_insert (memo : gmap string (option string)) (key : string)
    (entry : option string) :
  memo_extends memo (<[key := entry]> memo).
Proof.
  intros k Hk. destruct (decide (k = key)) as [->|].
  - rewrite lookup_insert_eq. by eexists.
  - by rewrite lookup_insert_ne.
Qed.

(** The steps of a call that leave the map alone. *)
Lemma in_world_memo {A} (m : M (World FLD) A) (fr : Frame FLD) :
  fr_memo (in_world m fr).2 = fr_memo fr.
Proof. unfold in_world. by destruct (m _) as [r w]. Qed.

Lemma repoint_memo (n : nat) (af : AssociatedFunctionInfo) (new_name : string)
    (fr : Frame FLD) :
  fr_memo (repoint_associated_function n af new_name fr).2 = fr_memo fr.
Proof.
  destruct (repoint_associated_function n af new_name fr) as [r fr'] eqn:E.
  by apply repoint_associated_function_frame in E as [Hm _].
Qed.

(** The outcome of [bind m k], by the outcome of [m]. *)
Lemma bind_run {St A B} (m : M St A) (k : A -> M St B) (s s' : St)
    (res : Result B) :
  bind m k s = (res, s') ->
  exists r1 s1,
    m s = (r1, s1)
    /\ match r1 with
       | Ok a => k a s1 = (res, s')
       | Err c => res = Err c /\ s' = s1
       | Thrown => res = Thrown /\ s' = s1
       | NoFuel => res = NoFuel /\ s' = s1
       end.
Proof.
  unfold bind. destruct (m s) as [r1 s1]. intros Hrun. exists r1, s1.
  split; [done|]. destruct r1; by try injection Hrun as <- <-.
Qed.

Lemma rewrite_associated_function_memo (rec : RewriteFunction FLD)
    (n : nat) (af : AssociatedFunctionInfo) (fr fr' : Frame FLD)
    (res : Result unit) :
  (forall f nf attrs ps,
     memo_extends (ps_memo ps) (ps_memo (rec f nf attrs ps).2)) ->
  rewrite_associated_function rec n af fr = (res, fr') ->
  memo_extends (fr_memo fr) (fr_memo fr')
  /\ (res = Ok tt ->
      is_Some (fr_memo fr' !! Canonicalize (af_func_name af) (af_attrs af))).
Proof.
  intros Hrec Hrun. unfold rewrite_associated_function in Hrun.
  set (key := Canonicalize (af_func_name af) (af_attrs af)) in *.
  assert (forall nm fr1 fr2 res',
            memo_extends (fr_memo fr) (fr_memo fr1) ->
            is_Some (fr_memo fr1 !! key) ->
            bind set_modified
              (fun _ => repoint_associated_function n af nm) fr1 = (res', fr2) ->
            memo_extends (fr_memo fr) (fr_memo fr2)
            /\ (res' = Ok tt -> is_Some (fr_memo fr2 !! key))) as Hrepoint.
  { intros nm fr1 fr2 res' Hg Hk Hstep.
    unfold bind, set_modified, modify in Hstep. simpl in Hstep.
    apply repoint_associated_function_frame in Hstep as [Hm _]. simpl in Hm.
    rewrite Hm. by split. }
  apply bind_run in Hrun as (r0 & fr0 & Hmemo & Hrun).
  unfold gets in Hmemo. injection Hmemo as <- <-.
  apply bind_run in Hrun as (rp & fr1 & Hp & Hrun).
  destruct (fr_memo fr !! key) as [entry|] eqn:Hentry.
  - unfold ret in Hp. injection Hp as <- <-.
    destruct entry as [nm|]; simpl in Hrun.
    + eapply Hrepoint; [apply memo_extends_refl| |exact Hrun].
      rewrite Hentry. by eexists.
    + injection Hrun as <- <-. split; [apply memo_extends_refl|].
      intros _. rewrite Hentry. by eexists.
  - apply bind_run in Hp as (r0 & fr0 & Hget & Hp).
    unfold get in Hget. injection Hget as <- <-.
    apply bind_run in Hp as (rprefix & fr0 & Hprefix & Hp).
    assert (fr0 = fr) as ->.
    { destruct (af_type af); try (by injection Hprefix as _ <-).
      destruct (find_node (fr_graph fr) n); by injection Hprefix as _ <-. }
    destruct rprefix as [prefix| | |].
    2-4: destruct Hp as [Hp1 Hp2]; subst; destruct Hrun as [Hr1 Hr2]; subst;
         split; [apply memo_extends_refl|done].
    set (new_name := UniqueFunctionName (fr_fld fr) (prefix +:+ "_rearrange_"))
      in *.
    apply bind_run in Hp as (rr & fr2 & Hcall & Hp).
    assert (memo_extends (fr_memo fr) (fr_memo fr2)) as Hgrow.
    { unfold in_pass in Hcall.
      pose proof (Hrec (af_func_name af) new_name (af_attrs af)
                    (mkPassState (fr_fld fr) (fr_memo fr))) as Hg.
      destruct (rec (af_func_name af) new_name (af_attrs af) _) as [r2 ps1].
      by injection Hcall as _ <-. }
    destruct rr as [fm| | |].
    2-4: destruct Hp as [Hp1 Hp2]; subst; destruct Hrun as [Hr1 Hr2]; subst;
         split; [exact Hgrow|done].
    apply bind_run in Hp as (rs & fr3 & Hset & Hp).
    unfold set_memo, modify in Hset. injection Hset as <- <-.
    unfold ret in Hp. injection Hp as <- <-.
    assert (memo_extends (fr_memo fr)
              (<[key := if fm then Some new_name else None]> (fr_memo fr2)))
      as Hgrow'.
    { eapply memo_extends_trans; [exact Hgrow|apply memo_extends_insert]. }
    destruct fm; simpl in Hrun.
    + eapply Hrepoint; [| |exact Hrun]; simpl; [exact Hgrow'|].
      rewrite lookup_insert_eq. by eexists.
    + injection Hrun as <- <-. simpl. split; [exact Hgrow'|]. intros _.
      rewrite lookup_insert_eq. by eexists.
Qed.

Lemma rewrite_node_memo (fuel : nat) (junk : nat -> Z) (n : nat)
    (fr : Frame FLD) :
  fr_memo (rewrite_node fuel junk n fr).2 = fr_memo fr.
Proof.
  unfold rewrite_node. unfold bind at 1, get at 1. simpl.
  destruct (find_node (fr_graph fr) n) as [nd|]; [|done].
  assert (forall m : M (World FLD) bool,
            fr_memo (bind (in_world m) (fun node_rewritten : bool =>
                       if node_rewritten then set_modified else ret tt) fr).2
            = fr_memo fr) as Hstep.
  { intros m. unfold bind. pose proof (in_world_memo m fr) as Hm.
    destruct (in_world m fr) as [[[]| | |] fr1]; simpl in *; done. }
  repeat destruct (decide _); try apply Hstep. done.
Qed.

Lemma for_each_memo {A} (memo0 : gmap string (option string)) (l : list A)
    (body : A -> M (Frame FLD) unit) (fr : Frame FLD) :
  (forall a fr1, memo_extends (fr_memo fr1) (fr_memo (body a fr1).2)) ->
  memo_extends memo0 (fr_memo fr) ->
  memo_extends memo0 (fr_memo (for_each l body fr).2).
Proof.
  intros Hbody. revert fr. induction l as [|a l IH]; intros fr Hfr; [done|].
  simpl. unfold bind. pose proof (Hbody a fr) as Ha.
  destruct (body a fr) as [[[]| | |] fr1]; simpl in *;
    try (by eapply memo_extends_trans).
  apply IH. by eapply memo_extends_trans.
Qed.

Lemma for_each_rewrite_node_memo (fuel : nat) (junk : nat -> Z) (l : list nat)
    (fr fr' : Frame FLD) (res : Result unit) :
  for_each l (rewrite_node fuel junk) fr = (res, fr') ->
  fr_memo fr' = fr_memo fr.
Proof.
  revert fr. induction l as [|x l IH]; intros fr Hrun.
  { by injection Hrun as _ <-. }
  simpl in Hrun. apply bind_run in Hrun as (rx & frx & Hx & Hrest).
  pose proof (rewrite_node_memo fuel junk x fr) as Hmx.
  rewrite Hx in Hmx. simpl in Hmx.
  destruct rx as [[]| | |].
  - rewrite <- Hmx. by apply IH.
  - by destruct Hrest as [_ ->].
  - by destruct Hrest as [_ ->].
  - by destruct Hrest as [_ ->].
Qed.

(** The memoization map through one call, given what the nested calls do. *)
Lemma rearrange_body_memo (rec : RewriteFunction FLD) (fuel : nat)
    (junk : nat -> Z) (f nf : string) (attrs : list (string * AttrValue))
    (ps ps' : PassState FLD) (res : Result bool) :
  (forall f nf attrs ps,
     memo_extends (ps_memo ps) (ps_memo (rec f nf attrs ps).2)) ->
  rearrange_body rec fuel junk f nf attrs ps = (res, ps') ->
  memo_extends (ps_memo ps) (ps_memo ps')
  /\ (forall (b : bool) (g : Graph),
        res = Ok b -> Instantiate (ps_fld ps) f attrs = Ok g ->
        forall n afs af,
          (n, afs) ∈ nodes_to_associated_functions g (ps_fld ps) -> af ∈ afs ->
          is_Some (ps_memo ps' !! Canonicalize (af_func_name af) (af_attrs af))).
Proof.
  intros Hrec Hrun. unfold rearrange_body in Hrun.
  destruct (Instantiate (ps_fld ps) f attrs) as [g| | |].
  2-4: injection Hrun as <- <-; split; [apply memo_extends_refl|done].
  match type of Hrun with
  | (let '(_, _) := ?w ?f0 in _) = _ =>
      destruct (w f0) as [r fr'] eqn:Hwork
  end.
  injection Hrun as <- <-. simpl.
  set (fr0 := mkFrame g (ps_fld ps) (ps_memo ps) false) in *.
  assert (forall (p : nat * list AssociatedFunctionInfo) fr1,
            memo_extends (fr_memo fr1)
              (fr_memo ((let '(n, afs) := p in
                         for_each afs (rewrite_associated_function rec n)) fr1).2))
    as Hinner.
  { intros [n afs] fr1. apply for_each_memo; [|apply memo_extends_refl].
    intros af fr2.
    destruct (rewrite_associated_function rec n af fr2) as [res fr3] eqn:E.
    by apply (rewrite_associated_function_memo rec n af fr2 fr3 res Hrec). }
  apply bind_run in Hwork as (r1 & fr1 & Hloop1 & Hwork).
  assert (memo_extends (ps_memo ps) (fr_memo fr1)) as Hgrow1.
  { pose proof (for_each_memo (ps_memo ps)
                  (nodes_to_associated_functions g (ps_fld ps))
                  (fun '(n, afs) =>
                     for_each afs (rewrite_associated_function rec n))
                  fr0 Hinner (memo_extends_refl _)) as Hg.
    by rewrite Hloop1 in Hg. }
  destruct r1 as [[]| | |].
  2-4: destruct Hwork as [-> ->]; split; [exact Hgrow1|done].
  assert (forall n afs af,
            (n, afs) ∈ nodes_to_associated_functions g (ps_fld ps) ->
            af ∈ afs ->
            is_Some (fr_memo fr1
                       !! Canonicalize (af_func_name af) (af_attrs af)))
    as Hkeys.
  { intros n afs af Hn Haf.
    pose proof (for_each_establishes
      (fun (p : nat * list AssociatedFunctionInfo) (fr : Frame FLD) =>
         forall af', af' ∈ p.2 ->
           is_Some (fr_memo fr !! Canonicalize (af_func_name af')
                                     (af_attrs af')))
      (nodes_to_associated_functions g (ps_fld ps))
      (fun '(n, afs) => for_each afs (rewrite_associated_function rec n))
      fr0 fr1) as Hest.
    apply (fun H1 H2 => Hest H1 H2 Hloop1 (n, afs) Hn af Haf); clear Hest.
    - intros [n' afs'] fr2 fr3 _ Hstep af' Haf'. simpl in *.
      pose proof (for_each_establishes
        (fun af0 (fr : Frame FLD) =>
           is_Some (fr_memo fr !! Canonicalize (af_func_name af0)
                                     (af_attrs af0)))
        afs' (rewrite_associated_function rec n') fr2 fr3) as Hest.
      apply (fun H1 H2 => Hest H1 H2 Hstep af' Haf'); clear Hest.
      + intros af0 fr4 fr5 _ Hone.
        destruct (rewrite_associated_function_memo rec n' af0 fr4 fr5 _ Hrec Hone)
          as [_ Hhas].
        by apply Hhas.
      + intros af0 af1 _ _ fr4 a fr5 Hk Hone.
        destruct (rewrite_associated_function_memo rec n' af1 fr4 fr5 _ Hrec Hone)
          as [Hg _].
        by apply Hg.
    - intros [n1 afs1] [n2 afs2] _ _ fr2 a fr3 Hk Hstep af' Haf'.
      pose proof (Hinner (n2, afs2) fr2) as Hg. simpl in Hg.
      rewrite Hstep in Hg. apply Hg. by apply Hk. }
  (* the rest of the call leaves the map alone *)
  assert (fr_memo fr' = fr_memo fr1) as Hsame.
  { apply bind_run in Hwork as (r2 & fr2 & Hget & Hwork).
    unfold get in Hget. injection Hget as <- <-.
    apply bind_run in Hwork as (r3 & fr3 & Hnodes & Hwork).
    apply for_each_rewrite_node_memo in Hnodes as Hm3.
    destruct r3 as [[]| | |].
    2-4: by destruct Hwork as [_ ->].
    apply bind_run in Hwork as (r4 & fr4 & Hget & Hwork).
    unfold get in Hget. injection Hget as Hr4 Hfr4. subst r4 fr4.
    apply bind_run in Hwork as (r5 & fr5 & Hsave & Hwork).
    assert (fr_memo fr5 = fr_memo fr3) as Hm5.
    { destruct (fr_modified fr3); [|by injection Hsave as _ <-].
      apply bind_run in Hsave as (r6 & fr6 & Hdef & Hsave).
      unfold lift in Hdef. injection Hdef as <- <-.
      destruct (GraphToFunctionDef (fr_graph fr3) nf) as [fdef| | |].
      2-4: by destruct Hsave as [_ ->].
      destruct (decide (f = nf)).
      - destruct (ReplaceFunction nf fdef (fr_fld fr3)) as [rr fld'].
        by injection Hsave as _ <-.
      - destruct (AddFunctionDef fdef (fr_fld fr3)) as [rr fld'].
        by injection Hsave as _ <-. }
    destruct r5 as [[]| | |].
    - unfold ret in Hwork. injection Hwork as _ <-. congruence.
    - destruct Hwork as [_ ->]. congruence.
    - destruct Hwork as [_ ->]. congruence.
    - destruct Hwork as [_ ->]. congruence. }
  rewrite Hsame. split; [exact Hgrow1|].
  intros b g' _ [= <-]. exact Hkeys.
Qed.

End MemoGrowth.

(** X10.  [RearrangeFunctionArgumentForFunction] never removes an entry of
    [canonicalized_name_to_new_name]: every key present before the call is
    present after it, whatever the call returns.  When the call returns OK,
    the map has an entry for the canonicalized name of every associated
    function gathered from the function's body. *)
Theorem associated_functions_are_memoized {FunctionDef FLD : Type}
    `{Pass.Library FunctionDef FLD} (depth fuel : nat) (junk : nat -> Z)
    (func_name new_func_name : string) (attrs : list (string * AttrValue))
    (ps : Pass.PassState FLD) :
  let r := Pass.RearrangeFunctionArgumentForFunction depth fuel junk func_name
             new_func_name attrs ps in
  (forall key : string,
     is_Some (Pass.ps_memo ps !! key) -> is_Some (Pass.ps_memo r.2 !! key))
  /\ (forall (b : bool) (g : GraphStore.Graph),
        r.1 = Ok b ->
        Pass.Instantiate (Pass.ps_fld ps) func_name attrs = Ok g ->
        forall n afs af,
          (n, afs) ∈ Pass.nodes_to_associated_functions g (Pass.ps_fld ps) ->
          af ∈ afs ->
          is_Some (Pass.ps_memo r.2
                     !! Pass.Canonicalize (Pass.af_func_name af)
                          (Pass.af_attrs af))).
Proof.
  assert (forall depth f nf attrs ps,
            Returns.memo_extends (Pass.ps_memo ps)
              (Pass.ps_memo
                 (Pass.RearrangeFunctionArgumentForFunction depth fuel junk
                    f nf attrs ps).2)) as Hgrow.
  { clear. intros depth. induction depth as [|depth IH]; intros f nf attrs ps.
    - apply memo_extends_refl.
    - simpl.
      destruct (Pass.rearrange_body _ fuel junk f nf attrs ps) as [res ps']
        eqn:E.
      by apply rearrange_body_memo in E as [Hg _]. }
  destruct depth as [|depth].
  - simpl. split; [done|]. by intros b g.
  - simpl.
    destruct (Pass.rearrange_body _ fuel junk func_name new_func_name attrs ps)
      as [res ps'] eqn:E.
    apply rearrange_body_memo in E; [exact E|]. apply Hgrow.
Qed.

(** ** The pass over a graph *)

Section RunFacts.
Import GraphStore IndexMapping Rewriter Pass Vocabulary Returns PassRun.
Context {FunctionDef FLD : Type} `{Library FunctionDef FLD}.
Variable Prune : Graph -> M FLD unit.
Local Open Scope Z_scope.

Lemma same_but_function_attrs_refl (g : Graph) : same_but_function_attrs g g.
Proof. split; [done|]. intros m. by destruct (find_node g m). Qed.

Lemma same_but_function_attrs_SetAttr (g0 g : Graph) (n : nat) (nd : Node)
    (func_attr : string) (v : AttrValue) :
  same_but_function_attrs g0 g ->
  find_node g n = Some nd ->
  kNodeTypeToFunctionAttrMapping !! type_string nd = Some func_attr ->
  same_but_function_attrs g0 (SetAttr g n func_attr v).
Proof.
  intros [Hedges Hnodes] Hnd Hattr. split; [by rewrite edges_SetAttr|].
  intros m. specialize (Hnodes m). rewrite find_node_SetAttr.
  destruct (decide (m = n)) as [->|]; [|done].
  rewrite Hnd in *. simpl.
  destruct (find_node g0 n) as [nd0|]; [|done].
  destruct Hnodes as (Hname & Htype & Hattrs). split; [done|]. split; [done|].
  intros key Hkey. rewrite <- Htype, Hattr in Hkey.
  rewrite lookup_insert_ne, lookup_delete_ne by congruence. apply Hattrs.
  rewrite <- Htype, Hattr. done.
Qed.

Lemma rearrange_function_graph (depth fuel : nat) (junk : nat -> Z)
    (f nf : string) (attrs : list (string * AttrValue)) (rs : RunState FLD) :
  rs_graph (rearrange_function depth fuel junk f nf attrs rs).2 = rs_graph rs.
Proof.
  unfold rearrange_function.
  by destruct (RearrangeFunctionArgumentForFunction _ _ _ _ _ _ _).
Qed.

Lemma run_node_frame (g0 : Graph) (depth fuel : nat) (junk : nat -> Z) (n : nat) :
  invariant (fun rs : RunState FLD => same_but_function_attrs g0 (rs_graph rs))
    (run_node depth fuel junk n).
Proof.
  intros rs Hrs. unfold run_node. unfold bind at 1, get at 1. simpl.
  destruct (find_node (rs_graph rs) n) as [nd|] eqn:Hnd; [|done].
  destruct (kNodeTypeToFunctionAttrMapping !! type_string nd)
    as [func_attr|] eqn:Hattr; [|done].
  unfold bind at 1, lift at 1.
  destruct (GetNodeAttr as_func (rs_graph rs) n func_attr) as [func| | |];
    simpl; try done.
  unfold bind.
  pose proof (rearrange_function_graph depth fuel junk func.1
                (UniqueFunctionName (rs_fld rs) (func.1 +:+ "_rearrange_"))
                func.2 rs) as Hg.
  destruct (rearrange_function _ _ _ _ _ _ rs) as [[[]| | |] rs1];
    simpl in *; rewrite ?Hg; try done.
  apply same_but_function_attrs_SetAttr with nd; by rewrite ?Hg.
Qed.

Lemma run_node_skips (depth fuel : nat) (junk : nat -> Z) (n : nat)
    (rs : RunState FLD) :
  (forall nd, find_node (rs_graph rs) n = Some nd ->
              kNodeTypeToFunctionAttrMapping !! type_string nd = None) ->
  run_node depth fuel junk n rs = (Ok tt, rs).
Proof.
  intros Hskip. unfold run_node. unfold bind at 1, get at 1. simpl.
  destruct (find_node (rs_graph rs) n) as [nd|]; [|done].
  by rewrite (Hskip nd eq_refl).
Qed.

End RunFacts.

(** X11.  Whatever [RearrangeFunctionArgumentPass::Run] returns, the graph
    it leaves has the edges and the nodes of the graph it was given; a node
    keeps its name and its type, and every attribute except the function
    attribute of a [TPUReplicate] (["computation"]) or [XlaLaunch]
    (["function"]) node keeps its value. *)
Theorem Run_changes_function_attrs_only {FunctionDef FLD : Type}
    `{Pass.Library FunctionDef FLD}
    (Prune : GraphStore.Graph -> M FLD unit) (depth fuel : nat)
    (junk : nat -> Z) (w : Pass.World FLD) :
  PassRun.same_but_function_attrs (Pass.w_graph w)
    (Pass.w_graph (PassRun.Run Prune depth fuel junk w).2).
Proof.
  unfold PassRun.Run.
  set (I := fun rs : PassRun.RunState FLD =>
              PassRun.same_but_function_attrs (Pass.w_graph w)
                (PassRun.rs_graph rs)).
  match goal with
  | |- context [let '(_, _) := ?work ?rs0 in _] =>
      assert (I (work rs0).2) as Hwork;
      [|by destruct (work rs0) as [r rs]]
  end.
  apply invariant_bind.
  { apply invariant_for_each. intros n _. apply run_node_frame. }
  intros _. apply invariant_bind; [apply invariant_get|].
  intros rs. apply invariant_bind; [|intros _; apply invariant_ret].
  - destruct (PassRun.rs_fld_modified rs); [|apply invariant_ret].
    intros rs' Hrs'. unfold I in *.
    by destruct (Prune (PassRun.rs_graph rs') (PassRun.rs_fld rs')).
  - apply same_but_function_attrs_refl.
Qed.

(** X12.  On a graph with no [TPUReplicate] and no [XlaLaunch] node, [Run]
    returns OK and leaves the graph and the function library as they were;
    no function is rearranged and [PruneUnreachableFunctionsFromGraph] is not
    called. *)
Theorem Run_without_compile_ops {FunctionDef FLD : Type}
    `{Pass.Library FunctionDef FLD}
    (Prune : GraphStore.Graph -> M FLD unit) (depth fuel : nat)
    (junk : nat -> Z) (w : Pass.World FLD) :
  (forall (m : nat) (nd : GraphStore.Node),
     GraphStore.find_node (Pass.w_graph w) m = Some nd ->
     GraphStore.type_string nd <> "TPUReplicate"
     /\ GraphStore.type_string nd <> "XlaLaunch") ->
  PassRun.Run Prune depth fuel junk w = (Ok tt, w).
Proof.
  intros Hnone. unfold PassRun.Run.
  assert (forall (l : list nat) (rs : PassRun.RunState FLD),
            PassRun.rs_graph rs = Pass.w_graph w ->
            for_each l (PassRun.run_node depth fuel junk) rs = (Ok tt, rs))
    as Hloop.
  { induction l as [|n l IH]; intros rs Hrs; [done|].
    simpl. unfold bind. rewrite run_node_skips; [by apply IH|].
    intros nd Hnd. rewrite Hrs in Hnd. destruct (Hnone n nd Hnd) as [H1 H2].
    unfold PassRun.kNodeTypeToFunctionAttrMapping.
    rewrite lookup_insert_ne by done. rewrite lookup_singleton_ne by done.
    done. }
  unfold bind at 1. rewrite Hloop by done.
  unfold bind, get, ret. simpl. by destruct w.
Qed.

Lemma Run_without_compile_ops_witness :
  PassRun.Run (fun _ => ret tt) 1 0 (fun _ => 0%Z) Examples.if_world
  = (Ok tt, Examples.if_world).
Proof.
  apply Run_without_compile_ops. intros m nd Hnd.
  destruct m as [|[|[|[|[|m]]]]]; simpl in Hnd;
    try (injection Hnd as <-; by split).
  done.
Defined.

(** ** Where the loading of defaults stops *)

Section AddDefaultsStop.
Import GraphDefUtil.
Context {R : Type} `{OpRegistryInterface R}.

Lemma add_defaults_loop_stop (op_registry : R) (remaining i : nat)
    (nodes nodes' : list NodeDef) (res : Result unit) :
  i + remaining = length nodes ->
  add_defaults_loop op_registry remaining i nodes = (res, nodes') ->
  exists stop : nat,
    i <= stop <= i + remaining
    /\ (forall (k : nat) (nd : NodeDef), i <= k < stop -> nodes !! k = Some nd ->
          exists od, LookUp op_registry (nd_op nd) = Ok od
                     /\ nodes' !! k = Some (AddDefaultsToNodeDef od nd))
    /\ (forall k : nat, ~ (i <= k < stop) -> nodes' !! k = nodes !! k)
    /\ (if decide (stop = i + remaining) then res = Ok tt
        else exists nd, nodes !! stop = Some nd
                        /\ res = bindR (LookUp op_registry (nd_op nd))
                                   (fun _ => Ok tt)
                        /\ res <> Ok tt).
Proof.
  revert i nodes. induction remaining as [|n IH]; intros i nodes Hlen Hrun.
  { simpl in Hrun. injection Hrun as <- <-. exists i.
    split; [lia|]. split; [intros; lia|]. split; [done|].
    by rewrite decide_True by lia. }
  simpl in Hrun.
  destruct (lookup_lt_is_Some_2 nodes i ltac:(lia)) as [nd Hnd].
  rewrite Hnd in Hrun.
  destruct (LookUp op_registry (nd_op nd)) as [od|c| |] eqn:Hop.
  2-4: injection Hrun as <- <-; exists i;
       (split; [lia|]); (split; [intros; lia|]); (split; [done|]);
       rewrite decide_False by lia; exists nd; by rewrite Hop.
  apply IH in Hrun as (stop & Hrange & Hdone & Hrest & Hend).
  2:{ rewrite length_insert. lia. }
  exists stop. split; [lia|]. split; [|split].
  - intros k nd' Hk Hnd'. destruct (decide (k = i)) as [->|Hne].
    + rewrite Hnd in Hnd'. injection Hnd' as <-. exists od. split; [done|].
      rewrite Hrest by lia. apply list_lookup_insert_eq.
      by eapply lookup_lt_Some.
    + apply Hdone; [lia|]. by rewrite list_lookup_insert_ne.
  - intros k Hk. rewrite Hrest by lia. apply list_lookup_insert_ne. lia.
  - replace (S i + n) with (i + S n) in Hend by lia.
    destruct (decide (stop = i + S n)); [done|].
    destruct Hend as (nd' & Hnd' & Hres). exists nd'. split; [|done].
    rewrite list_lookup_insert_ne in Hnd' by lia. done.
Qed.

(** X13.  [AddDefaultAttrsToGraphDef] with an offset past the last node
    returns [InvalidArgument] and leaves the graph as it was.  Otherwise it
    goes through the nodes from the offset and stops at the first one whose
    operation the registry does not know: the nodes from the offset up to
    that one have received the defaults of their operation, every other node
    is unchanged, and the status is that of the failed look-up; it is OK
    exactly when the end of the graph was reached. *)
Theorem AddDefaultAttrsToGraphDef_stops_at_first_unknown (graph_def : GraphDef)
    (op_registry : R) (node_offset : nat) :
  let r := AddDefaultAttrsToGraphDef graph_def op_registry node_offset in
  (node_size graph_def < node_offset -> r = (Err INVALID_ARGUMENT, graph_def))
  /\ (node_offset <= node_size graph_def ->
      exists stop : nat,
        node_offset <= stop <= node_size graph_def
        /\ (forall (k : nat) (nd : NodeDef),
              node_offset <= k < stop -> node graph_def !! k = Some nd ->
              exists od, LookUp op_registry (nd_op nd) = Ok od
                         /\ node r.2 !! k = Some (AddDefaultsToNodeDef od nd))
        /\ (forall k : nat, ~ (node_offset <= k < stop) ->
              node r.2 !! k = node graph_def !! k)
        /\ (if decide (stop = node_size graph_def) then r.1 = Ok tt
            else exists nd, node graph_def !! stop = Some nd
                            /\ r.1 = bindR (LookUp op_registry (nd_op nd))
                                       (fun _ => Ok tt)
                            /\ r.1 <> Ok tt)).
Proof.
  unfold AddDefaultAttrsToGraphDef, node_size. split.
  - intros Hoff. by rewrite decide_True.
  - intros Hoff. rewrite decide_False by lia.
    destruct (add_defaults_loop _ _ _ _) as [res nodes'] eqn:Hrun. simpl.
    apply add_defaults_loop_stop in Hrun as (stop & Hrange & Hrest); [|lia].
    exists stop.
    replace (node_offset + (length (node graph_def) - node_offset))
      with (length (node graph_def)) in * by lia.
    done.
Qed.

End AddDefaultsStop.

(** ** Removing the defaults a consumer does not know *)

Section RemoveNewDefaultsFacts.
Import GraphDefUtil GraphDefUtilMore.
Context {R : Type} `{OpRegistryInterface R}.
Variable FindAttr : string -> OpDef -> option AttrDef.
Variable AreAttrValuesEqual : AttrValue -> AttrValue -> bool.

(** One turn of the loop over the attributes. *)
Lemma collect_to_remove_cons (c p : OpDef) (a : string * AttrValue)
    (l : list (string * AttrValue)) (acc : list string) :
  collect_to_remove FindAttr AreAttrValuesEqual c p (a :: l) acc
  = if bool_decide (FindAttr a.1 c = None /\ FindAttr a.1 p = None)
    then Err INVALID_ARGUMENT
    else collect_to_remove FindAttr AreAttrValuesEqual c p l
           (if is_new_default FindAttr AreAttrValuesEqual c p a
            then acc ++ [a.1] else acc).
Proof.
  simpl. unfold is_new_default.
  destruct (FindAttr a.1 c) as [ca|].
  { rewrite bool_decide_eq_false_2; [done|]. by intros [? _]. }
  destruct (FindAttr a.1 p) as [pa|].
  2:{ by rewrite bool_decide_eq_true_2. }
  rewrite bool_decide_eq_false_2 by (by intros [_ ?]).
  destruct (ad_default_value pa) as [d|]; [|done].
  by destruct (AreAttrValuesEqual d a.2).
Qed.

Lemma collect_to_remove_Ok (c p : OpDef) (l : list (string * AttrValue))
    (acc tr : list string) :
  collect_to_remove FindAttr AreAttrValuesEqual c p l acc = Ok tr ->
  tr = acc ++ (filter (fun a => is_new_default FindAttr AreAttrValuesEqual c p a
                                = true) l).*1.
Proof.
  revert acc. induction l as [|a l IH]; intros acc.
  { simpl. intros [= <-]. by rewrite app_nil_r. }
  rewrite collect_to_remove_cons. destruct (bool_decide _); [done|].
  intros Hrun. apply IH in Hrun. rewrite Hrun.
  destruct (is_new_default FindAttr AreAttrValuesEqual c p a) eqn:Ha.
  - rewrite filter_cons_True by done. simpl. by rewrite <- app_assoc.
  - rewrite filter_cons_False; [done|]. by rewrite Ha.
Qed.

(** The loop fails in one way only. *)
Lemma collect_to_remove_outcome (c p : OpDef) (l : list (string * AttrValue))
    (acc : list string) :
  (exists tr, collect_to_remove FindAttr AreAttrValuesEqual c p l acc = Ok tr)
  \/ (collect_to_remove FindAttr AreAttrValuesEqual c p l acc
      = Err INVALID_ARGUMENT
      /\ exists a, a ∈ l /\ FindAttr a.1 c = None /\ FindAttr a.1 p = None).
Proof.
  revert acc. induction l as [|a l IH]; intros acc.
  { left. by eexists. }
  rewrite collect_to_remove_cons.
  destruct (bool_decide _) eqn:Hboth.
  - right. split; [done|]. apply bool_decide_eq_true in Hboth.
    exists a. split; [by left|done].
  - destruct (IH (if is_new_default FindAttr AreAttrValuesEqual c p a
                  then acc ++ [a.1] else acc)) as [Hok|[Herr (b & Hb & Hnone)]].
    + by left.
    + right. split; [done|]. exists b. split; [by right|done].
Qed.

Lemma erase_attrs_fields (tr : list string) (nd : NodeDef) :
  nd_name (erase_attrs tr nd) = nd_name nd
  /\ nd_op (erase_attrs tr nd) = nd_op nd
  /\ nd_input (erase_attrs tr nd) = nd_input nd
  /\ nd_device (erase_attrs tr nd) = nd_device nd.
Proof.
  revert nd. induction tr as [|k tr IH]; intros nd; [done|].
  unfold erase_attrs in *. simpl. by destruct (IH (erase_attr nd k)) as (-> & -> & -> & ->).
Qed.

Lemma erase_attrs_lookup (tr : list string) (nd : NodeDef) (k : string) :
  nd_attr (erase_attrs tr nd) !! k
  = if decide (k ∈ tr) then None else nd_attr nd !! k.
Proof.
  revert nd. induction tr as [|x tr IH]; intros nd.
  { unfold erase_attrs. cbn [foldl].
    destruct (decide (k ∈ [])) as [Hin|]; [by apply elem_of_nil in Hin|done]. }
  unfold erase_attrs in *. cbn [foldl]. rewrite IH. cbn [erase_attr nd_attr].
  destruct (decide (k ∈ tr)) as [Hin|Hin].
  - rewrite decide_True; [done|by right].
  - destruct (decide (k = x)) as [->|Hne].
    + rewrite decide_True by (by left). apply lookup_delete_eq.
    + rewrite decide_False; [by rewrite lookup_delete_ne|].
      intros [?|?]%elem_of_cons; done.
Qed.

(** The attributes a node is left with. *)
Lemma stripped_attrs (c p : OpDef) (nd : NodeDef) (tr : list string)
    (k : string) :
  collect_to_remove FindAttr AreAttrValuesEqual c p (map_to_list (nd_attr nd)) []
  = Ok tr ->
  (k ∈ tr <-> exists v, nd_attr nd !! k = Some v
                        /\ is_new_default FindAttr AreAttrValuesEqual c p (k, v)
                           = true)
  /\ nd_attr (erase_attrs tr nd) !! k
     = match nd_attr nd !! k with
       | Some v =>
           if is_new_default FindAttr AreAttrValuesEqual c p (k, v)
           then None else Some v
       | None => None
       end.
Proof.
  intros Hrun. apply collect_to_remove_Ok in Hrun. simpl in Hrun.
  assert (k ∈ tr <-> exists v, nd_attr nd !! k = Some v
                        /\ is_new_default FindAttr AreAttrValuesEqual c p (k, v)
                           = true) as Hin.
  { rewrite Hrun, list_elem_of_fmap. split.
    - intros ([k' v] & -> & Hkv). apply list_elem_of_filter in Hkv as [Hnew Hkv].
      apply elem_of_map_to_list in Hkv. by exists v.
    - intros (v & Hv & Hnew). exists (k, v). split; [done|].
      apply list_elem_of_filter. split; [done|]. by apply elem_of_map_to_list. }
  split; [exact Hin|].
  rewrite erase_attrs_lookup. destruct (decide (k ∈ tr)) as [Hk|Hk].
  - apply Hin in Hk as (v & -> & ->). done.
  - destruct (nd_attr nd !! k) as [v|] eqn:Hv; [|done].
    destruct (is_new_default FindAttr AreAttrValuesEqual c p (k, v)) eqn:Hnew;
      [|done].
    destruct Hk. apply Hin. by exists v.
Qed.

Lemma record_removed_elem_of (op : string) (tr : list string)
    (s : gset (string * string)) (x : string * string) :
  x ∈ foldl (fun s attr_name => {[ (op, attr_name) ]} ∪ s) s tr
  <-> x ∈ s \/ (x.1 = op /\ x.2 ∈ tr).
Proof.
  revert s. induction tr as [|k tr IH]; intros s; simpl.
  { split; [by left|]. intros [?|[_ Hin]]; [done|]. by apply elem_of_nil in Hin. }
  rewrite IH, elem_of_union, elem_of_singleton. split.
  - intros [[->|?]|[? ?]].
    + right. split; [done|by left].
    + by left.
    + right. split; [done|by right].
  - intros [?|[Hop Hin]]; [left; by right|].
    apply elem_of_cons in Hin as [Hk|Hin].
    + left. left. destruct x. simpl in *. by subst.
    + by right.
Qed.


Lemma remove_new_defaults_loop_Ok (consumer producer : R) (nodes nodes' : list NodeDef)
    (removed removed' : option (gset (string * string))) :
  remove_new_defaults_loop FindAttr AreAttrValuesEqual consumer producer
    nodes removed = (Ok tt, (nodes', removed')) ->
  Forall2 (stripped_node FindAttr AreAttrValuesEqual consumer producer)
    nodes nodes'
  /\ match removed, removed' with
     | None, None => True
     | Some s, Some s' =>
         forall x, x ∈ s' <->
           x ∈ s \/ exists nd, nd ∈ nodes
                     /\ recorded_for FindAttr AreAttrValuesEqual
                          consumer producer nd x
     | _, _ => False
     end.
Proof.
  revert nodes' removed removed'.
  induction nodes as [|nd nodes IH]; intros nodes' removed removed' Hrun.
  { simpl in Hrun. injection Hrun as <- <-. split; [constructor|].
    destruct removed as [s|]; [|done]. intros x. split; [by left|].
    intros [?|(nd & Hnd & _)]; [done|]. by apply elem_of_nil in Hnd. }
  simpl in Hrun.
  destruct (LookUp producer (nd_op nd)) as [p| | |] eqn:Hp; try done.
  destruct (LookUp consumer (nd_op nd)) as [c| | |] eqn:Hc; try done.
  destruct (collect_to_remove FindAttr AreAttrValuesEqual c p
              (map_to_list (nd_attr nd)) []) as [tr| | |] eqn:Htr; try done.
  destruct (remove_new_defaults_loop _ _ _ _ nodes _) as [s [rest' rem']] eqn:Hrest.
  injection Hrun as Hs Hn Hr. subst s nodes' removed'.
  apply IH in Hrest as [Hnodes Hrem].
  split.
  - constructor; [|done]. exists c, p.
    destruct (erase_attrs_fields tr nd) as (? & ? & ? & ?).
    repeat split; try done.
    intros k. by apply (stripped_attrs c p nd tr k).
  - destruct removed as [s0|]; simpl in Hrem; destruct rem' as [s1|];
      try done.
    intros x. rewrite Hrem, record_removed_elem_of. split.
    + intros [[?|[Hop Hin]]|(nd' & Hnd' & Hrec)].
      * by left.
      * right. exists nd. split; [by left|].
        apply (stripped_attrs c p nd tr x.2) in Htr as [Hiff _].
        apply Hiff in Hin as (v & Hv & Hnew). by exists c, p, v.
      * right. exists nd'. split; [by right|done].
    + intros [?|(nd' & Hnd' & Hrec)]; [left; by left|].
      apply elem_of_cons in Hnd' as [->|Hnd'].
      * left. right. destruct Hrec as (c' & p' & v & Hp' & Hc' & Hop & Hv & Hnew).
        rewrite Hp in Hp'. rewrite Hc in Hc'.
        injection Hp' as <-. injection Hc' as <-. split; [done|].
        apply (stripped_attrs c p nd tr x.2) in Htr as [Hiff _].
        apply Hiff. by exists v.
      * right. by exists nd'.
Qed.

(** The loop keeps what it does not strip, whatever its outcome. *)
Lemma remove_new_defaults_loop_frame (consumer producer : R)
    (nodes nodes' : list NodeDef)
    (removed removed' : option (gset (string * string))) (res : Result unit) :
  remove_new_defaults_loop FindAttr AreAttrValuesEqual consumer producer
    nodes removed = (res, (nodes', removed')) ->
  Forall2 (fun nd nd' =>
             nd_name nd' = nd_name nd /\ nd_op nd' = nd_op nd
             /\ nd_input nd' = nd_input nd /\ nd_device nd' = nd_device nd
             /\ nd_attr nd' ⊆ nd_attr nd
             /\ forall c k v,
                  LookUp consumer (nd_op nd) = Ok c ->
                  nd_attr nd !! k = Some v -> is_Some (FindAttr k c) ->
                  nd_attr nd' !! k = Some v)
    nodes nodes'
  /\ match removed, removed' with
     | None, None => True
     | Some s, Some s' => s ⊆ s'
     | _, _ => False
     end.
Proof.
  assert (forall l : list NodeDef,
            Forall2 (fun nd nd' =>
                       nd_name nd' = nd_name nd /\ nd_op nd' = nd_op nd
                       /\ nd_input nd' = nd_input nd
                       /\ nd_device nd' = nd_device nd
                       /\ nd_attr nd' ⊆ nd_attr nd
                       /\ forall c k v,
                            LookUp consumer (nd_op nd) = Ok c ->
                            nd_attr nd !! k = Some v -> is_Some (FindAttr k c) ->
                            nd_attr nd' !! k = Some v) l l) as Hsame.
  { intros l. apply Forall2_same_length_lookup. split; [done|].
    intros i nd nd' Hnd Hnd'. rewrite Hnd in Hnd'. injection Hnd' as <-.
    repeat split; try done. }
  revert nodes' removed removed'.
  induction nodes as [|nd nodes IH]; intros nodes' removed removed' Hrun.
  { simpl in Hrun. injection Hrun as _ <- <-. split; [apply Hsame|by destruct removed]. }
  simpl in Hrun.
  destruct (LookUp producer (nd_op nd)) as [p| | |] eqn:Hp.
  2-4: injection Hrun as _ <- <-; split; [apply Hsame|by destruct removed].
  destruct (LookUp consumer (nd_op nd)) as [c| | |] eqn:Hc.
  2-4: injection Hrun as _ <- <-; split; [apply Hsame|by destruct removed].
  destruct (collect_to_remove FindAttr AreAttrValuesEqual c p
              (map_to_list (nd_attr nd)) []) as [tr| | |] eqn:Htr.
  2-4: injection Hrun as _ <- <-; split; [apply Hsame|by destruct removed].
  destruct (remove_new_defaults_loop _ _ _ _ nodes _) as [s [rest' rem']] eqn:Hrest.
  injection Hrun as Hs Hn Hr. subst s nodes' removed'.
  apply IH in Hrest as [Hnodes Hrem].
  split.
  - constructor; [|done].
    destruct (erase_attrs_fields tr nd) as (? & ? & ? & ?).
    repeat split; try done.
    + apply map_subseteq_spec. intros k v. rewrite erase_attrs_lookup.
      by destruct (decide (k ∈ tr)).
    + intros c' k v Hc' Hv [ca Hknown]. rewrite Hc in Hc'. injection Hc' as <-.
      destruct (stripped_attrs c p nd tr k Htr) as [_ ->]. rewrite Hv.
      unfold is_new_default. simpl. by rewrite Hknown.
  - destruct removed as [s0|]; simpl in Hrem; destruct rem' as [s1|];
      try done.
    etrans; [|exact Hrem]. intros x Hx. apply record_removed_elem_of. by left.
Qed.

End RemoveNewDefaultsFacts.

(** X14.  When [RemoveNewDefaultAttrsFromGraphDef] returns OK, both
    registries know the operation of every node; a node keeps its name,
    operation, inputs and device; and of its attributes exactly those are
    removed that the consumer's signature does not have and whose value is
    the default of the producer's signature.  When the caller passes a set
    [op_attr_removed], it receives exactly the pairs (operation, attribute)
    so removed, beside what it held; a null pointer stays null. *)
Theorem RemoveNewDefaultAttrsFromGraphDef_strips_new_defaults {R : Type}
    `{GraphDefUtil.OpRegistryInterface R}
    (FindAttr : string -> GraphDefUtil.OpDef -> option GraphDefUtil.AttrDef)
    (AreAttrValuesEqual : AttrValue -> AttrValue -> bool)
    (graph_def graph_def' : GraphDefUtil.GraphDef) (consumer producer : R)
    (removed removed' : option (gset (string * string))) :
  GraphDefUtilMore.RemoveNewDefaultAttrsFromGraphDef FindAttr AreAttrValuesEqual
    graph_def consumer producer removed = (Ok tt, (graph_def', removed')) ->
  Forall2 (GraphDefUtilMore.stripped_node FindAttr AreAttrValuesEqual
             consumer producer)
    (GraphDefUtil.node graph_def) (GraphDefUtil.node graph_def')
  /\ match removed, removed' with
     | None, None => True
     | Some s, Some s' =>
         forall x, x ∈ s' <->
           x ∈ s \/ exists nd, nd ∈ GraphDefUtil.node graph_def
                     /\ GraphDefUtilMore.recorded_for FindAttr AreAttrValuesEqual
                          consumer producer nd x
     | _, _ => False
     end.
Proof.
  unfold GraphDefUtilMore.RemoveNewDefaultAttrsFromGraphDef.
  destruct (GraphDefUtilMore.remove_new_defaults_loop _ _ _ _ _ _)
    as [s [nodes' rem']] eqn:Hrun.
  intros [= -> <- <-]. simpl. by apply remove_new_defaults_loop_Ok in Hrun.
Qed.

Lemma RemoveNewDefaultAttrsFromGraphDef_strips_new_defaults_witness :
  let r := GraphDefUtilMore.RemoveNewDefaultAttrsFromGraphDef
             GraphDefUtilMore.find_attr GraphDefUtilMore.same_string_attr
             GraphDefUtilMore.loaded_graph_def GraphDefUtilMore.old_registry
             GraphDefUtil.example_registry (Some ∅) in
  Forall2 (GraphDefUtilMore.stripped_node GraphDefUtilMore.find_attr
             GraphDefUtilMore.same_string_attr GraphDefUtilMore.old_registry
             GraphDefUtil.example_registry)
    (GraphDefUtil.node GraphDefUtilMore.loaded_graph_def)
    (GraphDefUtil.node r.2.1).
Proof.
  intros r.
  assert (r = (Ok tt, (r.2.1, r.2.2))) as Hrun.
  { apply injective_projections; [by vm_compute|].
    apply injective_projections; reflexivity. }
  exact (proj1 (RemoveNewDefaultAttrsFromGraphDef_strips_new_defaults
                  _ _ _ _ _ _ _ _ Hrun)).
Defined.

(** X15.  Whatever [RemoveNewDefaultAttrsFromGraphDef] returns, the graph
    has the same number of nodes, each with the name, operation, inputs and
    device it had; the attributes of a node are among those it had, with
    their values; an attribute that the consumer's signature has is never
    removed; and [op_attr_removed] only grows. *)
Theorem RemoveNewDefaultAttrsFromGraphDef_only_removes {R : Type}
    `{GraphDefUtil.OpRegistryInterface R}
    (FindAttr : string -> GraphDefUtil.OpDef -> option GraphDefUtil.AttrDef)
    (AreAttrValuesEqual : AttrValue -> AttrValue -> bool)
    (graph_def : GraphDefUtil.GraphDef) (consumer producer : R)
    (removed : option (gset (string * string))) :
  let r := GraphDefUtilMore.RemoveNewDefaultAttrsFromGraphDef FindAttr
             AreAttrValuesEqual graph_def consumer producer removed in
  Forall2 (fun nd nd' =>
             GraphDefUtil.nd_name nd' = GraphDefUtil.nd_name nd
             /\ GraphDefUtil.nd_op nd' = GraphDefUtil.nd_op nd
             /\ GraphDefUtil.nd_input nd' = GraphDefUtil.nd_input nd
             /\ GraphDefUtil.nd_device nd' = GraphDefUtil.nd_device nd
             /\ GraphDefUtil.nd_attr nd' ⊆ GraphDefUtil.nd_attr nd
             /\ forall c k v,
                  GraphDefUtil.LookUp consumer (GraphDefUtil.nd_op nd) = Ok c ->
                  GraphDefUtil.nd_attr nd !! k = Some v ->
                  is_Some (FindAttr k c) ->
                  GraphDefUtil.nd_attr nd' !! k = Some v)
    (GraphDefUtil.node graph_def) (GraphDefUtil.node r.2.1)
  /\ match removed, r.2.2 with
     | None, None => True
     | Some s, Some s' => s ⊆ s'
     | _, _ => False
     end.
Proof.
  unfold GraphDefUtilMore.RemoveNewDefaultAttrsFromGraphDef.
  destruct (GraphDefUtilMore.remove_new_defaults_loop _ _ _ _ _ _)
    as [s [nodes' rem']] eqn:Hrun.
  simpl. by apply remove_new_defaults_loop_frame in Hrun.
Qed.

(** ** The operations a graph uses *)

Section StrippedOpListFacts.
Import GraphDefUtil GraphDefUtilMore.
Context {R : Type} `{OpRegistryInterface R}.
Variable RemoveDescriptionsFromOpDef : OpDef -> OpDef.

Lemma compare_Lt_trans (a b c : string) :
  String.compare a b = Lt -> String.compare b c = Lt -> String.compare a c = Lt.
Proof.
  intros Hab Hbc.
  apply OrderedTypeEx.String_as_OT.cmp_lt.
  apply OrderedTypeEx.String_as_OT.cmp_lt in Hab, Hbc.
  by eapply OrderedTypeEx.String_as_OT.lt_trans.
Qed.

Lemma compare_Gt_Lt (a b : string) :
  String.compare a b = Gt -> String.compare b a = Lt.
Proof. intros Hab. rewrite String.compare_antisym, Hab. done. Qed.

Lemma elem_of_set_insert (s x : string) (used : list string) :
  x ∈ set_insert s used <-> x = s \/ x ∈ used.
Proof.
  induction used as [|y used IH]; simpl.
  { rewrite list_elem_of_singleton. split; [by left|].
    intros [?|Hx]; [done|]. by apply elem_of_nil in Hx. }
  destruct (String.compare s y) eqn:Hc.
  - apply String.compare_eq_iff in Hc as ->. split; [by right|].
    intros [->|?]; [by left|done].
  - by rewrite elem_of_cons.
  - rewrite !elem_of_cons, IH. tauto.
Qed.

Lemma set_insert_sorted (s : string) (used : list string) :
  StronglySorted (fun a b => String.compare a b = Lt) used ->
  StronglySorted (fun a b => String.compare a b = Lt) (set_insert s used).
Proof.
  induction 1 as [|y used Hsorted IH Hall]; simpl.
  { by repeat constructor. }
  destruct (String.compare s y) eqn:Hc.
  - by constructor.
  - constructor; [by constructor|]. constructor; [done|].
    eapply Forall_impl; [exact Hall|]. intros z Hz. simpl in Hz.
    by eapply compare_Lt_trans.
  - constructor; [done|]. apply Forall_forall. intros z Hz.
    apply elem_of_set_insert in Hz as [->|Hz].
    + by apply compare_Gt_Lt.
    + rewrite Forall_forall in Hall. by apply Hall.
Qed.

Lemma used_ops_spec (graph_def : GraphDef) :
  StronglySorted (fun a b => String.compare a b = Lt) (used_ops graph_def)
  /\ forall s : string,
       s ∈ used_ops graph_def
       <-> exists nd, nd ∈ node graph_def /\ nd_op nd = s.
Proof.
  unfold used_ops.
  assert (forall (nodes : list NodeDef) (acc : list string),
            StronglySorted (fun a b => String.compare a b = Lt) acc ->
            StronglySorted (fun a b => String.compare a b = Lt)
              (foldl (fun used nd => set_insert (nd_op nd) used) acc nodes)
            /\ forall s : string,
                 s ∈ foldl (fun used nd => set_insert (nd_op nd) used) acc nodes
                 <-> s ∈ acc \/ exists nd, nd ∈ nodes /\ nd_op nd = s) as Hfold.
  { induction nodes as [|nd nodes IH]; intros acc Hacc; simpl.
    - split; [done|]. intros s. split; [by left|].
      intros [?|(nd & Hnd & _)]; [done|]. by apply elem_of_nil in Hnd.
    - destruct (IH (set_insert (nd_op nd) acc) (set_insert_sorted _ _ Hacc))
        as [Hsorted Hmem].
      split; [done|]. intros s. rewrite Hmem, elem_of_set_insert. split.
      + intros [[->|?]|(nd' & Hnd' & Hop)].
        * right. exists nd. split; [by left|done].
        * by left.
        * right. exists nd'. split; [by right|done].
      + intros [?|(nd' & Hnd' & Hop)]; [left; by right|].
        apply elem_of_cons in Hnd' as [->|Hnd'].
        * left. by left.
        * right. by exists nd'. }
  destruct (Hfold (node graph_def) [] ltac:(constructor)) as [Hsorted Hmem].
  split; [done|]. intros s. rewrite Hmem. split.
  - intros [Hs|?]; [by apply elem_of_nil in Hs|done].
  - by right.
Qed.

Lemma stripped_loop_stop (op_registry : R) (op_names : list string)
    (acc : list OpDef) :
  let r := stripped_loop RemoveDescriptionsFromOpDef op_registry op_names acc in
  exists (known rest : list string) (added : list OpDef),
    op_names = known ++ rest
    /\ r.2 = acc ++ added
    /\ Forall2 (fun op_name od =>
                  exists op, LookUp op_registry op_name = Ok op
                             /\ od = RemoveDescriptionsFromOpDef op)
         known added
    /\ match rest with
       | [] => r.1 = Ok tt
       | op_name :: _ =>
           r.1 = bindR (LookUp op_registry op_name) (fun _ => Ok tt)
           /\ r.1 <> Ok tt
       end.
Proof.
  revert acc. induction op_names as [|x op_names IH]; intros acc; cbv zeta; simpl.
  { exists [], [], []. simpl. rewrite app_nil_r.
    split; [done|]. split; [done|]. split; [constructor|done]. }
  destruct (LookUp op_registry x) as [op| | |] eqn:Hop.
  2-4: exists [], (x :: op_names), []; simpl; rewrite app_nil_r, ?Hop;
       (split; [done|]); (split; [done|]); (split; [constructor|done]).
  destruct (IH (acc ++ [RemoveDescriptionsFromOpDef op]))
    as (known & rest & added & -> & Hadded & Hknown & Hrest).
  exists (x :: known), rest, (RemoveDescriptionsFromOpDef op :: added).
  split; [done|]. split; [by rewrite Hadded, <- app_assoc|].
  split; [|done]. constructor; [|done]. by exists op.
Qed.

(** X16.  [StrippedOpListForGraph] goes through the operation names the
    nodes of the graph use, each once, in increasing order, whatever the
    list held before.  It stops at the first name the registry does not
    know: the list then holds the stripped signatures of the names before
    it, in that order, and the status is that of the failed look-up; when
    every name is known the list has one stripped signature per name and the
    status is OK. *)
Theorem StrippedOpListForGraph_lists_used_ops_in_order (graph_def : GraphDef)
    (op_registry : R) (stripped_op_list : list OpDef) :
  let r := StrippedOpListForGraph RemoveDescriptionsFromOpDef graph_def
             op_registry stripped_op_list in
  StronglySorted (fun a b => String.compare a b = Lt) (used_ops graph_def)
  /\ (forall s : string,
        s ∈ used_ops graph_def
        <-> exists nd, nd ∈ node graph_def /\ nd_op nd = s)
  /\ exists known rest : list string,
       used_ops graph_def = known ++ rest
       /\ Forall2 (fun op_name od =>
                     exists op, LookUp op_registry op_name = Ok op
                                /\ od = RemoveDescriptionsFromOpDef op)
            known r.2
       /\ match rest with
          | [] => r.1 = Ok tt
          | op_name :: _ =>
              r.1 = bindR (LookUp op_registry op_name) (fun _ => Ok tt)
              /\ r.1 <> Ok tt
          end.
Proof.
  intros r. destruct (used_ops_spec graph_def) as [Hsorted Hmem].
  split; [done|]. split; [done|].
  destruct (stripped_loop_stop op_registry (used_ops graph_def) [])
    as (known & rest & added & Hnames & Hadded & Hknown & Hrest).
  exists known, rest. split; [done|]. split; [|done].
  unfold r, StrippedOpListForGraph. by rewrite Hadded.
Qed.

End StrippedOpListFacts.

(** ** Where the edges of a node go *)

Section EdgeMoves.
Import GraphStore IndexMapping Rewriter Pass Vocabulary EdgeKinds.
Local Open Scope Z_scope.

Lemma live_from_app {A} (a b : list (option A)) (k : nat) :
  live_from k (a ++ b) = live_from k a ++ live_from (k + length a) b.
Proof.
  revert k. induction a as [|[x|] a IH]; intros k; simpl.
  - by rewrite Nat.add_0_r.
  - rewrite IH. by replace (S k + length a)%nat with (k + S (length a))%nat by lia.
  - rewrite IH. by replace (S k + length a)%nat with (k + S (length a))%nat by lia.
Qed.

Lemma live_from_Some {A} (l : list A) (k : nat) :
  (live_from k (Some <$> l)).*2 = l.
Proof.
  revert k. induction l as [|x l IH]; intros k; simpl; [done|]. by rewrite IH.
Qed.

Lemma live_from_Some_elem_of {A} (l : list A) (k : nat) (p : nat * A) :
  p ∈ live_from k (Some <$> l) -> p.2 ∈ l.
Proof.
  intros Hp. rewrite <- (live_from_Some l k). apply list_elem_of_fmap.
  by exists p.
Qed.

Lemma filter_none {A} (P : A -> Prop) `{forall x, Decision (P x)} (l : list A) :
  (forall x, x ∈ l -> ~ P x) -> filter P l = [].
Proof.
  induction l as [|x l IH]; intros Hno; [done|].
  rewrite filter_cons_False by (apply Hno; by left).
  apply IH. intros y Hy. apply Hno. by right.
Qed.

Lemma filter_all {A} (P : A -> Prop) `{forall x, Decision (P x)} (l : list A) :
  (forall x, x ∈ l -> P x) -> filter P l = l.
Proof.
  induction l as [|x l IH]; intros Hall; [done|].
  rewrite filter_cons_True by (apply Hall; by left).
  f_equal. apply IH. intros y Hy. apply Hall. by right.
Qed.

Lemma remove_edges_lookup (ids : list nat) (arena : list (option Edge))
    (i : nat) (e : Edge) :
  remove_edges ids arena !! i = Some (Some e)
  <-> arena !! i = Some (Some e) /\ i ∉ ids.
Proof.
  revert arena. induction ids as [|x ids IH]; intros arena.
  { simpl. split; [intros ?; split; [done|apply not_elem_of_nil]|by intros [? _]]. }
  unfold remove_edges in *. simpl. rewrite IH, not_elem_of_cons.
  destruct (decide (i = x)) as [->|Hne].
  - split; [|by intros [_ [? _]]]. intros [Hx _].
    destruct (decide (x < length arena)%nat).
    + by rewrite list_lookup_insert_eq in Hx.
    + rewrite list_insert_ge in Hx by lia. apply lookup_lt_Some in Hx. lia.
  - rewrite list_lookup_insert_ne by done. tauto.
Qed.

Lemma data_input_spec (n : nat) (g : Graph) (p : nat * Edge) :
  p ∈ non_control (in_edges g n)
  <-> edges_ g !! p.1 = Some (Some p.2) /\ data_input n p.2 = true.
Proof.
  rewrite elem_of_non_control, elem_of_in_edges. destruct p as [i e]. simpl.
  rewrite elem_of_edges. unfold data_input.
  rewrite andb_true_iff, bool_decide_eq_true, negb_true_iff. tauto.
Qed.

Lemma data_output_spec (n : nat) (g : Graph) (p : nat * Edge) :
  p ∈ non_control (out_edges g n)
  <-> edges_ g !! p.1 = Some (Some p.2) /\ data_output n p.2 = true.
Proof.
  rewrite elem_of_non_control, elem_of_out_edges. destruct p as [i e]. simpl.
  rewrite elem_of_edges. unfold data_output.
  rewrite andb_true_iff, bool_decide_eq_true, negb_true_iff. tauto.
Qed.

Lemma data_input_true (n : nat) (e : Edge) :
  data_input n e = true <-> dst e = n /\ IsControlEdge e = false.
Proof.
  unfold data_input. rewrite andb_true_iff, bool_decide_eq_true, negb_true_iff.
  done.
Qed.

Lemma data_output_true (n : nat) (e : Edge) :
  data_output n e = true <-> src e = n /\ IsControlEdge e = false.
Proof.
  unfold data_output. rewrite andb_true_iff, bool_decide_eq_true, negb_true_iff.
  done.
Qed.

(** The data inputs of [n] in an arena from which all of them have been
    removed and to which the edges [news], all data inputs, were added. *)
Lemma data_inputs_after_move (n : nat) (g g' : Graph) (news : list Edge) :
  edges_ g' = remove_edges (non_control (in_edges g n)).*1 (edges_ g)
              ++ (Some <$> news) ->
  Forall (fun e => data_input n e = true) news ->
  (non_control (in_edges g' n)).*2 = news.
Proof.
  intros Hedges Hnews. rewrite Forall_forall in Hnews.
  unfold non_control at 1, in_edges at 1, edges at 1.
  rewrite Hedges, live_from_app, !filter_app, fmap_app.
  rewrite filter_none, app_nil_l.
  - rewrite (filter_all (fun p : nat * Edge => dst p.2 = n)).
    + rewrite filter_all; [apply live_from_Some|].
      intros p Hp%live_from_Some_elem_of.
      apply Hnews, data_input_true in Hp as [_ Hp]. simpl. rewrite Hp. exact I.
    + intros p Hp%live_from_Some_elem_of.
      by apply Hnews, data_input_true in Hp as [Hp _].
  - intros [i e] [Hdst Hin]%list_elem_of_filter Hnc. simpl in *.
    apply elem_of_live_from in Hin as [_ Hin]. rewrite Nat.sub_0_r in Hin.
    apply remove_edges_lookup in Hin as [Hin Hfresh].
    apply Hfresh. apply list_elem_of_fmap. exists (i, e). split; [done|].
    apply data_input_spec. split; [done|]. apply data_input_true.
    simpl. split; [done|]. destruct (IsControlEdge e); [by simpl in Hnc|done].
Qed.

(** The loop of [ReorderInputEdges], when it succeeds. *)
Lemma reorder_input_loop_Ok (n : nat) (index_mapping : list Z)
    (collected : list (nat * Edge)) (g g' : Graph) :
  Forall (fun p : nat * Edge => (p.1 < length (edges_ g))%nat) collected ->
  for_each collected (fun '(e_id, e) =>
    bind (lift (vector_at index_mapping (dst_input e))) (fun new_dst_input =>
      modify (fun g =>
        AddEdge (RemoveEdge g e_id) (src e) (src_output e) n new_dst_input))) g
  = (Ok tt, g') ->
  exists new_edges : list Edge,
    Forall2 (fun (p : nat * Edge) (e' : Edge) =>
               exists k, vector_at index_mapping (dst_input p.2) = Ok k
                         /\ e' = mkEdge (src p.2) (src_output p.2) n k)
      collected new_edges
    /\ edges_ g' = remove_edges collected.*1 (edges_ g) ++ (Some <$> new_edges).
Proof.
  revert g. induction collected as [|[i e] rest IH]; intros g Hids Hrun.
  - simpl in Hrun. injection Hrun as <-.
    exists []. split; [constructor|]. simpl. by rewrite app_nil_r.
  - inversion Hids as [|? ? Hi Hrest]; subst. simpl in Hi.
    simpl in Hrun. apply bind_Ok_inv in Hrun as ([] & g1 & Hstep & Hrun).
    apply bind_Ok_inv in Hstep as (k & g0 & Hk & Hstep).
    unfold lift in Hk. injection Hk as Hk <-.
    unfold modify in Hstep. injection Hstep as <-.
    apply IH in Hrun as (news & Hnews & Hedges).
    2:{ eapply Forall_impl; [exact Hrest|]. intros p Hp.
        unfold AddEdge, RemoveEdge. simpl in *.
        rewrite length_app, length_insert. lia. }
    exists (mkEdge (src e) (src_output e) n k :: news). split.
    + constructor; [|done]. by exists k.
    + rewrite Hedges. unfold AddEdge, RemoveEdge. simpl.
      rewrite remove_edges_app.
      2:{ eapply Forall_fmap, Forall_impl; [exact Hrest|]. intros p Hp. simpl.
          by rewrite length_insert. }
      by rewrite <- app_assoc.
Qed.

(** A loop whose turns fail or not whatever the state, and then only by
    an exception. *)
Lemma for_each_lift_outcome {St A B} (l : list A) (pick : A -> Result B)
    (act : A -> B -> St -> St) (s : St) :
  (forall a, a ∈ l -> pick a = Thrown \/ exists b, pick a = Ok b) ->
  let r := for_each l (fun a => bind (lift (pick a))
                                  (fun b => modify (act a b))) s in
  (r.1 = Ok tt \/ r.1 = Thrown)
  /\ (r.1 = Ok tt <-> forall a, a ∈ l -> exists b, pick a = Ok b).
Proof.
  revert s. induction l as [|a l IH]; intros s Hpick; cbv zeta.
  { simpl. split; [by left|]. split; [|done]. intros _ a Ha.
    by apply elem_of_nil in Ha. }
  simpl. unfold bind at 1. unfold bind at 1, lift at 1.
  destruct (Hpick a ltac:(left)) as [Hthrown|[b Hb]].
  - rewrite Hthrown. simpl. split; [by right|]. split; [done|].
    intros Hall. destruct (Hall a ltac:(left)) as [b Hb]. congruence.
  - rewrite Hb. simpl.
    destruct (IH (act a b s)) as [Hout Hiff].
    { intros a' Ha'. apply Hpick. by right. }
    split; [exact Hout|]. rewrite Hiff. split.
    + intros Hall a' [->|Ha']%elem_of_cons; [by exists b|by apply Hall].
    + intros Hall a' Ha'. apply Hall. by right.
Qed.

Lemma for_each_ext {St A} (l : list A) (f f' : A -> M St unit) (s : St) :
  (forall a s1, f a s1 = f' a s1) -> for_each l f s = for_each l f' s.
Proof.
  intros Hext. revert s. induction l as [|a l IH]; intros s; [done|].
  simpl. unfold bind. rewrite Hext.
  destruct (f' a s) as [[[]| | |] s1]; done.
Qed.

Lemma vector_at_outcome {A} (v : list A) (i : Z) :
  vector_at v i = Thrown \/ exists a, vector_at v i = Ok a.
Proof.
  unfold vector_at. destruct (decide (0 <= i)); [|by left].
  destruct (v !! Z.to_nat i); [right; by eexists|by left].
Qed.

Lemma vector_at_Ok_iff {A} (v : list A) (i : Z) :
  (exists a, vector_at v i = Ok a) <-> 0 <= i < Z.of_nat (length v).
Proof.
  split; [|apply vector_at_in_range].
  intros [a Ha]. apply vector_at_Some in Ha as [Hi Ha].
  apply lookup_lt_Some in Ha. lia.
Qed.

(** [ReorderInputEdges] touches the data inputs of [n] only. *)
Lemma ReorderInputEdges_others (n : nat) (index_mapping : list Z) (g0 : Graph) :
  invariant (same_selected (fun e => negb (data_input n e)) g0)
    (ReorderInputEdges n index_mapping).
Proof.
  apply (snapshot_loop_invariant (fun e => negb (data_input n e))
           (fun g1 => non_control (in_edges g1 n))).
  intros g1 [i e] _ Hp. pose proof Hp as [Hi He]%data_input_spec. simpl in *.
  apply invariant_bind; [apply invariant_lift|]. intros y.
  apply invariant_modify. intros g Hg.
  apply same_selected_AddEdge.
  { apply negb_false_iff, data_input_true. simpl. split; [done|].
    apply data_input_true in He as [_ He].
    by apply IsControlEdge_mkEdge, IsControlEdge_false. }
  apply same_selected_RemoveEdge; [|done].
  eapply snapshot_hole; [done|by apply elem_of_edges|]. by rewrite He.
Qed.

End EdgeMoves.

(** X17.  [ReorderInputEdges] either returns OK or ends in the exception
    of [index_mapping.at]; it returns OK exactly when the slot of every data
    input of [n] is a position of [index_mapping].  Whatever the outcome, the
    edges that are not data inputs of [n] are the same, at the same handles.
    On OK the nodes are unchanged and the data inputs of [n] are the old
    ones, in the same order, each from the same source and output and
    entering the slot [index_mapping] gives for its old slot. *)
Theorem ReorderInputEdges_moves_data_inputs (n : nat) (index_mapping : list Z)
    (g : GraphStore.Graph) :
  let r := Rewriter.ReorderInputEdges n index_mapping g in
  let inputs := Rewriter.non_control (GraphStore.in_edges g n) in
  (r.1 = Ok tt \/ r.1 = Thrown)
  /\ (r.1 = Ok tt
      <-> forall p, p ∈ inputs ->
            (0 <= GraphStore.dst_input p.2 < Z.of_nat (length index_mapping))%Z)
  /\ Vocabulary.same_selected (fun e => negb (EdgeKinds.data_input n e)) g r.2
  /\ (r.1 = Ok tt ->
      GraphStore.nodes_ r.2 = GraphStore.nodes_ g
      /\ Forall2 (fun e e' : GraphStore.Edge =>
                    vector_at index_mapping (GraphStore.dst_input e)
                    = Ok (GraphStore.dst_input e')
                    /\ GraphStore.src e' = GraphStore.src e
                    /\ GraphStore.src_output e' = GraphStore.src_output e
                    /\ GraphStore.dst e' = n)
           inputs.*2
           (Rewriter.non_control (GraphStore.in_edges r.2 n)).*2).
Proof.
  intros r inputs.
  assert (r = for_each inputs
                (fun a : nat * GraphStore.Edge =>
                   bind (lift (vector_at index_mapping (GraphStore.dst_input a.2)))
                     (fun b => modify (fun g0 =>
                        GraphStore.AddEdge (GraphStore.RemoveEdge g0 a.1)
                          (GraphStore.src a.2) (GraphStore.src_output a.2) n b)))
                g) as Hr.
  { unfold r, Rewriter.ReorderInputEdges, bind at 1, get. simpl. fold inputs.
    apply for_each_ext. by intros [i e] s1. }
  destruct (for_each_lift_outcome inputs
              (fun a : nat * GraphStore.Edge =>
                 vector_at index_mapping (GraphStore.dst_input a.2))
              (fun a b g0 =>
                 GraphStore.AddEdge (GraphStore.RemoveEdge g0 a.1)
                   (GraphStore.src a.2) (GraphStore.src_output a.2) n b) g)
    as [Hout Hiff].
  { intros a _. apply vector_at_outcome. }
  rewrite <- Hr in Hout, Hiff.
  split; [exact Hout|]. split; [|split].
  - rewrite Hiff. split; intros Hall p Hp; apply vector_at_Ok_iff; by apply Hall.
  - apply ReorderInputEdges_others, same_selected_refl.
  - intros Hok.
    assert (forall p, p ∈ inputs ->
              (0 <= GraphStore.dst_input p.2 < Z.of_nat (length index_mapping))%Z)
      as Hslots.
    { intros p Hp. apply vector_at_Ok_iff. by apply Hiff. }
    destruct (ReorderInputEdges_Ok n index_mapping g Hslots) as [_ Hnodes].
    split; [exact Hnodes|].
    clear Hr Hout Hiff Hnodes. unfold r in *. clear r.
    destruct (Rewriter.ReorderInputEdges n index_mapping g) as [res g'] eqn:Er.
    simpl in *. subst res.
    unfold Rewriter.ReorderInputEdges, bind at 1, get in Er. simpl in Er.
    fold inputs in Er.
    apply reorder_input_loop_Ok in Er as (news & Hnews & Hedges).
    2:{ apply Forall_forall. intros p [Hp _]%data_input_spec.
        by apply lookup_lt_Some in Hp. }
    rewrite (data_inputs_after_move n g g' news Hedges).
    + apply Forall2_fmap_l. eapply Forall2_impl; [exact Hnews|].
      intros p e' (k & Hk & ->). by simpl.
    + apply Forall_forall. intros e' He'.
      apply list_elem_of_lookup in He' as [j Hj].
      destruct (Forall2_lookup_r _ _ _ _ _ Hnews Hj) as (p & Hp & k & Hk & ->).
      apply data_input_true. simpl. split; [done|].
      apply list_elem_of_lookup_2, data_input_spec in Hp as [_ Hp].
      apply data_input_true in Hp as [_ Hp].
      by apply IsControlEdge_mkEdge, IsControlEdge_false.
Qed.

(** ** Where the outputs of a node go *)

Section OutputMoves.
Import GraphStore IndexMapping Rewriter Pass Vocabulary EdgeKinds.
Local Open Scope Z_scope.

(** The inputs of [n] are read the same in two graphs that have the same
    edges into [n]. *)
Lemma input_edge_same_inputs (g0 g : Graph) (n : nat) (idx : Z) :
  same_selected (fun e => bool_decide (dst e = n)) g0 g ->
  input_edge g n idx = input_edge g0 n idx.
Proof.
  intros Hsame. unfold input_edge, in_edges.
  assert (forall g1,
            filter (fun p : nat * Edge => dst p.2 = n) (edges g1)
            = filter (fun p : nat * Edge => bool_decide (dst p.2 = n)) (edges g1))
    as Hconv.
  { intros g1. apply list_filter_iff. intros p.
    by rewrite bool_decide_spec. }
  by rewrite !Hconv, (same_selected_filter _ _ _ Hsame).
Qed.

Lemma output_not_input (g : Graph) (n : nat) (p : nat * Edge) :
  no_self_edge g n -> p ∈ non_control (out_edges g n) ->
  bool_decide (dst p.2 = n) = false.
Proof.
  intros Hself [Hp Hout]%data_output_spec.
  apply data_output_true in Hout as [Hsrc _].
  apply bool_decide_eq_false. by eapply Hself.
Qed.

(** The loop shared by [RearrangeOutputEdges] and [MaybeRewriteIfNode],
    when it succeeds. *)
Lemma rearrange_output_loop_Ok (n : nat) (offset : Z) (maps : RetvalMaps)
    (g0 : Graph) (collected : list (nat * Edge)) (g g' : Graph) :
  (forall p, p ∈ collected ->
     (p.1, p.2) ∈ edges g0 /\ bool_decide (dst p.2 = n) = false) ->
  same_selected (fun e => bool_decide (dst e = n)) g0 g ->
  Forall (fun p : nat * Edge => (p.1 < length (edges_ g))%nat) collected ->
  for_each collected (fun '(e_id, e) =>
    match retval_index_mapping maps !! src_output e with
    | None =>
        match resource_retval_to_arg maps !! src_output e with
        | None => fail INTERNAL
        | Some arg_index =>
            bind (modify (fun g => RemoveEdge g e_id)) (fun _ =>
            bind get (fun g =>
            bind (lift (input_edge g n (arg_index + offset))) (fun ie =>
            modify (fun g =>
              AddEdge g (src ie.2) (src_output ie.2) (dst e) (dst_input e)))))
        end
    | Some new_src_output =>
        modify (fun g =>
          AddEdge (RemoveEdge g e_id) n new_src_output (dst e) (dst_input e))
    end) g
  = (Ok tt, g') ->
  nodes_ g' = nodes_ g
  /\ exists new_edges : list Edge,
       Forall2 (fun (p : nat * Edge) (e' : Edge) =>
                  rewired g0 n offset maps p.2 e')
         collected new_edges
       /\ edges_ g' = remove_edges collected.*1 (edges_ g) ++ (Some <$> new_edges).
Proof.
  revert g. induction collected as [|[i e] rest IH]; intros g Hcol Hsame Hids Hrun.
  - simpl in Hrun. injection Hrun as <-. split; [done|].
    exists []. split; [constructor|]. simpl. by rewrite app_nil_r.
  - inversion Hids as [|? ? Hi Hrest]; subst. simpl in Hi.
    destruct (Hcol (i, e) ltac:(left)) as [Hin Hnot]. simpl in Hin, Hnot.
    assert (same_selected (fun e => bool_decide (dst e = n)) g0 (RemoveEdge g i))
      as Hsame1.
    { apply same_selected_RemoveEdge; [|done]. by eapply snapshot_hole. }
    assert (forall s x y, same_selected (fun e => bool_decide (dst e = n)) g0
                            (AddEdge (RemoveEdge g i) s x (dst e) y)) as Hsame2.
    { intros s x y. by apply same_selected_AddEdge. }
    assert (forall s x y,
              Forall (fun p : nat * Edge =>
                        (p.1 < length (edges_ (AddEdge (RemoveEdge g i) s x
                                                 (dst e) y)))%nat) rest) as Hids2.
    { intros s x y. eapply Forall_impl; [exact Hrest|]. intros p Hp.
      unfold AddEdge, RemoveEdge. simpl in *.
      rewrite length_app, length_insert. lia. }
    assert (forall s x y news,
              remove_edges rest.*1
                (edges_ (AddEdge (RemoveEdge g i) s x (dst e) y))
              ++ (Some <$> news)
              = remove_edges ((i, e) :: rest).*1 (edges_ g)
                ++ (Some <$> mkEdge s x (dst e) y :: news)) as Hclosed.
    { intros s x y news. unfold AddEdge, RemoveEdge. simpl.
      rewrite remove_edges_app.
      2:{ eapply Forall_fmap, Forall_impl; [exact Hrest|]. intros p Hp. simpl.
          by rewrite length_insert. }
      by rewrite <- app_assoc. }
    simpl in Hrun. apply bind_Ok_inv in Hrun as ([] & g1 & Hstep & Hrun).
    destruct (retval_index_mapping maps !! src_output e) as [k|] eqn:Hk.
    + unfold modify in Hstep. injection Hstep as <-.
      apply IH in Hrun as (Hnodes & news & Hnews & Hedges);
        [|intros p Hp; apply Hcol; by right|apply Hsame2|apply Hids2].
      split; [done|]. exists (mkEdge n k (dst e) (dst_input e) :: news). split.
      * constructor; [|done]. unfold rewired. simpl. by rewrite Hk.
      * by rewrite Hedges, Hclosed.
    + destruct (resource_retval_to_arg maps !! src_output e) as [a|] eqn:Ha;
        [|done].
      apply bind_Ok_inv in Hstep as ([] & g2 & Hrem & Hstep).
      unfold modify in Hrem. injection Hrem as <-.
      apply bind_Ok_inv in Hstep as (g3 & g2 & Hget & Hstep).
      unfold get in Hget. injection Hget as <- <-.
      apply bind_Ok_inv in Hstep as (ie & g2 & Hie & Hstep).
      unfold lift in Hie. injection Hie as Hie <-.
      unfold modify in Hstep. injection Hstep as <-.
      rewrite (input_edge_same_inputs g0 _ n _ Hsame1) in Hie.
      apply IH in Hrun as (Hnodes & news & Hnews & Hedges);
        [|intros p Hp; apply Hcol; by right|apply Hsame2|apply Hids2].
      split; [done|].
      exists (mkEdge (src ie.2) (src_output ie.2) (dst e) (dst_input e) :: news).
      split.
      * constructor; [|done]. unfold rewired. simpl. rewrite Hk.
        split; [done|]. split; [done|]. by exists a, ie.
      * by rewrite Hedges, Hclosed.
Qed.

(** The loop of [ReorderOutputEdges], when it succeeds. *)
Lemma reorder_output_loop_Ok (n : nat) (input_count resource_input_count : Z)
    (index_mapping : list Z) (g0 : Graph) (collected : list (nat * Edge))
    (g g' : Graph) :
  (forall p, p ∈ collected ->
     (p.1, p.2) ∈ edges g0 /\ bool_decide (dst p.2 = n) = false) ->
  same_selected (fun e => bool_decide (dst e = n)) g0 g ->
  Forall (fun p : nat * Edge => (p.1 < length (edges_ g))%nat) collected ->
  for_each collected (fun '(e_id, e) =>
    bind (lift (vector_at index_mapping (src_output e))) (fun new_src_output =>
    bind (modify (fun g => RemoveEdge g e_id)) (fun _ =>
    if decide (new_src_output < input_count - resource_input_count)
    then modify (fun g => AddEdge g n new_src_output (dst e) (dst_input e))
    else
      bind get (fun g =>
      bind (lift (input_edge g n new_src_output)) (fun ie =>
      modify (fun g =>
        AddEdge g (src ie.2) (src_output ie.2) (dst e) (dst_input e))))))) g
  = (Ok tt, g') ->
  nodes_ g' = nodes_ g
  /\ exists new_edges : list Edge,
       Forall2 (fun (p : nat * Edge) (e' : Edge) =>
                  rerouted g0 n (input_count - resource_input_count)
                    index_mapping p.2 e')
         collected new_edges
       /\ edges_ g' = remove_edges collected.*1 (edges_ g) ++ (Some <$> new_edges).
Proof.
  revert g. induction collected as [|[i e] rest IH]; intros g Hcol Hsame Hids Hrun.
  - simpl in Hrun. injection Hrun as <-. split; [done|].
    exists []. split; [constructor|]. simpl. by rewrite app_nil_r.
  - inversion Hids as [|? ? Hi Hrest]; subst. simpl in Hi.
    destruct (Hcol (i, e) ltac:(left)) as [Hin Hnot]. simpl in Hin, Hnot.
    assert (same_selected (fun e => bool_decide (dst e = n)) g0 (RemoveEdge g i))
      as Hsame1.
    { apply same_selected_RemoveEdge; [|done]. by eapply snapshot_hole. }
    assert (forall s x y, same_selected (fun e => bool_decide (dst e = n)) g0
                            (AddEdge (RemoveEdge g i) s x (dst e) y)) as Hsame2.
    { intros s x y. by apply same_selected_AddEdge. }
    assert (forall s x y,
              Forall (fun p : nat * Edge =>
                        (p.1 < length (edges_ (AddEdge (RemoveEdge g i) s x
                                                 (dst e) y)))%nat) rest) as Hids2.
    { intros s x y. eapply Forall_impl; [exact Hrest|]. intros p Hp.
      unfold AddEdge, RemoveEdge. simpl in *.
      rewrite length_app, length_insert. lia. }
    assert (forall s x y news,
              remove_edges rest.*1
                (edges_ (AddEdge (RemoveEdge g i) s x (dst e) y))
              ++ (Some <$> news)
              = remove_edges ((i, e) :: rest).*1 (edges_ g)
                ++ (Some <$> mkEdge s x (dst e) y :: news)) as Hclosed.
    { intros s x y news. unfold AddEdge, RemoveEdge. simpl.
      rewrite remove_edges_app.
      2:{ eapply Forall_fmap, Forall_impl; [exact Hrest|]. intros p Hp. simpl.
          by rewrite length_insert. }
      by rewrite <- app_assoc. }
    simpl in Hrun. apply bind_Ok_inv in Hrun as ([] & g1 & Hstep & Hrun).
    apply bind_Ok_inv in Hstep as (k & g2 & Hk & Hstep).
    unfold lift in Hk. injection Hk as Hk <-.
    apply bind_Ok_inv in Hstep as ([] & g2 & Hrem & Hstep).
    unfold modify in Hrem. injection Hrem as <-.
    destruct (decide (k < input_count - resource_input_count)) as [Hlow|Hhigh].
    + unfold modify in Hstep. injection Hstep as <-.
      apply IH in Hrun as (Hnodes & news & Hnews & Hedges);
        [|intros p Hp; apply Hcol; by right|apply Hsame2|apply Hids2].
      split; [done|]. exists (mkEdge n k (dst e) (dst_input e) :: news). split.
      * constructor; [|done]. unfold rerouted. simpl.
        split; [done|]. split; [done|]. exists k. split; [done|].
        by rewrite decide_True.
      * by rewrite Hedges, Hclosed.
    + apply bind_Ok_inv in Hstep as (g3 & g2 & Hget & Hstep).
      unfold get in Hget. injection Hget as <- <-.
      apply bind_Ok_inv in Hstep as (ie & g2 & Hie & Hstep).
      unfold lift in Hie. injection Hie as Hie <-.
      unfold modify in Hstep. injection Hstep as <-.
      rewrite (input_edge_same_inputs g0 _ n _ Hsame1) in Hie.
      apply IH in Hrun as (Hnodes & news & Hnews & Hedges);
        [|intros p Hp; apply Hcol; by right|apply Hsame2|apply Hids2].
      split; [done|].
      exists (mkEdge (src ie.2) (src_output ie.2) (dst e) (dst_input e) :: news).
      split.
      * constructor; [|done]. unfold rerouted. simpl.
        split; [done|]. split; [done|]. exists k. split; [done|].
        rewrite decide_False by done. by exists ie.
      * by rewrite Hedges, Hclosed.
Qed.

(** An edge that is not among those removed is still there. *)
Lemma kept_after_move (ids : list nat) (arena : list (option Edge))
    (news : list Edge) (i : nat) (e : Edge) :
  arena !! i = Some (Some e) -> i ∉ ids ->
  (remove_edges ids arena ++ (Some <$> news)) !! i = Some (Some e).
Proof.
  intros Hi Hfresh. apply lookup_app_l_Some. by apply remove_edges_lookup.
Qed.

End OutputMoves.

(** X18.  The output loop of [RearrangeOutputEdges] (offset 0) and of its
    copy in [MaybeRewriteIfNode] (offset 1), on a node without an edge to
    itself, when it returns OK: the nodes are unchanged; every data output
    edge of [n] is removed and replaced, in order, by an edge into the same
    slot of the same consumer, which comes from the renumbered output of [n]
    when the old output is in [retval_index_mapping], and otherwise from
    whatever feeds the input of [n] that [resource_retval_to_arg] names; and
    every edge that is not a data output of [n] is still there, at its
    handle. *)
Theorem rearrange_output_edges_rewires_outputs (n : nat) (offset : Z)
    (maps : Rewriter.RetvalMaps) (g g' : GraphStore.Graph) :
  EdgeKinds.no_self_edge g n ->
  Rewriter.rearrange_output_edges n offset maps g = (Ok tt, g') ->
  let outputs := Rewriter.non_control (GraphStore.out_edges g n) in
  GraphStore.nodes_ g' = GraphStore.nodes_ g
  /\ (exists new_edges : list GraphStore.Edge,
        Forall2 (EdgeKinds.rewired g n offset maps) outputs.*2 new_edges
        /\ GraphStore.edges_ g'
           = Vocabulary.remove_edges outputs.*1 (GraphStore.edges_ g)
             ++ (Some <$> new_edges))
  /\ (forall (i : nat) (e : GraphStore.Edge),
        GraphStore.edges_ g !! i = Some (Some e) ->
        EdgeKinds.data_output n e = false ->
        GraphStore.edges_ g' !! i = Some (Some e)).
Proof.
  intros Hself Hrun outputs.
  unfold Rewriter.rearrange_output_edges, bind at 1, get in Hrun. simpl in Hrun.
  fold outputs in Hrun.
  apply (rearrange_output_loop_Ok n offset maps g) in Hrun
    as (Hnodes & news & Hnews & Hedges).
  - split; [done|]. split.
    + exists news. split; [|done]. by apply Forall2_fmap_l.
    + intros i e Hi Hout. rewrite Hedges. apply kept_after_move; [done|].
      intros ([j e'] & -> & Hp)%list_elem_of_fmap. simpl in *.
      apply data_output_spec in Hp as [Hp Hout']. simpl in *. congruence.
  - intros p Hp. split; [|by eapply output_not_input].
    apply data_output_spec in Hp as [Hp _]. apply elem_of_edges.
    by destruct p.
  - apply same_selected_refl.
  - apply Forall_forall. intros p [Hp _]%data_output_spec.
    by apply lookup_lt_Some in Hp.
Qed.

(** X19.  [ReorderOutputEdges] on a node without an edge to itself, when it
    returns OK: the nodes are unchanged; every data output edge of [n] is
    removed and replaced, in order, by an edge into the same slot of the same
    consumer, which comes from output [index_mapping[old output]] of [n] when
    that index is below [input_count - resource_input_count], and otherwise
    from whatever feeds the input of [n] with that index; and every edge that
    is not a data output of [n] is still there, at its handle. *)
Theorem ReorderOutputEdges_reroutes_outputs (n : nat)
    (input_count resource_input_count : Z) (index_mapping : list Z)
    (g g' : GraphStore.Graph) :
  EdgeKinds.no_self_edge g n ->
  Rewriter.ReorderOutputEdges n input_count resource_input_count index_mapping g
  = (Ok tt, g') ->
  let outputs := Rewriter.non_control (GraphStore.out_edges g n) in
  GraphStore.nodes_ g' = GraphStore.nodes_ g
  /\ (exists new_edges : list GraphStore.Edge,
        Forall2 (EdgeKinds.rerouted g n (input_count - resource_input_count)
                   index_mapping)
          outputs.*2 new_edges
        /\ GraphStore.edges_ g'
           = Vocabulary.remove_edges outputs.*1 (GraphStore.edges_ g)
             ++ (Some <$> new_edges))
  /\ (forall (i : nat) (e : GraphStore.Edge),
        GraphStore.edges_ g !! i = Some (Some e) ->
        EdgeKinds.data_output n e = false ->
        GraphStore.edges_ g' !! i = Some (Some e)).
Proof.
  intros Hself Hrun outputs.
  unfold Rewriter.ReorderOutputEdges, bind at 1, get in Hrun. simpl in Hrun.
  fold outputs in Hrun.
  apply (reorder_output_loop_Ok n input_count resource_input_count
           index_mapping g) in Hrun as (Hnodes & news & Hnews & Hedges).
  - split; [done|]. split.
    + exists news. split; [|done]. by apply Forall2_fmap_l.
    + intros i e Hi Hout. rewrite Hedges. apply kept_after_move; [done|].
      intros ([j e'] & -> & Hp)%list_elem_of_fmap. simpl in *.
      apply data_output_spec in Hp as [Hp Hout']. simpl in *. congruence.
  - intros p Hp. split; [|by eapply output_not_input].
    apply data_output_spec in Hp as [Hp _]. apply elem_of_edges.
    by destruct p.
  - apply same_selected_refl.
  - apply Forall_forall. intros p [Hp _]%data_output_spec.
    by apply lookup_lt_Some in Hp.
Qed.

Lemma rearrange_output_edges_rewires_outputs_witness :
  let maps := Rewriter.mkRetvalMaps ∅ {[ 0%Z := 1%Z ]} in
  GraphStore.edges_
    (Rewriter.rearrange_output_edges 4 1 maps Examples.mismatched_if_graph).2
  !! 4%nat = Some None
  /\ exists new_edges,
       Forall2 (EdgeKinds.rewired Examples.mismatched_if_graph 4 1 maps)
         [GraphStore.mkEdge 4 0 5 0] new_edges.
Proof.
  intros maps.
  assert (EdgeKinds.no_self_edge Examples.mismatched_if_graph 4) as Hself.
  { intros i e Hi Hsrc.
    do 5 (destruct i as [|i];
          [simpl in Hi; injection Hi as <-; simpl in *; lia|]).
    by destruct i. }
  destruct (rearrange_output_edges_rewires_outputs 4 1 maps
              Examples.mismatched_if_graph
              (Rewriter.rearrange_output_edges 4 1 maps
                 Examples.mismatched_if_graph).2 Hself)
    as (_ & (news & Hnews & Hedges) & _).
  { apply injective_projections; [by vm_compute|reflexivity]. }
  split; [by vm_compute|]. by exists news.
Defined.

Lemma ReorderOutputEdges_reroutes_outputs_witness :
  exists new_edges,
    Forall2 (EdgeKinds.rerouted MoreExamples.while_with_readers 2 (2 - 1)
               [1; 0]%Z)
      [GraphStore.mkEdge 2 0 3 0; GraphStore.mkEdge 2 1 4 0] new_edges
    /\ GraphStore.edges_
         (Rewriter.ReorderOutputEdges 2 2 1 [1; 0]%Z
            MoreExamples.while_with_readers).2
       = Vocabulary.remove_edges [2; 3]%nat
           (GraphStore.edges_ MoreExamples.while_with_readers)
         ++ (Some <$> new_edges).
Proof.
  assert (EdgeKinds.no_self_edge MoreExamples.while_with_readers 2) as Hself.
  { intros i e Hi Hsrc.
    do 4 (destruct i as [|i];
          [simpl in Hi; injection Hi as <-; simpl in *; lia|]).
    by destruct i. }
  destruct (ReorderOutputEdges_reroutes_outputs 2 2 1 [1; 0]%Z
              MoreExamples.while_with_readers
              (Rewriter.ReorderOutputEdges 2 2 1 [1; 0]%Z
                 MoreExamples.while_with_readers).2 Hself)
    as (_ & (news & Hnews & Hedges) & _).
  { apply injective_projections; [by vm_compute|reflexivity]. }
  exists news. split; [exact Hnews|exact Hedges].
Defined.

(** ** Loading defaults and stripping them again *)

Section DefaultsRoundTrip.
Import GraphDefUtil GraphDefUtilMore.
Context {R : Type} `{OpRegistryInterface R}.
Variable FindAttr : string -> OpDef -> option AttrDef.
Variable AreAttrValuesEqual : AttrValue -> AttrValue -> bool.

Lemma add_default_step_fields (nd : NodeDef) (a : AttrDef) :
  nd_name (add_default_step nd a) = nd_name nd
  /\ nd_input (add_default_step nd a) = nd_input nd
  /\ nd_device (add_default_step nd a) = nd_device nd.
Proof.
  unfold add_default_step. destruct (ad_default_value a); [|done].
  by destruct (nd_attr nd !! ad_name a).
Qed.

Lemma AddDefaultsToNodeDef_fields (op_def : OpDef) (nd : NodeDef) :
  nd_name (AddDefaultsToNodeDef op_def nd) = nd_name nd
  /\ nd_input (AddDefaultsToNodeDef op_def nd) = nd_input nd
  /\ nd_device (AddDefaultsToNodeDef op_def nd) = nd_device nd.
Proof.
  unfold AddDefaultsToNodeDef. generalize (od_attr op_def). intros l.
  revert nd. induction l as [|a l IH]; intros nd; simpl; [done|].
  destruct (IH (add_default_step nd a)) as (-> & -> & ->).
  apply add_default_step_fields.
Qed.

(** An attribute the node carries keeps its value. *)
Lemma fold_add_default_value (l : list AttrDef) (nd : NodeDef) (k : string)
    (v : AttrValue) :
  nd_attr nd !! k = Some v ->
  nd_attr (foldl add_default_step nd l) !! k = Some v.
Proof.
  revert nd. induction l as [|a l IH]; intros nd Hk; simpl; [done|].
  apply IH. unfold add_default_step.
  destruct (ad_default_value a) as [d|]; [|done].
  destruct (nd_attr nd !! ad_name a) eqn:Ha; [done|]. simpl.
  rewrite lookup_insert_ne; [done|]. congruence.
Qed.

(** An attribute the node gains is a default of the signature. *)
Lemma fold_add_default_new (l : list AttrDef) (nd : NodeDef) (k : string)
    (d : AttrValue) :
  nd_attr nd !! k = None ->
  nd_attr (foldl add_default_step nd l) !! k = Some d ->
  exists a, a ∈ l /\ ad_name a = k /\ ad_default_value a = Some d.
Proof.
  revert nd. induction l as [|a l IH]; intros nd Hk Hd; simpl in Hd.
  { congruence. }
  destruct (nd_attr (add_default_step nd a) !! k) as [v|] eqn:Hstep.
  - rewrite (fold_add_default_value l _ k v Hstep) in Hd. injection Hd as ->.
    unfold add_default_step in Hstep.
    destruct (ad_default_value a) as [d'|] eqn:Hdef; [|congruence].
    destruct (nd_attr nd !! ad_name a) eqn:Ha; [congruence|]. simpl in Hstep.
    destruct (decide (ad_name a = k)) as [Hname|Hname].
    + rewrite Hname, lookup_insert_eq in Hstep. injection Hstep as ->.
      exists a. split; [by left|done].
    + rewrite lookup_insert_ne in Hstep by done. congruence.
  - destruct (IH _ Hstep Hd) as (b & Hb & Hname & Hdef).
    exists b. split; [by right|done].
Qed.

Lemma NodeDef_eq (nd nd' : NodeDef) :
  nd_name nd' = nd_name nd -> nd_op nd' = nd_op nd ->
  nd_input nd' = nd_input nd -> nd_device nd' = nd_device nd ->
  nd_attr nd' = nd_attr nd -> nd' = nd.
Proof. destruct nd, nd'. simpl. by intros -> -> -> -> ->. Qed.

(** One node, loaded and stripped. *)
Lemma node_round_trip (c p : OpDef) (nd : NodeDef) :
  finds_by_name FindAttr ->
  NoDup (ad_name <$> od_attr p) ->
  (forall k, is_Some (nd_attr nd !! k) -> is_Some (FindAttr k c)) ->
  (forall a, a ∈ od_attr p -> is_Some (ad_default_value a) ->
             nd_attr nd !! ad_name a = None -> FindAttr (ad_name a) c = None) ->
  (forall a d, a ∈ od_attr p -> ad_default_value a = Some d ->
               AreAttrValuesEqual d d = true) ->
  exists tr,
    collect_to_remove FindAttr AreAttrValuesEqual c p
      (map_to_list (nd_attr (AddDefaultsToNodeDef p nd))) [] = Ok tr
    /\ erase_attrs tr (AddDefaultsToNodeDef p nd) = nd.
Proof.
  intros Hfind Hnodup Hknown Hnew Hrefl.
  set (nd1 := AddDefaultsToNodeDef p nd).
  (* which attributes of the loaded node are new defaults *)
  assert (forall k v, nd_attr nd1 !! k = Some v ->
            (is_Some (nd_attr nd !! k) /\ nd_attr nd !! k = Some v
             /\ is_new_default FindAttr AreAttrValuesEqual c p (k, v) = false)
            \/ (nd_attr nd !! k = None
                /\ is_new_default FindAttr AreAttrValuesEqual c p (k, v) = true))
    as Hcases.
  { intros k v Hv. destruct (nd_attr nd !! k) as [v0|] eqn:Hk.
    - left. unfold nd1, AddDefaultsToNodeDef in Hv.
      rewrite (fold_add_default_value _ _ _ _ Hk) in Hv. injection Hv as <-.
      split; [by eexists|]. split; [done|].
      unfold is_new_default. simpl.
      destruct (Hknown k ltac:(by rewrite Hk; eexists)) as [ca ->]. done.
    - right. split; [done|].
      destruct (fold_add_default_new _ _ _ _ Hk Hv) as (a & Ha & Hname & Hdef).
      unfold is_new_default. simpl.
      rewrite <- Hname, (Hnew a Ha ltac:(by rewrite Hdef; eexists)
                           ltac:(by rewrite Hname)).
      pose proof (Hfind (ad_name a) p) as Hp.
      destruct (FindAttr (ad_name a) p) as [pa|].
      + destruct Hp as [Hpa Hpname].
        assert (pa = a) as ->.
        { apply list_elem_of_lookup in Hpa as [i Hi].
          apply list_elem_of_lookup in Ha as [j Hj].
          assert (i = j) as ->; [|congruence].
          eapply NoDup_lookup; [exact Hnodup| |].
          - by rewrite list_lookup_fmap, Hi.
          - by rewrite list_lookup_fmap, Hj, Hpname. }
        rewrite Hdef. by eapply Hrefl.
      + by destruct (Hp a Ha). }
  destruct (collect_to_remove_outcome FindAttr AreAttrValuesEqual c p
              (map_to_list (nd_attr nd1)) [])
    as [[tr Htr]|[_ ([k v] & Hin & Hnc & Hnp)]].
  - exists tr. split; [done|].
    assert (nd_op nd1 = nd_op nd) as Hop by apply AddDefaultsToNodeDef_op.
    destruct (AddDefaultsToNodeDef_fields p nd) as (Hname & Hinput & Hdev).
    destruct (erase_attrs_fields tr nd1) as (He1 & He2 & He3 & He4).
    fold nd1 in Hname, Hinput, Hdev.
    apply NodeDef_eq; [congruence..|].
    apply map_eq. intros k.
    destruct (stripped_attrs FindAttr AreAttrValuesEqual c p nd1 tr k Htr)
      as [_ ->].
    destruct (nd_attr nd1 !! k) as [v|] eqn:Hv.
    + destruct (Hcases k v Hv) as [(_ & Hk & ->)|(Hk & ->)]; congruence.
    + destruct (nd_attr nd !! k) as [v0|] eqn:Hk; [|done].
      unfold nd1, AddDefaultsToNodeDef in Hv.
      by rewrite (fold_add_default_value _ _ _ _ Hk) in Hv.
  - exfalso. apply elem_of_map_to_list in Hin. simpl in *.
    destruct (Hcases k v Hin) as [([ca Hca] & Hk & _)|(Hk & Hnewd)].
    + destruct (Hknown k ltac:(by rewrite Hk; eexists)) as [x Hx]. congruence.
    + unfold is_new_default in Hnewd. simpl in Hnewd.
      by rewrite Hnc, Hnp in Hnewd.
Qed.

Lemma remove_loop_round_trip (consumer producer : R)
    (nodes nodes1 : list NodeDef) (removed : option (gset (string * string))) :
  finds_by_name FindAttr ->
  Forall2 (fun nd nd1 =>
             loadable FindAttr AreAttrValuesEqual consumer producer nd
             /\ exists p, LookUp producer (nd_op nd) = Ok p
                          /\ nd1 = AddDefaultsToNodeDef p nd)
    nodes nodes1 ->
  exists removed',
    remove_new_defaults_loop FindAttr AreAttrValuesEqual consumer producer
      nodes1 removed = (Ok tt, (nodes, removed')).
Proof.
  intros Hfind Hall. revert removed.
  induction Hall as [|nd nd1 nodes nodes1 [Hload (p & Hp & ->)] _ IH];
    intros removed.
  { by exists removed. }
  destruct Hload as (c & p' & Hp' & Hc & Hnodup & Hknown & Hnew & Hrefl).
  rewrite Hp in Hp'. injection Hp' as <-.
  destruct (node_round_trip c p nd Hfind Hnodup Hknown Hnew Hrefl)
    as (tr & Htr & Herase).
  simpl. rewrite AddDefaultsToNodeDef_op, Hp, Hc, Htr.
  destruct (IH (record_removed (nd_op nd) tr removed)) as [removed' ->].
  exists removed'. by rewrite Herase.
Qed.

End DefaultsRoundTrip.

(** X20.  [AddDefaultAttrsToGraphDef] with the producer's registry followed
    by [RemoveNewDefaultAttrsFromGraphDef] for a consumer gives the graph
    back: when [FindAttr] finds attributes by name and every node is
    loadable (both registries know its operation, the producer's signature
    names each attribute once, the consumer knows the attributes the node
    carries and none of the defaults it lacks, and a default equals itself),
    loading the defaults from offset 0 returns OK, and stripping the loaded
    graph returns OK with the original graph. *)
Theorem defaults_round_trip {R : Type} `{GraphDefUtil.OpRegistryInterface R}
    (FindAttr : string -> GraphDefUtil.OpDef -> option GraphDefUtil.AttrDef)
    (AreAttrValuesEqual : AttrValue -> AttrValue -> bool)
    (graph_def : GraphDefUtil.GraphDef) (consumer producer : R)
    (removed : option (gset (string * string))) :
  GraphDefUtilMore.finds_by_name FindAttr ->
  Forall (GraphDefUtilMore.loadable FindAttr AreAttrValuesEqual consumer producer)
    (GraphDefUtil.node graph_def) ->
  exists loaded removed',
    GraphDefUtil.AddDefaultAttrsToGraphDef graph_def producer 0
    = (Ok tt, loaded)
    /\ GraphDefUtilMore.RemoveNewDefaultAttrsFromGraphDef FindAttr
         AreAttrValuesEqual loaded consumer producer removed
       = (Ok tt, (graph_def, removed')).
Proof.
  intros Hfind Hload. rewrite Forall_forall in Hload.
  unfold GraphDefUtil.AddDefaultAttrsToGraphDef,
    GraphDefUtilMore.RemoveNewDefaultAttrsFromGraphDef.
  rewrite decide_False by lia.
  destruct (GraphDefUtil.add_defaults_loop producer _ 0
              (GraphDefUtil.node graph_def)) as [res nodes1] eqn:Hadd.
  pose proof Hadd as Hlen. apply add_defaults_loop_frame in Hlen as [Hlen _].
  apply add_defaults_loop_stop in Hadd as (stop & Hrange & Hdone & Hrest & Hend).
  2:{ unfold GraphDefUtil.node_size. lia. }
  assert (stop = GraphDefUtil.node_size graph_def) as ->.
  { destruct (decide (stop = 0 + (GraphDefUtil.node_size graph_def - 0)))
      as [->|Hne]; [lia|].
    destruct Hend as (nd & Hnd & Hres & Hbad).
    destruct (Hload nd ltac:(by eapply list_elem_of_lookup_2))
      as (c & p & Hp & _).
    rewrite Hp in Hres. simpl in Hres. done. }
  rewrite decide_True in Hend by lia. subst res.
  exists (GraphDefUtil.mkGraphDef nodes1).
  destruct (remove_loop_round_trip FindAttr AreAttrValuesEqual consumer producer
              (GraphDefUtil.node graph_def) nodes1 removed Hfind)
    as [removed' Hrem].
  { apply Forall2_same_length_lookup. split; [done|].
    intros i nd nd1 Hnd Hnd1. split.
    - apply Hload. by eapply list_elem_of_lookup_2.
    - destruct (Hdone i nd) as (p & Hp & Hi); [|done|].
      + apply lookup_lt_Some in Hnd. unfold GraphDefUtil.node_size. lia.
      + exists p. split; [done|]. congruence. }
  exists removed'. split; [done|]. simpl. rewrite Hrem. by destruct graph_def.
Qed.

Lemma find_attr_finds_by_name :
  GraphDefUtilMore.finds_by_name GraphDefUtilMore.find_attr.
Proof.
  intros k op_def. unfold GraphDefUtilMore.find_attr.
  destruct (list_find _ _) as [[i a]|] eqn:Hfind; simpl.
  - apply list_find_Some in Hfind as (Hi & Hname & _).
    split; [by eapply list_elem_of_lookup_2|done].
  - intros a Ha. rewrite list_find_None, Forall_forall in Hfind.
    by apply Hfind.
Qed.

Lemma defaults_round_trip_witness :
  exists loaded removed',
    GraphDefUtil.AddDefaultAttrsToGraphDef GraphDefUtilMore.old_graph_def
      GraphDefUtil.example_registry 0 = (Ok tt, loaded)
    /\ GraphDefUtilMore.RemoveNewDefaultAttrsFromGraphDef
         GraphDefUtilMore.find_attr GraphDefUtilMore.same_string_attr loaded
         GraphDefUtilMore.old_registry GraphDefUtil.example_registry (Some ∅)
       = (Ok tt, (GraphDefUtilMore.old_graph_def, removed')).
Proof.
  apply (defaults_round_trip GraphDefUtilMore.find_attr
           GraphDefUtilMore.same_string_attr GraphDefUtilMore.old_graph_def
           GraphDefUtilMore.old_registry GraphDefUtil.example_registry (Some ∅)
           find_attr_finds_by_name).
  assert (forall nm inputs t,
            GraphDefUtilMore.loadable GraphDefUtilMore.find_attr
              GraphDefUtilMore.same_string_attr GraphDefUtilMore.old_registry
              GraphDefUtil.example_registry
              (GraphDefUtil.mkNodeDef nm "Conv" inputs ""
                 {[ "T" := AttrType t ]})) as Hnode.
  { intros nm inputs t.
    exists (GraphDefUtil.mkOpDef "Conv" [GraphDefUtil.mkAttrDef "T" None]),
      (GraphDefUtil.mkOpDef "Conv"
         [GraphDefUtil.mkAttrDef "T" None;
          GraphDefUtil.mkAttrDef "padding" (Some (AttrString "SAME"))]).
    split; [done|]. split; [done|]. simpl. split; [|split; [|split]].
    - refine (bool_decide_unpack _ _). vm_compute. exact I.
    - intros k [v Hk]. apply lookup_singleton_Some in Hk as [<- _].
      by eexists.
    - intros a Ha [d Hd] _. apply list_elem_of_In in Ha.
      destruct Ha as [<-|[<-|[]]]; [done|]. by vm_compute.
    - intros a d Ha Hd. apply list_elem_of_In in Ha.
      destruct Ha as [<-|[<-|[]]]; [done|]. injection Hd as <-. by vm_compute. }
  repeat constructor; apply Hnode.
Defined.
